(** * Formula engine of the perfume backend (lib/aiFormulaService.ts)

    A shallow embedding of [generateLocalFormula] and of the public
    facade [generateSmartFormula], followed by the properties of the
    engine stated in the specification.

    Numbers.  JavaScript numbers are IEEE-754 binary64 values; they are
    modelled by the primitive floats of the kernel, whose operations
    round to nearest-even exactly as the ECMAScript operators do.
    Percent bands written by the engine always have the shape
    [`${lo}–${hi}%`] with [lo] and [hi] of the form [Math.round(x)/10];
    such a band is kept as its two numbers of tenths.

    Objects.  The formula is the list of its keys with their layers, in
    the order of insertion that [Object.entries] follows; assigning an
    existing key keeps its place and replaces its value.  The database
    is read at the sixteen family names it defines; any other name gives
    [undefined], the property names that every object inherits being
    left out.  The sets and arrays that a generation updates ([used],
    [picked], [ifraWarnings]) and the state of the random stream are the
    state of a state monad.

    Strings.  A character of a string stands for one code unit, so that
    identifiers are those with code units below 256.  The promise that
    the facade returns is identified with the value it resolves to. *)

From Stdlib Require Import ZArith NArith List String Ascii Bool Lia.
From Stdlib Require Import Floats Uint63 DecimalString Permutation Sorted.
Import ListNotations.

Set Warnings "-inexact-float".

Local Open Scope Z_scope.
Local Open Scope list_scope.

(** ** ECMAScript number primitives *)

Module Js.

(** The double nearest to an integer ([Number(z)]); exact below [2^53]. *)
Definition ofZ (z : Z) : float :=
  if z <? 0 then (- of_uint63 (Uint63.of_Z (- z)))%float
  else of_uint63 (Uint63.of_Z z).

Definition ofN (n : N) : float := ofZ (Z.of_N n).

(** A finite double as a signed mantissa and a binary exponent. *)
Definition decode (x : float) : option (Z * Z) :=
  match Prim2SF x with
  | S754_finite s m e => Some (if s then Z.neg m else Z.pos m, e)
  | S754_zero _ => Some (0, 0)
  | _ => None
  end.

(** [Math.floor]; the engine applies it to finite values only. *)
Definition floor (x : float) : Z :=
  match decode x with
  | Some (v, e) => if 0 <=? e then v * 2 ^ e else v / 2 ^ (- e)
  | None => 0
  end.

(** [Math.round]: nearest integer, halves towards plus infinity. *)
Definition round (x : float) : Z :=
  match decode x with
  | Some (v, e) =>
      if 0 <=? e then v * 2 ^ e else (2 * v + 2 ^ (- e)) / 2 ^ (1 - e)
  | None => 0
  end.

(** [Math.min] and [Math.max]. *)
Definition min (a b : float) : float :=
  if is_nan a || is_nan b then nan else if (a <? b)%float then a else b.

Definition max (a b : float) : float :=
  if is_nan a || is_nan b then nan else if (a <? b)%float then b else a.

(** [a % b] for whole-valued finite operands, the only use the engine
    makes of it: the remainder takes the sign of the dividend. *)
Definition rem (a b : float) : float := ofZ (Z.rem (floor a) (floor b)).

(** [x >= y], [x > y] *)
Definition ge (x y : float) : bool := (y <=? x)%float.
Definition gt (x y : float) : bool := (y <? x)%float.

End Js.

(** ** Strings *)

Local Open Scope string_scope.

Definition isDigit (c : ascii) : bool :=
  let n := nat_of_ascii c in (Nat.leb 48 n && Nat.leb n 57)%bool.

Definition isNumChar (c : ascii) : bool := (isDigit c || Ascii.eqb c ".")%bool.

Definition isEmpty (s : string) : bool :=
  match s with EmptyString => true | _ => false end.

(** [s.match(/[\d.]+/g)]: the maximal runs of digits and dots, in order;
    the empty list stands for [null]. *)
Fixpoint matchNumbers (cur s : string) : list string :=
  match s with
  | EmptyString => if isEmpty cur then [] else [cur]
  | String c r =>
      if isNumChar c then matchNumbers (cur ++ String c EmptyString) r
      else if isEmpty cur then matchNumbers EmptyString r
           else cur :: matchNumbers EmptyString r
  end.

Fixpoint readDigits (s : string) (acc n : N) : N * N * string :=
  match s with
  | String c r =>
      if isDigit c
      then readDigits r (acc * 10 + N.of_nat (nat_of_ascii c - 48)) (n + 1)
      else (acc, n, s)
  | EmptyString => (acc, n, s)
  end.

(** [parseFloat] on a run of digits and dots: the longest prefix that is
    a decimal literal, correctly rounded (the quotient of two exactly
    represented integers), [NaN] when there is no digit. *)
Definition parseFloat (s : string) : float :=
  let '(ip, ni, r) := readDigits s 0 0 in
  match r with
  | String "." r' =>
      let '(fp, nf, _) := readDigits r' 0 0 in
      if ((ni =? 0) && (nf =? 0))%N then nan
      else (Js.ofN (ip * 10 ^ nf + fp) / Js.ofN (10 ^ nf))%float
  | _ => if (ni =? 0)%N then nan else Js.ofN ip
  end.

Definition showN (n : N) : string := NilZero.string_of_uint (N.to_uint n).

(** The text of the number [k/10], as a template literal prints it. *)
Definition showTenths (k : N) : string :=
  if (k mod 10 =? 0)%N then showN (k / 10)
  else showN (k / 10) ++ "." ++ showN (k mod 10).

(** The double [k/10]; it is the value [parseFloat] reads back from
    [showTenths k], and the value of [Math.round(x) / 10]. *)
Definition ofTenths (k : N) : float := (Js.ofN k / 10)%float.

Definition toLowerChar (c : ascii) : ascii :=
  let n := nat_of_ascii c in
  if (Nat.leb 65 n && Nat.leb n 90)%bool then ascii_of_nat (n + 32) else c.

Fixpoint toLowerCase (s : string) : string :=
  match s with
  | EmptyString => EmptyString
  | String c r => String (toLowerChar c) (toLowerCase r)
  end.

Fixpoint isPrefix (p s : string) : bool :=
  match p, s with
  | EmptyString, _ => true
  | String a p', String b s' => (Ascii.eqb a b && isPrefix p' s')%bool
  | _, EmptyString => false
  end.

(** [s.includes(p)] *)
Fixpoint includes (s p : string) : bool :=
  (isPrefix p s ||
   match s with
   | EmptyString => false
   | String _ r => includes r p
   end)%bool.

(** [xs.includes(x)] on an array of strings, [set.has(x)] on a set. *)
Definition mem (x : string) (xs : list string) : bool :=
  existsb (String.eqb x) xs.

Fixpoint join (sep : string) (xs : list string) : string :=
  match xs with
  | [] => ""
  | [x] => x
  | x :: r => x ++ sep ++ join sep r
  end.

(** ** Types *)

Inductive Role := Hero | Backbone | Character | Lift.

Definition Role_eqb (a b : Role) : bool :=
  match a, b with
  | Hero, Hero | Backbone, Backbone | Character, Character | Lift, Lift => true
  | _, _ => false
  end.

(** [RawIngredient], as the helper [ing] builds it.  Every row of the
    database gives [role], [persistence] and [dominance], so the
    defaults of [ing] are never taken; [ifraLimit] is a whole percent
    where present. *)
Record RawIngredient := ing
  { name : string;
    percent : string;
    supplier : string;
    strength : Z;
    cost : Z;
    blendsWith : list string;
    role : Role;
    persistence : Z;
    dominance : Z;
    ifraLimit : option Z }.

(** The [percent] string of a [FormulaIngredient]: either a string
    copied from the database, or a band [`${lo}–${hi}%`] whose two
    numbers are tenths. *)
Inductive Percent :=
| Published (s : string)
| Band (lo hi : N).

Definition percentText (p : Percent) : string :=
  match p with
  | Published s => s
  | Band lo hi => showTenths lo ++ "–" ++ showTenths hi ++ "%"
  end.

Record FormulaIngredient :=
  { iname : string;
    ipercent : Percent;
    isupplier : string;
    normalizedPct : option float }.

(** [Record<'top' | 'heart' | 'base', A[]>] *)
Record Layers (A : Type) := mkLayers
  { top : list A;
    heart : list A;
    base : list A }.
Arguments mkLayers {A}.
Arguments top {A}.
Arguments heart {A}.
Arguments base {A}.

(** The formula object: family keys in insertion order, each at most
    once. *)
Definition Formula := list (string * Layers FormulaIngredient).

Inductive SteepingCategory := fast_stable | medium_settle | slow_evolving.

Record SteepingInfo :=
  { category : SteepingCategory;
    minDays : Z;
    maxDays : Z;
    label : string;
    notes : string }.

Record FormulaResult :=
  { formula : Formula;
    steeping : SteepingInfo;
    ingredientCount : Z;
    ifraWarnings : list string;
    perfumerNotes : list string }.

(** ** The ingredient database *)

Definition db_floral : Layers RawIngredient :=
  {| top :=
      [ ing "Neroli EO (Bitter Orange)" "2–4%" "🇪🇬 A. Fakhry & Co" 7 4 ["citrus"; "green"; "powdery"] Lift 6 4 None;
        ing "Orange Blossom Absolute" "3–5%" "🇪🇬 Cairo Aromatic" 8 4 ["oriental"; "gourmand"] Lift 7 5 None;
        ing "Petitgrain EO" "2–4%" "🇪🇬 A. Fakhry & Co" 5 2 ["aromatic"; "citrus"] Lift 5 3 None ];
     heart :=
      [ ing "Jasmine Absolute (Egyptian)" "4–6%" "🇪🇬 A. Fakhry & Co" 9 5 ["oriental"; "woody"] Hero 8 8 None;
        ing "Rose Absolute (Turkish)" "3–5%" "🌍 Turkey" 8 5 ["spicy"; "woody"; "powdery"] Hero 8 7 None;
        ing "Ylang Ylang Extra" "1–3%" "📦 Bulkaroma" 8 3 ["oriental"; "gourmand"] Character 6 6 None;
        ing "Hedione" "5–10%" "📦 Fraterworks" 3 2 ["fresh"; "citrus"; "green"] Backbone 7 2 None;
        ing "Geranium EO (Egyptian)" "2–4%" "🇪🇬 Cairo Aromatic" 6 2 ["aromatic"; "citrus"] Character 5 4 None ];
     base :=
      [ ing "Ambroxan" "2–4%" "📦 Fraterworks" 7 3 ["woody"; "fresh"; "clean"] Backbone 9 6 None;
        ing "Musk Accord (white)" "3–5%" "📦 PerfumersWorld" 5 2 ["powdery"; "clean"] Backbone 8 3 None ] |}.

Definition db_woody : Layers RawIngredient :=
  {| top :=
      [ ing "Bergamot EO (Calabrian type)" "3–5%" "📦 Fraterworks" 6 3 ["citrus"; "aromatic"] Lift 4 3 None;
        ing "Pink Pepper CO2" "1–2%" "📦 Fraterworks" 5 3 ["spicy"; "fresh"] Lift 5 3 None;
        ing "Elemi EO" "1–3%" "📦 Bulkaroma" 5 2 ["citrus"; "fresh"; "incense"] Lift 6 2 None;
        ing "Cardamom CO2" "1–2%" "🌍 Guatemala" 7 3 ["spicy"; "oriental"; "fresh"] Lift 6 4 None ];
     heart :=
      [ ing "Cedarwood Atlas EO" "5–8%" "🌍 Morocco" 6 2 ["floral"; "aromatic"] Backbone 7 4 None;
        ing "Iso E Super" "5–15%" "📦 Fraterworks" 4 2 ["floral"; "fresh"; "oriental"] Backbone 9 5 None;
        ing "Hinoki (Japanese Cypress)" "2–4%" "📦 PerfumersWorld" 5 4 ["green"; "fresh"] Character 6 3 None;
        ing "Guaiac Wood EO" "3–5%" "📦 Bulkaroma" 5 3 ["smoky"; "leather"] Character 7 4 None ];
     base :=
      [ ing "Vetiver EO (Java)" "4–6%" "📦 Bulkaroma" 7 3 ["smoky"; "green"] Hero 9 7 None;
        ing "Sandalwood (Australian)" "4–8%" "📦 PerfumersWorld" 7 5 ["floral"; "oriental"; "powdery"] Hero 9 6 None;
        ing "Cashmeran" "3–5%" "📦 Fraterworks" 5 3 ["powdery"; "floral"] Backbone 8 4 None;
        ing "Patchouli EO (Dark)" "3–6%" "📦 Bulkaroma" 8 2 ["oriental"; "gourmand"] Hero 9 7 None ] |}.

Definition db_oriental : Layers RawIngredient :=
  {| top :=
      [ ing "Saffron CO2" "0.5–1%" "🌍 Iran" 9 5 ["floral"; "woody"] Character 7 7 None;
        ing "Cardamom CO2" "1–2%" "🌍 Guatemala" 7 3 ["spicy"; "fresh"] Lift 6 4 None;
        ing "Pink Pepper EO" "1–2%" "📦 Fraterworks" 5 3 ["floral"; "citrus"] Lift 5 3 None ];
     heart :=
      [ ing "Oud Oil (Hindi type)" "1–3%" "🌍 UAE (Dubai)" 10 5 ["woody"; "smoky"; "leather"] Hero 10 9 None;
        ing "Labdanum Absolute" "3–5%" "📦 Fraterworks" 7 3 ["woody"; "leather"] Backbone 8 5 None;
        ing "Frankincense EO (Omani)" "2–4%" "🌍 Oman" 6 4 ["incense"; "woody"] Character 7 4 None;
        ing "Rose Absolute (Taif type)" "2–4%" "🌍 Turkey" 8 5 ["floral"; "spicy"] Character 8 6 None ];
     base :=
      [ ing "Amber Accord (in-house blend)" "5–8%" "🇪🇬 MUSK Aromatics" 7 2 ["woody"; "powdery"] Hero 9 7 None;
        ing "Benzoin Resinoid (Siam)" "3–5%" "📦 Bulkaroma" 6 2 ["gourmand"; "floral"] Backbone 8 4 None;
        ing "Vanillin (natural-identical)" "2–4%" "📦 Fraterworks" 6 1 ["gourmand"; "floral"] Backbone 8 5 None;
        ing "Mysore Sandalwood Accord" "3–5%" "📦 PerfumersWorld" 7 4 ["floral"; "powdery"] Hero 9 6 None ] |}.

Definition db_fresh : Layers RawIngredient :=
  {| top :=
      [ ing "Egyptian Lemon EO" "3–5%" "🇪🇬 A. Fakhry & Co" 7 1 ["citrus"; "aromatic"] Lift 3 4 None;
        ing "Grapefruit EO (Pink)" "2–4%" "📦 Fraterworks" 6 2 ["citrus"; "floral"] Lift 3 3 None;
        ing "Bergamot EO" "3–6%" "📦 Fraterworks" 6 2 ["floral"; "aromatic"] Lift 4 3 None ];
     heart :=
      [ ing "Dihydromyrcenol" "5–10%" "📦 Fraterworks" 5 1 ["woody"; "citrus"] Backbone 7 4 None;
        ing "Hedione HC" "5–10%" "📦 Fraterworks" 3 2 ["floral"; "green"] Backbone 7 2 None;
        ing "Lily of the Valley Accord" "3–5%" "📦 PerfumersWorld" 4 2 ["floral"; "green"] Character 5 3 None ];
     base :=
      [ ing "White Musk (Galaxolide)" "4–8%" "📦 Fraterworks" 5 1 ["clean"; "powdery"] Backbone 8 3 None;
        ing "Ambroxan" "3–5%" "📦 Fraterworks" 7 3 ["woody"; "clean"] Backbone 9 6 None ] |}.

Definition db_citrus : Layers RawIngredient :=
  {| top :=
      [ ing "Bergamot EO (Italian)" "5–10%" "📦 Fraterworks" 7 2 ["floral"; "aromatic"] Lift 4 4 None;
        ing "Blood Orange EO" "3–5%" "🇪🇬 A. Fakhry & Co" 7 1 ["gourmand"; "fresh"] Lift 3 4 None;
        ing "Mandarin EO (Green)" "3–5%" "🇪🇬 Cairo Aromatic" 6 1 ["floral"; "fresh"] Lift 3 3 None ];
     heart :=
      [ ing "Neroli EO" "2–4%" "🇪🇬 A. Fakhry & Co" 7 4 ["floral"; "green"] Character 6 5 None;
        ing "Petitgrain Bigarade" "3–5%" "🇪🇬 A. Fakhry & Co" 5 2 ["aromatic"; "woody"] Backbone 5 3 None ];
     base :=
      [ ing "Musk Ketone" "2–4%" "📦 Fraterworks" 4 2 ["clean"; "powdery"] Backbone 7 2 None;
        ing "Cedarwood Virginia" "3–5%" "📦 Bulkaroma" 5 1 ["woody"; "fresh"] Backbone 7 3 None ] |}.

Definition db_gourmand : Layers RawIngredient :=
  {| top :=
      [ ing "Bergamot EO" "2–4%" "📦 Fraterworks" 6 2 ["citrus"; "floral"] Lift 4 3 None;
        ing "Pink Pepper CO2" "1–2%" "📦 Fraterworks" 5 3 ["spicy"; "oriental"] Lift 5 3 None ];
     heart :=
      [ ing "Cacao Absolute" "2–4%" "📦 Fraterworks" 7 4 ["oriental"; "woody"] Hero 7 6 None;
        ing "Coffee Absolute" "1–3%" "📦 Bulkaroma" 8 4 ["smoky"; "oriental"] Hero 7 7 None;
        ing "Tonka Bean Absolute" "2–4%" "📦 Fraterworks" 7 3 ["oriental"; "powdery"] Character 7 5 None ];
     base :=
      [ ing "Vanillin (10% in DPG)" "5–8%" "📦 Fraterworks" 7 1 ["oriental"; "floral"] Hero 9 6 None;
        ing "Ethyl Maltol" "0.5–1%" "📦 Fraterworks" 8 1 ["floral"] Character 7 7 None;
        ing "Coumarin" "2–4%" "📦 Fraterworks" 6 1 ["aromatic"; "powdery"] Backbone 8 4 None ] |}.

Definition db_aromatic : Layers RawIngredient :=
  {| top :=
      [ ing "Lavender EO (French type)" "3–6%" "📦 Bulkaroma" 6 2 ["fresh"; "woody"] Lift 5 4 None;
        ing "Rosemary EO (Egyptian)" "2–3%" "🇪🇬 Cairo Aromatic" 6 1 ["green"; "woody"] Lift 5 4 None ];
     heart :=
      [ ing "Clary Sage EO" "2–4%" "📦 Bulkaroma" 5 2 ["floral"; "woody"] Character 6 3 None;
        ing "Geranium Bourbon" "3–5%" "🇪🇬 Cairo Aromatic" 6 2 ["floral"; "citrus"] Backbone 6 4 None ];
     base :=
      [ ing "Vetiver EO" "3–5%" "📦 Bulkaroma" 7 3 ["woody"; "smoky"] Hero 9 7 None;
        ing "Oakmoss Absolute (IFRA safe)" "1–2%" "📦 Fraterworks" 7 4 ["woody"; "green"] Character 8 5 (Some 1);
        ing "Coumarin" "2–4%" "📦 Fraterworks" 6 1 ["gourmand"; "powdery"] Backbone 8 4 None ] |}.

Definition db_smoky : Layers RawIngredient :=
  {| top :=
      [ ing "Black Pepper CO2" "1–2%" "📦 Fraterworks" 7 2 ["spicy"; "woody"] Lift 5 5 None;
        ing "Elemi EO" "1–3%" "📦 Bulkaroma" 5 2 ["citrus"; "fresh"; "incense"] Lift 6 2 None ];
     heart :=
      [ ing "Cade EO (rectified)" "1–3%" "📦 Fraterworks" 8 3 ["leather"; "woody"] Hero 8 7 None;
        ing "Nagarmotha EO" "2–4%" "📦 Bulkaroma" 6 2 ["woody"; "incense"] Character 7 4 None;
        ing "Guaiac Wood EO" "3–5%" "📦 Bulkaroma" 5 3 ["woody"; "oriental"] Backbone 7 4 None ];
     base :=
      [ ing "Vetiver EO (Haiti)" "4–6%" "📦 Bulkaroma" 7 3 ["woody"; "green"] Hero 9 7 None;
        ing "Labdanum Absolute" "3–5%" "📦 Fraterworks" 7 3 ["oriental"; "woody"] Backbone 8 5 None ] |}.

Definition db_spicy : Layers RawIngredient :=
  {| top :=
      [ ing "Cardamom CO2 (Guatemala)" "1–3%" "🌍 Guatemala" 7 3 ["oriental"; "fresh"] Lift 6 5 None;
        ing "Ginger CO2" "1–2%" "📦 Bulkaroma" 6 2 ["citrus"; "fresh"] Lift 5 4 None ];
     heart :=
      [ ing "Saffron CO2" "0.5–1%" "🌍 Iran" 9 5 ["oriental"; "floral"] Character 7 7 None;
        ing "Nutmeg EO" "1–2%" "📦 Bulkaroma" 6 2 ["woody"; "aromatic"] Character 5 4 None ];
     base :=
      [ ing "Benzoin Resinoid" "3–5%" "📦 Bulkaroma" 6 2 ["oriental"; "gourmand"] Backbone 8 4 None;
        ing "Amber Accord" "4–6%" "🇪🇬 MUSK Aromatics" 7 2 ["oriental"; "woody"] Hero 9 7 None ] |}.

Definition db_powdery : Layers RawIngredient :=
  {| top :=
      [ ing "Bergamot EO" "3–4%" "📦 Fraterworks" 6 2 ["citrus"; "floral"] Lift 4 3 None;
        ing "Aldehydes C-11 (undecylenic)" "0.5–1%" "📦 Fraterworks" 7 2 ["floral"; "clean"] Character 4 6 None ];
     heart :=
      [ ing "Iris Accord (Orris butter type)" "2–4%" "📦 Fraterworks" 7 5 ["floral"; "woody"] Hero 8 6 None;
        ing "Heliotropin" "3–5%" "📦 Fraterworks" 5 1 ["gourmand"; "floral"] Backbone 6 3 None ];
     base :=
      [ ing "Musk (Ethylene Brassylate)" "5–8%" "📦 Fraterworks" 4 1 ["clean"; "floral"] Backbone 9 2 None;
        ing "Tonka Bean Absolute" "2–3%" "📦 Fraterworks" 7 3 ["gourmand"; "aromatic"] Character 8 5 None ] |}.

Definition db_green : Layers RawIngredient :=
  {| top :=
      [ ing "Galbanum EO" "1–2%" "📦 Fraterworks" 8 3 ["floral"; "aromatic"] Character 5 7 None;
        ing "Cis-3-Hexenol (leaf alcohol)" "0.5–1%" "📦 Fraterworks" 7 1 ["fresh"; "aquatic"] Lift 3 5 None ];
     heart :=
      [ ing "Fig Leaf Accord" "3–5%" "📦 PerfumersWorld" 5 3 ["woody"; "fresh"] Hero 6 5 None;
        ing "Tea Accord (green)" "2–4%" "📦 PerfumersWorld" 4 2 ["fresh"; "aromatic"] Character 5 3 None ];
     base :=
      [ ing "Vetiver EO" "3–5%" "📦 Bulkaroma" 7 3 ["woody"; "smoky"] Hero 9 7 None;
        ing "Oakmoss Absolute" "1–2%" "📦 Fraterworks" 7 4 ["woody"; "aromatic"] Character 8 5 (Some 1) ] |}.

Definition db_aquatic : Layers RawIngredient :=
  {| top :=
      [ ing "Calone (Watermelon Ketone)" "0.5–1%" "📦 Fraterworks" 8 2 ["fresh"; "green"] Character 4 7 None;
        ing "Lemon EO (Egyptian)" "3–5%" "🇪🇬 A. Fakhry & Co" 6 1 ["citrus"; "fresh"] Lift 3 3 None ];
     heart :=
      [ ing "Marine Accord (Helional)" "3–5%" "📦 Fraterworks" 5 2 ["fresh"; "green"] Hero 6 5 None;
        ing "Dihydromyrcenol" "5–8%" "📦 Fraterworks" 5 1 ["fresh"; "citrus"] Backbone 7 4 None ];
     base :=
      [ ing "Ambroxan" "3–5%" "📦 Fraterworks" 7 3 ["woody"; "fresh"] Backbone 9 6 None;
        ing "Driftwood Accord (Norlimbanol)" "2–3%" "📦 Fraterworks" 5 3 ["woody"; "smoky"] Character 7 4 None ] |}.

Definition db_leather : Layers RawIngredient :=
  {| top :=
      [ ing "Birch Tar (rectified)" "0.5–1%" "📦 Fraterworks" 9 3 ["smoky"; "woody"] Character 6 8 None;
        ing "Juniper Berry EO" "1–2%" "📦 Bulkaroma" 5 2 ["aromatic"; "fresh"] Lift 5 3 None ];
     heart :=
      [ ing "Suede Accord (Safraleine)" "3–5%" "📦 Fraterworks" 6 3 ["floral"; "powdery"] Hero 7 5 None;
        ing "Labdanum Absolute" "3–5%" "📦 Fraterworks" 7 3 ["oriental"; "woody"] Backbone 8 5 None ];
     base :=
      [ ing "Castoreum Accord" "1–2%" "📦 Fraterworks" 8 3 ["smoky"; "oriental"] Character 9 7 None;
        ing "Styrax Resinoid" "2–3%" "📦 Bulkaroma" 7 2 ["smoky"; "oriental"] Backbone 8 5 None ] |}.

Definition db_clean : Layers RawIngredient :=
  {| top :=
      [ ing "Aldehydes C-12 (MNA)" "0.5–1%" "📦 Fraterworks" 7 2 ["floral"; "powdery"] Character 4 6 None;
        ing "Linalyl Acetate" "3–5%" "📦 Fraterworks" 4 1 ["floral"; "fresh"] Lift 4 2 None ];
     heart :=
      [ ing "Hedione HC" "5–10%" "📦 Fraterworks" 3 2 ["floral"; "fresh"] Backbone 7 2 None;
        ing "Lily of the Valley Accord" "3–5%" "📦 PerfumersWorld" 4 2 ["floral"; "green"] Character 5 3 None ];
     base :=
      [ ing "White Musk (Galaxolide)" "5–10%" "📦 Fraterworks" 5 1 ["powdery"; "floral"] Hero 9 3 None;
        ing "Cashmeran" "3–5%" "📦 Fraterworks" 5 3 ["woody"; "powdery"] Backbone 8 4 None ] |}.

Definition db_incense : Layers RawIngredient :=
  {| top :=
      [ ing "Elemi EO" "1–3%" "📦 Bulkaroma" 5 2 ["citrus"; "fresh"] Lift 6 2 None;
        ing "Pink Pepper CO2" "1–2%" "📦 Fraterworks" 5 3 ["spicy"; "fresh"] Lift 5 3 None ];
     heart :=
      [ ing "Frankincense EO (Boswellia sacra)" "3–6%" "🌍 Oman" 7 4 ["woody"; "oriental"] Hero 8 6 None;
        ing "Myrrh EO (Somalian)" "2–4%" "🌍 Somalia" 7 3 ["oriental"; "woody"] Character 8 5 None ];
     base :=
      [ ing "Benzoin Resinoid" "3–5%" "📦 Bulkaroma" 6 2 ["oriental"; "gourmand"] Backbone 8 4 None;
        ing "Sandalwood (Australian)" "3–5%" "📦 PerfumersWorld" 7 5 ["floral"; "oriental"] Hero 9 6 None ] |}.

Definition db_niche : Layers RawIngredient :=
  {| top :=
      [ ing "Galbanum EO" "1–2%" "📦 Fraterworks" 8 3 ["green"; "floral"] Character 5 7 None;
        ing "Aldehydes C-11" "0.5–1%" "📦 Fraterworks" 7 2 ["clean"; "floral"] Character 4 6 None ];
     heart :=
      [ ing "Papyrus Accord" "3–5%" "📦 PerfumersWorld" 5 3 ["woody"; "green"] Hero 6 4 None;
        ing "Ambrette Seed CO2" "2–3%" "📦 Bulkaroma" 5 4 ["floral"; "powdery"] Character 6 3 None ];
     base :=
      [ ing "Ambergris Accord (Ambroxan + Labdanum)" "3–5%" "📦 Fraterworks" 7 3 ["woody"; "oriental"] Hero 9 6 None;
        ing "Iso E Super" "5–10%" "📦 Fraterworks" 4 2 ["woody"; "fresh"] Backbone 9 5 None ] |}.

Definition INGREDIENT_DB_entries : list (string * Layers RawIngredient) :=
  [ ("floral", db_floral);
    ("woody", db_woody);
    ("oriental", db_oriental);
    ("fresh", db_fresh);
    ("citrus", db_citrus);
    ("gourmand", db_gourmand);
    ("aromatic", db_aromatic);
    ("smoky", db_smoky);
    ("spicy", db_spicy);
    ("powdery", db_powdery);
    ("green", db_green);
    ("aquatic", db_aquatic);
    ("leather", db_leather);
    ("clean", db_clean);
    ("incense", db_incense);
    ("niche", db_niche) ].

Fixpoint lookup {A} (k : string) (l : list (string * A)) : option A :=
  match l with
  | [] => None
  | (k', v) :: r => if String.eqb k k' then Some v else lookup k r
  end.

(** [INGREDIENT_DB[fam]]; a name that is no key of the table gives
    [undefined]. *)
Definition INGREDIENT_DB (fam : string) : option (Layers RawIngredient) :=
  lookup fam INGREDIENT_DB_entries.

(** [INGREDIENT_DB[fam]?.layer ?? []] *)
Definition dbLayer (sel : Layers RawIngredient -> list RawIngredient)
    (fam : string) : list RawIngredient :=
  match INGREDIENT_DB fam with
  | Some l => sel l
  | None => []
  end.

(** ** Number helpers of the engine *)

Definition parseMidpoint (s : string) : float :=
  match matchNumbers "" s with
  | [] => 3%float
  | [n0] => parseFloat n0
  | n0 :: n1 :: _ => ((parseFloat n0 + parseFloat n1) / 2)%float
  end.

(** The tenths of a number that was obtained as [Math.round(x) / 10]. *)
Definition tenths (x : float) : N := Z.to_N (Js.round (x * 10)%float).

(** [`${lo}–${hi}%`] *)
Definition band (lo hi : float) : Percent := Band (tenths lo) (tenths hi).

Definition makeRange (mid : float) : Percent :=
  let lo := Js.max 0.1 (Js.ofZ (Js.round (mid * 0.7 * 10)) / 10)%float in
  let hi := (Js.ofZ (Js.round (mid * 1.3 * 10)) / 10)%float in
  band lo hi.

(** [seededRng]: one step of the stream from state [s]; the new state
    and the number returned. *)
Definition seededRng (s offset : float) : float * float :=
  let s' := Js.rem ((s + offset) * 2654435761)%float 2147483647%float in
  (s', (abs s' / 2147483647)%float).

(** ** Context modifiers *)

Record NoteBalance := { nbTop : float; nbHeart : float; nbBase : float }.

Record ContextModifiers :=
  { heroScale : float;
    projectionCap : float;
    muskBoost : float;
    topPersistMin : Z;
    noteBalance : NoteBalance }.

Definition optIs (o : option string) (s : string) : bool :=
  match o with
  | Some x => String.eqb x s
  | None => false
  end.

Definition computeContext (concentration occasion intensity : option string)
    : ContextModifiers :=
  let ctx :=
    {| heroScale := 1; projectionCap := 12; muskBoost := 1;
       topPersistMin := 4;
       noteBalance := {| nbTop := 15; nbHeart := 45; nbBase := 40 |} |} in
  let ctx :=
    if optIs concentration "Parfum Extrait"
    then {| heroScale := 1.3; projectionCap := projectionCap ctx;
            muskBoost := 1.3; topPersistMin := 6;
            noteBalance := {| nbTop := 10; nbHeart := 40; nbBase := 50 |} |}
    else ctx in
  let ctx :=
    if optIs intensity "Leave a trail"
    then {| heroScale := (heroScale ctx * 1.2)%float;
            projectionCap := projectionCap ctx;
            muskBoost := (muskBoost ctx * 1.2)%float;
            topPersistMin := topPersistMin ctx;
            noteBalance := noteBalance ctx |}
    else ctx in
  if optIs occasion "Everyday signature"
  then {| heroScale := heroScale ctx;
          projectionCap := (projectionCap ctx * 0.8)%float;
          muskBoost := muskBoost ctx;
          topPersistMin := topPersistMin ctx;
          noteBalance := noteBalance ctx |}
  else ctx.

(** ** Steeping estimation *)

Definition slow : list string :=
  ["oud"; "labdanum"; "patchouli"; "myrrh"; "benzoin"; "styrax"; "amber";
   "oakmoss"].

Definition slowScoreOf (ingredients : list RawIngredient) : float :=
  fold_left
    (fun sc i =>
       let n := toLowerCase (name i) in
       let sc := if existsb (fun s => includes n s) slow
                 then (sc + 3)%float else sc in
       let sc := if persistence i >=? 8 then (sc + 1)%float else sc in
       if cost i >=? 4 then (sc + 1)%float else sc)
    ingredients 0%float.

Definition estimateSteeping (ingredients : list RawIngredient)
    (concentration : option string) : SteepingInfo :=
  let slowScore := slowScoreOf ingredients in
  let slowScore :=
    if optIs concentration "Parfum Extrait" then (slowScore * 1.5)%float
    else slowScore in
  if (slowScore <? 6)%float
  then {| category := fast_stable; minDays := 1; maxDays := 3;
          label := "24–72 hours";
          notes := "Mostly synthetic backbone. Stabilizes quickly. Evaluate after 48 hours." |}
  else if (slowScore <? 14)%float
  then {| category := medium_settle; minDays := 7; maxDays := 14;
          label := "1–2 weeks";
          notes := "Contains naturals/resins. Early sharpness softens within first week." |}
  else {| category := slow_evolving; minDays := 14; maxDays := 42;
          label := "2–6 weeks";
          notes := "Heavy naturals and resins. Do not judge before two weeks." |}.

(** ** Arrays *)

Local Open Scope list_scope.
Local Open Scope Z_scope.

(** [Array.prototype.sort]: stable.  [after a b] says that the
    comparator returns a positive number at [(a, b)], so that [a] has
    to come after [b].  Each comparator of the engine is a consistent
    ordering on the arrays it meets, for which every stable sort gives
    this result. *)
Section Sort.
Context {A : Type} (after : A -> A -> bool).

Fixpoint insertSorted (x : A) (l : list A) : list A :=
  match l with
  | [] => [x]
  | y :: r => if after x y then y :: insertSorted x r else x :: l
  end.

Definition sortBy (l : list A) : list A := fold_right insertSorted [] l.
End Sort.

(** [xs.find(p)] is [List.find]; [xs.some(p)] is [existsb]. *)
Definition hasName (n : string) (xs : list RawIngredient) : bool :=
  existsb (fun i => String.eqb (name i) n) xs.

Definition findName (n : string) (xs : list RawIngredient)
    : option RawIngredient :=
  find (fun i => String.eqb (name i) n) xs.

Definition isNil {A} (l : list A) : bool :=
  match l with [] => true | _ => false end.

Definition len {A} (l : list A) : Z := Z.of_nat (List.length l).

(** ** The formula object *)

Definition emptyLayers : Layers FormulaIngredient := mkLayers [] [] [].

(** [formula[fam] = v]: an existing key keeps its place. *)
Fixpoint setFamily (fam : string) (v : Layers FormulaIngredient)
    (f : Formula) : Formula :=
  match f with
  | [] => [(fam, v)]
  | (k, w) :: r =>
      if String.eqb k fam then (k, v) :: r else (k, w) :: setFamily fam v r
  end.

Definition getFamily (fam : string) (f : Formula)
    : option (Layers FormulaIngredient) := lookup fam f.

(** [if (!formula[fam]) formula[fam] = { top: [], heart: [], base: [] }] *)
Definition ensureFamily (fam : string) (f : Formula) : Formula :=
  match getFamily fam f with
  | Some _ => f
  | None => setFamily fam emptyLayers f
  end.

Inductive Layer := LTop | LHeart | LBase.

Definition getLayer {A} (l : Layer) (ls : Layers A) : list A :=
  match l with LTop => top ls | LHeart => heart ls | LBase => base ls end.

Definition setLayer {A} (l : Layer) (v : list A) (ls : Layers A) : Layers A :=
  match l with
  | LTop => mkLayers v (heart ls) (base ls)
  | LHeart => mkLayers (top ls) v (base ls)
  | LBase => mkLayers (top ls) (heart ls) v
  end.

(** [formula[fam][layer].push(item)], for a key that is present. *)
Fixpoint pushItem (fam : string) (l : Layer) (item : FormulaIngredient)
    (f : Formula) : Formula :=
  match f with
  | [] => []
  | (k, w) :: r =>
      if String.eqb k fam
      then (k, setLayer l (getLayer l w ++ [item]) w) :: r
      else (k, w) :: pushItem fam l item r
  end.

Definition layerCount (ls : Layers FormulaIngredient) : Z :=
  len (top ls) + len (heart ls) + len (base ls).

(** The sum over [Object.values(formula)] of the three lengths. *)
Definition totalIngredientsCount (f : Formula) : Z :=
  fold_left (fun c kv => c + layerCount (snd kv)) f 0.

(** ** The mutable state of one generation

    [used], [picked], [ifraWarnings] and the state [s] of the random
    stream are the variables that [generateLocalFormula] and its
    closure [pick] update. *)

Record Env :=
  { used : list string;
    picked : list RawIngredient;
    warnings : list string;
    rngState : float }.

Definition M (A : Type) : Type := Env -> A * Env.

Definition ret {A} (a : A) : M A := fun e => (a, e).

Definition bind {A B} (m : M A) (k : A -> M B) : M B :=
  fun e => let (a, e') := m e in k a e'.

Declare Scope engine_scope.
Delimit Scope engine_scope with engine.
Notation "x <- m ;; k" := (bind m (fun x => k))
  (at level 61, m at next level, right associativity) : engine_scope.
Notation "m ;;; k" := (bind m (fun _ => k))
  (at level 61, right associativity) : engine_scope.
Local Open Scope engine_scope.

(** [rng(offset)] *)
Definition rng (offset : float) : M float :=
  fun e =>
    let (s', r) := seededRng (rngState e) offset in
    (r, {| used := used e; picked := picked e; warnings := warnings e;
           rngState := s' |}).

(** [used.add(n)] *)
Definition useName (n : string) : M unit :=
  fun e =>
    (tt, {| used := if mem n (used e) then used e else used e ++ [n];
            picked := picked e; warnings := warnings e;
            rngState := rngState e |}).

(** [picked.push(i)] *)
Definition pushPicked (i : RawIngredient) : M unit :=
  fun e =>
    (tt, {| used := used e; picked := picked e ++ [i];
            warnings := warnings e; rngState := rngState e |}).

(** [ifraWarnings.push(w)] *)
Definition pushWarning (w : string) : M unit :=
  fun e =>
    (tt, {| used := used e; picked := picked e;
            warnings := warnings e ++ [w]; rngState := rngState e |}).

Definition getUsed : M (list string) := fun e => (used e, e).
Definition getPicked : M (list RawIngredient) := fun e => (picked e, e).

(** [cond && action] on the state. *)
Definition when (b : bool) (m : M unit) : M unit := if b then m else ret tt.

(** ** Selection *)

(** The three requested families, the hero and its name are fixed for
    the whole of a generation. *)
Record Request :=
  { dominant : string;
    secondary : string;
    accent : string;
    heroOf : option RawIngredient }.

Definition heroName (rq : Request) : option string :=
  option_map name (heroOf rq).

(** [n === heroName] *)
Definition isHeroName (h : option string) (n : string) : bool :=
  match h with
  | Some x => String.eqb n x
  | None => false
  end.

(** Step 1.  [heroPool]: the hero-role records of base then heart, or
    every record by descending persistence when there is none. *)
Definition heroPool (dom : string) : list RawIngredient :=
  let all := dbLayer base dom ++ dbLayer heart dom in
  let pool := filter (fun i => Role_eqb (role i) Hero) all in
  if isNil pool
  then sortBy (fun a b => 0 <? persistence b - persistence a) all
  else pool.

Definition selectHero (dom : string) : M (option RawIngredient) :=
  let pool := heroPool dom in
  if 0 <? len pool
  then r <- rng 0 ;;
       ret (nth_error pool
              (Z.to_nat (Js.floor (r * Js.ofZ (Z.min 3 (len pool)))%float)))
  else ret None.

(** Step 2.  The closure [pick]. *)

(** The synergy part of a score: [+2] for each requested family that
    the candidate blends with. *)
Definition synergy (rq : Request) (c : RawIngredient) : float :=
  fold_left
    (fun sc f => if mem f (blendsWith c) then (sc + 2)%float else sc)
    [dominant rq; secondary rq; accent rq] 0%float.

Definition clashes (rq : Request) (c : RawIngredient) : bool :=
  match heroOf rq with
  | Some h => (dominance c >=? 7) && (dominance h >=? 7)
  | None => false
  end.

Fixpoint scoreCandidates (rq : Request) (cands : list RawIngredient)
    (idx : Z) : M (list (RawIngredient * float)) :=
  match cands with
  | [] => ret []
  | c :: rest =>
      r <- rng (Js.ofZ (idx * 3)) ;;
      let score := (synergy rq c + r * 3)%float in
      let score := if clashes rq c then (score - 4)%float else score in
      more <- scoreCandidates rq rest (idx + 1) ;;
      ret ((c, score) :: more)
  end.

(** [(a, b) => b.score - a.score] *)
Definition byScoreDesc (a b : RawIngredient * float) : bool :=
  Js.gt (snd b - snd a)%float 0%float.

Definition ifraExceeded (i : RawIngredient) (mid : float) : bool :=
  match ifraLimit i with
  | Some l => negb (l =? 0) && Js.gt mid (Js.ofZ l)
  | None => false
  end.

Definition ifraText (i : RawIngredient) : string :=
  (name i ++ " capped at "
   ++ match ifraLimit i with
      | Some l => showN (Z.to_N l)
      | None => "undefined"
      end
   ++ "% (IFRA)")%string.

(** The body of the loop of [pick] for one chosen candidate. *)
Definition takeScaled (mult : float) (i : RawIngredient)
    : M FormulaIngredient :=
  useName (name i) ;;;
  pushPicked i ;;;
  let mid := (parseMidpoint (percent i) * mult)%float in
  when (ifraExceeded i mid) (pushWarning (ifraText i)) ;;;
  ret {| iname := name i; ipercent := makeRange mid;
         isupplier := supplier i; normalizedPct := Some mid |}.

Fixpoint forEachM {A B} (f : A -> M B) (l : list A) : M (list B) :=
  match l with
  | [] => ret []
  | x :: r => y <- f x ;; ys <- forEachM f r ;; ret (y :: ys)
  end.

Definition candidates (rq : Request) (pool : list RawIngredient) (r : Role)
    (u : list string) : list RawIngredient :=
  let free i := negb (mem (name i) u) && negb (isHeroName (heroName rq) (name i)) in
  let cands := filter (fun i => Role_eqb (role i) r && free i) pool in
  if isNil cands then filter free pool else cands.

Definition pick (rq : Request) (pool : list RawIngredient) (r : Role)
    (count : nat) (mult : float) : M (list FormulaIngredient) :=
  u <- getUsed ;;
  scored <- scoreCandidates rq (candidates rq pool r u) 0 ;;
  let scored := sortBy byScoreDesc scored in
  forEachM (fun s => takeScaled mult (fst s)) (firstn count scored).

(** An entry that copies the published percent of a record. *)
Definition verbatim (t : RawIngredient) : FormulaIngredient :=
  {| iname := name t; ipercent := Published (percent t);
     isupplier := supplier t; normalizedPct := None |}.

Definition heroEntry (n : string) (scale : float) (r : RawIngredient)
    : FormulaIngredient :=
  {| iname := n;
     ipercent := makeRange (parseMidpoint (percent r) * scale)%float;
     isupplier := supplier r; normalizedPct := None |}.

(** Step 3, top layer of the dominant family. *)
Definition dominantTop (dom : Layers RawIngredient)
    : M (list FormulaIngredient) :=
  u <- getUsed ;;
  let topPool :=
    sortBy (fun a b => 0 <? persistence b - persistence a)
      (filter (fun i => negb (mem (name i) u)) (top dom)) in
  match topPool with
  | [] => ret []
  | t0 :: _ =>
      r <- rng 10 ;;
      let t :=
        nth (Z.to_nat (Js.floor (r * Js.ofZ (Z.min 2 (len topPool)))%float))
          topPool t0 in
      useName (name t) ;;;
      pushPicked t ;;;
      if (persistence t <? 5) && (1 <? len topPool)
      then
        u' <- getUsed ;;
        match find (fun x => negb (mem (name x) u') && (persistence x >=? 5))
                topPool with
        | Some booster =>
            useName (name booster) ;;;
            pushPicked booster ;;;
            ret [verbatim t; verbatim booster]
        | None => ret [verbatim t]
        end
      else ret [verbatim t]
  end.

(** Step 3. *)
Definition dominantFill (rq : Request) (ctx : ContextModifiers)
    (dom : Layers RawIngredient) : M (Layers FormulaIngredient) :=
  match heroOf rq with
  | Some h => useName (name h) ;;; pushPicked h
  | None => ret tt
  end ;;;
  let cappedHeroScale := Js.min (heroScale ctx) 1.3 in
  domTop <- dominantTop dom ;;
  let heroIn (l : list RawIngredient) : option RawIngredient :=
    match heroOf rq with
    | Some h => findName (name h) l
    | None => None
    end in
  let heroInHeart := heroIn (heart dom) in
  let heroInBase := heroIn (base dom) in
  let heartHero :=
    match heroName rq, heroInHeart with
    | Some n, Some r => [heroEntry n cappedHeroScale r]
    | _, _ => []
    end in
  let heartBackboneCount :=
    match heroInHeart, heroInBase with
    | Some _, _ => 1%nat
    | None, Some _ => 1%nat
    | None, None => 2%nat
    end in
  let heartBackboneMult :=
    match heroInBase with Some _ => 0.75%float | None => 1%float end in
  heartPicks <- pick rq (heart dom) Backbone heartBackboneCount heartBackboneMult ;;
  let baseHero :=
    match heroName rq, heroInBase, heroInHeart with
    | Some n, Some r, None => [heroEntry n cappedHeroScale r]
    | _, _, _ => []
    end in
  let baseBackboneMult :=
    match heroInBase with
    | Some _ => (muskBoost ctx * 0.7)%float
    | None => muskBoost ctx
    end in
  basePicks <- pick rq (base dom) Backbone 1 baseBackboneMult ;;
  ret (mkLayers domTop (heartHero ++ heartPicks) (baseHero ++ basePicks)).

(** Step 4. *)
Definition secondaryFill (rq : Request) (sec : Layers RawIngredient)
    : M (Layers FormulaIngredient) :=
  t <- pick rq (top sec) Lift 1 0.8 ;;
  h <- pick rq (heart sec) Backbone 1 0.7 ;;
  b <- pick rq (base sec) Backbone 1 0.6 ;;
  ret (mkLayers t h b).

(** Step 5. *)
Definition accentFill (rq : Request) (acc : Layers RawIngredient)
    : M (Layers FormulaIngredient) :=
  accPick <- pick rq (heart acc ++ base acc) Character 1 0.5 ;;
  let inHeart (a : FormulaIngredient) := hasName (iname a) (heart acc) in
  ret (mkLayers [] (filter inHeart accPick)
         (filter (fun a => negb (inHeart a)) accPick)).

Definition heavyFamilies : list string :=
  ["oriental"; "woody"; "smoky"; "leather"; "incense"; "gourmand"; "spicy"].

(** Step 5b. *)

(** The records the floor may draw from. *)
Definition fillSources (rq : Request) (u : list string) : list RawIngredient :=
  filter (fun i => negb (mem (name i) u) && Role_eqb (role i) Character)
    (dbLayer heart (secondary rq) ++ dbLayer heart (accent rq)
     ++ dbLayer base (secondary rq) ++ dbLayer base (accent rq)).

Fixpoint scoreFills (rq : Request) (cands : list RawIngredient) (idx : Z)
    : M (list (RawIngredient * float)) :=
  match cands with
  | [] => ret []
  | c :: rest =>
      r <- rng (Js.ofZ (idx * 7 + 99)) ;;
      let score := (synergy rq c + r * 2)%float in
      more <- scoreFills rq rest (idx + 1) ;;
      ret ((c, score) :: more)
  end.

(** The family and the layer that receive a floor pick. *)
Definition fillTarget (rq : Request) (fill : RawIngredient) : string * Layer :=
  let inSec :=
    hasName (name fill)
      (dbLayer heart (secondary rq) ++ dbLayer base (secondary rq)) in
  let targetFam := if inSec then secondary rq else accent rq in
  let inHeart := hasName (name fill) (dbLayer heart targetFam) in
  (targetFam, if inHeart then LHeart else LBase).

Definition scaledEntry (mult : float) (i : RawIngredient) : FormulaIngredient :=
  let mid := (parseMidpoint (percent i) * mult)%float in
  {| iname := name i; ipercent := makeRange mid;
     isupplier := supplier i; normalizedPct := Some mid |}.

Definition addFill (rq : Request) (f : Formula) (fill : RawIngredient)
    : M Formula :=
  useName (name fill) ;;;
  pushPicked fill ;;;
  let (targetFam, layer) := fillTarget rq fill in
  ret (pushItem targetFam layer (scaledEntry 0.4 fill)
         (ensureFamily targetFam f)).

Fixpoint foldM {A B} (f : A -> B -> M A) (a : A) (l : list B) : M A :=
  match l with
  | [] => ret a
  | x :: r => a' <- f a x ;; foldM f a' r
  end.

(** The records that the floor adds: none unless the dominant family
    is heavy and the formula is short of nine entries. *)
Definition floorPicks (rq : Request) (f : Formula) : M (list RawIngredient) :=
  let isHeavy := mem (dominant rq) heavyFamilies in
  let currentCount := totalIngredientsCount f in
  if isHeavy && (currentCount <? 9)
  then
    u <- getUsed ;;
    scored <- scoreFills rq (fillSources rq u) 0 ;;
    let scored := sortBy byScoreDesc scored in
    let needed := Z.min (len scored) (9 - currentCount) in
    ret (map fst (firstn (Z.to_nat needed) scored))
  else ret [].

Definition ingredientFloor (rq : Request) (f : Formula) : M Formula :=
  picks <- floorPicks rq f ;;
  foldM (addFill rq) f picks.

(** Step 5c. *)

Definition structuralCandidates (rq : Request) (u : list string)
    : list RawIngredient :=
  sortBy
    (fun a b =>
       if includes (name a) "Ambroxan" then false
       else if includes (name b) "Ambroxan" then true
       else if includes (name a) "Iso E" then false
       else if includes (name b) "Iso E" then true
       else 0 <? persistence a - persistence b)
    (filter
       (fun i => Role_eqb (role i) Backbone && negb (mem (name i) u)
                 && mem (dominant rq) (blendsWith i))
       (dbLayer base "clean" ++ dbLayer heart "woody" ++ dbLayer base "woody")).

Definition structuralNote (s : RawIngredient) : string :=
  (name s ++ " added at low dose as structural backbone — improves diffusion and polish")%string.

Definition inject (rq : Request) (acc : Formula * list string)
    (s : RawIngredient) : M (Formula * list string) :=
  useName (name s) ;;;
  pushPicked s ;;;
  ret (pushItem (dominant rq) LBase (scaledEntry 0.4 s)
         (ensureFamily (dominant rq) (fst acc)),
       snd acc ++ [structuralNote s]).

Definition isFastStable (s : SteepingInfo) : bool :=
  match category s with fast_stable => true | _ => false end.

Definition structuralInjection (rq : Request) (concentration : option string)
    (f : Formula) : M (Formula * list string) :=
  p <- getPicked ;;
  if mem (dominant rq) heavyFamilies
     && (totalIngredientsCount f <? 7)
     && negb (isFastStable (estimateSteeping p concentration))
  then
    u <- getUsed ;;
    let injectCount := Z.min 2 (8 - totalIngredientsCount f) in
    foldM (inject rq) (f, [])
      (firstn (Z.to_nat injectCount) (structuralCandidates rq u))
  else ret (f, []).

(** Steps 3 to 5: each family that is a key of the database is filled
    and assigned to its key of the formula. *)
Definition fillDominant (rq : Request) (ctx : ContextModifiers) (f : Formula)
    : M Formula :=
  match INGREDIENT_DB (dominant rq) with
  | Some dom =>
      ls <- dominantFill rq ctx dom ;; ret (setFamily (dominant rq) ls f)
  | None => ret f
  end.

Definition fillSecondary (rq : Request) (f : Formula) : M Formula :=
  match INGREDIENT_DB (secondary rq) with
  | Some sec =>
      ls <- secondaryFill rq sec ;; ret (setFamily (secondary rq) ls f)
  | None => ret f
  end.

Definition fillAccent (rq : Request) (f : Formula) : M Formula :=
  match INGREDIENT_DB (accent rq) with
  | Some acc => ls <- accentFill rq acc ;; ret (setFamily (accent rq) ls f)
  | None => ret f
  end.

Definition filled (rq : Request) (ctx : ContextModifiers) : M Formula :=
  f <- fillDominant rq ctx [] ;;
  f <- fillSecondary rq f ;;
  fillAccent rq f.

(** Steps 3 to 5c: the formula that enters conflict resolution, and the
    notes written so far. *)
Definition assemble (rq : Request) (ctx : ContextModifiers)
    (concentration : option string) : M (Formula * list string) :=
  f <- filled rq ctx ;;
  f <- ingredientFloor rq f ;;
  structuralInjection rq concentration f.

(** ** Step 6: conflict resolution *)

(** The numbers that [percent.match(/[\d.]+/g)] finds, parsed. *)
Definition numbersOf (p : Percent) : list float :=
  match p with
  | Published s => map parseFloat (matchNumbers "" s)
  | Band lo hi => [ofTenths lo; ofTenths hi]
  end.

Definition getUpperPct (item : FormulaIngredient) : float :=
  let nums := numbersOf (ipercent item) in
  if 2 <=? len nums then last nums 0%float else 0%float.

Definition getLowerPct (item : FormulaIngredient) : float :=
  match numbersOf (ipercent item) with
  | n :: _ => n
  | [] => 0%float
  end.

(** [{ ...item, percent: p }] *)
Definition withPercent (item : FormulaIngredient) (p : Percent)
    : FormulaIngredient :=
  {| iname := iname item; ipercent := p; isupplier := isupplier item;
     normalizedPct := normalizedPct item |}.

(** The band with both ends multiplied by [c] and rounded to one
    decimal: [Math.round(x * c * 10) / 10]. *)
Definition scaledBand (c : float) (item : FormulaIngredient) : Percent :=
  let lo := getLowerPct item in
  let hi := getUpperPct item in
  band (Js.ofZ (Js.round (lo * c * 10)) / 10)%float
       (Js.ofZ (Js.round (hi * c * 10)) / 10)%float.

Definition rescale (c : float) (item : FormulaIngredient) : FormulaIngredient :=
  withPercent item (scaledBand c item).

(** One walk over [Object.entries(formula)] and the layers heart and
    base, replacing each entry [items[idx]] by [g fam items[idx]]. *)
Definition mapHeartBase (g : string -> FormulaIngredient -> FormulaIngredient)
    (f : Formula) : Formula :=
  map (fun kv =>
         (fst kv,
          mkLayers (top (snd kv)) (map (g (fst kv)) (heart (snd kv)))
            (map (g (fst kv)) (base (snd kv)))))
      f.

(** The database record behind an entry of family [fam]. *)
Definition origOf (fam : string) (item : FormulaIngredient)
    : option RawIngredient :=
  findName (iname item) (dbLayer heart fam ++ dbLayer base fam).

Definition isHighDominance (fam : string) (item : FormulaIngredient) : bool :=
  match origOf fam item with
  | Some orig => dominance orig >=? 7
  | None => false
  end.

Definition countIf {A} (p : A -> bool) (l : list A) : Z := len (filter p l).

(** 6a *)
Definition highDom (f : Formula) : Z :=
  fold_left
    (fun c kv =>
       c + countIf (isHighDominance (fst kv)) (heart (snd kv))
         + countIf (isHighDominance (fst kv)) (base (snd kv)))
    f 0.

Definition passA (h : option string) (f : Formula) : Formula :=
  if 1 <? highDom f
  then mapHeartBase
         (fun fam item =>
            if isHeroName h (iname item) then item
            else if isHighDominance fam item then rescale 0.4 item
                 else item)
         f
  else f.

(** 6b *)
Definition clamped (item : FormulaIngredient) : FormulaIngredient :=
  let lo := Js.min (getLowerPct item) 3.5 in
  let hi := Js.min (getUpperPct item) 6.5 in
  withPercent item
    (band (Js.ofZ (Js.round (lo * 10)) / 10)%float
          (Js.ofZ (Js.round (hi * 10)) / 10)%float).

Definition passB (h : option string) (f : Formula) : Formula :=
  mapHeartBase
    (fun _ item =>
       if isHeroName h (iname item) then item
       else if Js.gt (getUpperPct item) 6.5 then clamped item
            else item)
    f.

(** 6c *)
Record HeavyItem :=
  { hfam : string;
    hlayer : Layer;
    hidx : nat;
    hupper : float;
    hpersistence : Z;
    hname : string }.

Fixpoint heavyOfLayer (fam : string) (layer : Layer)
    (items : list FormulaIngredient) (idx : nat) : list HeavyItem :=
  match items with
  | [] => []
  | item :: r =>
      let upper := getUpperPct item in
      (if Js.gt upper 5
       then [{| hfam := fam; hlayer := layer; hidx := idx; hupper := upper;
                hpersistence :=
                  match origOf fam item with
                  | Some orig => persistence orig
                  | None => 5
                  end;
                hname := iname item |}]
       else [])
      ++ heavyOfLayer fam layer r (S idx)
  end.

Definition heavyItems (f : Formula) : list HeavyItem :=
  flat_map
    (fun kv =>
       heavyOfLayer (fst kv) LHeart (heart (snd kv)) 0
       ++ heavyOfLayer (fst kv) LBase (base (snd kv)) 0)
    f.

(** The comparator of the sort in 6c. *)
Definition heavyAfter (h : option string) (a b : HeavyItem) : bool :=
  if isHeroName h (hname a) then false
  else if isHeroName h (hname b) then true
  else 0 <? hpersistence a - hpersistence b.

(** [formula[fam][layer][idx]] *)
Definition itemAt (fam : string) (layer : Layer) (idx : nat) (f : Formula)
    : option FormulaIngredient :=
  match getFamily fam f with
  | Some ls => nth_error (getLayer layer ls) idx
  | None => None
  end.

Fixpoint replaceNth {A} (idx : nat) (x : A) (l : list A) : list A :=
  match l, idx with
  | [], _ => []
  | _ :: r, O => x :: r
  | y :: r, S i => y :: replaceNth i x r
  end.

(** [formula[fam][layer][idx] = x] *)
Fixpoint setItemAt (fam : string) (layer : Layer) (idx : nat)
    (x : FormulaIngredient) (f : Formula) : Formula :=
  match f with
  | [] => []
  | (k, w) :: r =>
      if String.eqb k fam
      then (k, setLayer layer (replaceNth idx x (getLayer layer w)) w) :: r
      else (k, w) :: setItemAt fam layer idx x r
  end.

Definition supportNote (item : FormulaIngredient) (p : Percent) : string :=
  (iname item ++ " reduced to support role (" ++ percentText p
   ++ ") — yields headroom to hero")%string.

(** One reduction of the loop of 6c. *)
Definition reduceAt (x : HeavyItem) (acc : Formula * list string)
    : Formula * list string :=
  match itemAt (hfam x) (hlayer x) (hidx x) (fst acc) with
  | Some item =>
      let p := scaledBand 0.7 item in
      (setItemAt (hfam x) (hlayer x) (hidx x) (withPercent item p) (fst acc),
       snd acc ++ [supportNote item p])
  | None => acc
  end.

(** The loop of 6c over the sorted array; [total] is
    [heavyItems.length]. *)
Fixpoint reduceLoop (h : option string) (total : Z) (todo : list HeavyItem)
    (reductions : Z) (acc : Formula * list string) : Formula * list string :=
  match todo with
  | [] => acc
  | x :: r =>
      if isHeroName h (hname x) then reduceLoop h total r reductions acc
      else if total - reductions <=? 2 then acc
           else reduceLoop h total r (reductions + 1) (reduceAt x acc)
  end.

Definition passC (h : option string) (acc : Formula * list string)
    : Formula * list string :=
  let heavy := heavyItems (fst acc) in
  if 2 <? len heavy
  then reduceLoop h (len heavy) (sortBy (heavyAfter h) heavy) 0 acc
  else acc.

(** ** Step 7: functional duplicates *)

Definition functionalGroups : list (string * list string) :=
  [ ("white-musk", ["White Musk (Galaxolide)"; "Musk Accord (white)";
                    "Musk Ketone"; "Musk (Ethylene Brassylate)"]);
    ("ambergris", ["Ambroxan"; "Ambergris Accord (Ambroxan + Labdanum)"]);
    ("sandalwood", ["Sandalwood (Australian)"; "Mysore Sandalwood Accord"]);
    ("vetiver", ["Vetiver EO (Java)"; "Vetiver EO (Haiti)"; "Vetiver EO"]);
    ("cedar", ["Cedarwood Atlas EO"; "Cedarwood Virginia"]);
    ("labdanum-amber", ["Labdanum Absolute"; "Amber Accord (in-house blend)"]);
    ("pepper", ["Pink Pepper CO2"; "Pink Pepper EO"; "Black Pepper CO2"]);
    ("hedione", ["Hedione"; "Hedione HC"]);
    ("bergamot", ["Bergamot EO"; "Bergamot EO (Italian)";
                  "Bergamot EO (Calabrian type)"]) ].

(** [usedGroups.get(group).push(n)], the key being created at the end
    of the map when it is new. *)
Fixpoint record (group n : string) (ug : list (string * list string))
    : list (string * list string) :=
  match ug with
  | [] => [(group, [n])]
  | (g, ms) :: r =>
      if String.eqb g group then (g, ms ++ [n]) :: r
      else (g, ms) :: record group n r
  end.

Definition recordItem (ug : list (string * list string))
    (item : FormulaIngredient) : list (string * list string) :=
  fold_left
    (fun ug gm => if mem (iname item) (snd gm) then record (fst gm) (iname item) ug else ug)
    functionalGroups ug.

(** Every entry of the formula, in the order of the walk: families in
    key order, top then heart then base. *)
Definition allEntries (f : Formula) : list FormulaIngredient :=
  flat_map (fun kv => top (snd kv) ++ heart (snd kv) ++ base (snd kv)) f.

Definition usedGroups (f : Formula) : list (string * list string) :=
  fold_left recordItem (allEntries f) [].

Definition overlapNote (group : string) (members : list string) : string :=
  ("Functional overlap: " ++ join " + " members ++ " (both serve " ++ group
   ++ " role). Consider replacing one for complexity.")%string.

(** [members[1]] *)
Definition weakerName (members : list string) : option string :=
  nth_error members 1.

Definition dampen (acc : Formula * list string) (gm : string * list string)
    : Formula * list string :=
  if 1 <? len (snd gm)
  then (mapHeartBase
          (fun _ item =>
             if isHeroName (weakerName (snd gm)) (iname item)
             then rescale 0.6 item else item)
          (fst acc),
        snd acc ++ [overlapNote (fst gm) (snd gm)])
  else acc.

Definition passD (acc : Formula * list string) : Formula * list string :=
  fold_left dampen (usedGroups (fst acc)) acc.

(** Steps 6 and 7 on a formula and the notes written before them. *)
Definition resolveConflicts (h : option string) (acc : Formula * list string)
    : Formula * list string :=
  passD (passC h (passB h (passA h (fst acc)), snd acc)).

(** ** The engine and the facade *)

Record Options :=
  { o_dominant : string;
    o_secondary : string;
    o_accent : string;
    o_scentCode : string;
    o_concentration : option string;
    o_occasion : option string;
    o_intensity : option string }.

(** [scentCode.split('').reduce((a, c) => a + c.charCodeAt(0), 0)]; the
    sum is exact in a double for every string a JavaScript engine can
    hold.  A character of the model stands for one code unit. *)
Fixpoint charCodeSum (s : string) : Z :=
  match s with
  | EmptyString => 0
  | String c r => Z.of_nat (nat_of_ascii c) + charCodeSum r
  end.

Definition initialEnv (seed : Z) : Env :=
  {| used := []; picked := []; warnings := []; rngState := Js.ofZ seed |}.

(** Step 1 from the seed: the request with its hero, and the state
    after the draw. *)
Definition start (o : Options) (seed : Z) : Request * Env :=
  let (hero, e) := selectHero (o_dominant o) (initialEnv seed) in
  ({| dominant := o_dominant o; secondary := o_secondary o;
      accent := o_accent o; heroOf := hero |}, e).

Definition contextOf (o : Options) : ContextModifiers :=
  computeContext (o_concentration o) (o_occasion o) (o_intensity o).

(** The formula and the notes at the entry of step 6, with the state
    of the generation. *)
Definition assembled (o : Options) (seed : Z) : Formula * list string * Env :=
  let (rq, e) := start o seed in
  assemble rq (contextOf o) (o_concentration o) e.

Definition heroNameOf (o : Options) (seed : Z) : option string :=
  heroName (fst (start o seed)).

Definition generateFromSeed (o : Options) (seed : Z) : FormulaResult :=
  let '(acc, e) := assembled o seed in
  let (f, notes) := resolveConflicts (heroNameOf o seed) acc in
  {| formula := f;
     steeping := estimateSteeping (picked e) (o_concentration o);
     ingredientCount := len (picked e);
     ifraWarnings := warnings e;
     perfumerNotes := notes |}.

(** The process-wide slot [_lastMeta]. *)
Record Meta :=
  { m_steeping : SteepingInfo;
    m_ingredientCount : Z;
    m_ifraWarnings : list string;
    m_perfumerNotes : list string }.

Definition Global := option Meta.

Definition generateLocalFormula (o : Options) (_lastMeta : Global)
    : FormulaResult * Global :=
  let r := generateFromSeed o (charCodeSum (o_scentCode o)) in
  (r, Some {| m_steeping := steeping r;
              m_ingredientCount := ingredientCount r;
              m_ifraWarnings := ifraWarnings r;
              m_perfumerNotes := perfumerNotes r |}).

(** The facade; the promise it returns is resolved with the result of
    the local engine. *)
Definition generateSmartFormula (opts : Options) (_lastMeta : Global)
    : FormulaResult * Global :=
  generateLocalFormula opts _lastMeta.

Definition getFormulaMetadata (_lastMeta : Global) : Global := _lastMeta.

(** ** Stages of one generation *)

Definition requestOf (o : Options) (seed : Z) : Request := fst (start o seed).

(** The formula and the state that enter step 5b. *)
Definition enteringFloor (o : Options) (seed : Z) : Formula * Env :=
  filled (requestOf o seed) (contextOf o) (snd (start o seed)).

(** The records eligible for the floor, and those it adds. *)
Definition floorCandidates (o : Options) (seed : Z) : list RawIngredient :=
  fillSources (requestOf o seed) (used (snd (enteringFloor o seed))).

Definition floorPicksOf (o : Options) (seed : Z) : list RawIngredient :=
  fst (floorPicks (requestOf o seed) (fst (enteringFloor o seed))
         (snd (enteringFloor o seed))).

Definition afterFloor (o : Options) (seed : Z) : Formula :=
  fst (ingredientFloor (requestOf o seed) (fst (enteringFloor o seed))
         (snd (enteringFloor o seed))).

(** The formula and the notes that enter step 6. *)
Definition enteringResolution (o : Options) (seed : Z)
    : Formula * list string := fst (assembled o seed).

Definition afterPassA (o : Options) (seed : Z) : Formula :=
  passA (heroNameOf o seed) (fst (enteringResolution o seed)).

Definition afterPassB (o : Options) (seed : Z) : Formula :=
  passB (heroNameOf o seed) (afterPassA o seed).

Definition afterPassC (o : Options) (seed : Z) : Formula * list string :=
  passC (heroNameOf o seed)
    (afterPassB o seed, snd (enteringResolution o seed)).

Definition afterPassD (o : Options) (seed : Z) : Formula * list string :=
  passD (afterPassC o seed).

Definition seedOf (o : Options) : Z := charCodeSum (o_scentCode o).

(** The result that the facade returns in any state of the process. *)
Definition resultOf (o : Options) : FormulaResult :=
  fst (generateSmartFormula o None).

(** ** Readings of a formula *)

Definition heartBase (f : Formula) : list FormulaIngredient :=
  flat_map (fun kv => heart (snd kv) ++ base (snd kv)) f.

Definition tops (f : Formula) : list (string * list FormulaIngredient) :=
  map (fun kv => (fst kv, top (snd kv))) f.

Definition names (f : Formula) : list string := map iname (allEntries f).

Definition bands (f : Formula) : list Percent := map ipercent (allEntries f).

(** [P] holds of every entry of the layers heart and base, [P] being
    given the family key of the entry. *)
Definition ForallHB (P : string -> FormulaIngredient -> Prop) (f : Formula)
    : Prop :=
  Forall (fun kv => Forall (P (fst kv)) (heart (snd kv))
                    /\ Forall (P (fst kv)) (base (snd kv))) f.

(** The number of heart and base entries that satisfy [p]. *)
Definition countHB (p : FormulaIngredient -> bool) (f : Formula) : Z :=
  fold_right
    (fun kv c => countIf p (heart (snd kv)) + countIf p (base (snd kv)) + c)
    0 f.

(** [upper > 6.5], the test of 6b, and [upper > 5], the test of 6c. *)
Definition aboveCap (item : FormulaIngredient) : bool :=
  Js.gt (getUpperPct item) 6.5.

Definition isHeavy (item : FormulaIngredient) : bool :=
  Js.gt (getUpperPct item) 5.

Definition nonHero (h : option string) (item : FormulaIngredient) : bool :=
  negb (isHeroName h (iname item)).

(** * Properties *)

(** Closes a conjunction of equations between closed terms by
    evaluation. *)
Ltac evaluate :=
  repeat match goal with |- _ /\ _ => split end; vm_compute; reflexivity.

(** ** Determinism and seeding *)

Lemma result_is_afterPassD (o : Options) (seed : Z) :
  formula (generateFromSeed o seed) = fst (afterPassD o seed)
  /\ perfumerNotes (generateFromSeed o seed) = snd (afterPassD o seed).
Proof.
  unfold generateFromSeed, afterPassD, afterPassC, afterPassB, afterPassA,
    enteringResolution, resolveConflicts.
  destruct (assembled o seed) as [[f notes] e]; cbn [fst snd].
  destruct (passD _) as [f' notes']; split; reflexivity.
Qed.

(** C1: the facade is deterministic.  The result of
    [generateSmartFormula] on given options is the same value whatever
    the state of the process it runs in; in particular a second
    invocation, which runs in the state the first one left, returns the
    same [FormulaResult]: the same entries with the same names and
    percent strings in the same order, the same warnings and notes. *)
Theorem generateSmartFormula_deterministic :
  forall (opts : Options) (g1 g2 : Global),
    fst (generateSmartFormula opts g1) = fst (generateSmartFormula opts g2)
    /\ (let (r1, g') := generateSmartFormula opts g1 in
        let (r2, _) := generateSmartFormula opts g' in
        r1 = r2
        /\ names (formula r1) = names (formula r2)
        /\ map percentText (bands (formula r1))
           = map percentText (bands (formula r2))
        /\ ifraWarnings r1 = ifraWarnings r2
        /\ perfumerNotes r1 = perfumerNotes r2).
Proof.
  intros opts g1 g2; split; [reflexivity|].
  cbn; repeat split; reflexivity.
Qed.

Definition withScentCode (o : Options) (code : string) : Options :=
  {| o_dominant := o_dominant o; o_secondary := o_secondary o;
     o_accent := o_accent o; o_scentCode := code;
     o_concentration := o_concentration o; o_occasion := o_occasion o;
     o_intensity := o_intensity o |}.

Lemma generateFromSeed_ignores_code (o : Options) (code : string) (seed : Z) :
  generateFromSeed (withScentCode o code) seed = generateFromSeed o seed.
Proof. reflexivity. Qed.

(** C9: the seed is the sum of the character codes of the identifier,
    so two identifiers with the same sum give the same result when the
    other parameters are the same. *)
Theorem equal_code_sums_collide :
  forall (o : Options) (c1 c2 : string) (g1 g2 : Global),
    charCodeSum c1 = charCodeSum c2 ->
    fst (generateSmartFormula (withScentCode o c1) g1)
    = fst (generateSmartFormula (withScentCode o c2) g2).
Proof.
  intros o c1 c2 g1 g2 H.
  unfold generateSmartFormula, generateLocalFormula; cbn [fst o_scentCode withScentCode].
  rewrite !generateFromSeed_ignores_code.
  change (o_scentCode (withScentCode o c1)) with c1.
  change (o_scentCode (withScentCode o c2)) with c2.
  now rewrite H.
Qed.

Lemma charCodeSum_app (a b : string) :
  charCodeSum (a ++ b) = charCodeSum a + charCodeSum b.
Proof. induction a as [|c a IH]; cbn; [reflexivity | rewrite IH; lia]. Qed.

(** Rearranging the characters of an identifier keeps the sum. *)
Lemma charCodeSum_permutation (l1 l2 : list ascii) :
  Permutation l1 l2 ->
  charCodeSum (string_of_list_ascii l1) = charCodeSum (string_of_list_ascii l2).
Proof.
  induction 1 as [|x l l' _ IH|x y l|l l' l'' _ IH1 _ IH2]; cbn;
    [reflexivity | rewrite IH; reflexivity | lia | congruence].
Qed.

Definition owsOptions (d s a code : string) : Options :=
  {| o_dominant := d; o_secondary := s; o_accent := a; o_scentCode := code;
     o_concentration := None; o_occasion := None; o_intensity := None |}.

Lemma AB_and_BA_collide :
  fst (generateSmartFormula
         (withScentCode (owsOptions "oriental" "woody" "spicy" "") "AB") None)
  = fst (generateSmartFormula
           (withScentCode (owsOptions "oriental" "woody" "spicy" "") "BA") None).
Proof.
  apply (equal_code_sums_collide (owsOptions "oriental" "woody" "spicy" "")
           "AB" "BA" None None).
  reflexivity.
Defined.

(** ** Runs of the engine on given requests *)

(** C8: the duplicate pass has no exemption for the hero.  For the
    request oriental / woody / spicy with identifier OWS-003 the hero is
    the base note Amber Accord; Labdanum Absolute is picked into the
    oriental heart and is met first by the walk, so the hero is the
    second member recorded for the group labdanum-amber and its band
    4.6–8.5% leaves step 7 as 2.8–5.1%, sixty percent of it. *)
Theorem hero_dampened_by_duplicate_pass :
  let o := owsOptions "oriental" "woody" "spicy" "OWS-003" in
  let hero := "Amber Accord (in-house blend)" in
  heroNameOf o (seedOf o) = Some hero
  /\ lookup "labdanum-amber" (usedGroups (fst (afterPassC o (seedOf o))))
     = Some ["Labdanum Absolute"; hero]
  /\ exists item,
       itemAt "oriental" LBase 0 (fst (afterPassC o (seedOf o))) = Some item
       /\ iname item = hero
       /\ percentText (ipercent item) = "4.6–8.5%"
       /\ itemAt "oriental" LBase 0 (formula (resultOf o))
          = Some (rescale 0.6 item)
       /\ percentText (ipercent (rescale 0.6 item)) = "2.8–5.1%".
Proof.
  cbv zeta. split; [vm_compute; reflexivity|].
  split; [vm_compute; reflexivity|].
  eexists. split; [vm_compute; reflexivity|].
  evaluate.
Qed.

(** C3 as stated fails.  Both formulas below enter step 6 with no
    high-dominance entry and no upper bound above 6.5%.  The first holds
    two cedar materials, and step 7 takes Cedarwood Atlas EO from
    3.2–5.9% to 1.9–3.5%; the second holds three entries above 5% and no
    overlapping group, and step 6c changes it. *)
Lemma no_conflict_formulas_are_changed :
  (let o := owsOptions "citrus" "woody" "floral" "OWS-001" in
   let acc := enteringResolution o (seedOf o) in
   highDom (fst acc) = 0
   /\ existsb aboveCap (heartBase (fst acc)) = false
   /\ option_map ipercent (itemAt "woody" LHeart 0 (fst acc))
      = Some (Band 32 59)
   /\ option_map ipercent
        (itemAt "woody" LHeart 0
           (fst (resolveConflicts (heroNameOf o (seedOf o)) acc)))
      = Some (Band 19 35))
  /\ (let o := owsOptions "citrus" "aquatic" "floral" "C" in
      let acc := enteringResolution o (seedOf o) in
      highDom (fst acc) <= 1
      /\ existsb aboveCap (heartBase (fst acc)) = false
      /\ forallb (fun gm => len (snd gm) <=? 1) (usedGroups (fst acc)) = true
      /\ bands (fst (resolveConflicts (heroNameOf o (seedOf o)) acc))
         <> bands (fst acc)).
Proof.
  cbv zeta; split.
  - evaluate.
  - split; [vm_compute; discriminate|].
    split; [vm_compute; reflexivity|].
    split; [vm_compute; reflexivity|].
    intro H. vm_compute in H. discriminate H.
Qed.

(** ** Facts about arrays and sorting *)

Section SortFacts.
Context {A : Type} (after : A -> A -> bool).

Lemma insertSorted_perm (x : A) (l : list A) :
  Permutation (insertSorted after x l) (x :: l).
Proof.
  induction l as [|y l IH]; cbn; [reflexivity|].
  destruct (after x y); [|reflexivity].
  rewrite IH; apply perm_swap.
Qed.

Lemma sortBy_perm (l : list A) : Permutation (sortBy after l) l.
Proof.
  induction l as [|x l IH]; cbn; [reflexivity|].
  rewrite insertSorted_perm; now constructor.
Qed.

Lemma sortBy_In (x : A) (l : list A) : In x (sortBy after l) <-> In x l.
Proof.
  split; apply Permutation_in;
    [apply sortBy_perm | apply Permutation_sym, sortBy_perm].
Qed.

Lemma sortBy_length (l : list A) : len (sortBy after l) = len l.
Proof. unfold len; now rewrite (Permutation_length (sortBy_perm l)). Qed.

Hypothesis asym : forall a b, after a b = true -> after b a = false.

Lemma insertSorted_sorted (x : A) (l : list A) :
  Sorted (fun a b => after a b = false) l ->
  Sorted (fun a b => after a b = false) (insertSorted after x l).
Proof.
  induction 1 as [|y l Hs IH Hd]; cbn; [repeat constructor|].
  destruct (after x y) eqn:E.
  - constructor; [exact IH|].
    destruct l as [|z l]; cbn.
    + constructor; now apply asym.
    + destruct (after x z); constructor;
        [now inversion Hd | now apply asym].
  - constructor; [now constructor | now constructor].
Qed.

Lemma sortBy_sorted (l : list A) :
  Sorted (fun a b => after a b = false) (sortBy after l).
Proof.
  induction l as [|x l IH]; cbn; [constructor|].
  now apply insertSorted_sorted.
Qed.
End SortFacts.

Lemma len_nonneg {A} (l : list A) : 0 <= len l.
Proof. unfold len; lia. Qed.

Lemma len_app {A} (l1 l2 : list A) : len (l1 ++ l2) = len l1 + len l2.
Proof. unfold len; rewrite length_app; lia. Qed.

Lemma len_cons {A} (x : A) (l : list A) : len (x :: l) = 1 + len l.
Proof. unfold len; cbn [List.length]; lia. Qed.

Lemma len_map {A B} (g : A -> B) (l : list A) : len (map g l) = len l.
Proof. unfold len; now rewrite length_map. Qed.

Lemma countIf_nonneg {A} (p : A -> bool) (l : list A) : 0 <= countIf p l.
Proof. apply len_nonneg. Qed.

Lemma countIf_cons {A} (p : A -> bool) (x : A) (l : list A) :
  countIf p (x :: l) = (if p x then 1 else 0) + countIf p l.
Proof.
  unfold countIf; cbn [filter]; destruct (p x); [apply len_cons | lia].
Qed.

Lemma countIf_app {A} (p : A -> bool) (l1 l2 : list A) :
  countIf p (l1 ++ l2) = countIf p l1 + countIf p l2.
Proof. unfold countIf; rewrite filter_app; apply len_app. Qed.

Lemma lookup_In {A} (k : string) (l : list (string * A)) (v : A) :
  lookup k l = Some v -> In (k, v) l.
Proof.
  induction l as [|[k' w] l IH]; cbn; [discriminate|].
  destruct (String.eqb_spec k k') as [->|_].
  - intros [= ->]; now left.
  - intros H; right; now apply IH.
Qed.

Lemma In_firstn {A} (x : A) (n : nat) (l : list A) :
  In x (firstn n l) -> In x l.
Proof.
  revert l; induction n as [|n IH]; intros [|y l]; cbn; try tauto.
  intros [H|H]; [now left | right; now apply IH].
Qed.

(** ** Facts about the walks over a formula *)

Lemma layers_eta {A} (ls : Layers A) :
  mkLayers (top ls) (heart ls) (base ls) = ls.
Proof. now destruct ls. Qed.

Lemma map_id_on {A} (g : A -> A) (l : list A) :
  (forall x, In x l -> g x = x) -> map g l = l.
Proof.
  induction l as [|x l IH]; cbn; intros H; [reflexivity|].
  rewrite H by now left. rewrite IH; [reflexivity|].
  intros y Hy; apply H; now right.
Qed.

Lemma in_heartBase (f : Formula) (kv : string * Layers FormulaIngredient)
    (item : FormulaIngredient) :
  In kv f -> In item (heart (snd kv) ++ base (snd kv)) -> In item (heartBase f).
Proof. intros Hkv Hit; apply in_flat_map; now exists kv. Qed.

Lemma mapHeartBase_id (g : string -> FormulaIngredient -> FormulaIngredient)
    (f : Formula) :
  (forall fam item, In item (heartBase f) -> g fam item = item) ->
  mapHeartBase g f = f.
Proof.
  intros H; unfold mapHeartBase.
  apply map_id_on; intros [k ls] Hkv; cbn [fst snd].
  rewrite !map_id_on; [now rewrite layers_eta| |];
    intros x Hx; apply H; apply (in_heartBase f (k, ls)); auto;
    cbn [snd]; apply in_or_app; auto.
Qed.

Lemma tops_mapHeartBase (g : string -> FormulaIngredient -> FormulaIngredient)
    (f : Formula) : tops (mapHeartBase g f) = tops f.
Proof.
  unfold tops, mapHeartBase; rewrite map_map; apply map_ext; now intros [k ls].
Qed.

Lemma existsb_false {A} (p : A -> bool) (l : list A) (x : A) :
  existsb p l = false -> In x l -> p x = false.
Proof.
  intros H Hx; destruct (p x) eqn:E; [|reflexivity].
  rewrite <- H; symmetry; apply existsb_exists; now exists x.
Qed.

Lemma passA_quiet (h : option string) (f : Formula) :
  highDom f <= 1 -> passA h f = f.
Proof.
  intros H; unfold passA.
  destruct (Z.ltb_spec 1 (highDom f)); [lia | reflexivity].
Qed.

Lemma passB_quiet (h : option string) (f : Formula) :
  existsb aboveCap (heartBase f) = false -> passB h f = f.
Proof.
  intros H; unfold passB; apply mapHeartBase_id; intros _ item Hit.
  destruct (isHeroName h (iname item)); [reflexivity|].
  change (Js.gt (getUpperPct item) 6.5) with (aboveCap item).
  now rewrite (existsb_false _ _ _ H Hit).
Qed.

Lemma passD_quiet (acc : Formula * list string) :
  forallb (fun gm => len (snd gm) <=? 1) (usedGroups (fst acc)) = true ->
  passD acc = acc.
Proof.
  unfold passD; generalize (usedGroups (fst acc)) as ug.
  induction ug as [|gm ug IH]; cbn [fold_left forallb]; [reflexivity|].
  intros H; apply andb_prop in H as [H1 H2].
  unfold dampen at 2.
  apply Z.leb_le in H1.
  destruct (Z.ltb_spec 1 (len (snd gm))); [lia | now apply IH].
Qed.

(** The entries that 6c collects are the heart and base entries above
    5%. *)
Lemma heavyOfLayer_length (fam : string) (layer : Layer)
    (items : list FormulaIngredient) (idx : nat) :
  len (heavyOfLayer fam layer items idx) = countIf isHeavy items.
Proof.
  revert idx; induction items as [|item items IH]; intros idx;
    [reflexivity|].
  cbn [heavyOfLayer]; rewrite len_app, IH, countIf_cons.
  unfold isHeavy; destruct (Js.gt (getUpperPct item) 5); reflexivity.
Qed.

Lemma heavyItems_length (f : Formula) :
  len (heavyItems f) = countHB isHeavy f.
Proof.
  induction f as [|[k ls] f IH]; [reflexivity|].
  unfold heavyItems in *; cbn [flat_map countHB fold_right fst snd].
  rewrite !len_app, !heavyOfLayer_length, IH; reflexivity.
Qed.

(** C3, amended: a formula that enters step 6 with at most one
    high-dominance heart or base entry, no heart or base entry above
    6.5%, at most two heart or base entries above 5%, and no
    functional group met more than once, leaves step 7 as it entered,
    and no note is written. *)
Theorem quiet_formula_is_unchanged :
  forall (h : option string) (f : Formula) (notes : list string),
    highDom f <= 1 ->
    existsb aboveCap (heartBase f) = false ->
    countHB isHeavy f <= 2 ->
    forallb (fun gm => len (snd gm) <=? 1) (usedGroups f) = true ->
    resolveConflicts h (f, notes) = (f, notes).
Proof.
  intros h f notes HA HB HC HD.
  unfold resolveConflicts; cbn [fst snd].
  rewrite (passA_quiet h f HA), (passB_quiet h f HB).
  assert (passC h (f, notes) = (f, notes)) as ->.
  { unfold passC; cbn [fst]. rewrite heavyItems_length.
    destruct (Z.ltb_spec 2 (countHB isHeavy f)); [lia | reflexivity]. }
  now apply passD_quiet.
Qed.

Lemma quiet_formula_example :
  let o := owsOptions "green" "aromatic" "citrus" "GAC-001" in
  resolveConflicts (heroNameOf o (seedOf o)) (enteringResolution o (seedOf o))
  = enteringResolution o (seedOf o).
Proof.
  cbv zeta.
  rewrite (surjective_pairing
             (enteringResolution
                (owsOptions "green" "aromatic" "citrus" "GAC-001")
                (seedOf (owsOptions "green" "aromatic" "citrus" "GAC-001")))).
  apply quiet_formula_is_unchanged.
  - apply Z.leb_le; vm_compute; reflexivity.
  - vm_compute; reflexivity.
  - apply Z.leb_le; vm_compute; reflexivity.
  - vm_compute; reflexivity.
Defined.

(** ** The top layers are outside the reach of steps 6 and 7 *)

Lemma tops_setItemAt (fam : string) (layer : Layer) (idx : nat)
    (x : FormulaIngredient) (f : Formula) :
  layer <> LTop -> tops (setItemAt fam layer idx x f) = tops f.
Proof.
  intros Hl; induction f as [|[k w] f IH]; cbn [setItemAt]; [reflexivity|].
  destruct (String.eqb k fam).
  - unfold tops; cbn [map fst snd]; f_equal.
    destruct layer; [contradiction | reflexivity | reflexivity].
  - unfold tops in *; cbn [map fst snd]; now rewrite IH.
Qed.

Lemma heavyOfLayer_layer (fam : string) (layer : Layer)
    (items : list FormulaIngredient) (idx : nat) :
  Forall (fun x => hlayer x = layer) (heavyOfLayer fam layer items idx).
Proof.
  revert idx; induction items as [|item items IH]; intros idx;
    cbn [heavyOfLayer]; [constructor|].
  apply Forall_app; split; [|apply IH].
  destruct (Js.gt (getUpperPct item) 5); repeat constructor.
Qed.

Lemma heavyItems_layer (f : Formula) :
  Forall (fun x => hlayer x <> LTop) (heavyItems f).
Proof.
  unfold heavyItems; induction f as [|[k ls] f IH]; cbn [flat_map];
    [constructor|].
  repeat (apply Forall_app; split); [| |exact IH];
    eapply Forall_impl; try apply heavyOfLayer_layer;
    cbn; intros x ->; discriminate.
Qed.

Lemma tops_reduceAt (x : HeavyItem) (acc : Formula * list string) :
  hlayer x <> LTop -> tops (fst (reduceAt x acc)) = tops (fst acc).
Proof.
  intros Hl; unfold reduceAt.
  destruct (itemAt _ _ _ _); [|reflexivity].
  cbn [fst]; now apply tops_setItemAt.
Qed.

Lemma tops_reduceLoop (h : option string) (total : Z) (todo : list HeavyItem) :
  Forall (fun x => hlayer x <> LTop) todo ->
  forall reductions acc,
    tops (fst (reduceLoop h total todo reductions acc)) = tops (fst acc).
Proof.
  induction 1 as [|x todo Hx _ IH]; intros reductions acc; cbn [reduceLoop];
    [reflexivity|].
  destruct (isHeroName h (hname x)); [apply IH|].
  destruct (total - reductions <=? 2); [reflexivity|].
  rewrite IH; now apply tops_reduceAt.
Qed.

Lemma tops_passC (h : option string) (acc : Formula * list string) :
  tops (fst (passC h acc)) = tops (fst acc).
Proof.
  unfold passC. destruct (2 <? len (heavyItems (fst acc))); [|reflexivity].
  apply tops_reduceLoop.
  rewrite Forall_forall; intros x Hx.
  apply sortBy_In in Hx.
  revert x Hx; rewrite <- Forall_forall; apply heavyItems_layer.
Qed.

Lemma tops_passD (acc : Formula * list string) :
  tops (fst (passD acc)) = tops (fst acc).
Proof.
  unfold passD; generalize (usedGroups (fst acc)) as ug; revert acc.
  intros acc ug; revert acc; induction ug as [|gm ug IH]; intros acc;
    cbn [fold_left]; [reflexivity|].
  rewrite IH; unfold dampen.
  destruct (1 <? len (snd gm)); [|reflexivity].
  cbn [fst]; apply tops_mapHeartBase.
Qed.

(** No pass of steps 6 and 7 touches an entry of a top layer. *)
Lemma conflict_passes_keep_top_layers (h : option string)
    (acc : Formula * list string) :
  tops (passA h (fst acc)) = tops (fst acc)
  /\ tops (passB h (passA h (fst acc))) = tops (fst acc)
  /\ tops (fst (passC h (passB h (passA h (fst acc)), snd acc)))
     = tops (fst acc)
  /\ tops (fst (resolveConflicts h acc)) = tops (fst acc).
Proof.
  assert (HA : tops (passA h (fst acc)) = tops (fst acc)).
  { unfold passA; destruct (1 <? highDom (fst acc)); [|reflexivity].
    apply tops_mapHeartBase. }
  assert (HB : tops (passB h (passA h (fst acc))) = tops (fst acc)).
  { unfold passB; now rewrite tops_mapHeartBase. }
  assert (HC : tops (fst (passC h (passB h (passA h (fst acc)), snd acc)))
               = tops (fst acc)).
  { now rewrite tops_passC. }
  repeat split; auto.
  unfold resolveConflicts; now rewrite tops_passD.
Qed.

(** ** Counting entries *)

Lemma total_shift (f : Formula) (a : Z) :
  fold_left (fun c kv => c + layerCount (snd kv)) f a
  = a + totalIngredientsCount f.
Proof.
  unfold totalIngredientsCount; revert a.
  induction f as [|kv f IH]; intros a; cbn [fold_left]; [lia|].
  rewrite IH, (IH (0 + _)); lia.
Qed.

Lemma total_cons (kv : string * Layers FormulaIngredient) (f : Formula) :
  totalIngredientsCount (kv :: f)
  = layerCount (snd kv) + totalIngredientsCount f.
Proof.
  unfold totalIngredientsCount at 1; cbn [fold_left]; rewrite total_shift; lia.
Qed.

Lemma total_nil : totalIngredientsCount [] = 0.
Proof. reflexivity. Qed.

Lemma total_mapHeartBase (g : string -> FormulaIngredient -> FormulaIngredient)
    (f : Formula) :
  totalIngredientsCount (mapHeartBase g f) = totalIngredientsCount f.
Proof.
  induction f as [|[k ls] f IH]; [reflexivity|].
  cbn [mapHeartBase map] in *; rewrite !total_cons; unfold mapHeartBase in IH.
  rewrite IH; unfold layerCount; cbn [fst snd top heart base].
  now rewrite !len_map.
Qed.

Lemma replaceNth_length {A} (idx : nat) (x : A) (l : list A) :
  len (replaceNth idx x l) = len l.
Proof.
  revert idx; induction l as [|y l IH]; intros [|idx]; cbn [replaceNth];
    try reflexivity.
  rewrite !len_cons; now rewrite IH.
Qed.

Lemma layerCount_setLayer (layer : Layer) (v : list FormulaIngredient)
    (ls : Layers FormulaIngredient) :
  layerCount (setLayer layer v ls)
  = layerCount ls - len (getLayer layer ls) + len v.
Proof. destruct layer; unfold layerCount; cbn; lia. Qed.

Lemma total_setItemAt (fam : string) (layer : Layer) (idx : nat)
    (x : FormulaIngredient) (f : Formula) :
  totalIngredientsCount (setItemAt fam layer idx x f) = totalIngredientsCount f.
Proof.
  induction f as [|[k w] f IH]; cbn [setItemAt]; [reflexivity|].
  destruct (String.eqb k fam); rewrite !total_cons; cbn [snd].
  - rewrite layerCount_setLayer, replaceNth_length; lia.
  - now rewrite IH.
Qed.

Lemma total_pushItem (fam : string) (layer : Layer) (item : FormulaIngredient)
    (f : Formula) :
  getFamily fam f <> None ->
  totalIngredientsCount (pushItem fam layer item f)
  = totalIngredientsCount f + 1.
Proof.
  unfold getFamily; induction f as [|[k w] f IH]; cbn [lookup pushItem];
    [congruence|].
  rewrite String.eqb_sym.
  destruct (String.eqb k fam); intros H; rewrite !total_cons; cbn [snd].
  - rewrite layerCount_setLayer, len_app, len_cons; unfold len at 3; cbn; lia.
  - rewrite IH by exact H; lia.
Qed.

Lemma getFamily_setFamily_same (fam : string) (v : Layers FormulaIngredient)
    (f : Formula) : getFamily fam (setFamily fam v f) = Some v.
Proof.
  unfold getFamily; induction f as [|[k w] f IH]; cbn [setFamily lookup].
  - now rewrite String.eqb_refl.
  - destruct (String.eqb_spec k fam) as [->|Hne]; cbn [lookup].
    + now rewrite String.eqb_refl.
    + destruct (String.eqb_spec fam k); [congruence | exact IH].
Qed.

Lemma getFamily_setFamily_other (fam k : string)
    (v : Layers FormulaIngredient) (f : Formula) :
  k <> fam -> getFamily k (setFamily fam v f) = getFamily k f.
Proof.
  intros Hne; unfold getFamily;
    induction f as [|[k' w] f IH]; cbn [setFamily lookup].
  - destruct (String.eqb_spec k fam); [contradiction | reflexivity].
  - destruct (String.eqb_spec k' fam) as [->|Hk]; cbn [lookup].
    + destruct (String.eqb_spec k fam); [contradiction | reflexivity].
    + destruct (String.eqb k k'); [reflexivity | exact IH].
Qed.

Lemma total_setFamily_absent (fam : string) (v : Layers FormulaIngredient)
    (f : Formula) :
  getFamily fam f = None ->
  totalIngredientsCount (setFamily fam v f)
  = totalIngredientsCount f + layerCount v.
Proof.
  unfold getFamily; induction f as [|[k w] f IH]; cbn [setFamily lookup].
  - intros _; rewrite total_cons, total_nil; cbn [snd]; lia.
  - rewrite String.eqb_sym; destruct (String.eqb k fam); [discriminate|].
    intros H; rewrite !total_cons, IH by exact H; lia.
Qed.

Lemma ensureFamily_present (fam : string) (f : Formula) :
  getFamily fam (ensureFamily fam f) <> None.
Proof.
  unfold ensureFamily; destruct (getFamily fam f) eqn:E; [congruence|].
  rewrite getFamily_setFamily_same; discriminate.
Qed.

Lemma total_ensureFamily (fam : string) (f : Formula) :
  totalIngredientsCount (ensureFamily fam f) = totalIngredientsCount f.
Proof.
  unfold ensureFamily; destruct (getFamily fam f) eqn:E; [reflexivity|].
  rewrite total_setFamily_absent by exact E. cbn; lia.
Qed.

(** A floor pick or an injected record adds one entry. *)
Definition place (fam : string) (layer : Layer) (item : FormulaIngredient)
    (f : Formula) : Formula := pushItem fam layer item (ensureFamily fam f).

Lemma total_place (fam : string) (layer : Layer) (item : FormulaIngredient)
    (f : Formula) :
  totalIngredientsCount (place fam layer item f) = totalIngredientsCount f + 1.
Proof.
  unfold place; rewrite total_pushItem by apply ensureFamily_present.
  now rewrite total_ensureFamily.
Qed.

Lemma total_reduceLoop (h : option string) (total : Z) (todo : list HeavyItem) :
  forall reductions acc,
    totalIngredientsCount (fst (reduceLoop h total todo reductions acc))
    = totalIngredientsCount (fst acc).
Proof.
  induction todo as [|x todo IH]; intros reductions acc; cbn [reduceLoop];
    [reflexivity|].
  destruct (isHeroName h (hname x)); [apply IH|].
  destruct (total - reductions <=? 2); [reflexivity|].
  rewrite IH; unfold reduceAt.
  destruct (itemAt _ _ _ _); [|reflexivity].
  cbn [fst]; apply total_setItemAt.
Qed.

Lemma total_passD (acc : Formula * list string) :
  totalIngredientsCount (fst (passD acc)) = totalIngredientsCount (fst acc).
Proof.
  unfold passD; generalize (usedGroups (fst acc)) as ug; intros ug.
  revert acc; induction ug as [|gm ug IH]; intros acc; cbn [fold_left];
    [reflexivity|].
  rewrite IH; unfold dampen.
  destruct (1 <? len (snd gm)); [|reflexivity].
  cbn [fst]; apply total_mapHeartBase.
Qed.

(** Steps 6 and 7 neither add nor remove an entry. *)
Lemma total_resolveConflicts (h : option string) (acc : Formula * list string) :
  totalIngredientsCount (fst (resolveConflicts h acc))
  = totalIngredientsCount (fst acc).
Proof.
  unfold resolveConflicts; rewrite total_passD.
  unfold passC; cbn [fst].
  assert (HB : totalIngredientsCount (passB h (passA h (fst acc)))
               = totalIngredientsCount (fst acc)).
  { unfold passB; rewrite total_mapHeartBase; unfold passA.
    destruct (1 <? highDom (fst acc)); [apply total_mapHeartBase | reflexivity]. }
  destruct (2 <? len _); [|exact HB].
  rewrite total_reduceLoop; exact HB.
Qed.

(** ** Step 5b: the ingredient floor *)

Lemma scoreFills_fst (rq : Request) (cands : list RawIngredient) :
  forall idx e, map fst (fst (scoreFills rq cands idx e)) = cands.
Proof.
  induction cands as [|c cands IH]; intros idx e; [reflexivity|].
  cbn [scoreFills]; unfold bind, rng.
  destruct (seededRng (rngState e) _) as [s' r].
  specialize (IH (idx + 1)
    {| used := used e; picked := picked e; warnings := warnings e;
       rngState := s' |}).
  destruct (scoreFills rq cands (idx + 1) _) as [more e'].
  cbn [fst snd map ret] in *; now rewrite IH.
Qed.

Lemma in_map_fst_firstn {A B} (x : A) (n : nat) (l : list (A * B)) :
  In x (map fst (firstn n l)) -> In x (map fst l).
Proof.
  intros H; apply in_map_iff in H as [p [<- Hp]].
  apply in_map, (In_firstn _ _ _ Hp).
Qed.

Lemma hasName_In (p : RawIngredient) (l : list RawIngredient) :
  In p l -> hasName (name p) l = true.
Proof.
  intros H; apply existsb_exists; exists p; split; [exact H|].
  apply String.eqb_refl.
Qed.

Lemma hasName_app (n : string) (l1 l2 : list RawIngredient) :
  hasName n (l1 ++ l2) = hasName n l1 || hasName n l2.
Proof. apply existsb_app. Qed.

(** What the floor may pick. *)
Lemma fillSources_spec (rq : Request) (u : list string) (p : RawIngredient) :
  In p (fillSources rq u) ->
  role p = Character
  /\ mem (name p) u = false
  /\ In p (dbLayer heart (secondary rq) ++ dbLayer heart (accent rq)
           ++ dbLayer base (secondary rq) ++ dbLayer base (accent rq)).
Proof.
  unfold fillSources; intros H; apply filter_In in H as [Hin Hb].
  apply andb_prop in Hb as [Hu Hr].
  repeat split; [|now apply negb_true_iff in Hu | exact Hin].
  destruct (role p); (reflexivity || discriminate).
Qed.

(** Where a pick goes: a family among secondary and accent whose
    database lists the name, in the layer that lists it, heart first. *)
Lemma fillTarget_spec (rq : Request) (u : list string) (p : RawIngredient) :
  In p (fillSources rq u) ->
  let fam := fst (fillTarget rq p) in
  (fam = secondary rq \/ fam = accent rq)
  /\ (snd (fillTarget rq p) = LHeart
      /\ hasName (name p) (dbLayer heart fam) = true
      \/ snd (fillTarget rq p) = LBase
         /\ hasName (name p) (dbLayer heart fam) = false
         /\ hasName (name p) (dbLayer base fam) = true).
Proof.
  intros H; apply fillSources_spec in H as (_ & _ & Hin).
  cbv zeta; unfold fillTarget.
  destruct (hasName (name p) (dbLayer heart (secondary rq)
                              ++ dbLayer base (secondary rq))) eqn:Esec;
    cbn [fst snd].
  - split; [now left|].
    destruct (hasName (name p) (dbLayer heart (secondary rq))) eqn:Eh;
      cbn [fst snd]; [left; auto | right].
    rewrite hasName_app, Eh in Esec; auto.
  - split; [now right|].
    rewrite hasName_app in Esec; apply orb_false_elim in Esec as [E1 E2].
    assert (Hacc : hasName (name p) (dbLayer heart (accent rq)) = true
                   \/ hasName (name p) (dbLayer base (accent rq)) = true).
    { repeat (apply in_app_or in Hin as [Hin|Hin]).
      - apply hasName_In in Hin; congruence.
      - left; now apply hasName_In.
      - apply hasName_In in Hin; congruence.
      - right; now apply hasName_In. }
    destruct (hasName (name p) (dbLayer heart (accent rq))) eqn:Eh;
      cbn [fst snd]; [left; auto | right].
    destruct Hacc; [discriminate | auto].
Qed.

(** The formula after one floor pick. *)
Definition placeFill (rq : Request) (f : Formula) (p : RawIngredient)
    : Formula :=
  place (fst (fillTarget rq p)) (snd (fillTarget rq p)) (scaledEntry 0.4 p) f.

Lemma foldM_addFill (rq : Request) (picks : list RawIngredient) :
  forall f e,
    fst (foldM (addFill rq) f picks e) = fold_left (placeFill rq) picks f.
Proof.
  induction picks as [|p picks IH]; intros f e; [reflexivity|].
  cbn [foldM fold_left]; unfold bind at 1.
  unfold addFill at 1, bind, useName, pushPicked, ret.
  unfold placeFill at 2, place.
  destruct (fillTarget rq p) as [fam layer]; cbn [fst snd].
  apply IH.
Qed.

Lemma total_fold_placeFill (rq : Request) (picks : list RawIngredient) :
  forall f,
    totalIngredientsCount (fold_left (placeFill rq) picks f)
    = totalIngredientsCount f + len picks.
Proof.
  induction picks as [|p picks IH]; intros f; cbn [fold_left].
  - unfold len; cbn; lia.
  - rewrite IH; unfold placeFill; rewrite total_place, len_cons; lia.
Qed.

Lemma firstn_len {A} (n : Z) (l : list A) :
  0 <= n <= len l -> len (firstn (Z.to_nat n) l) = n.
Proof.
  unfold len; intros H; rewrite length_firstn, Nat.min_l; lia.
Qed.

Lemma floorPicks_spec (rq : Request) (f : Formula) (e : Env) :
  let picks := fst (floorPicks rq f e) in
  let srcs := fillSources rq (used e) in
  Forall (fun p => In p srcs) picks
  /\ (mem (dominant rq) heavyFamilies = true ->
      totalIngredientsCount f < 9 ->
      len picks = Z.min (len srcs) (9 - totalIngredientsCount f)).
Proof.
  cbv zeta; unfold floorPicks.
  destruct (mem (dominant rq) heavyFamilies); cbn [andb];
    [|split; [constructor | discriminate]].
  destruct (Z.ltb_spec (totalIngredientsCount f) 9);
    [|split; [constructor | lia]].
  unfold bind, getUsed, ret.
  pose proof (scoreFills_fst rq (fillSources rq (used e)) 0 e) as Hs.
  destruct (scoreFills rq (fillSources rq (used e)) 0 e) as [scored e'].
  cbn [fst] in *.
  assert (Hlen : len (sortBy byScoreDesc scored) = len (fillSources rq (used e))).
  { rewrite sortBy_length, <- Hs; symmetry; apply len_map. }
  split.
  - apply Forall_forall; intros p Hp.
    apply in_map_fst_firstn in Hp.
    rewrite <- Hs.
    apply in_map_iff in Hp as [q [<- Hq]].
    apply in_map; now apply sortBy_In in Hq.
  - intros _ _; rewrite len_map, firstn_len; [now rewrite Hlen|].
    pose proof (len_nonneg (sortBy byScoreDesc scored)); lia.
Qed.

(** ** Step 5c adds entries only *)

Lemma total_foldM_inject (rq : Request) (l : list RawIngredient) :
  forall acc e,
    totalIngredientsCount (fst (fst (foldM (inject rq) acc l e)))
    = totalIngredientsCount (fst acc) + len l.
Proof.
  induction l as [|s l IH]; intros acc e; cbn [foldM].
  - unfold ret, len; cbn; lia.
  - unfold bind at 1, inject at 1, bind, useName, pushPicked, ret.
    rewrite IH; cbn [fst].
    change (pushItem (dominant rq) LBase (scaledEntry 0.4 s)
              (ensureFamily (dominant rq) (fst acc)))
      with (place (dominant rq) LBase (scaledEntry 0.4 s) (fst acc)).
    rewrite total_place, len_cons; lia.
Qed.

Lemma total_structuralInjection (rq : Request) (conc : option string)
    (f : Formula) (e : Env) :
  totalIngredientsCount f
  <= totalIngredientsCount (fst (fst (structuralInjection rq conc f e))).
Proof.
  unfold structuralInjection, bind, getPicked, getUsed.
  destruct (_ && _ && _); [|unfold ret; cbn [fst]; lia].
  rewrite total_foldM_inject; cbn [fst].
  pose proof (len_nonneg
    (firstn (Z.to_nat (Z.min 2 (8 - totalIngredientsCount f)))
       (structuralCandidates rq (used e)))); lia.
Qed.

Lemma requestOf_families (o : Options) (seed : Z) :
  dominant (requestOf o seed) = o_dominant o
  /\ secondary (requestOf o seed) = o_secondary o
  /\ accent (requestOf o seed) = o_accent o.
Proof.
  unfold requestOf, start; destruct (selectHero _ _); repeat split.
Qed.

(** The formula that enters step 6 is what step 5c makes of the formula
    that leaves the floor. *)
Lemma enteringResolution_unfold (o : Options) (seed : Z) :
  exists e,
    enteringResolution o seed
    = fst (structuralInjection (requestOf o seed) (o_concentration o)
             (afterFloor o seed) e).
Proof.
  unfold enteringResolution, assembled, afterFloor, enteringFloor, requestOf.
  destruct (start o seed) as [rq e0]; cbn [fst snd].
  unfold assemble, bind.
  destruct (filled rq (contextOf o) e0) as [f0 e1]; cbn [fst snd].
  destruct (ingredientFloor rq f0 e1) as [f1 e2]; cbn [fst].
  now exists e2.
Qed.

Lemma afterFloor_unfold (o : Options) (seed : Z) :
  afterFloor o seed
  = fold_left (placeFill (requestOf o seed)) (floorPicksOf o seed)
      (fst (enteringFloor o seed)).
Proof.
  unfold afterFloor, floorPicksOf, ingredientFloor, bind.
  destruct (floorPicks _ _ _) as [picks e']; cbn [fst].
  apply foldM_addFill.
Qed.

(** C6, amended: when the dominant family is heavy, the returned
    formula holds at least nine entries whenever the entries present at
    the start of step 5b and the records eligible for the top-up number
    at least nine together.  The eligible records are the unused
    character-role records of the heart and base lists of the secondary
    and accent families; every record the floor adds is one of them, it
    is added at 0.4 times its midpoint, to the secondary or accent
    family whose database lists its name (secondary first), in the
    layer that lists it (heart first). *)
Theorem heavy_floor_when_candidates_suffice :
  forall (o : Options) (seed : Z),
    mem (o_dominant o) heavyFamilies = true ->
    9 <= totalIngredientsCount (fst (enteringFloor o seed))
         + len (floorCandidates o seed) ->
    9 <= totalIngredientsCount (formula (generateFromSeed o seed))
    /\ Forall
         (fun p =>
            In p (floorCandidates o seed)
            /\ role p = Character
            /\ mem (name p) (used (snd (enteringFloor o seed))) = false
            /\ In p (dbLayer heart (o_secondary o) ++ dbLayer heart (o_accent o)
                     ++ dbLayer base (o_secondary o)
                     ++ dbLayer base (o_accent o))
            /\ (fst (fillTarget (requestOf o seed) p) = o_secondary o
                \/ fst (fillTarget (requestOf o seed) p) = o_accent o)
            /\ hasName (name p)
                 (dbLayer (match snd (fillTarget (requestOf o seed) p) with
                           | LHeart => heart
                           | _ => base
                           end)
                    (fst (fillTarget (requestOf o seed) p))) = true
            /\ ipercent (scaledEntry 0.4 p)
               = makeRange (parseMidpoint (percent p) * 0.4)%float)
         (floorPicksOf o seed)
    /\ afterFloor o seed
       = fold_left
           (fun f p =>
              place (fst (fillTarget (requestOf o seed) p))
                (snd (fillTarget (requestOf o seed) p)) (scaledEntry 0.4 p) f)
           (floorPicksOf o seed) (fst (enteringFloor o seed)).
Proof.
  intros o seed Hheavy Henough.
  destruct (requestOf_families o seed) as (Hd & Hs & Ha).
  pose proof (floorPicks_spec (requestOf o seed) (fst (enteringFloor o seed))
                (snd (enteringFloor o seed))) as [Hin Hlen].
  cbv zeta in Hin, Hlen.
  fold (floorPicksOf o seed) in Hin, Hlen.
  fold (floorCandidates o seed) in Hin, Hlen.
  split; [|split].
  - destruct (result_is_afterPassD o seed) as [-> _].
    change (fst (afterPassD o seed))
      with (fst (resolveConflicts (heroNameOf o seed)
                   (enteringResolution o seed))).
    rewrite total_resolveConflicts.
    destruct (enteringResolution_unfold o seed) as [e ->].
    eapply Z.le_trans; [|apply total_structuralInjection].
    rewrite afterFloor_unfold, total_fold_placeFill.
    destruct (Z.ltb_spec (totalIngredientsCount (fst (enteringFloor o seed))) 9)
      as [Hlt|Hge].
    + rewrite Hlen by (rewrite ?Hd; auto). lia.
    + pose proof (len_nonneg (floorPicksOf o seed)); lia.
  - eapply Forall_impl; [|exact Hin].
    intros p Hp; cbv beta.
    pose proof (fillSources_spec _ _ _ Hp) as (Hr & Hu & Hl).
    pose proof (fillTarget_spec _ _ _ Hp) as [Hfam Hlay].
    cbv zeta in Hfam, Hlay; rewrite Hs, Ha in *.
    repeat split; auto.
    destruct Hlay as [[-> H1] | [-> [_ H2]]]; assumption.
  - apply afterFloor_unfold.
Qed.

(** ** Step 7: which entries are dampened *)

Lemma getFamily_mapHeartBase
    (g : string -> FormulaIngredient -> FormulaIngredient) (fam : string)
    (f : Formula) :
  getFamily fam (mapHeartBase g f)
  = option_map
      (fun ls => mkLayers (top ls) (map (g fam) (heart ls))
                   (map (g fam) (base ls)))
      (getFamily fam f).
Proof.
  unfold getFamily, mapHeartBase.
  induction f as [|[k ls] f IH]; cbn [map lookup fst snd]; [reflexivity|].
  destruct (String.eqb_spec fam k) as [->|_]; [reflexivity | exact IH].
Qed.

(** An entry of a heart or base layer after a walk. *)
Lemma itemAt_mapHeartBase
    (g : string -> FormulaIngredient -> FormulaIngredient) (fam : string)
    (layer : Layer) (idx : nat) (f : Formula) :
  itemAt fam layer idx (mapHeartBase g f)
  = option_map (match layer with LTop => fun x => x | _ => g fam end)
      (itemAt fam layer idx f).
Proof.
  unfold itemAt; rewrite getFamily_mapHeartBase.
  destruct (getFamily fam f) as [ls|]; [|reflexivity]; cbn [option_map].
  destruct layer; cbn [getLayer top heart base];
    [now destruct (nth_error (top ls) idx) | |]; apply nth_error_map.
Qed.

Lemma mapHeartBase_compose
    (g1 g2 : string -> FormulaIngredient -> FormulaIngredient) (f : Formula) :
  mapHeartBase g2 (mapHeartBase g1 f)
  = mapHeartBase (fun fam item => g2 fam (g1 fam item)) f.
Proof.
  unfold mapHeartBase; rewrite map_map; apply map_ext; intros [k ls].
  cbn [fst snd top heart base]; now rewrite !map_map.
Qed.

Lemma mapHeartBase_ext
    (g1 g2 : string -> FormulaIngredient -> FormulaIngredient) (f : Formula) :
  (forall fam item, g1 fam item = g2 fam item) ->
  mapHeartBase g1 f = mapHeartBase g2 f.
Proof.
  intros H; unfold mapHeartBase; apply map_ext; intros [k ls]; cbn [fst snd].
  rewrite (map_ext _ _ (H k) (heart ls)), (map_ext _ _ (H k) (base ls)).
  reflexivity.
Qed.

(** What step 7 does to one heart or base entry, group after group. *)
Definition dampenStep (item : FormulaIngredient) (gm : string * list string)
    : FormulaIngredient :=
  if (1 <? len (snd gm)) && isHeroName (weakerName (snd gm)) (iname item)
  then rescale 0.6 item else item.

Definition dampenItem (ug : list (string * list string))
    (item : FormulaIngredient) : FormulaIngredient :=
  fold_left dampenStep ug item.

Lemma iname_rescale (c : float) (item : FormulaIngredient) :
  iname (rescale c item) = iname item.
Proof. reflexivity. Qed.

Lemma iname_dampenStep (item : FormulaIngredient) (gm : string * list string) :
  iname (dampenStep item gm) = iname item.
Proof. unfold dampenStep; now destruct (_ && _). Qed.

Lemma dampenItem_cons (gm : string * list string)
    (ug : list (string * list string)) (item : FormulaIngredient) :
  dampenItem (gm :: ug) item = dampenItem ug (dampenStep item gm).
Proof. reflexivity. Qed.

Lemma fold_dampen (ug : list (string * list string)) :
  forall acc,
    fold_left dampen ug acc
    = (mapHeartBase (fun _ item => dampenItem ug item) (fst acc),
       snd acc
       ++ map (fun gm => overlapNote (fst gm) (snd gm))
            (filter (fun gm => 1 <? len (snd gm)) ug)).
Proof.
  induction ug as [|gm ug IH]; intros [f notes]; cbn [fold_left fst snd].
  - cbn [filter map]; rewrite app_nil_r; f_equal.
    symmetry; now apply mapHeartBase_id.
  - rewrite IH; unfold dampen at 1 2; cbn [filter].
    destruct (1 <? len (snd gm)) eqn:E; cbn [fst snd map].
    + rewrite mapHeartBase_compose, <- app_assoc; f_equal.
      apply mapHeartBase_ext; intros _ item.
      rewrite dampenItem_cons; unfold dampenStep; now rewrite E.
    + f_equal.
      apply mapHeartBase_ext; intros _ item.
      rewrite dampenItem_cons; unfold dampenStep; now rewrite E.
Qed.








(** No name belongs to two groups of the table. *)
Fixpoint distinctb (l : list string) : bool :=
  match l with
  | [] => true
  | x :: r => negb (mem x r) && distinctb r
  end.

Lemma distinctb_NoDup (l : list string) : distinctb l = true -> NoDup l.
Proof.
  induction l as [|x l IH]; cbn [distinctb]; intros H; [constructor|].
  apply andb_prop in H as [H1 H2]; constructor; [|now apply IH].
  intros Hin; apply negb_true_iff in H1.
  assert (mem x l = true); [|congruence].
  apply existsb_exists; exists x; split; [exact Hin | apply String.eqb_refl].
Qed.










(** ** The floor and the overwritten family, at given requests *)

Definition familyRecords (fam : string) : list RawIngredient :=
  dbLayer top fam ++ dbLayer heart fam ++ dbLayer base fam.

(** C6 as stated fails.  For oriental / fresh / clean the three families
    hold 25 records, 16 of them under a name the result does not use, yet
    the formula has 8 entries: no unused character-role record is left
    in the heart and base lists of fresh and clean. *)
Lemma floor_missed_despite_large_pools :
  let o := owsOptions "oriental" "fresh" "clean" "OWS-001" in
  let pool := familyRecords "oriental" ++ familyRecords "fresh"
              ++ familyRecords "clean" in
  mem (o_dominant o) heavyFamilies = true
  /\ len pool = 25
  /\ len (filter (fun i => negb (mem (name i) (names (formula (resultOf o)))))
            pool) = 16
  /\ floorCandidates o (seedOf o) = []
  /\ totalIngredientsCount (formula (resultOf o)) = 8.
Proof. cbv zeta; evaluate. Qed.

Lemma heavy_floor_example :
  let o := owsOptions "oriental" "woody" "spicy" "OWS-001" in
  9 <= totalIngredientsCount (formula (generateFromSeed o (seedOf o))).
Proof.
  cbv zeta.
  refine (proj1 (heavy_floor_when_candidates_suffice _ _ _ _)).
  - vm_compute; reflexivity.
  - apply Z.leb_le; vm_compute; reflexivity.
Defined.


(** ** Bands in tenths

    The facts about rounding that the passes need are facts about
    finitely many doubles: the bands that the database and the
    multipliers of the engine can produce stay below 40%.  They are
    checked by evaluation on every number of tenths up to that limit. *)

Definition bandLimit : N := 400.

Definition okPercent (p : Percent) : bool :=
  match p with
  | Band lo hi => (lo <=? bandLimit)%N && (hi <=? bandLimit)%N
  | Published _ => false
  end.

(** A band within the limit. *)
Definition okBand (item : FormulaIngredient) : bool :=
  okPercent (ipercent item).

(** A band within the limit whose upper end is not above 6.5%. *)
Definition capped (item : FormulaIngredient) : bool :=
  okBand item && negb (aboveCap item).

(** [Math.round(k/10 * c * 10) / 10], in tenths. *)
Definition scaleTenths (c : float) (k : N) : N :=
  tenths (Js.ofZ (Js.round (ofTenths k * c * 10)) / 10)%float.

Definition upto (n : N) : list N := map N.of_nat (seq 0 (S (N.to_nat n))).

Lemma upto_In (k n : N) : (k <= n)%N -> In k (upto n).
Proof.
  intros H; unfold upto; apply in_map_iff; exists (N.to_nat k); split;
    [apply N2Nat.id | apply in_seq; lia].
Qed.

Lemma forall_upto (P : N -> bool) (n : N) :
  forallb P (upto n) = true -> forall k, (k <= n)%N -> P k = true.
Proof.
  intros H k Hk; rewrite forallb_forall in H; apply H, upto_In, Hk.
Qed.

Definition bandOf (lo hi : N) : FormulaIngredient :=
  {| iname := ""; ipercent := Band lo hi; isupplier := "";
     normalizedPct := None |}.

Lemma getUpperPct_Band (item : FormulaIngredient) (lo hi : N) :
  ipercent item = Band lo hi -> getUpperPct item = ofTenths hi.
Proof. unfold getUpperPct; now intros ->. Qed.

Lemma getLowerPct_Band (item : FormulaIngredient) (lo hi : N) :
  ipercent item = Band lo hi -> getLowerPct item = ofTenths lo.
Proof. unfold getLowerPct; now intros ->. Qed.

Lemma scaledBand_Band (c : float) (item : FormulaIngredient) (lo hi : N) :
  ipercent item = Band lo hi ->
  scaledBand c item = Band (scaleTenths c lo) (scaleTenths c hi).
Proof.
  intros H; unfold scaledBand, band.
  now rewrite (getUpperPct_Band _ _ _ H), (getLowerPct_Band _ _ _ H).
Qed.

(** Scaling by 0.4, 0.6 or 0.7 keeps a number of tenths within the
    limit. *)
Lemma scaleTenths_limit (k : N) :
  (k <= bandLimit)%N ->
  (scaleTenths 0.4 k <= bandLimit)%N
  /\ (scaleTenths 0.6 k <= bandLimit)%N
  /\ (scaleTenths 0.7 k <= bandLimit)%N.
Proof.
  intros Hk.
  assert (H : forallb
            (fun k => (scaleTenths 0.4 k <=? bandLimit)%N
                      && (scaleTenths 0.6 k <=? bandLimit)%N
                      && (scaleTenths 0.7 k <=? bandLimit)%N)
            (upto bandLimit) = true) by (vm_compute; reflexivity).
  pose proof (forall_upto _ _ H k Hk) as Hc; cbv beta in Hc.
  apply andb_prop in Hc as [Hc H3]; apply andb_prop in Hc as [H1 H2].
  repeat split; now apply N.leb_le.
Qed.

(** An upper end that is not above 6.5% is not above 6.5% after a
    scaling by 0.6 or 0.7, and not above 5% after a scaling by 0.7. *)
Lemma scaleTenths_cap (k : N) :
  (k <= bandLimit)%N ->
  Js.gt (ofTenths k) 6.5 = false ->
  Js.gt (ofTenths (scaleTenths 0.6 k)) 6.5 = false
  /\ Js.gt (ofTenths (scaleTenths 0.7 k)) 6.5 = false
  /\ Js.gt (ofTenths (scaleTenths 0.7 k)) 5 = false.
Proof.
  intros Hk Hc.
  assert (H : forallb
            (fun k => Js.gt (ofTenths k) 6.5
                      || (negb (Js.gt (ofTenths (scaleTenths 0.6 k)) 6.5)
                          && negb (Js.gt (ofTenths (scaleTenths 0.7 k)) 6.5)
                          && negb (Js.gt (ofTenths (scaleTenths 0.7 k)) 5)))
            (upto bandLimit) = true) by (vm_compute; reflexivity).
  pose proof (forall_upto _ _ H k Hk) as Hb; cbv beta in Hb.
  rewrite Hc in Hb; cbn [orb] in Hb.
  apply andb_prop in Hb as [Hb H3]; apply andb_prop in Hb as [H1 H2].
  repeat split; now apply negb_true_iff.
Qed.

(** The clamp of 6b, in tenths. *)
Definition clampTenths (limit : float) (k : N) : N :=
  tenths (Js.ofZ (Js.round (Js.min (ofTenths k) limit * 10)) / 10)%float.

Lemma clamped_Band (item : FormulaIngredient) (lo hi : N) :
  ipercent item = Band lo hi ->
  ipercent (clamped item) = Band (clampTenths 3.5 lo) (clampTenths 6.5 hi).
Proof.
  intros H; unfold clamped, band; cbn [ipercent withPercent].
  now rewrite (getUpperPct_Band _ _ _ H), (getLowerPct_Band _ _ _ H).
Qed.

Lemma clampTenths_spec (k : N) :
  (k <= bandLimit)%N ->
  (clampTenths 3.5 k <= bandLimit)%N
  /\ (clampTenths 6.5 k <= bandLimit)%N
  /\ (Js.gt (ofTenths k) 6.5 = true ->
      Js.gt (ofTenths (clampTenths 6.5 k)) 6.5 = false).
Proof.
  intros Hk.
  assert (H : forallb
            (fun k => (clampTenths 3.5 k <=? bandLimit)%N
                      && (clampTenths 6.5 k <=? bandLimit)%N
                      && (negb (Js.gt (ofTenths k) 6.5)
                          || negb (Js.gt (ofTenths (clampTenths 6.5 k)) 6.5)))
            (upto bandLimit) = true) by (vm_compute; reflexivity).
  pose proof (forall_upto _ _ H k Hk) as Hb; cbv beta in Hb.
  apply andb_prop in Hb as [Hb H3]; apply andb_prop in Hb as [H1 H2].
  repeat split; try now apply N.leb_le.
  intros Hgt; rewrite Hgt in H3; cbn in H3; now apply negb_true_iff.
Qed.

Lemma okBand_inv (item : FormulaIngredient) :
  okBand item = true ->
  exists lo hi, ipercent item = Band lo hi
                /\ (lo <= bandLimit)%N /\ (hi <= bandLimit)%N.
Proof.
  unfold okBand, okPercent; destruct (ipercent item) as [s|lo hi];
    [discriminate|].
  intros H; apply andb_prop in H as [H1 H2]; exists lo, hi.
  repeat split; now apply N.leb_le.
Qed.

Lemma okBand_intro (item : FormulaIngredient) (lo hi : N) :
  ipercent item = Band lo hi -> (lo <= bandLimit)%N -> (hi <= bandLimit)%N ->
  okBand item = true.
Proof.
  intros H H1 H2; unfold okBand, okPercent; rewrite H.
  apply andb_true_intro; split; now apply N.leb_le.
Qed.

Lemma rescale_ok (c : float) (item : FormulaIngredient) :
  c = 0.4%float \/ c = 0.6%float \/ c = 0.7%float ->
  okBand item = true -> okBand (rescale c item) = true.
Proof.
  intros Hc H; apply okBand_inv in H as (lo & hi & Hb & Hlo & Hhi).
  apply (okBand_intro _ (scaleTenths c lo) (scaleTenths c hi)).
  - unfold rescale; cbn [ipercent withPercent]; now apply scaledBand_Band.
  - destruct (scaleTenths_limit lo Hlo) as (H1 & H2 & H3).
    destruct Hc as [->|[->| ->]]; assumption.
  - destruct (scaleTenths_limit hi Hhi) as (H1 & H2 & H3).
    destruct Hc as [->|[->| ->]]; assumption.
Qed.

Lemma capped_inv (item : FormulaIngredient) :
  capped item = true -> okBand item = true /\ aboveCap item = false.
Proof.
  unfold capped; intros H; apply andb_prop in H as [H1 H2].
  split; [exact H1 | now apply negb_true_iff].
Qed.

(** 6b leaves a band capped. *)
Lemma passB_entry_capped (item : FormulaIngredient) :
  okBand item = true ->
  capped (if aboveCap item then clamped item else item) = true.
Proof.
  intros H; pose proof H as H'.
  apply okBand_inv in H' as (lo & hi & Hb & Hlo & Hhi).
  destruct (aboveCap item) eqn:E.
  - destruct (clampTenths_spec lo Hlo) as (H1 & _ & _).
    destruct (clampTenths_spec hi Hhi) as (_ & H2 & H3).
    unfold capped; apply andb_true_intro; split.
    + apply (okBand_intro _ _ _ (clamped_Band _ _ _ Hb)); assumption.
    + apply negb_true_iff; unfold aboveCap in *.
      rewrite (getUpperPct_Band _ _ _ (clamped_Band _ _ _ Hb)).
      apply H3. now rewrite <- (getUpperPct_Band _ _ _ Hb).
  - unfold capped; now rewrite H, E.
Qed.

(** A capped band stays capped under the reductions of 6c and 7, and is
    not above 5% after the reduction of 6c. *)
Lemma rescale_capped (item : FormulaIngredient) :
  capped item = true ->
  capped (rescale 0.6 item) = true
  /\ capped (rescale 0.7 item) = true
  /\ isHeavy (rescale 0.7 item) = false.
Proof.
  intros H; apply capped_inv in H as [Hok Hcap].
  pose proof Hok as H'.
  apply okBand_inv in H' as (lo & hi & Hb & Hlo & Hhi).
  unfold aboveCap in Hcap; rewrite (getUpperPct_Band _ _ _ Hb) in Hcap.
  destruct (scaleTenths_cap hi Hhi Hcap) as (H6 & H7 & H5).
  assert (Hu : forall c, getUpperPct (rescale c item)
                         = ofTenths (scaleTenths c hi)).
  { intros c; apply (getUpperPct_Band _ (scaleTenths c lo)).
    unfold rescale; cbn [ipercent withPercent]; now apply scaledBand_Band. }
  unfold capped, aboveCap, isHeavy; rewrite !Hu, H6, H7, H5.
  rewrite !rescale_ok by auto. auto.
Qed.

(** ** Every heart and base entry of an assembled formula has a band
       within the limit *)

Definition allIngredients : list RawIngredient :=
  flat_map (fun kv => top (snd kv) ++ heart (snd kv) ++ base (snd kv))
    INGREDIENT_DB_entries.

(** Multiplying the midpoint of any record by [m] gives a band within
    the limit. *)
Definition okScale (m : float) : bool :=
  forallb
    (fun i => okPercent (makeRange (parseMidpoint (percent i) * m)%float))
    allIngredients.

Definition okContext (ctx : ContextModifiers) : bool :=
  okScale (Js.min (heroScale ctx) 1.3)
  && okScale (muskBoost ctx * 0.7)%float
  && okScale (muskBoost ctx).

Lemma computeContext_ok (c o i : option string) :
  okContext (computeContext c o i) = true.
Proof.
  unfold computeContext.
  destruct (optIs c "Parfum Extrait"), (optIs i "Leave a trail"),
    (optIs o "Everyday signature"); vm_compute; reflexivity.
Qed.

Lemma fixedScales_ok :
  okScale 0.4 = true /\ okScale 0.5 = true /\ okScale 0.6 = true
  /\ okScale 0.7 = true /\ okScale 0.75 = true /\ okScale 0.8 = true
  /\ okScale 1 = true.
Proof. evaluate. Qed.

Lemma db_incl (fam : string) (d : Layers RawIngredient) :
  INGREDIENT_DB fam = Some d ->
  incl (top d) allIngredients /\ incl (heart d) allIngredients
  /\ incl (base d) allIngredients.
Proof.
  intros H; apply lookup_In in H.
  repeat split; intros x Hx; apply in_flat_map; exists (fam, d);
    (split; [exact H|]); cbn [snd]; repeat (apply in_or_app; auto).
  - right; apply in_or_app; auto.
  - right; apply in_or_app; auto.
Qed.

Lemma dbLayer_incl (fam : string) :
  incl (dbLayer top fam) allIngredients
  /\ incl (dbLayer heart fam) allIngredients
  /\ incl (dbLayer base fam) allIngredients.
Proof.
  unfold dbLayer; destruct (INGREDIENT_DB fam) as [d|] eqn:E;
    [exact (db_incl fam d E) | repeat split; intros x []].
Qed.

Lemma scaledEntry_ok (m : float) (i : RawIngredient) :
  okScale m = true -> In i allIngredients -> okBand (scaledEntry m i) = true.
Proof.
  unfold okScale; rewrite forallb_forall; intros H Hi; exact (H i Hi).
Qed.

Lemma heroEntry_ok (n : string) (m : float) (r : RawIngredient) :
  okScale m = true -> In r allIngredients -> okBand (heroEntry n m r) = true.
Proof.
  unfold okScale; rewrite forallb_forall; intros H Hi; exact (H r Hi).
Qed.

(** The entry that [pick] pushes for a chosen record. *)
Lemma takeScaled_fst (mult : float) (i : RawIngredient) (e : Env) :
  fst (takeScaled mult i e) = scaledEntry mult i.
Proof.
  unfold takeScaled, bind, useName, pushPicked, when, ret.
  destruct (ifraExceeded i _); reflexivity.
Qed.

Lemma forEachM_takeScaled (mult : float) (l : list (RawIngredient * float)) :
  forall e,
    fst (forEachM (fun s => takeScaled mult (fst s)) l e)
    = map (fun s => scaledEntry mult (fst s)) l.
Proof.
  induction l as [|s l IH]; intros e; [reflexivity|].
  cbn [forEachM map]; unfold bind at 1.
  pose proof (takeScaled_fst mult (fst s) e) as H1.
  destruct (takeScaled mult (fst s) e) as [y e1]; cbn [fst] in H1; subst y.
  unfold bind at 1.
  specialize (IH e1).
  destruct (forEachM _ l e1) as [ys e2]; cbn [fst] in *; now rewrite IH.
Qed.

Lemma scoreCandidates_fst (rq : Request) (cands : list RawIngredient) :
  forall idx e, map fst (fst (scoreCandidates rq cands idx e)) = cands.
Proof.
  induction cands as [|c cands IH]; intros idx e; [reflexivity|].
  cbn [scoreCandidates]; unfold bind, rng.
  destruct (seededRng (rngState e) _) as [s' r].
  specialize (IH (idx + 1)
    {| used := used e; picked := picked e; warnings := warnings e;
       rngState := s' |}).
  destruct (scoreCandidates rq cands (idx + 1) _) as [more e'].
  cbn [fst snd map ret] in *; now rewrite IH.
Qed.

Lemma candidates_incl (rq : Request) (pool : list RawIngredient) (r : Role)
    (u : list string) : incl (candidates rq pool r u) pool.
Proof.
  unfold candidates; intros x.
  destruct (isNil _); intros H; now apply filter_In in H.
Qed.

(** [pick] returns the scaled entries of records of its pool. *)
Lemma pick_from_pool (rq : Request) (pool : list RawIngredient) (r : Role)
    (count : nat) (mult : float) (e : Env) :
  exists chosen,
    fst (pick rq pool r count mult e) = map (scaledEntry mult) chosen
    /\ incl chosen pool.
Proof.
  unfold pick, bind, getUsed.
  pose proof (scoreCandidates_fst rq (candidates rq pool r (used e)) 0 e) as Hs.
  destruct (scoreCandidates rq _ 0 e) as [scored e1]; cbn [fst] in Hs.
  exists (map fst (firstn count (sortBy byScoreDesc scored))); split.
  - rewrite forEachM_takeScaled; now rewrite map_map.
  - intros x Hx; apply in_map_fst_firstn in Hx.
    apply in_map_iff in Hx as [q [<- Hq]]; apply sortBy_In in Hq.
    apply (candidates_incl rq pool r (used e)); rewrite <- Hs.
    now apply in_map.
Qed.

Lemma pick_ok (rq : Request) (pool : list RawIngredient) (r : Role)
    (count : nat) (mult : float) (e : Env) :
  incl pool allIngredients -> okScale mult = true ->
  Forall (fun item => okBand item = true) (fst (pick rq pool r count mult e)).
Proof.
  intros Hp Hm.
  destruct (pick_from_pool rq pool r count mult e) as [chosen [-> Hin]].
  apply Forall_forall; intros item Hit.
  apply in_map_iff in Hit as [i [<- Hi]].
  apply scaledEntry_ok; auto.
Qed.

(** [P] holds of every heart and base entry. *)
Definition AllHB (P : FormulaIngredient -> Prop) (f : Formula) : Prop :=
  ForallHB (fun _ => P) f.

Definition okLayers (P : FormulaIngredient -> Prop)
    (ls : Layers FormulaIngredient) : Prop :=
  Forall P (heart ls) /\ Forall P (base ls).

Lemma AllHB_nil (P : FormulaIngredient -> Prop) : AllHB P [].
Proof. constructor. Qed.

Lemma AllHB_setFamily (P : FormulaIngredient -> Prop) (fam : string)
    (ls : Layers FormulaIngredient) (f : Formula) :
  okLayers P ls -> AllHB P f -> AllHB P (setFamily fam ls f).
Proof.
  intros Hl; unfold AllHB, ForallHB.
  induction 1 as [|[k w] f Hkw Hf IH]; cbn [setFamily].
  - repeat constructor; apply Hl.
  - destruct (String.eqb k fam); constructor; auto.
Qed.

Lemma AllHB_ensureFamily (P : FormulaIngredient -> Prop) (fam : string)
    (f : Formula) : AllHB P f -> AllHB P (ensureFamily fam f).
Proof.
  intros H; unfold ensureFamily; destruct (getFamily fam f); [exact H|].
  apply AllHB_setFamily; [split; constructor | exact H].
Qed.

Lemma AllHB_pushItem (P : FormulaIngredient -> Prop) (fam : string)
    (layer : Layer) (item : FormulaIngredient) (f : Formula) :
  P item -> AllHB P f -> AllHB P (pushItem fam layer item f).
Proof.
  intros Hi; unfold AllHB, ForallHB.
  induction 1 as [|[k w] f Hkw Hf IH]; cbn [pushItem]; [constructor|].
  destruct (String.eqb k fam); constructor; auto.
  cbn [fst snd] in *; destruct Hkw as [Hh Hb].
  destruct layer; cbn [setLayer getLayer heart base]; split; auto;
    apply Forall_app; split; auto.
Qed.

Lemma AllHB_place (P : FormulaIngredient -> Prop) (fam : string)
    (layer : Layer) (item : FormulaIngredient) (f : Formula) :
  P item -> AllHB P f -> AllHB P (place fam layer item f).
Proof.
  intros Hi Hf; unfold place; now apply AllHB_pushItem, AllHB_ensureFamily.
Qed.

Lemma AllHB_mapHeartBase (P Q : FormulaIngredient -> Prop)
    (g : string -> FormulaIngredient -> FormulaIngredient) (f : Formula) :
  (forall fam item, P item -> Q (g fam item)) ->
  AllHB P f -> AllHB Q (mapHeartBase g f).
Proof.
  intros Hg; unfold AllHB, ForallHB, mapHeartBase.
  induction 1 as [|[k w] f [Hh Hb] Hf IH]; cbn [map]; constructor; auto.
  cbn [fst snd heart base] in *; split; apply Forall_map;
    eapply Forall_impl; eauto; cbv beta; auto.
Qed.

Lemma AllHB_impl (P Q : FormulaIngredient -> Prop) (f : Formula) :
  (forall item, P item -> Q item) -> AllHB P f -> AllHB Q f.
Proof.
  intros H; unfold AllHB, ForallHB; apply Forall_impl; intros kv [Hh Hb].
  split; eapply Forall_impl; eauto.
Qed.

Definition okEntry (item : FormulaIngredient) : Prop := okBand item = true.

Lemma find_In {A} (p : A -> bool) (l : list A) (x : A) :
  find p l = Some x -> In x l.
Proof. intros H; now apply find_some in H. Qed.

Lemma dominantFill_ok (rq : Request) (ctx : ContextModifiers)
    (dom : Layers RawIngredient) (e : Env) :
  incl (heart dom) allIngredients -> incl (base dom) allIngredients ->
  okContext ctx = true ->
  okLayers okEntry (fst (dominantFill rq ctx dom e)).
Proof.
  intros Hh Hb Hctx.
  unfold okContext in Hctx.
  apply andb_prop in Hctx as [Hctx H3]; apply andb_prop in Hctx as [H1 H2].
  destruct fixedScales_ok as (_ & _ & _ & _ & H75 & _ & H100).
  unfold dominantFill, heroName.
  set (e0 := snd (match heroOf rq with
                  | Some h => useName (name h) ;;; pushPicked h
                  | None => ret tt
                  end e)).
  assert (Hhero : forall l r,
            match heroOf rq with
            | Some h => findName (name h) l
            | None => None
            end = Some r -> In r l).
  { intros l r; destruct (heroOf rq); [apply find_In | discriminate]. }
  unfold bind at 1.
  destruct (match heroOf rq with
            | Some h => useName (name h) ;;; pushPicked h
            | None => ret tt
            end e) as [u e0'].
  unfold bind at 1.
  destruct (dominantTop dom e0') as [domTop e1].
  unfold bind at 1.
  match goal with
  | |- context [pick rq (heart dom) Backbone ?c ?m e1] =>
      pose proof (pick_ok rq (heart dom) Backbone c m e1 Hh) as Hp1;
      destruct (pick rq (heart dom) Backbone c m e1) as [heartPicks e2]
  end.
  unfold bind at 1.
  match goal with
  | |- context [pick rq (base dom) Backbone ?c ?m e2] =>
      pose proof (pick_ok rq (base dom) Backbone c m e2 Hb) as Hp2;
      destruct (pick rq (base dom) Backbone c m e2) as [basePicks e3]
  end.
  cbn [fst ret heart base] in *.
  specialize (Hhero (heart dom)) as Hhh.
  specialize (Hhero (base dom)) as Hhb.
  destruct (match heroOf rq with
            | Some h => findName (name h) (heart dom)
            | None => None
            end) as [rh|];
    destruct (match heroOf rq with
              | Some h => findName (name h) (base dom)
              | None => None
              end) as [rb|];
    destruct (option_map name (heroOf rq)) as [n|];
    split; cbn [app]; repeat constructor;
    try (apply Hp1; assumption); try (apply Hp2; assumption);
    try (apply heroEntry_ok; auto).
Qed.

Lemma secondaryFill_ok (rq : Request) (sec : Layers RawIngredient) (e : Env) :
  incl (heart sec) allIngredients -> incl (base sec) allIngredients ->
  okLayers okEntry (fst (secondaryFill rq sec e)).
Proof.
  intros Hh Hb.
  destruct fixedScales_ok as (_ & _ & H6 & H7 & _ & _ & _).
  unfold secondaryFill, bind.
  destruct (pick rq (top sec) Lift 1 _ e) as [t e1].
  pose proof (pick_ok rq (heart sec) Backbone 1 0.7 e1 Hh H7) as Hp1.
  destruct (pick rq (heart sec) Backbone 1 _ e1) as [h e2].
  pose proof (pick_ok rq (base sec) Backbone 1 0.6 e2 Hb H6) as Hp2.
  destruct (pick rq (base sec) Backbone 1 _ e2) as [b e3].
  split; assumption.
Qed.

Lemma Forall_filter {A} (P : A -> Prop) (p : A -> bool) (l : list A) :
  Forall P l -> Forall P (filter p l).
Proof.
  rewrite !Forall_forall; intros H x Hx; apply filter_In in Hx as [Hx _]; auto.
Qed.

Lemma accentFill_ok (rq : Request) (acc : Layers RawIngredient) (e : Env) :
  incl (heart acc) allIngredients -> incl (base acc) allIngredients ->
  okLayers okEntry (fst (accentFill rq acc e)).
Proof.
  intros Hh Hb.
  destruct fixedScales_ok as (_ & H5 & _).
  unfold accentFill, bind.
  assert (Hp : incl (heart acc ++ base acc) allIngredients)
    by (now apply incl_app).
  pose proof (pick_ok rq _ Character 1 0.5 e Hp H5) as Hp1.
  destruct (pick rq (heart acc ++ base acc) Character 1 _ e) as [a e1].
  split; cbn [fst ret heart base]; now apply Forall_filter.
Qed.

Lemma fillDominant_ok (rq : Request) (ctx : ContextModifiers) (f : Formula)
    (e : Env) :
  okContext ctx = true -> AllHB okEntry f ->
  AllHB okEntry (fst (fillDominant rq ctx f e)).
Proof.
  intros Hctx Hf; unfold fillDominant.
  destruct (INGREDIENT_DB (dominant rq)) as [dom|] eqn:E; [|exact Hf].
  destruct (db_incl _ _ E) as (_ & Hh & Hb).
  pose proof (dominantFill_ok rq ctx dom e Hh Hb Hctx) as Hd.
  unfold bind; destruct (dominantFill rq ctx dom e) as [ls e1].
  now apply AllHB_setFamily.
Qed.

Lemma fillSecondary_ok (rq : Request) (f : Formula) (e : Env) :
  AllHB okEntry f -> AllHB okEntry (fst (fillSecondary rq f e)).
Proof.
  intros Hf; unfold fillSecondary.
  destruct (INGREDIENT_DB (secondary rq)) as [sec|] eqn:E; [|exact Hf].
  destruct (db_incl _ _ E) as (_ & Hh & Hb).
  pose proof (secondaryFill_ok rq sec e Hh Hb) as Hd.
  unfold bind; destruct (secondaryFill rq sec e) as [ls e1].
  now apply AllHB_setFamily.
Qed.

Lemma fillAccent_ok (rq : Request) (f : Formula) (e : Env) :
  AllHB okEntry f -> AllHB okEntry (fst (fillAccent rq f e)).
Proof.
  intros Hf; unfold fillAccent.
  destruct (INGREDIENT_DB (accent rq)) as [acc|] eqn:E; [|exact Hf].
  destruct (db_incl _ _ E) as (_ & Hh & Hb).
  pose proof (accentFill_ok rq acc e Hh Hb) as Hd.
  unfold bind; destruct (accentFill rq acc e) as [ls e1].
  now apply AllHB_setFamily.
Qed.

Lemma filled_ok (rq : Request) (ctx : ContextModifiers) (e : Env) :
  okContext ctx = true -> AllHB okEntry (fst (filled rq ctx e)).
Proof.
  intros Hctx; unfold filled, bind.
  pose proof (fillDominant_ok rq ctx [] e Hctx (AllHB_nil _)) as H1.
  destruct (fillDominant rq ctx [] e) as [f1 e1]; cbn [fst] in H1.
  pose proof (fillSecondary_ok rq f1 e1 H1) as H2.
  destruct (fillSecondary rq f1 e1) as [f2 e2]; cbn [fst] in H2.
  now apply fillAccent_ok.
Qed.

Lemma fillSources_incl (rq : Request) (u : list string) :
  incl (fillSources rq u) allIngredients.
Proof.
  intros p Hp; apply fillSources_spec in Hp as (_ & _ & Hin).
  destruct (dbLayer_incl (secondary rq)) as (_ & Hsh & Hsb).
  destruct (dbLayer_incl (accent rq)) as (_ & Hah & Hab).
  repeat (apply in_app_or in Hin as [Hin|Hin]); auto.
Qed.

Lemma structuralCandidates_incl (rq : Request) (u : list string) :
  incl (structuralCandidates rq u) allIngredients.
Proof.
  intros p Hp; unfold structuralCandidates in Hp.
  apply sortBy_In in Hp; apply filter_In in Hp as [Hin _].
  destruct (dbLayer_incl "clean") as (_ & _ & Hcb).
  destruct (dbLayer_incl "woody") as (_ & Hwh & Hwb).
  repeat (apply in_app_or in Hin as [Hin|Hin]); auto.
Qed.

Lemma AllHB_fold_placeFill (rq : Request) (picks : list RawIngredient) :
  incl picks allIngredients ->
  forall f, AllHB okEntry f -> AllHB okEntry (fold_left (placeFill rq) picks f).
Proof.
  destruct fixedScales_ok as (H4 & _).
  induction picks as [|p picks IH]; intros Hin f Hf; cbn [fold_left];
    [exact Hf|].
  apply IH; [intros x Hx; apply Hin; now right|].
  unfold placeFill; apply AllHB_place; [|exact Hf].
  apply scaledEntry_ok; [exact H4 | apply Hin; now left].
Qed.

Lemma AllHB_foldM_inject (rq : Request) (l : list RawIngredient) :
  incl l allIngredients ->
  forall acc e,
    AllHB okEntry (fst acc) ->
    AllHB okEntry (fst (fst (foldM (inject rq) acc l e))).
Proof.
  destruct fixedScales_ok as (H4 & _).
  induction l as [|s l IH]; intros Hin acc e Hf; cbn [foldM]; [exact Hf|].
  unfold bind at 1, inject at 1, bind, useName, pushPicked, ret.
  apply IH; [intros x Hx; apply Hin; now right|]; cbn [fst].
  apply AllHB_pushItem, AllHB_ensureFamily, Hf.
  apply scaledEntry_ok; [exact H4 | apply Hin; now left].
Qed.

Lemma structuralInjection_ok (rq : Request) (conc : option string)
    (f : Formula) (e : Env) :
  AllHB okEntry f ->
  AllHB okEntry (fst (fst (structuralInjection rq conc f e))).
Proof.
  intros Hf; unfold structuralInjection, bind, getPicked, getUsed.
  destruct (_ && _ && _); [|exact Hf].
  apply AllHB_foldM_inject; [|exact Hf].
  intros x Hx; apply In_firstn in Hx.
  now apply (structuralCandidates_incl rq (used e)).
Qed.

(** The formula that enters step 6 has bands within the limit in its
    heart and base layers. *)
Lemma enteringResolution_ok (o : Options) (seed : Z) :
  AllHB okEntry (fst (enteringResolution o seed)).
Proof.
  destruct (enteringResolution_unfold o seed) as [e ->].
  apply structuralInjection_ok.
  rewrite afterFloor_unfold.
  apply AllHB_fold_placeFill.
  - pose proof (floorPicks_spec (requestOf o seed) (fst (enteringFloor o seed))
                  (snd (enteringFloor o seed))) as [Hin _].
    cbv zeta in Hin; fold (floorPicksOf o seed) in Hin.
    intros x Hx; rewrite Forall_forall in Hin.
    eapply fillSources_incl, Hin, Hx.
  - unfold enteringFloor; apply filled_ok, computeContext_ok.
Qed.

(** ** The cap of 6b and what keeps it *)

(** The hero, or a band capped at 6.5%. *)
Definition heroOrCapped (h : option string) (item : FormulaIngredient) : Prop :=
  isHeroName h (iname item) = true \/ capped item = true.

Lemma passA_ok (h : option string) (f : Formula) :
  AllHB okEntry f -> AllHB okEntry (passA h f).
Proof.
  intros Hf; unfold passA; destruct (1 <? highDom f); [|exact Hf].
  eapply AllHB_mapHeartBase; [|exact Hf].
  intros fam item Hi; cbv beta.
  destruct (isHeroName h (iname item)); [exact Hi|].
  destruct (isHighDominance fam item); [|exact Hi].
  apply rescale_ok; auto.
Qed.

Lemma passB_capped (h : option string) (f : Formula) :
  AllHB okEntry f -> AllHB (heroOrCapped h) (passB h f).
Proof.
  intros Hf; unfold passB.
  eapply AllHB_mapHeartBase; [|exact Hf].
  intros fam item Hi; cbv beta; unfold heroOrCapped.
  destruct (isHeroName h (iname item)) eqn:E; [left; exact E|].
  right. change (Js.gt (getUpperPct item) 6.5) with (aboveCap item).
  now apply passB_entry_capped.
Qed.

Lemma heroOrCapped_rescale (h : option string) (item : FormulaIngredient) :
  heroOrCapped h item ->
  heroOrCapped h (rescale 0.6 item) /\ heroOrCapped h (rescale 0.7 item).
Proof.
  intros [H|H]; [split; left; exact H|].
  destruct (rescale_capped item H) as (H6 & H7 & _); split; right; auto.
Qed.

Lemma Forall_replaceNth {A} (P : A -> Prop) (idx : nat) (x : A) (l : list A) :
  P x -> Forall P l -> Forall P (replaceNth idx x l).
Proof.
  intros Hx Hl; revert idx; induction Hl as [|y l Hy Hl IH]; intros [|idx];
    cbn [replaceNth]; constructor; auto.
Qed.

Lemma AllHB_setItemAt (P : FormulaIngredient -> Prop) (fam : string)
    (layer : Layer) (idx : nat) (x : FormulaIngredient) (f : Formula) :
  P x -> AllHB P f -> AllHB P (setItemAt fam layer idx x f).
Proof.
  intros Hx; unfold AllHB, ForallHB.
  induction 1 as [|[k w] f [Hh Hb] Hf IH]; cbn [setItemAt]; [constructor|].
  destruct (String.eqb k fam); constructor; auto.
  cbn [fst snd] in *.
  destruct layer; cbn [setLayer getLayer heart base]; split; auto;
    now apply Forall_replaceNth.
Qed.

Lemma AllHB_itemAt (P : FormulaIngredient -> Prop) (fam : string)
    (layer : Layer) (idx : nat) (item : FormulaIngredient) (f : Formula) :
  AllHB P f -> layer <> LTop -> itemAt fam layer idx f = Some item -> P item.
Proof.
  intros Hf Hl; unfold itemAt, getFamily.
  destruct (lookup fam f) as [ls|] eqn:E; [|discriminate].
  apply lookup_In in E.
  unfold AllHB, ForallHB in Hf; rewrite Forall_forall in Hf.
  destruct (Hf _ E) as [Hh Hb]; cbn [fst snd] in *.
  intros Hn; apply nth_error_In in Hn.
  destruct layer; [congruence | |]; cbn [getLayer] in Hn.
  - rewrite Forall_forall in Hh; exact (Hh _ Hn).
  - rewrite Forall_forall in Hb; exact (Hb _ Hn).
Qed.

Lemma reduceAt_capped (h : option string) (x : HeavyItem)
    (acc : Formula * list string) :
  hlayer x <> LTop -> AllHB (heroOrCapped h) (fst acc) ->
  AllHB (heroOrCapped h) (fst (reduceAt x acc)).
Proof.
  intros Hl Hf; unfold reduceAt.
  destruct (itemAt _ _ _ _) as [item|] eqn:E; [|exact Hf].
  cbn [fst]; apply AllHB_setItemAt; [|exact Hf].
  refine (proj2 (heroOrCapped_rescale h item _)).
  eapply AllHB_itemAt; eauto.
Qed.

Lemma reduceLoop_capped (h : option string) (total : Z)
    (todo : list HeavyItem) :
  Forall (fun x => hlayer x <> LTop) todo ->
  forall reductions acc,
    AllHB (heroOrCapped h) (fst acc) ->
    AllHB (heroOrCapped h) (fst (reduceLoop h total todo reductions acc)).
Proof.
  induction 1 as [|x todo Hx _ IH]; intros reductions acc Hf;
    cbn [reduceLoop]; [exact Hf|].
  destruct (isHeroName h (hname x)); [now apply IH|].
  destruct (total - reductions <=? 2); [exact Hf|].
  apply IH; now apply reduceAt_capped.
Qed.

Lemma sorted_heavy_layers (h : option string) (f : Formula) :
  Forall (fun x => hlayer x <> LTop) (sortBy (heavyAfter h) (heavyItems f)).
Proof.
  rewrite Forall_forall; intros x Hx; apply sortBy_In in Hx.
  revert x Hx; rewrite <- Forall_forall; apply heavyItems_layer.
Qed.

Lemma passC_capped (h : option string) (acc : Formula * list string) :
  AllHB (heroOrCapped h) (fst acc) ->
  AllHB (heroOrCapped h) (fst (passC h acc)).
Proof.
  intros Hf; unfold passC; destruct (2 <? len _); [|exact Hf].
  apply reduceLoop_capped; [apply sorted_heavy_layers | exact Hf].
Qed.

Lemma dampenItem_capped (h : option string)
    (ug : list (string * list string)) :
  forall item, heroOrCapped h item -> heroOrCapped h (dampenItem ug item).
Proof.
  induction ug as [|gm ug IH]; intros item Hi; [exact Hi|].
  rewrite dampenItem_cons; apply IH; unfold dampenStep.
  destruct (_ && _); [exact (proj1 (heroOrCapped_rescale h item Hi)) | exact Hi].
Qed.

Lemma passD_capped (h : option string) (acc : Formula * list string) :
  AllHB (heroOrCapped h) (fst acc) ->
  AllHB (heroOrCapped h) (fst (passD acc)).
Proof.
  intros Hf; unfold passD; rewrite fold_dampen; cbn [fst].
  eapply AllHB_mapHeartBase; [|exact Hf].
  intros _ item; apply dampenItem_capped.
Qed.

Lemma afterPassB_capped (o : Options) (seed : Z) :
  AllHB (heroOrCapped (heroNameOf o seed)) (afterPassB o seed).
Proof.
  unfold afterPassB, afterPassA.
  apply passB_capped, passA_ok, enteringResolution_ok.
Qed.

(** C2: in the result of the facade, every heart or base entry whose
    name is not the name of the hero has an upper bound of at most
    6.5%: [getUpperPct] of the entry is not greater than 6.5. *)
Theorem non_hero_entries_capped :
  forall (opts : Options) (g : Global),
    AllHB
      (fun item =>
         isHeroName (heroNameOf opts (seedOf opts)) (iname item) = false ->
         Js.gt (getUpperPct item) 6.5 = false)
      (formula (fst (generateSmartFormula opts g))).
Proof.
  intros opts g.
  unfold generateSmartFormula, generateLocalFormula; cbn [fst].
  fold (seedOf opts).
  destruct (result_is_afterPassD opts (seedOf opts)) as [-> _].
  unfold afterPassD.
  eapply AllHB_impl;
    [|apply passD_capped, passC_capped, afterPassB_capped].
  intros item [H|H] Hn; [congruence|].
  now apply capped_inv in H.
Qed.

(** ** Positions of a formula *)

Definition keys (f : Formula) : list string := map fst f.

Lemma lookup_NoDup {A} (l : list (string * A)) (k : string) (v : A) :
  NoDup (map fst l) -> In (k, v) l -> lookup k l = Some v.
Proof.
  induction l as [|[k' w] l IH]; cbn [map fst lookup]; intros Hnd Hin;
    [contradiction|].
  inversion Hnd as [|? ? Hnotin Hnd']; subst.
  destruct Hin as [[= -> ->]|Hin]; [now rewrite String.eqb_refl|].
  destruct (String.eqb_spec k k') as [->|_]; [|now apply IH].
  exfalso; apply Hnotin, (in_map fst _ _ Hin).
Qed.

Lemma keys_setFamily (fam : string) (v : Layers FormulaIngredient)
    (f : Formula) :
  (In fam (keys f) /\ keys (setFamily fam v f) = keys f)
  \/ (~ In fam (keys f) /\ keys (setFamily fam v f) = keys f ++ [fam]).
Proof.
  unfold keys; induction f as [|[k w] f IH]; cbn [setFamily map fst].
  - right; split; [tauto | reflexivity].
  - destruct (String.eqb_spec k fam) as [->|Hne]; cbn [map fst].
    + left; split; [now left | reflexivity].
    + destruct IH as [[H1 H2]|[H1 H2]]; rewrite H2.
      * left; split; [now right | reflexivity].
      * right; split; [intros [?|?]; [congruence | contradiction] | reflexivity].
Qed.

Lemma NoDup_keys_setFamily (fam : string) (v : Layers FormulaIngredient)
    (f : Formula) : NoDup (keys f) -> NoDup (keys (setFamily fam v f)).
Proof.
  intros H; destruct (keys_setFamily fam v f) as [[_ ->]|[Hni ->]]; [exact H|].
  apply NoDup_app; auto.
  - repeat constructor; intros [].
  - intros x Hx [<-|[]]; contradiction.
Qed.

Lemma keys_pushItem (fam : string) (layer : Layer) (item : FormulaIngredient)
    (f : Formula) : keys (pushItem fam layer item f) = keys f.
Proof.
  unfold keys; induction f as [|[k w] f IH]; cbn [pushItem map fst];
    [reflexivity|].
  destruct (String.eqb k fam); cbn [map fst]; [reflexivity | now rewrite IH].
Qed.

Lemma NoDup_keys_place (fam : string) (layer : Layer)
    (item : FormulaIngredient) (f : Formula) :
  NoDup (keys f) -> NoDup (keys (place fam layer item f)).
Proof.
  intros H; unfold place; rewrite keys_pushItem; unfold ensureFamily.
  destruct (getFamily fam f); [exact H | now apply NoDup_keys_setFamily].
Qed.

Lemma keys_mapHeartBase (g : string -> FormulaIngredient -> FormulaIngredient)
    (f : Formula) : keys (mapHeartBase g f) = keys f.
Proof.
  unfold keys, mapHeartBase; rewrite map_map; now apply map_ext.
Qed.

Lemma NoDup_keys_filled (rq : Request) (ctx : ContextModifiers) (e : Env) :
  NoDup (keys (fst (filled rq ctx e))).
Proof.
  assert (HD : forall f e, NoDup (keys f) ->
                 NoDup (keys (fst (fillDominant rq ctx f e)))).
  { intros f e0 H; unfold fillDominant.
    destruct (INGREDIENT_DB (dominant rq)); [|exact H].
    unfold bind; destruct (dominantFill _ _ _ _).
    now apply NoDup_keys_setFamily. }
  assert (HS : forall f e, NoDup (keys f) ->
                 NoDup (keys (fst (fillSecondary rq f e)))).
  { intros f e0 H; unfold fillSecondary.
    destruct (INGREDIENT_DB (secondary rq)); [|exact H].
    unfold bind; destruct (secondaryFill _ _ _).
    now apply NoDup_keys_setFamily. }
  assert (HA : forall f e, NoDup (keys f) ->
                 NoDup (keys (fst (fillAccent rq f e)))).
  { intros f e0 H; unfold fillAccent.
    destruct (INGREDIENT_DB (accent rq)); [|exact H].
    unfold bind; destruct (accentFill _ _ _).
    now apply NoDup_keys_setFamily. }
  unfold filled, bind.
  pose proof (HD [] e (NoDup_nil _)) as H1.
  destruct (fillDominant rq ctx [] e) as [f1 e1]; cbn [fst] in H1.
  pose proof (HS f1 e1 H1) as H2.
  destruct (fillSecondary rq f1 e1) as [f2 e2]; cbn [fst] in H2.
  now apply HA.
Qed.

Lemma NoDup_keys_fold_placeFill (rq : Request) (picks : list RawIngredient) :
  forall f, NoDup (keys f) -> NoDup (keys (fold_left (placeFill rq) picks f)).
Proof.
  induction picks as [|p picks IH]; intros f Hf; cbn [fold_left]; [exact Hf|].
  apply IH; unfold placeFill; now apply NoDup_keys_place.
Qed.

Lemma NoDup_keys_foldM_inject (rq : Request) (l : list RawIngredient) :
  forall acc e,
    NoDup (keys (fst acc)) ->
    NoDup (keys (fst (fst (foldM (inject rq) acc l e)))).
Proof.
  induction l as [|s l IH]; intros acc e Hf; cbn [foldM]; [exact Hf|].
  unfold bind at 1, inject at 1, bind, useName, pushPicked, ret.
  apply IH; cbn [fst].
  now apply (NoDup_keys_place (dominant rq) LBase (scaledEntry 0.4 s)).
Qed.

Lemma NoDup_keys_entering (o : Options) (seed : Z) :
  NoDup (keys (fst (enteringResolution o seed))).
Proof.
  destruct (enteringResolution_unfold o seed) as [e ->].
  assert (H : NoDup (keys (afterFloor o seed))).
  { rewrite afterFloor_unfold; apply NoDup_keys_fold_placeFill.
    unfold enteringFloor; apply NoDup_keys_filled. }
  unfold structuralInjection, bind, getPicked, getUsed.
  destruct (_ && _ && _); [|exact H].
  now apply NoDup_keys_foldM_inject.
Qed.

Lemma NoDup_keys_afterPassB (o : Options) (seed : Z) :
  NoDup (keys (afterPassB o seed)).
Proof.
  unfold afterPassB, passB; rewrite keys_mapHeartBase.
  unfold afterPassA, passA; destruct (1 <? highDom _);
    rewrite ?keys_mapHeartBase; apply NoDup_keys_entering.
Qed.

Definition posOf (x : HeavyItem) : string * Layer * nat :=
  (hfam x, hlayer x, hidx x).

Lemma Layer_eq_dec (a b : Layer) : {a = b} + {a <> b}.
Proof. decide equality. Qed.

Lemma nth_error_replaceNth_same {A} (idx : nat) (x y : A) (l : list A) :
  nth_error l idx = Some y -> nth_error (replaceNth idx x l) idx = Some x.
Proof.
  revert idx; induction l as [|z l IH]; intros [|idx]; cbn; try discriminate;
    auto.
Qed.

Lemma nth_error_replaceNth_other {A} (i j : nat) (x : A) (l : list A) :
  i <> j -> nth_error (replaceNth i x l) j = nth_error l j.
Proof.
  revert i j; induction l as [|z l IH]; intros [|i] [|j] H; cbn; auto;
    congruence.
Qed.

Lemma getLayer_setLayer_other {A} (l l' : Layer) (v : list A) (ls : Layers A) :
  l <> l' -> getLayer l' (setLayer l v ls) = getLayer l' ls.
Proof. destruct l, l'; cbn; congruence. Qed.

Lemma getLayer_setLayer_same {A} (l : Layer) (v : list A) (ls : Layers A) :
  getLayer l (setLayer l v ls) = v.
Proof. now destruct l. Qed.

Lemma getFamily_setItemAt_other (fam fam' : string) (layer : Layer)
    (idx : nat) (x : FormulaIngredient) (f : Formula) :
  fam' <> fam ->
  getFamily fam' (setItemAt fam layer idx x f) = getFamily fam' f.
Proof.
  intros Hne; unfold getFamily.
  induction f as [|[k w] f IH]; cbn [setItemAt lookup]; [reflexivity|].
  destruct (String.eqb_spec k fam) as [->|Hk]; cbn [lookup].
  - destruct (String.eqb_spec fam' fam); [contradiction | reflexivity].
  - destruct (String.eqb fam' k); [reflexivity | exact IH].
Qed.

Lemma getFamily_setItemAt_same (fam : string) (layer : Layer) (idx : nat)
    (x : FormulaIngredient) (f : Formula) :
  getFamily fam (setItemAt fam layer idx x f)
  = option_map
      (fun w => setLayer layer (replaceNth idx x (getLayer layer w)) w)
      (getFamily fam f).
Proof.
  unfold getFamily.
  induction f as [|[k w] f IH]; cbn [setItemAt lookup]; [reflexivity|].
  destruct (String.eqb_spec k fam) as [->|Hk]; cbn [lookup].
  - now rewrite String.eqb_refl.
  - destruct (String.eqb_spec fam k); [congruence | exact IH].
Qed.

(** Writing one position leaves the others as they are. *)
Lemma itemAt_setItemAt_other (fam fam' : string) (layer layer' : Layer)
    (idx idx' : nat) (x : FormulaIngredient) (f : Formula) :
  (fam', layer', idx') <> (fam, layer, idx) ->
  itemAt fam' layer' idx' (setItemAt fam layer idx x f)
  = itemAt fam' layer' idx' f.
Proof.
  intros Hne; unfold itemAt.
  destruct (String.eqb_spec fam' fam) as [->|Hf];
    [|now rewrite getFamily_setItemAt_other].
  rewrite getFamily_setItemAt_same.
  destruct (getFamily fam f) as [w|]; [|reflexivity]; cbn [option_map].
  destruct (Layer_eq_dec layer layer') as [<-|Hl];
    [|now rewrite getLayer_setLayer_other].
  rewrite getLayer_setLayer_same.
  apply nth_error_replaceNth_other; congruence.
Qed.

Definition b2z (b : bool) : Z := if b then 1 else 0.

Lemma countIf_replaceNth {A} (p : A -> bool) (idx : nat) (x old : A)
    (l : list A) :
  nth_error l idx = Some old ->
  countIf p (replaceNth idx x l) = countIf p l - b2z (p old) + b2z (p x).
Proof.
  revert idx; induction l as [|y l IH]; intros [|idx]; cbn [nth_error];
    try discriminate.
  - intros [= ->]; cbn [replaceNth]; rewrite !countIf_cons.
    unfold b2z; destruct (p old), (p x); lia.
  - intros H; cbn [replaceNth]; rewrite !countIf_cons, (IH _ H); lia.
Qed.

Lemma countHB_cons (p : FormulaIngredient -> bool)
    (kv : string * Layers FormulaIngredient) (f : Formula) :
  countHB p (kv :: f)
  = countIf p (heart (snd kv)) + countIf p (base (snd kv)) + countHB p f.
Proof. reflexivity. Qed.

(** Writing a heart or base position changes the count of the entries
    that satisfy [p] by what the old and the new entry contribute. *)
Lemma countHB_setItemAt (p : FormulaIngredient -> bool) (fam : string)
    (layer : Layer) (idx : nat) (x old : FormulaIngredient) (f : Formula) :
  layer <> LTop ->
  itemAt fam layer idx f = Some old ->
  countHB p (setItemAt fam layer idx x f)
  = countHB p f - b2z (p old) + b2z (p x).
Proof.
  intros Hl; unfold itemAt, getFamily.
  induction f as [|[k w] f IH]; cbn [lookup setItemAt]; [discriminate|].
  rewrite String.eqb_sym.
  destruct (String.eqb k fam); intros H; rewrite !countHB_cons; cbn [snd].
  - destruct layer; [congruence | |];
      cbn [setLayer getLayer heart base] in *;
      rewrite (countIf_replaceNth p idx x old _ H); lia.
  - rewrite (IH H); lia.
Qed.

(** ** The entries that 6c collects *)

Lemma heavyOfLayer_spec (fam : string) (layer : Layer)
    (items : list FormulaIngredient) :
  forall start x,
    In x (heavyOfLayer fam layer items start) ->
    hfam x = fam /\ hlayer x = layer /\ (start <= hidx x)%nat
    /\ exists item,
         nth_error items (hidx x - start) = Some item
         /\ iname item = hname x /\ isHeavy item = true.
Proof.
  induction items as [|item items IH]; intros start x; cbn [heavyOfLayer];
    [intros []|].
  intros Hin; apply in_app_or in Hin as [Hin|Hin].
  - destruct (Js.gt (getUpperPct item) 5) eqn:E; [|contradiction].
    destruct Hin as [<-|[]]; cbn [hfam hlayer hidx hname].
    repeat split; auto. exists item; rewrite Nat.sub_diag; auto.
  - destruct (IH _ _ Hin) as (H1 & H2 & H3 & it & H4 & H5 & H6).
    repeat split; auto; [lia|].
    exists it; repeat split; auto.
    replace (hidx x - start)%nat with (S (hidx x - S start)) by lia.
    exact H4.
Qed.

Lemma NoDup_map_of {A B C} (g : A -> B) (k : B -> C) (l : list A) :
  NoDup (map (fun x => k (g x)) l) -> NoDup (map g l).
Proof.
  rewrite <- (map_map g k); apply NoDup_map_inv.
Qed.

Lemma heavyOfLayer_NoDup (fam : string) (layer : Layer)
    (items : list FormulaIngredient) :
  forall start, NoDup (map hidx (heavyOfLayer fam layer items start)).
Proof.
  induction items as [|item items IH]; intros start; cbn [heavyOfLayer];
    [constructor|].
  destruct (Js.gt (getUpperPct item) 5); cbn [app map]; [|apply IH].
  constructor; [|apply IH].
  cbn [hidx]; intros Hin; apply in_map_iff in Hin as [x [Hx Hin]].
  apply heavyOfLayer_spec in Hin as (_ & _ & Hge & _); lia.
Qed.

Lemma heavyOfFamily_NoDup (kv : string * Layers FormulaIngredient) :
  NoDup
    (map posOf
       (heavyOfLayer (fst kv) LHeart (heart (snd kv)) 0
        ++ heavyOfLayer (fst kv) LBase (base (snd kv)) 0)).
Proof.
  rewrite map_app; apply NoDup_app.
  - apply (NoDup_map_of posOf snd), heavyOfLayer_NoDup.
  - apply (NoDup_map_of posOf snd), heavyOfLayer_NoDup.
  - intros p H1 H2.
    apply in_map_iff in H1 as [x [<- Hx]].
    apply in_map_iff in H2 as [y [Hxy Hy]].
    apply heavyOfLayer_spec in Hx as (_ & Hlx & _).
    apply heavyOfLayer_spec in Hy as (_ & Hly & _).
    unfold posOf in Hxy; congruence.
Qed.

Lemma heavyItems_in (f : Formula) (x : HeavyItem) :
  In x (heavyItems f) ->
  exists kv,
    In kv f /\ hfam x = fst kv /\ hlayer x <> LTop
    /\ exists item,
         nth_error (getLayer (hlayer x) (snd kv)) (hidx x) = Some item
         /\ iname item = hname x /\ isHeavy item = true.
Proof.
  unfold heavyItems; intros Hin; apply in_flat_map in Hin as [kv [Hkv Hin]].
  exists kv; split; [exact Hkv|].
  apply in_app_or in Hin as [Hin|Hin];
    apply heavyOfLayer_spec in Hin as (H1 & H2 & _ & item & H4 & H5 & H6);
    rewrite Nat.sub_0_r in H4; rewrite H2; cbn [getLayer];
    (repeat split; [exact H1 | discriminate |]); exists item; auto.
Qed.

(** With distinct keys, each collected entry is the entry at its
    position... *)
Lemma heavyItems_at (f : Formula) (x : HeavyItem) :
  NoDup (keys f) -> In x (heavyItems f) ->
  hlayer x <> LTop
  /\ exists item,
       itemAt (hfam x) (hlayer x) (hidx x) f = Some item
       /\ iname item = hname x /\ isHeavy item = true.
Proof.
  intros Hnd Hin.
  apply heavyItems_in in Hin as ([k ls] & Hkv & Hf & Hl & item & Hn & H5 & H6).
  split; [exact Hl|]; exists item; repeat split; auto.
  unfold itemAt, getFamily; cbn [fst snd] in *.
  now rewrite Hf, (lookup_NoDup f k ls Hnd Hkv).
Qed.

(** ... and no position is collected twice. *)
Lemma heavyItems_NoDup (f : Formula) :
  NoDup (keys f) -> NoDup (map posOf (heavyItems f)).
Proof.
  unfold heavyItems, keys.
  induction f as [|kv f IH]; cbn [map flat_map]; intros Hnd; [constructor|].
  inversion Hnd as [|? ? Hnotin Hnd']; subst.
  rewrite map_app; apply NoDup_app;
    [apply heavyOfFamily_NoDup | now apply IH |].
  intros p H1 H2.
  apply in_map_iff in H1 as [x [<- Hx]].
  apply in_map_iff in H2 as [y [Hxy Hy]].
  apply in_app_or in Hx as [Hx|Hx];
    apply heavyOfLayer_spec in Hx as (Hfx & _);
    apply (heavyItems_in f) in Hy as (kv' & Hkv' & Hfy & _);
    apply Hnotin; unfold posOf in Hxy;
    assert (fst kv = fst kv') as -> by congruence;
    now apply in_map.
Qed.

(** The non-hero entries above 5%. *)
Definition nonHeroHeavy (h : option string) (item : FormulaIngredient) : bool :=
  nonHero h item && isHeavy item.

Definition notHero (h : option string) (x : HeavyItem) : bool :=
  negb (isHeroName h (hname x)).

Lemma count_heavyOfLayer (h : option string) (fam : string) (layer : Layer)
    (items : list FormulaIngredient) :
  forall start,
    countIf (notHero h) (heavyOfLayer fam layer items start)
    = countIf (nonHeroHeavy h) items.
Proof.
  induction items as [|item items IH]; intros start; [reflexivity|].
  cbn [heavyOfLayer]; rewrite countIf_app, IH, countIf_cons.
  unfold nonHeroHeavy, isHeavy, nonHero, notHero.
  destruct (Js.gt (getUpperPct item) 5); cbn [hname];
    [|rewrite andb_false_r; reflexivity].
  rewrite countIf_cons; cbn [hname]; rewrite andb_true_r.
  destruct (negb _); reflexivity.
Qed.

Lemma count_heavyItems (h : option string) (f : Formula) :
  countIf (notHero h) (heavyItems f) = countHB (nonHeroHeavy h) f.
Proof.
  unfold heavyItems; induction f as [|kv f IH]; [reflexivity|].
  cbn [flat_map]; rewrite countHB_cons, !countIf_app, !count_heavyOfLayer, IH.
  lia.
Qed.

Lemma countIf_perm {A} (p : A -> bool) (l l' : list A) :
  Permutation l l' -> countIf p l = countIf p l'.
Proof.
  induction 1 as [|x l l' _ IH|x y l|l l' l'' _ IH1 _ IH2];
    rewrite ?countIf_cons; try lia; congruence.
Qed.


(** ** Step 6c: how many entries stay above 5% *)

Lemma reduceAt_found (x : HeavyItem) (acc : Formula * list string)
    (item : FormulaIngredient) :
  itemAt (hfam x) (hlayer x) (hidx x) (fst acc) = Some item ->
  reduceAt x acc
  = (setItemAt (hfam x) (hlayer x) (hidx x) (rescale 0.7 item) (fst acc),
     snd acc ++ [supportNote item (scaledBand 0.7 item)]).
Proof. unfold reduceAt; now intros ->. Qed.

Lemma reduceLoop_count (h : option string) (total : Z)
    (todo : list HeavyItem) :
  forall reductions acc,
    NoDup (map posOf todo) ->
    (forall x, In x todo ->
       hlayer x <> LTop
       /\ exists item,
            itemAt (hfam x) (hlayer x) (hidx x) (fst acc) = Some item
            /\ iname item = hname x /\ isHeavy item = true) ->
    AllHB (heroOrCapped h) (fst acc) ->
    countHB (nonHeroHeavy h) (fst (reduceLoop h total todo reductions acc))
    = countHB (nonHeroHeavy h) (fst acc)
      - Z.min (Z.max 0 (total - 2 - reductions)) (countIf (notHero h) todo).
Proof.
  induction todo as [|x todo IH]; intros reductions acc Hnd Hat Hcap;
    cbn [reduceLoop].
  - unfold countIf, len; cbn; lia.
  - cbn [map] in Hnd; inversion Hnd as [|? ? Hnotin Hnd']; subst.
    rewrite countIf_cons; unfold notHero at 1.
    pose proof (countIf_nonneg (notHero h) todo) as Hc.
    destruct (isHeroName h (hname x)) eqn:Eh; cbn [negb].
    + assert (Hat' : forall y, In y todo ->
                hlayer y <> LTop
                /\ exists item,
                     itemAt (hfam y) (hlayer y) (hidx y) (fst acc) = Some item
                     /\ iname item = hname y /\ isHeavy item = true)
        by (intros y Hy; apply Hat; now right).
      rewrite (IH reductions acc Hnd' Hat' Hcap); lia.
    + destruct (Z.leb_spec (total - reductions) 2) as [Hle|Hgt]; [lia|].
      destruct (Hat x (or_introl eq_refl)) as (Hl & item & Hitem & Hname & Hhv).
      rewrite (reduceAt_found x acc item Hitem).
      assert (Hcapped : capped item = true).
      { destruct (AllHB_itemAt _ _ _ _ _ _ Hcap Hl Hitem) as [H|H];
          [congruence | exact H]. }
      destruct (rescale_capped item Hcapped) as (_ & Hc7 & Hnh).
      set (acc' := (setItemAt (hfam x) (hlayer x) (hidx x) (rescale 0.7 item)
                      (fst acc),
                    snd acc ++ [supportNote item (scaledBand 0.7 item)])).
      assert (Hat' : forall y, In y todo ->
                hlayer y <> LTop
                /\ exists it,
                     itemAt (hfam y) (hlayer y) (hidx y) (fst acc') = Some it
                     /\ iname it = hname y /\ isHeavy it = true).
      { intros y Hy; destruct (Hat y (or_intror Hy)) as (Hly & it & Hit & Hn & Hv).
        split; [exact Hly|]; exists it; repeat split; auto.
        subst acc'; cbn [fst].
        rewrite itemAt_setItemAt_other; [exact Hit|].
        intros Heq; apply Hnotin.
        change (hfam y, hlayer y, hidx y) with (posOf y) in Heq.
        change (hfam x, hlayer x, hidx x) with (posOf x) in Heq.
        rewrite <- Heq; now apply in_map. }
      assert (Hcap' : AllHB (heroOrCapped h) (fst acc')).
      { subst acc'; cbn [fst]; apply AllHB_setItemAt; [|exact Hcap].
        now right. }
      rewrite (IH (reductions + 1) acc' Hnd' Hat' Hcap').
      subst acc'; cbn [fst].
      rewrite (countHB_setItemAt _ _ _ _ _ item _ Hl Hitem).
      unfold nonHeroHeavy at 2 3, nonHero.
      rewrite iname_rescale, Hname, Eh, Hhv, Hnh; cbn [negb andb b2z]; lia.
Qed.

(** The loop reduces the first [total - 2] non-hero entries of the
    sorted array, or all of them when they are fewer. *)
Lemma reduceLoop_firstn (h : option string) (total : Z)
    (todo : list HeavyItem) :
  forall reductions acc,
    reduceLoop h total todo reductions acc
    = fold_left (fun a x => reduceAt x a)
        (firstn (Z.to_nat (total - 2 - reductions)) (filter (notHero h) todo))
        acc.
Proof.
  induction todo as [|x todo IH]; intros reductions acc;
    cbn [reduceLoop filter].
  - now rewrite firstn_nil.
  - unfold notHero at 1.
    destruct (isHeroName h (hname x)); cbn [negb]; [apply IH|].
    destruct (Z.leb_spec (total - reductions) 2) as [Hle|Hgt].
    + replace (Z.to_nat (total - 2 - reductions)) with O by lia; reflexivity.
    + replace (Z.to_nat (total - 2 - reductions))
        with (S (Z.to_nat (total - 2 - (reductions + 1)))) by lia.
      cbn [firstn fold_left]; apply IH.
Qed.

(** The entries that 6c reduces, in the order of the reductions. *)
Definition reducedBy (h : option string) (f : Formula) : list HeavyItem :=
  let heavy := heavyItems f in
  if 2 <? len heavy
  then firstn (Z.to_nat (len heavy - 2))
         (filter (notHero h) (sortBy (heavyAfter h) heavy))
  else [].

Lemma passC_unfold (h : option string) (acc : Formula * list string) :
  passC h acc
  = fold_left (fun a x => reduceAt x a) (reducedBy h (fst acc)) acc.
Proof.
  unfold passC, reducedBy; destruct (2 <? len _); [|reflexivity].
  rewrite reduceLoop_firstn; now rewrite Z.sub_0_r.
Qed.




Lemma StronglySorted_firstn {A} (R : A -> A -> Prop) (n : nat) (l : list A) :
  StronglySorted R l -> StronglySorted R (firstn n l).
Proof.
  intros H; revert n; induction H as [|x l Hs IH Hx]; intros [|n];
    cbn [firstn]; try constructor; auto.
  rewrite Forall_forall in *; intros y Hy; apply Hx, (In_firstn _ _ _ Hy).
Qed.



(** ** Step 6c: which entries are reduced, and in what order *)




Lemma itemAt_setItemAt_same (fam : string) (layer : Layer) (idx : nat)
    (x old : FormulaIngredient) (f : Formula) :
  itemAt fam layer idx f = Some old ->
  itemAt fam layer idx (setItemAt fam layer idx x f) = Some x.
Proof.
  unfold itemAt; rewrite getFamily_setItemAt_same.
  destruct (getFamily fam f) as [w|]; [|discriminate]; cbn [option_map].
  rewrite getLayer_setLayer_same; apply nth_error_replaceNth_same.
Qed.

Lemma position_eq_dec (p q : string * Layer * nat) : {p = q} + {p <> q}.
Proof.
  decide equality;
    [apply Nat.eq_dec
    | decide equality; [apply Layer_eq_dec | apply string_dec]].
Qed.


Lemma NoDup_map_filter {A B} (g : A -> B) (p : A -> bool) (l : list A) :
  NoDup (map g l) -> NoDup (map g (filter p l)).
Proof.
  induction l as [|x l IH]; cbn [map filter]; [auto|].
  intros H; inversion H as [|? ? Hx Hl]; subst.
  destruct (p x); cbn [map]; [|now apply IH].
  constructor; [|now apply IH].
  intros Hin; apply Hx.
  apply in_map_iff in Hin as (y & E & Hy); apply filter_In in Hy as [Hy _].
  rewrite <- E; now apply in_map.
Qed.

Lemma NoDup_map_firstn {A B} (g : A -> B) (n : nat) (l : list A) :
  NoDup (map g l) -> NoDup (map g (firstn n l)).
Proof.
  intros H; rewrite <- (firstn_skipn n l), map_app in H.
  now apply NoDup_app_remove_r in H.
Qed.

Lemma NoDup_map_inj_in {A B} (g : A -> B) (l : list A) (x y : A) :
  NoDup (map g l) -> In x l -> In y l -> g x = g y -> x = y.
Proof.
  induction l as [|z l IH]; cbn [map]; intros Hnd Hx Hy E; [destruct Hx|].
  inversion Hnd as [|? ? Hz Hl]; subst.
  destruct Hx as [->|Hx], Hy as [->|Hy]; auto.
  - exfalso; apply Hz; rewrite E; now apply in_map.
  - exfalso; apply Hz; rewrite <- E; now apply in_map.
Qed.




(** *** The array [heavyItems] and the formula *)







(** *** The reductions, one after the other *)





(** ** The band kept in tenths and the string it stands for *)

Lemma map_eq_at {A B} (g1 g2 : A -> B) (l : list A) (x : A) :
  map g1 l = map g2 l -> In x l -> g1 x = g2 x.
Proof.
  induction l as [|y l IH]; cbn [map]; intros H Hin; [destruct Hin|].
  injection H as H1 H2; destruct Hin as [<-|Hx]; auto.
Qed.

Fixpoint allNumeric (s : string) : bool :=
  match s with
  | EmptyString => true
  | String c r => isNumChar c && allNumeric r
  end.

Lemma append_assoc_char (a : string) (c : ascii) (b : string) :
  ((a ++ String c EmptyString) ++ b = a ++ String c b)%string.
Proof. induction a as [|d a IH]; cbn; [reflexivity | now rewrite IH]. Qed.

Lemma matchNumbers_run (a : string) :
  forall cur rest,
    allNumeric a = true ->
    matchNumbers cur (a ++ rest) = matchNumbers (cur ++ a) rest.
Proof.
  induction a as [|c a IH]; intros cur rest H; cbn [allNumeric] in H.
  - cbn [String.append]. f_equal.
    clear; induction cur as [|d cur IH]; cbn; [reflexivity | now rewrite <- IH].
  - apply andb_prop in H as [Hc Ha].
    cbn [String.append matchNumbers]; rewrite Hc, (IH _ _ Ha).
    now rewrite append_assoc_char.
Qed.

(** The regular expression finds the two numbers of a band in its
    text. *)
Lemma matchNumbers_band (a b : string) :
  allNumeric a = true -> allNumeric b = true ->
  isEmpty a = false -> isEmpty b = false ->
  matchNumbers "" (a ++ "–" ++ b ++ "%") = [a; b].
Proof.
  intros Ha Hb Hna Hnb.
  rewrite (matchNumbers_run a "" _ Ha); cbn [String.append].
  cbn [matchNumbers isNumChar]; rewrite Hna.
  cbn -[matchNumbers String.append].
  cbn [matchNumbers]; cbn -[matchNumbers String.append].
  rewrite (matchNumbers_run b "" _ Hb); cbn [String.append].
  cbn [matchNumbers]; cbn -[matchNumbers String.append]. now rewrite Hnb.
Qed.

(** Within the limit, the text of a number of tenths is a run of digits
    and dots that [parseFloat] reads back as the double [k/10], and the
    tenths of that double are [k]. *)
Lemma showTenths_reads_back (k : N) :
  (k <= bandLimit)%N ->
  allNumeric (showTenths k) = true
  /\ isEmpty (showTenths k) = false
  /\ parseFloat (showTenths k) = ofTenths k
  /\ tenths (ofTenths k) = k.
Proof.
  intros Hk.
  assert (H1 : forallb
             (fun k => allNumeric (showTenths k)
                       && negb (isEmpty (showTenths k))
                       && (tenths (ofTenths k) =? k)%N)
             (upto bandLimit) = true) by (vm_compute; reflexivity).
  assert (H2 : map (fun k => parseFloat (showTenths k)) (upto bandLimit)
               = map ofTenths (upto bandLimit)) by (vm_compute; reflexivity).
  pose proof (forall_upto _ _ H1 k Hk) as Hb; cbv beta in Hb.
  apply andb_prop in Hb as [Hb H3]; apply andb_prop in Hb as [Ha Hb].
  repeat split; auto.
  - now apply negb_true_iff.
  - exact (map_eq_at _ _ _ k H2 (upto_In k _ Hk)).
  - now apply N.eqb_eq.
Qed.

(** The numbers that the passes read from the text of a band are the
    numbers the band is kept as. *)
Lemma band_text_reads_back (lo hi : N) :
  (lo <= bandLimit)%N -> (hi <= bandLimit)%N ->
  map parseFloat (matchNumbers "" (percentText (Band lo hi)))
  = numbersOf (Band lo hi).
Proof.
  intros Hlo Hhi.
  destruct (showTenths_reads_back lo Hlo) as (A1 & A2 & A3 & _).
  destruct (showTenths_reads_back hi Hhi) as (B1 & B2 & B3 & _).
  cbn [percentText numbersOf].
  rewrite (matchNumbers_band _ _ A1 B1 A2 B2); cbn [map].
  now rewrite A3, B3.
Qed.

(** Every published percent of the database holds two numbers, so that
    [parseMidpoint] is their mean. *)
Lemma database_percents_have_two_numbers :
  forallb (fun i => len (matchNumbers "" (percent i)) =? 2) allIngredients
  = true.
Proof. vm_compute; reflexivity. Qed.

(** ** The hero through steps 6a to 6c *)

(** A reduction keeps the name at every position. *)
Lemma names_reduceAt (x : HeavyItem) (acc : Formula * list string)
    (fam : string) (layer : Layer) (idx : nat) :
  option_map iname (itemAt fam layer idx (fst (reduceAt x acc)))
  = option_map iname (itemAt fam layer idx (fst acc)).
Proof.
  unfold reduceAt.
  destruct (itemAt (hfam x) (hlayer x) (hidx x) (fst acc)) as [item|] eqn:E;
    [|reflexivity].
  cbn [fst].
  destruct (position_eq_dec (fam, layer, idx) (hfam x, hlayer x, hidx x))
    as [Heq|Hne].
  - injection Heq as -> -> ->.
    now rewrite (itemAt_setItemAt_same _ _ _ _ item _ E), E.
  - now rewrite itemAt_setItemAt_other.
Qed.

Lemma hero_kept_by_reductions (h : option string) (todo : list HeavyItem) :
  forall acc fam layer idx item,
    (forall x, In x todo ->
       isHeroName h (hname x) = false
       /\ option_map iname (itemAt (hfam x) (hlayer x) (hidx x) (fst acc))
          = Some (hname x)) ->
    itemAt fam layer idx (fst acc) = Some item ->
    isHeroName h (iname item) = true ->
    itemAt fam layer idx (fst (fold_left (fun a x => reduceAt x a) todo acc))
    = Some item.
Proof.
  induction todo as [|x todo IH]; intros acc fam layer idx item Hat Hit Hh;
    cbn [fold_left]; [exact Hit|].
  destruct (Hat x (or_introl eq_refl)) as [Hx Hnx].
  apply IH; auto.
  - intros y Hy; destruct (Hat y (or_intror Hy)) as [H1 H2].
    split; [exact H1 | now rewrite names_reduceAt].
  - unfold reduceAt.
    destruct (itemAt (hfam x) (hlayer x) (hidx x) (fst acc)) as [it|] eqn:E;
      [|exact Hit].
    cbn [fst]; rewrite itemAt_setItemAt_other; [exact Hit|].
    intros Heq; injection Heq as -> -> ->.
    rewrite Hit in E; injection E as <-.
    cbn [option_map] in Hnx; injection Hnx as Hnx. congruence.
Qed.

(** The passes 6a, 6b and 6c never rewrite an entry that bears the name
    of the hero. *)
Lemma hero_not_rewritten (o : Options) (seed : Z) (fam : string)
    (layer : Layer) (idx : nat) (item : FormulaIngredient) :
  itemAt fam layer idx (fst (enteringResolution o seed)) = Some item ->
  isHeroName (heroNameOf o seed) (iname item) = true ->
  itemAt fam layer idx (afterPassA o seed) = Some item
  /\ itemAt fam layer idx (afterPassB o seed) = Some item
  /\ itemAt fam layer idx (fst (afterPassC o seed)) = Some item.
Proof.
  intros Hit Hh.
  assert (HA : itemAt fam layer idx (afterPassA o seed) = Some item).
  { unfold afterPassA, passA; destruct (1 <? highDom _); [|exact Hit].
    rewrite itemAt_mapHeartBase, Hit; cbn [option_map].
    destruct layer; cbv beta; now rewrite ?Hh. }
  assert (HB : itemAt fam layer idx (afterPassB o seed) = Some item).
  { unfold afterPassB, passB.
    rewrite itemAt_mapHeartBase, HA; cbn [option_map].
    destruct layer; cbv beta; now rewrite ?Hh. }
  repeat split; auto.
  unfold afterPassC; rewrite passC_unfold; cbn [fst].
  apply (hero_kept_by_reductions (heroNameOf o seed)); auto.
  intros x Hx; unfold reducedBy in Hx.
  destruct (2 <? len _); [|contradiction].
  apply In_firstn, filter_In in Hx as [Hx Hn].
  apply sortBy_In in Hx.
  split; [now apply negb_true_iff in Hn|].
  destruct (heavyItems_at _ x (NoDup_keys_afterPassB o seed) Hx)
    as (_ & it & H1 & H2 & _).
  cbn [fst]; now rewrite H1, <- H2.
Qed.

(** ** Names and layout through steps 6 and 7 *)

(** The layout of a formula: its keys in order and, layer by layer, the
    names of its entries. *)
Definition shapeOf (ls : Layers FormulaIngredient) : Layers string :=
  mkLayers (map iname (top ls)) (map iname (heart ls)) (map iname (base ls)).

Definition shape (f : Formula) : list (string * Layers string) :=
  map (fun kv => (fst kv, shapeOf (snd kv))) f.

Lemma shape_mapHeartBase (g : string -> FormulaIngredient -> FormulaIngredient)
    (f : Formula) :
  (forall fam item, iname (g fam item) = iname item) ->
  shape (mapHeartBase g f) = shape f.
Proof.
  intros Hg; unfold shape, mapHeartBase; rewrite map_map.
  apply map_ext; intros [k ls]; cbn [fst snd]; unfold shapeOf; cbn [top heart base].
  rewrite !map_map; f_equal; f_equal; apply map_ext; intros x; apply Hg.
Qed.

Lemma map_replaceNth {A B} (g : A -> B) (idx : nat) (x old : A) (l : list A) :
  nth_error l idx = Some old -> g x = g old ->
  map g (replaceNth idx x l) = map g l.
Proof.
  revert idx; induction l as [|y l IH]; intros [|idx]; cbn;
    try discriminate.
  - intros [= ->] ->; reflexivity.
  - intros H Hg; now rewrite IH.
Qed.

Lemma shape_setItemAt (fam : string) (layer : Layer) (idx : nat)
    (x old : FormulaIngredient) (f : Formula) :
  itemAt fam layer idx f = Some old -> iname x = iname old ->
  shape (setItemAt fam layer idx x f) = shape f.
Proof.
  unfold itemAt, getFamily; intros Hat Hn.
  induction f as [|[k w] f IH]; cbn [setItemAt]; [reflexivity|].
  cbn [lookup] in Hat; rewrite String.eqb_sym in Hat.
  destruct (String.eqb k fam).
  - unfold shape; cbn [map fst snd]; f_equal; f_equal.
    destruct layer; unfold shapeOf; cbn [setLayer getLayer top heart base] in *;
      now rewrite (map_replaceNth iname idx x old).
  - unfold shape in *; cbn [map fst snd]; now rewrite IH.
Qed.

Lemma shape_reduceAt (x : HeavyItem) (acc : Formula * list string) :
  shape (fst (reduceAt x acc)) = shape (fst acc).
Proof.
  unfold reduceAt.
  destruct (itemAt _ _ _ _) as [item|] eqn:E; [|reflexivity].
  cbn [fst]; now apply (shape_setItemAt _ _ _ _ item).
Qed.

Lemma shape_reduceLoop (h : option string) (total : Z) (todo : list HeavyItem) :
  forall reductions acc,
    shape (fst (reduceLoop h total todo reductions acc)) = shape (fst acc).
Proof.
  induction todo as [|x todo IH]; intros reductions acc; cbn [reduceLoop];
    [reflexivity|].
  destruct (isHeroName h (hname x)); [apply IH|].
  destruct (total - reductions <=? 2); [reflexivity|].
  rewrite IH; apply shape_reduceAt.
Qed.

Lemma shape_passD (acc : Formula * list string) :
  shape (fst (passD acc)) = shape (fst acc).
Proof.
  unfold passD; generalize (usedGroups (fst acc)) as ug.
  intros ug; revert acc; induction ug as [|gm ug IH]; intros acc;
    cbn [fold_left]; [reflexivity|].
  rewrite IH; unfold dampen.
  destruct (1 <? len (snd gm)); [|reflexivity].
  cbn [fst]; apply shape_mapHeartBase.
  intros _ item; now destruct (isHeroName _ _).
Qed.

(** Steps 6 and 7 rewrite percents only: the keys, the layers and the
    names of the entries stay as they enter. *)
Lemma shape_resolveConflicts (h : option string) (acc : Formula * list string) :
  shape (fst (resolveConflicts h acc)) = shape (fst acc).
Proof.
  unfold resolveConflicts; rewrite shape_passD.
  unfold passC; cbn [fst].
  assert (HB : shape (passB h (passA h (fst acc))) = shape (fst acc)).
  { unfold passB; rewrite shape_mapHeartBase.
    - unfold passA; destruct (1 <? highDom (fst acc)); [|reflexivity].
      apply shape_mapHeartBase; intros fam item.
      destruct (isHeroName h (iname item)); [reflexivity|].
      now destruct (isHighDominance fam item).
    - intros fam item; destruct (isHeroName h (iname item)); [reflexivity|].
      destruct (Js.gt _ _); reflexivity. }
  destruct (2 <? len _); [|exact HB].
  now rewrite shape_reduceLoop.
Qed.

(** ** The place of the hero *)

(** The places of a formula, as family and layer, where an entry named
    [n] sits, in the order of the walk. *)
Definition placesIn (n fam : string) (ls : Layers string)
    : list (string * Layer) :=
  map (fun _ => (fam, LTop)) (filter (String.eqb n) (top ls))
  ++ map (fun _ => (fam, LHeart)) (filter (String.eqb n) (heart ls))
  ++ map (fun _ => (fam, LBase)) (filter (String.eqb n) (base ls)).

Definition placesOf (n : string) (f : Formula) : list (string * Layer) :=
  flat_map (fun kv => placesIn n (fst kv) (snd kv)) (shape f).

(** No entry of [l] is named [n]. *)
Definition others (n : string) (l : list FormulaIngredient) : Prop :=
  Forall (fun i => iname i <> n) l.

Lemma filter_others (n : string) (l : list FormulaIngredient) :
  others n l -> filter (String.eqb n) (map iname l) = [].
Proof.
  induction 1 as [|i l Hi _ IH]; cbn; [reflexivity|].
  destruct (String.eqb_spec n (iname i)); [congruence | exact IH].
Qed.

Lemma placesIn_others (n fam : string) (ls : Layers FormulaIngredient) :
  others n (top ls) -> others n (heart ls) -> others n (base ls) ->
  placesIn n fam (shapeOf ls) = [].
Proof.
  intros Ht Hh Hb; unfold placesIn, shapeOf; cbn [top heart base].
  now rewrite !filter_others.
Qed.

Lemma placesIn_push (n fam : string) (layer : Layer) (item : FormulaIngredient)
    (ls : Layers FormulaIngredient) :
  iname item <> n ->
  placesIn n fam (shapeOf (setLayer layer (getLayer layer ls ++ [item]) ls))
  = placesIn n fam (shapeOf ls).
Proof.
  intros Hn.
  assert (H : forall l, filter (String.eqb n) (map iname (l ++ [item]))
                        = filter (String.eqb n) (map iname l)).
  { intros l; rewrite map_app, filter_app; cbn.
    destruct (String.eqb_spec n (iname item)); [congruence|apply app_nil_r]. }
  destruct layer; unfold placesIn, shapeOf;
    cbn [setLayer getLayer top heart base]; now rewrite H.
Qed.

(** A sub-formula other than that of [dom], without the name [n]. *)
Definition quiet (n dom : string) (kv : string * Layers FormulaIngredient)
    : Prop :=
  fst kv <> dom /\ placesIn n (fst kv) (shapeOf (snd kv)) = [].

(** The hero sits once, in layer [L] of the sub-formula of [dom], which
    is the first key; no other sub-formula holds its name. *)
Definition heroAt (n dom : string) (L : Layer) (f : Formula) : Prop :=
  exists lsD rest,
    f = (dom, lsD) :: rest
    /\ placesIn n dom (shapeOf lsD) = [(dom, L)]
    /\ Forall (quiet n dom) rest.

Lemma heroAt_places (n dom : string) (L : Layer) (f : Formula) :
  heroAt n dom L f -> placesOf n f = [(dom, L)].
Proof.
  intros (lsD & rest & -> & HD & Hrest).
  unfold placesOf, shape; cbn [map flat_map fst snd]; rewrite HD.
  cbn [app]; f_equal.
  induction Hrest as [|kv rest [_ Hkv] _ IH]; cbn [map flat_map fst snd];
    [reflexivity|].
  now rewrite Hkv, IH.
Qed.

Lemma rest_setFamily (n dom k : string) (ls : Layers FormulaIngredient)
    (rest : Formula) :
  k <> dom -> placesIn n k (shapeOf ls) = [] ->
  Forall (quiet n dom) rest -> Forall (quiet n dom) (setFamily k ls rest).
Proof.
  intros Hk Hls; induction 1 as [|[k' w] rest Hq Hr IH]; cbn [setFamily].
  - constructor; [split; assumption | constructor].
  - destruct (String.eqb_spec k' k) as [->|_]; constructor; auto.
    split; assumption.
Qed.

Lemma rest_pushItem (n dom fam : string) (layer : Layer)
    (item : FormulaIngredient) (rest : Formula) :
  iname item <> n ->
  Forall (quiet n dom) rest -> Forall (quiet n dom) (pushItem fam layer item rest).
Proof.
  intros Hn; induction 1 as [|[k' w] rest [H1 H2] Hr IH]; cbn [pushItem];
    [constructor|].
  cbn [fst snd] in *.
  destruct (String.eqb k' fam); constructor; auto; split; cbn [fst snd];
    auto.
  now rewrite placesIn_push.
Qed.

Lemma heroAt_setFamily (n dom : string) (L : Layer) (k : string)
    (ls : Layers FormulaIngredient) (f : Formula) :
  k <> dom -> placesIn n k (shapeOf ls) = [] ->
  heroAt n dom L f -> heroAt n dom L (setFamily k ls f).
Proof.
  intros Hk Hls (lsD & rest & -> & HD & Hrest).
  exists lsD, (setFamily k ls rest); cbn [setFamily].
  destruct (String.eqb_spec dom k) as [E|_]; [congruence|].
  repeat split; auto; now apply rest_setFamily.
Qed.

Lemma heroAt_pushItem (n dom : string) (L : Layer) (fam : string)
    (layer : Layer) (item : FormulaIngredient) (f : Formula) :
  iname item <> n ->
  heroAt n dom L f -> heroAt n dom L (pushItem fam layer item f).
Proof.
  intros Hn (lsD & rest & -> & HD & Hrest); cbn [pushItem].
  destruct (String.eqb dom fam).
  - eexists _, rest; repeat split; auto; now rewrite placesIn_push.
  - exists lsD, (pushItem fam layer item rest); repeat split; auto.
    now apply rest_pushItem.
Qed.

Lemma heroAt_place (n dom : string) (L : Layer) (fam : string)
    (layer : Layer) (item : FormulaIngredient) (f : Formula) :
  iname item <> n ->
  heroAt n dom L f -> heroAt n dom L (place fam layer item f).
Proof.
  intros Hn Hf; unfold place; apply heroAt_pushItem; [exact Hn|].
  unfold ensureFamily; destruct (getFamily fam f) eqn:E; [exact Hf|].
  apply heroAt_setFamily; auto.
  destruct Hf as (lsD & rest & -> & _); intros ->.
  unfold getFamily in E; cbn [lookup] in E; now rewrite String.eqb_refl in E.
Qed.

(** *** A name once used stays used *)

Lemma mem_In (x : string) (xs : list string) : mem x xs = true <-> In x xs.
Proof.
  unfold mem; rewrite existsb_exists; split.
  - intros (y & Hy & E); apply String.eqb_eq in E; now subst.
  - intros H; exists x; split; [exact H | apply String.eqb_refl].
Qed.

Lemma not_mem_neq (n x : string) (u : list string) :
  mem n u = true -> mem x u = false -> x <> n.
Proof. intros Hn Hx ->; congruence. Qed.

Section Keeps.
Variable n : string.

Definition keeps {A} (m : M A) : Prop :=
  forall e, mem n (used e) = true -> mem n (used (snd (m e))) = true.

Lemma keeps_ret {A} (a : A) : keeps (ret a).
Proof. intros e H; exact H. Qed.

Lemma keeps_bind {A B} (m : M A) (k : A -> M B) :
  keeps m -> (forall a, keeps (k a)) -> keeps (bind m k).
Proof.
  intros Hm Hk e H; unfold bind.
  specialize (Hm e H); destruct (m e) as [a e']; now apply Hk.
Qed.

Lemma keeps_rng (offset : float) : keeps (rng offset).
Proof.
  intros e H; unfold rng; now destruct (seededRng (rngState e) offset).
Qed.

Lemma keeps_useName (x : string) : keeps (useName x).
Proof.
  intros e H; unfold useName; cbn [snd used].
  destruct (mem x (used e)); [exact H|].
  apply mem_In, in_or_app; left; now apply mem_In.
Qed.

Lemma keeps_pushPicked (i : RawIngredient) : keeps (pushPicked i).
Proof. intros e H; exact H. Qed.

Lemma keeps_pushWarning (w : string) : keeps (pushWarning w).
Proof. intros e H; exact H. Qed.

Lemma keeps_getUsed : keeps getUsed.
Proof. intros e H; exact H. Qed.

Lemma keeps_getPicked : keeps getPicked.
Proof. intros e H; exact H. Qed.

Lemma keeps_when (b : bool) (m : M unit) : keeps m -> keeps (when b m).
Proof. intros Hm; destruct b; [exact Hm | apply keeps_ret]. Qed.

Lemma keeps_forEachM {A B} (f : A -> M B) (l : list A) :
  (forall x, keeps (f x)) -> keeps (forEachM f l).
Proof.
  intros Hf; induction l as [|x l IH]; cbn [forEachM]; [apply keeps_ret|].
  apply keeps_bind; [apply Hf | intros y].
  apply keeps_bind; [exact IH | intros ys; apply keeps_ret].
Qed.

Lemma keeps_foldM {A B} (f : A -> B -> M A) (l : list B) :
  (forall a x, keeps (f a x)) -> forall a, keeps (foldM f a l).
Proof.
  intros Hf; induction l as [|x l IH]; intros a; cbn [foldM];
    [apply keeps_ret|].
  apply keeps_bind; [apply Hf | intros a'; apply IH].
Qed.

(** Closes a goal [keeps m] along the structure of [m]. *)
Ltac keeps_step :=
  first
    [ apply keeps_ret | apply keeps_rng | apply keeps_useName
    | apply keeps_pushPicked | apply keeps_pushWarning | apply keeps_getUsed
    | apply keeps_getPicked | apply keeps_when
    | apply keeps_bind; [|intros ?]
    | match goal with
      | |- keeps (match ?x with _ => _ end) => destruct x
      end ].

Lemma keeps_scoreCandidates (rq : Request) (cands : list RawIngredient) :
  forall idx, keeps (scoreCandidates rq cands idx).
Proof.
  induction cands as [|c cands IH]; intros idx; cbn [scoreCandidates];
    [apply keeps_ret|].
  apply keeps_bind; [apply keeps_rng | intros r].
  apply keeps_bind; [apply IH | intros more; apply keeps_ret].
Qed.

Lemma keeps_scoreFills (rq : Request) (cands : list RawIngredient) :
  forall idx, keeps (scoreFills rq cands idx).
Proof.
  induction cands as [|c cands IH]; intros idx; cbn [scoreFills];
    [apply keeps_ret|].
  apply keeps_bind; [apply keeps_rng | intros r].
  apply keeps_bind; [apply IH | intros more; apply keeps_ret].
Qed.

Lemma keeps_takeScaled (mult : float) (i : RawIngredient) :
  keeps (takeScaled mult i).
Proof. unfold takeScaled; repeat keeps_step. Qed.

Lemma keeps_pick (rq : Request) (pool : list RawIngredient) (r : Role)
    (count : nat) (mult : float) : keeps (pick rq pool r count mult).
Proof.
  unfold pick; apply keeps_bind; [apply keeps_getUsed | intros u].
  apply keeps_bind; [apply keeps_scoreCandidates | intros scored].
  apply keeps_forEachM; intros s; apply keeps_takeScaled.
Qed.

Lemma keeps_dominantTop (dom : Layers RawIngredient) : keeps (dominantTop dom).
Proof. unfold dominantTop; repeat keeps_step. Qed.

Lemma keeps_secondaryFill (rq : Request) (sec : Layers RawIngredient) :
  keeps (secondaryFill rq sec).
Proof.
  unfold secondaryFill.
  repeat (apply keeps_bind; [apply keeps_pick | intros ?]); apply keeps_ret.
Qed.

Lemma keeps_accentFill (rq : Request) (acc : Layers RawIngredient) :
  keeps (accentFill rq acc).
Proof.
  unfold accentFill.
  apply keeps_bind; [apply keeps_pick | intros ?; apply keeps_ret].
Qed.

Lemma keeps_fillSecondary (rq : Request) (f : Formula) :
  keeps (fillSecondary rq f).
Proof.
  unfold fillSecondary; destruct (INGREDIENT_DB _); [|apply keeps_ret].
  apply keeps_bind; [apply keeps_secondaryFill | intros ?; apply keeps_ret].
Qed.

Lemma keeps_fillAccent (rq : Request) (f : Formula) :
  keeps (fillAccent rq f).
Proof.
  unfold fillAccent; destruct (INGREDIENT_DB _); [|apply keeps_ret].
  apply keeps_bind; [apply keeps_accentFill | intros ?; apply keeps_ret].
Qed.

Lemma keeps_ingredientFloor (rq : Request) (f : Formula) :
  keeps (ingredientFloor rq f).
Proof.
  unfold ingredientFloor; apply keeps_bind.
  - unfold floorPicks; destruct (_ && _); [|apply keeps_ret].
    apply keeps_bind; [apply keeps_getUsed | intros u].
    apply keeps_bind; [apply keeps_scoreFills | intros ?; apply keeps_ret].
  - intros picks; apply keeps_foldM; intros a x.
    unfold addFill; repeat keeps_step.
Qed.
End Keeps.

(** *** Where the hero is placed, and what else may bear its name *)

Lemma hasName_findName (n : string) (l : list RawIngredient) :
  hasName n l = match findName n l with Some _ => true | None => false end.
Proof.
  unfold hasName, findName; induction l as [|i l IH]; cbn; [reflexivity|].
  now destruct (String.eqb (name i) n).
Qed.

Lemma findName_None (n : string) (l : list RawIngredient) (i : RawIngredient) :
  findName n l = None -> In i l -> name i <> n.
Proof.
  intros H Hi E; apply (find_none _ _ H) in Hi.
  apply String.eqb_neq in Hi; contradiction.
Qed.

Section HeroPlace.
Variables (rq : Request) (h : RawIngredient).
Hypothesis Hhero : heroOf rq = Some h.

Lemma candidates_others (pool : list RawIngredient) (r : Role)
    (u : list string) (c : RawIngredient) :
  In c (candidates rq pool r u) -> name c <> name h.
Proof.
  unfold candidates, heroName; rewrite Hhero; cbn [option_map isHeroName].
  intros H.
  assert (Hc : String.eqb (name c) (name h) = false).
  { destruct (isNil _); apply filter_In in H as [_ H];
      repeat (apply andb_prop in H as [? H]); now apply negb_true_iff in H. }
  now apply String.eqb_neq.
Qed.

(** [pick] never returns the hero. *)
Lemma pick_others (pool : list RawIngredient) (r : Role) (count : nat)
    (mult : float) (e : Env) :
  others (name h) (fst (pick rq pool r count mult e)).
Proof.
  unfold pick, bind, getUsed.
  pose proof (scoreCandidates_fst rq (candidates rq pool r (used e)) 0 e) as Hs.
  destruct (scoreCandidates rq _ 0 e) as [scored e1]; cbn [fst] in Hs.
  rewrite forEachM_takeScaled.
  apply Forall_forall; intros item Hit.
  apply in_map_iff in Hit as [q [<- Hq]]; cbn [scaledEntry iname].
  apply In_firstn, sortBy_In in Hq.
  apply (candidates_others pool r (used e)); rewrite <- Hs; now apply in_map.
Qed.

(** The top layer of the dominant family is drawn from unused names. *)
Lemma dominantTop_others (dom : Layers RawIngredient) (e : Env) :
  mem (name h) (used e) = true ->
  others (name h) (fst (dominantTop dom e)).
Proof.
  intros Hu; unfold dominantTop, bind at 1, getUsed.
  set (pool := filter (fun i => negb (mem (name i) (used e))) (top dom)).
  assert (Hpool : forall x, In x pool -> name x <> name h).
  { intros x Hx; apply filter_In in Hx as [_ Hx].
    apply negb_true_iff in Hx; exact (not_mem_neq _ _ _ Hu Hx). }
  set (after := fun a b : RawIngredient => 0 <? persistence b - persistence a).
  destruct (sortBy after pool) as [|t0 rest] eqn:Es; [constructor|].
  assert (Hin : forall x, In x (t0 :: rest) -> name x <> name h).
  { intros x Hx; apply Hpool, (sortBy_In after); now rewrite Es. }
  unfold bind at 1, rng.
  destruct (seededRng (rngState e) 10) as [s' r].
  set (t := nth _ (t0 :: rest) t0).
  assert (Ht : name t <> name h).
  { apply Hin; unfold t.
    match goal with
    | |- In (nth ?k ?l ?d) _ =>
        destruct (Nat.lt_ge_cases k (List.length l)) as [Hk|Hk];
        [apply nth_In, Hk | rewrite nth_overflow by exact Hk; now left]
    end. }
  unfold bind, useName, pushPicked, getUsed, ret; cbn [fst snd used].
  destruct (_ && _); [|repeat constructor; exact Ht].
  match goal with
  | |- context [find ?p (t0 :: rest)] =>
      destruct (find p (t0 :: rest)) as [booster|] eqn:Ef
  end; cbn [fst]; repeat constructor; auto.
  apply find_some in Ef as [Hb _]; cbn [verbatim iname]; now apply Hin.
Qed.

Lemma heroName_is : heroName rq = Some (name h).
Proof. unfold heroName; now rewrite Hhero. Qed.

Lemma hero_is_used (e : Env) :
  mem (name h) (used (snd ((useName (name h) ;;; pushPicked h) e))) = true.
Proof.
  unfold bind, useName, pushPicked; cbn [snd used].
  destruct (mem (name h) (used e)) eqn:E; [exact E|].
  apply mem_In, in_or_app; right; now left.
Qed.

(** Step 3 marks the name of the hero as used. *)
Lemma dominantFill_uses (ctx : ContextModifiers) (dom : Layers RawIngredient)
    (e : Env) :
  mem (name h) (used (snd (dominantFill rq ctx dom e))) = true.
Proof.
  unfold dominantFill; rewrite Hhero.
  unfold bind at 1.
  pose proof (hero_is_used e) as H0.
  destruct ((useName (name h) ;;; pushPicked h) e) as [u e0]; cbn [snd] in H0.
  revert e0 H0.
  change (keeps (name h)
    (domTop <- dominantTop dom ;;
     heartPicks <- pick rq (heart dom) Backbone
                     match findName (name h) (heart dom),
                           findName (name h) (base dom) with
                     | Some _, _ => 1%nat
                     | None, Some _ => 1%nat
                     | None, None => 2%nat
                     end
                     match findName (name h) (base dom) with
                     | Some _ => 0.75%float
                     | None => 1%float
                     end ;;
     basePicks <- pick rq (base dom) Backbone 1
                    match findName (name h) (base dom) with
                    | Some _ => (muskBoost ctx * 0.7)%float
                    | None => muskBoost ctx
                    end ;;
     ret (mkLayers domTop
            (match heroName rq, findName (name h) (heart dom) with
             | Some n, Some r => [heroEntry n (Js.min (heroScale ctx) 1.3) r]
             | _, _ => []
             end ++ heartPicks)
            (match heroName rq, findName (name h) (base dom),
                   findName (name h) (heart dom) with
             | Some n, Some r, None =>
                 [heroEntry n (Js.min (heroScale ctx) 1.3) r]
             | _, _, _ => []
             end ++ basePicks)))).
  apply keeps_bind; [apply keeps_dominantTop | intros domTop].
  apply keeps_bind; [apply keeps_pick | intros heartPicks].
  apply keeps_bind; [apply keeps_pick | intros basePicks; apply keeps_ret].
Qed.

(** Step 3 puts the hero once, in the heart layer if the heart list of
    the family holds its name and in the base layer otherwise. *)
Lemma dominantFill_places (ctx : ContextModifiers) (dom : Layers RawIngredient)
    (fam : string) (e : Env) :
  In h (base dom ++ heart dom) ->
  placesIn (name h) fam (shapeOf (fst (dominantFill rq ctx dom e)))
  = [(fam, if hasName (name h) (heart dom) then LHeart else LBase)].
Proof.
  intros Hin; unfold dominantFill; rewrite heroName_is, Hhero.
  unfold bind at 1.
  pose proof (hero_is_used e) as H0.
  destruct ((useName (name h) ;;; pushPicked h) e) as [u e0]; cbn [snd] in H0.
  unfold bind at 1.
  pose proof (dominantTop_others dom e0 H0) as Htop.
  destruct (dominantTop dom e0) as [domTop e1]; cbn [fst snd] in Htop.
  rewrite (hasName_findName (name h) (heart dom)).
  unfold bind at 1.
  match goal with
  | |- context [pick rq (heart dom) Backbone ?c ?m e1] =>
      pose proof (pick_others (heart dom) Backbone c m e1) as Hp1;
      destruct (pick rq (heart dom) Backbone c m e1) as [heartPicks e2]
  end.
  unfold bind at 1.
  match goal with
  | |- context [pick rq (base dom) Backbone ?c ?m e2] =>
      pose proof (pick_others (base dom) Backbone c m e2) as Hp2;
      destruct (pick rq (base dom) Backbone c m e2) as [basePicks e3]
  end.
  cbn [fst snd] in Hp1, Hp2.
  cbv zeta; unfold ret; cbn [fst snd].
  unfold placesIn, shapeOf; cbn [top heart base].
  rewrite (filter_others _ _ Htop).
  destruct (findName (name h) (heart dom)) as [rh|] eqn:Eh.
  - destruct (findName (name h) (base dom));
      cbn [map filter heroEntry iname app];
      now rewrite String.eqb_refl, (filter_others _ _ Hp1),
        (filter_others _ _ Hp2).
  - destruct (findName (name h) (base dom)) as [rb|] eqn:Eb.
    + cbn [map filter heroEntry iname app].
      now rewrite String.eqb_refl, (filter_others _ _ Hp1),
        (filter_others _ _ Hp2).
    + exfalso; apply in_app_or in Hin as [Hin|Hin];
        [exact (findName_None _ _ _ Eb Hin eq_refl)
        | exact (findName_None _ _ _ Eh Hin eq_refl)].
Qed.

Variable L : Layer.

Lemma fillSecondary_heroAt (f : Formula) (e : Env) :
  secondary rq <> dominant rq ->
  heroAt (name h) (dominant rq) L f ->
  heroAt (name h) (dominant rq) L (fst (fillSecondary rq f e)).
Proof.
  intros Hne Hf; unfold fillSecondary.
  destruct (INGREDIENT_DB (secondary rq)) as [sec|]; [|exact Hf].
  unfold bind, secondaryFill, bind.
  pose proof (pick_others (top sec) Lift 1 0.8 e) as Hp0.
  destruct (pick rq (top sec) Lift 1 _ e) as [t e1].
  pose proof (pick_others (heart sec) Backbone 1 0.7 e1) as Hp1.
  destruct (pick rq (heart sec) Backbone 1 _ e1) as [hh e2].
  pose proof (pick_others (base sec) Backbone 1 0.6 e2) as Hp2.
  destruct (pick rq (base sec) Backbone 1 _ e2) as [b e3].
  cbn [fst ret] in *.
  apply heroAt_setFamily; [exact Hne | now apply placesIn_others | exact Hf].
Qed.

Lemma fillAccent_heroAt (f : Formula) (e : Env) :
  accent rq <> dominant rq ->
  heroAt (name h) (dominant rq) L f ->
  heroAt (name h) (dominant rq) L (fst (fillAccent rq f e)).
Proof.
  intros Hne Hf; unfold fillAccent.
  destruct (INGREDIENT_DB (accent rq)) as [acc|]; [|exact Hf].
  unfold bind, accentFill, bind.
  pose proof (pick_others (heart acc ++ base acc) Character 1 0.5 e) as Hp.
  destruct (pick rq (heart acc ++ base acc) Character 1 _ e) as [a e1].
  cbn [fst ret] in *.
  apply heroAt_setFamily; [exact Hne | | exact Hf].
  apply placesIn_others; cbn [top heart base];
    [constructor | now apply Forall_filter | now apply Forall_filter].
Qed.

Lemma heroAt_fold_placeFill (picks : list RawIngredient) :
  Forall (fun p => name p <> name h) picks ->
  forall f,
    heroAt (name h) (dominant rq) L f ->
    heroAt (name h) (dominant rq) L (fold_left (placeFill rq) picks f).
Proof.
  induction 1 as [|p picks Hp _ IH]; intros f Hf; cbn [fold_left];
    [exact Hf|].
  apply IH; unfold placeFill; now apply heroAt_place.
Qed.

Lemma ingredientFloor_heroAt (f : Formula) (e : Env) :
  mem (name h) (used e) = true ->
  heroAt (name h) (dominant rq) L f ->
  heroAt (name h) (dominant rq) L (fst (ingredientFloor rq f e)).
Proof.
  intros Hu Hf; unfold ingredientFloor, bind.
  pose proof (floorPicks_spec rq f e) as [Hin _]; cbv zeta in Hin.
  destruct (floorPicks rq f e) as [picks e']; cbn [fst] in Hin.
  rewrite foldM_addFill; apply heroAt_fold_placeFill; [|exact Hf].
  eapply Forall_impl; [|exact Hin]; cbv beta; intros p Hp.
  apply fillSources_spec in Hp as (_ & Hp & _).
  exact (not_mem_neq _ _ _ Hu Hp).
Qed.

Lemma heroAt_foldM_inject (l : list RawIngredient) :
  Forall (fun p => name p <> name h) l ->
  forall acc e,
    heroAt (name h) (dominant rq) L (fst acc) ->
    heroAt (name h) (dominant rq) L (fst (fst (foldM (inject rq) acc l e))).
Proof.
  induction 1 as [|s l Hs _ IH]; intros acc e Hf; cbn [foldM]; [exact Hf|].
  unfold bind at 1, inject at 1, bind, useName, pushPicked, ret.
  apply IH; cbn [fst].
  now apply (heroAt_place _ _ _ (dominant rq) LBase).
Qed.

Lemma structuralInjection_heroAt (conc : option string) (f : Formula)
    (e : Env) :
  mem (name h) (used e) = true ->
  heroAt (name h) (dominant rq) L f ->
  heroAt (name h) (dominant rq) L (fst (fst (structuralInjection rq conc f e))).
Proof.
  intros Hu Hf; unfold structuralInjection, bind, getPicked, getUsed.
  destruct (_ && _ && _); [|exact Hf].
  apply heroAt_foldM_inject; [|exact Hf].
  apply Forall_forall; intros p Hp.
  apply In_firstn in Hp; unfold structuralCandidates in Hp.
  apply sortBy_In, filter_In in Hp as [_ Hp].
  apply andb_prop in Hp as [Hp _]; apply andb_prop in Hp as [_ Hp].
  apply negb_true_iff in Hp; exact (not_mem_neq _ _ _ Hu Hp).
Qed.
End HeroPlace.

(** The formula that enters step 6, for a request whose secondary and
    accent families are not the dominant one. *)
Lemma assemble_heroAt (rq : Request) (h : RawIngredient)
    (ctx : ContextModifiers) (conc : option string)
    (dom : Layers RawIngredient) (e : Env) :
  heroOf rq = Some h ->
  INGREDIENT_DB (dominant rq) = Some dom ->
  In h (base dom ++ heart dom) ->
  secondary rq <> dominant rq -> accent rq <> dominant rq ->
  heroAt (name h) (dominant rq)
    (if hasName (name h) (heart dom) then LHeart else LBase)
    (fst (fst (assemble rq ctx conc e))).
Proof.
  intros Hh Hdb Hin Hs Ha.
  unfold assemble, bind at 1, filled, bind at 1, fillDominant at 1.
  rewrite Hdb; unfold bind at 1.
  pose proof (dominantFill_places rq h Hh ctx dom (dominant rq) e Hin) as Hp.
  pose proof (dominantFill_uses rq h Hh ctx dom e) as H0.
  destruct (dominantFill rq ctx dom e) as [ls e0]; cbn [fst snd ret] in *.
  unfold bind at 1.
  set (L := if hasName (name h) (heart dom) then LHeart else LBase) in *.
  assert (H1 : heroAt (name h) (dominant rq) L [(dominant rq, ls)]).
  { exists ls, []; repeat split; [exact Hp | constructor]. }
  cbn [setFamily].
  pose proof (fillSecondary_heroAt rq h Hh L _ e0 Hs H1) as H2.
  pose proof (keeps_fillSecondary (name h) rq [(dominant rq, ls)] e0 H0) as H0'.
  destruct (fillSecondary rq [(dominant rq, ls)] e0) as [f1 e1];
    cbn [fst snd] in H2, H0'.
  pose proof (fillAccent_heroAt rq h Hh L f1 e1 Ha H2) as H3.
  pose proof (keeps_fillAccent (name h) rq f1 e1 H0') as H0''.
  destruct (fillAccent rq f1 e1) as [f2 e2]; cbn [fst snd] in H3, H0''.
  unfold bind at 1.
  pose proof (ingredientFloor_heroAt rq h L f2 e2 H0'' H3) as H4.
  pose proof (keeps_ingredientFloor (name h) rq f2 e2 H0'') as H5.
  destruct (ingredientFloor rq f2 e2) as [f3 e3]; cbn [fst snd] in H4, H5.
  now apply structuralInjection_heroAt.
Qed.

Lemma hero_from_database (o : Options) (seed : Z) (h : RawIngredient) :
  heroOf (requestOf o seed) = Some h ->
  exists dom,
    INGREDIENT_DB (o_dominant o) = Some dom /\ In h (base dom ++ heart dom).
Proof.
  unfold requestOf, start, selectHero.
  destruct (0 <? len (heroPool (o_dominant o))).
  - unfold bind, rng; destruct (seededRng _ _) as [s' r]; cbn [ret fst heroOf].
    intros H; apply nth_error_In in H.
    assert (Hin : In h (dbLayer base (o_dominant o)
                        ++ dbLayer heart (o_dominant o))).
    { unfold heroPool in H; destruct (isNil _);
        [now apply sortBy_In in H | now apply filter_In in H]. }
    unfold dbLayer in Hin.
    destruct (INGREDIENT_DB (o_dominant o)) as [dom|]; [|destruct Hin].
    now exists dom.
  - cbn; discriminate.
Qed.

(** With a secondary and an accent family other than the dominant one,
    the hero sits in exactly one place of the returned formula: the
    heart layer of the dominant family if the heart list of the family
    holds its name, the base layer otherwise. *)
Lemma hero_in_one_place (o : Options) (seed : Z) (h : RawIngredient) :
  heroOf (requestOf o seed) = Some h ->
  o_secondary o <> o_dominant o -> o_accent o <> o_dominant o ->
  placesOf (name h) (formula (generateFromSeed o seed))
  = [(o_dominant o,
      if hasName (name h) (dbLayer heart (o_dominant o))
      then LHeart else LBase)].
Proof.
  intros Hh Hs Ha.
  destruct (hero_from_database o seed h Hh) as (dom & Hdb & Hin).
  destruct (result_is_afterPassD o seed) as [-> _].
  change (fst (afterPassD o seed))
    with (fst (resolveConflicts (heroNameOf o seed) (enteringResolution o seed))).
  unfold placesOf; rewrite shape_resolveConflicts.
  fold (placesOf (name h) (fst (enteringResolution o seed))).
  apply heroAt_places.
  unfold dbLayer; rewrite Hdb.
  destruct (requestOf_families o seed) as (Ed & Es & Ea).
  rewrite <- Ed.
  unfold enteringResolution, assembled.
  unfold requestOf in *.
  destruct (start o seed) as [rq e]; cbn [fst] in *.
  apply assemble_heroAt; auto; congruence.
Qed.

(** ** The top layer of the dominant family *)

(** An entry that copies a record of the top list of family [fam], with
    the percent string that the database publishes. *)
Definition publishedTop (fam : string) (item : FormulaIngredient) : Prop :=
  exists t, In t (dbLayer top fam) /\ item = verbatim t.

(** Every top layer under the key [fam] holds such entries only. *)
Definition topsFrom (fam : string) (f : Formula) : Prop :=
  Forall (fun kt => fst kt = fam -> Forall (publishedTop fam) (snd kt))
    (tops f).

Lemma dominantTop_verbatim (dom : Layers RawIngredient) (e : Env) :
  Forall (fun item => exists t, In t (top dom) /\ item = verbatim t)
    (fst (dominantTop dom e)).
Proof.
  unfold dominantTop, bind at 1, getUsed.
  set (pool := filter (fun i => negb (mem (name i) (used e))) (top dom)).
  set (after := fun a b : RawIngredient => 0 <? persistence b - persistence a).
  destruct (sortBy after pool) as [|t0 rest] eqn:Es; [constructor|].
  assert (Hin : forall x, In x (t0 :: rest) -> In x (top dom)).
  { intros x Hx; rewrite <- Es in Hx; apply sortBy_In in Hx.
    now apply filter_In in Hx. }
  unfold bind at 1, rng.
  destruct (seededRng (rngState e) 10) as [s' r].
  set (t := nth _ (t0 :: rest) t0).
  assert (Ht : In t (top dom)).
  { apply Hin; unfold t.
    match goal with
    | |- In (nth ?k ?l ?d) _ =>
        destruct (Nat.lt_ge_cases k (List.length l)) as [Hk|Hk];
        [apply nth_In, Hk | rewrite nth_overflow by exact Hk; now left]
    end. }
  unfold bind, useName, pushPicked, getUsed, ret; cbn [fst snd used].
  destruct (_ && _); [|repeat constructor; now exists t].
  match goal with
  | |- context [find ?p (t0 :: rest)] =>
      destruct (find p (t0 :: rest)) as [booster|] eqn:Ef
  end; cbn [fst]; repeat constructor; try (now exists t).
  apply find_some in Ef as [Hb _]; exists booster; split; [now apply Hin|reflexivity].
Qed.

Lemma dominantFill_top (rq : Request) (ctx : ContextModifiers)
    (dom : Layers RawIngredient) (e : Env) :
  Forall (fun item => exists t, In t (top dom) /\ item = verbatim t)
    (top (fst (dominantFill rq ctx dom e))).
Proof.
  unfold dominantFill; unfold bind at 1.
  destruct (match heroOf rq with
            | Some h => useName (name h) ;;; pushPicked h
            | None => ret tt
            end e) as [u e0].
  unfold bind at 1.
  pose proof (dominantTop_verbatim dom e0) as Ht.
  destruct (dominantTop dom e0) as [domTop e1]; cbn [fst] in Ht.
  unfold bind at 1; destruct (pick rq (heart dom) _ _ _ e1) as [hp e2].
  unfold bind at 1; destruct (pick rq (base dom) _ _ _ e2) as [bp e3].
  exact Ht.
Qed.

Lemma topsFrom_setFamily (fam k : string) (ls : Layers FormulaIngredient)
    (f : Formula) :
  (k = fam -> Forall (publishedTop fam) (top ls)) ->
  topsFrom fam f -> topsFrom fam (setFamily k ls f).
Proof.
  intros Hls; unfold topsFrom, tops.
  induction f as [|[k' w] f IH]; cbn [setFamily map fst snd]; intros Hf.
  - constructor; [exact Hls | constructor].
  - inversion Hf as [|x l H1 H2]; subst.
    destruct (String.eqb_spec k' k) as [->|_]; cbn [map fst snd];
      constructor; auto.
Qed.

Lemma tops_pushItem (fam : string) (layer : Layer) (item : FormulaIngredient)
    (f : Formula) :
  layer <> LTop -> tops (pushItem fam layer item f) = tops f.
Proof.
  intros Hl; induction f as [|[k w] f IH]; cbn [pushItem]; [reflexivity|].
  destruct (String.eqb k fam).
  - unfold tops; cbn [map fst snd]; f_equal.
    destruct layer; [contradiction | reflexivity | reflexivity].
  - unfold tops in *; cbn [map fst snd]; now rewrite IH.
Qed.

Lemma topsFrom_place (fam k : string) (layer : Layer)
    (item : FormulaIngredient) (f : Formula) :
  layer <> LTop -> topsFrom fam f -> topsFrom fam (place k layer item f).
Proof.
  intros Hl Hf; unfold place, topsFrom; rewrite tops_pushItem by exact Hl.
  unfold ensureFamily; destruct (getFamily k f); [exact Hf|].
  apply topsFrom_setFamily; [constructor | exact Hf].
Qed.

Lemma fillTarget_layer (rq : Request) (p : RawIngredient) :
  snd (fillTarget rq p) <> LTop.
Proof. unfold fillTarget; cbn [snd]; destruct (hasName _ (dbLayer heart _)); discriminate. Qed.

(** With a secondary and an accent family other than the dominant one,
    the top layer of the dominant family enters step 6 as step 3 made
    it. *)
Lemma assemble_topsFrom (rq : Request) (ctx : ContextModifiers)
    (conc : option string) (e : Env) :
  secondary rq <> dominant rq -> accent rq <> dominant rq ->
  topsFrom (dominant rq) (fst (fst (assemble rq ctx conc e))).
Proof.
  intros Hs Ha.
  unfold assemble, bind at 1, filled, bind at 1.
  assert (H1 : topsFrom (dominant rq) (fst (fillDominant rq ctx [] e))).
  { unfold fillDominant.
    destruct (INGREDIENT_DB (dominant rq)) as [dom|] eqn:E; [|constructor].
    unfold bind; pose proof (dominantFill_top rq ctx dom e) as Ht.
    destruct (dominantFill rq ctx dom e) as [ls e0]; cbn [fst ret] in *.
    apply topsFrom_setFamily; [|constructor].
    intros _; eapply Forall_impl; [|exact Ht].
    intros item (t & Hin & ->); exists t; split; [|reflexivity].
    unfold dbLayer; now rewrite E. }
  destruct (fillDominant rq ctx [] e) as [f0 e0]; cbn [fst] in H1.
  unfold bind at 1.
  assert (H2 : topsFrom (dominant rq) (fst (fillSecondary rq f0 e0))).
  { unfold fillSecondary; destruct (INGREDIENT_DB (secondary rq)); [|exact H1].
    unfold bind; destruct (secondaryFill rq _ e0) as [ls e1]; cbn [fst ret].
    apply topsFrom_setFamily; [contradiction | exact H1]. }
  destruct (fillSecondary rq f0 e0) as [f1 e1]; cbn [fst] in H2.
  assert (H3 : topsFrom (dominant rq) (fst (fillAccent rq f1 e1))).
  { unfold fillAccent; destruct (INGREDIENT_DB (accent rq)); [|exact H2].
    unfold bind; destruct (accentFill rq _ e1) as [ls e2]; cbn [fst ret].
    apply topsFrom_setFamily; [contradiction | exact H2]. }
  destruct (fillAccent rq f1 e1) as [f2 e2]; cbn [fst] in H3.
  unfold bind at 1.
  assert (H4 : topsFrom (dominant rq) (fst (ingredientFloor rq f2 e2))).
  { unfold ingredientFloor, bind.
    destruct (floorPicks rq f2 e2) as [picks e3].
    rewrite foldM_addFill.
    revert f2 H3; induction picks as [|p picks IH]; intros f2 H3;
      cbn [fold_left]; [exact H3|].
    apply IH; unfold placeFill; apply topsFrom_place;
      [apply fillTarget_layer | exact H3]. }
  destruct (ingredientFloor rq f2 e2) as [f3 e3]; cbn [fst] in H4.
  unfold structuralInjection, bind, getPicked, getUsed.
  destruct (_ && _ && _); [|exact H4].
  generalize (firstn (Z.to_nat (Z.min 2 (8 - totalIngredientsCount f3)))
                (structuralCandidates rq (used e3))) as l.
  assert (Hacc : topsFrom (dominant rq) (fst (f3, @nil string))) by exact H4.
  revert Hacc; generalize (f3, @nil string) as acc; generalize e3 as e'.
  intros e' acc Hacc l; revert acc e' Hacc.
  induction l as [|s l IH]; intros acc e' Hacc; cbn [foldM]; [exact Hacc|].
  unfold bind at 1, inject at 1, bind, useName, pushPicked, ret.
  apply IH; cbn [fst].
  apply (topsFrom_place _ (dominant rq) LBase); [discriminate | exact Hacc].
Qed.

(** With a secondary and an accent family other than the dominant one,
    every entry of the top layer of the dominant family in the returned
    formula is the copy of a record of that family's top list. *)
Lemma dominant_top_is_published (o : Options) (seed : Z)
    (ls : Layers FormulaIngredient) :
  o_secondary o <> o_dominant o -> o_accent o <> o_dominant o ->
  getFamily (o_dominant o) (formula (generateFromSeed o seed)) = Some ls ->
  Forall (publishedTop (o_dominant o)) (top ls).
Proof.
  intros Hs Ha Hg.
  assert (Ht : topsFrom (o_dominant o) (formula (generateFromSeed o seed))).
  { destruct (result_is_afterPassD o seed) as [-> _].
    change (fst (afterPassD o seed))
      with (fst (resolveConflicts (heroNameOf o seed)
                   (enteringResolution o seed))).
    unfold topsFrom.
    destruct (conflict_passes_keep_top_layers (heroNameOf o seed)
                (enteringResolution o seed)) as (_ & _ & _ & ->).
    destruct (requestOf_families o seed) as (Ed & Es & Ea).
    rewrite <- Ed; unfold enteringResolution, assembled, requestOf in *.
    destruct (start o seed) as [rq e]; cbn [fst] in *.
    apply assemble_topsFrom; congruence. }
  apply lookup_In in Hg.
  unfold topsFrom, tops in Ht; rewrite Forall_forall in Ht.
  apply (Ht (o_dominant o, top ls)); [|reflexivity].
  change (o_dominant o, top ls)
    with ((fun kv : string * Layers FormulaIngredient => (fst kv, top (snd kv)))
            (o_dominant o, ls)).
  now apply in_map.
Qed.

(** ** Requests that name the dominant family twice *)

(** The hero of oriental / woody / spicy with identifier OWS-001 sits
    once, in the base layer of the oriental sub-formula. *)
Lemma hero_place_example :
  let o := owsOptions "oriental" "woody" "spicy" "OWS-001" in
  exists h,
    heroOf (requestOf o (seedOf o)) = Some h
    /\ name h = "Mysore Sandalwood Accord"
    /\ placesOf (name h) (formula (generateFromSeed o (seedOf o)))
       = [("oriental", LBase)].
Proof.
  cbv zeta.
  set (o := owsOptions "oriental" "woody" "spicy" "OWS-001").
  destruct (heroOf (requestOf o (seedOf o))) as [h|] eqn:E;
    [|vm_compute in E; discriminate E].
  exists h; split; [reflexivity|].
  assert (Hn : name h = "Mysore Sandalwood Accord").
  { vm_compute in E; injection E as <-; reflexivity. }
  split; [exact Hn|].
  rewrite (hero_in_one_place o (seedOf o) h E); [|discriminate|discriminate].
  rewrite Hn; vm_compute; reflexivity.
Qed.

(** C5.  Two parts of the claim hold for every request: the passes 6a,
    6b and 6c leave an entry that bears the name of the hero as it
    enters them; and, when neither the secondary nor the accent family
    is the dominant one, the hero sits in exactly one place of the
    returned formula, the heart layer of the dominant family if the
    heart list of the family holds its name and the base layer
    otherwise.  The code departs from the claim at a request that names
    the dominant family twice: for oriental / oriental / woody with
    identifier OWS-001 a hero is chosen, Mysore Sandalwood Accord, and
    it is counted among the eleven picked ingredients, but the
    assignment of step 4 replaces the sub-formula of the dominant
    family, and the returned formula has seven entries, none of them
    the hero. *)
Theorem hero_exclusive_unless_dominant_repeated :
  (forall (o : Options) (fam : string) (layer : Layer) (idx : nat)
          (item : FormulaIngredient),
      let seed := seedOf o in
      itemAt fam layer idx (fst (enteringResolution o seed)) = Some item ->
      isHeroName (heroNameOf o seed) (iname item) = true ->
      itemAt fam layer idx (afterPassA o seed) = Some item
      /\ itemAt fam layer idx (afterPassB o seed) = Some item
      /\ itemAt fam layer idx (fst (afterPassC o seed)) = Some item)
  /\ (forall (o : Options) (g : Global) (h : RawIngredient),
        heroOf (requestOf o (seedOf o)) = Some h ->
        o_secondary o <> o_dominant o -> o_accent o <> o_dominant o ->
        placesOf (name h) (formula (fst (generateSmartFormula o g)))
        = [(o_dominant o,
            if hasName (name h) (dbLayer heart (o_dominant o))
            then LHeart else LBase)])
  /\ (let o := owsOptions "oriental" "oriental" "woody" "OWS-001" in
      heroNameOf o (seedOf o) = Some "Mysore Sandalwood Accord"
      /\ placesOf "Mysore Sandalwood Accord" (formula (resultOf o)) = []
      /\ mem "Mysore Sandalwood Accord" (names (formula (resultOf o))) = false
      /\ ingredientCount (resultOf o) = 11
      /\ totalIngredientsCount (formula (resultOf o)) = 7).
Proof.
  split; [|split].
  - intros o fam layer idx item seed; apply hero_not_rewritten.
  - intros o g h Hh Hs Ha.
    exact (hero_in_one_place o (seedOf o) h Hh Hs Ha).
  - cbv zeta; evaluate.
Qed.

(** C10.  No pass of steps 6 and 7 rewrites an entry of a top layer,
    for every formula; and, when neither the secondary nor the accent
    family is the dominant one, every entry of the top layer of the
    dominant family in the returned formula is the copy of a record of
    that family's top list, with the percent string the database
    publishes.  The code departs from the claim at a request that names
    the dominant family twice: for floral / floral / woody with
    identifier OWS-001 the assignment of step 4 has replaced the
    sub-formula of the dominant family, and its top layer in the result
    is the pick of the secondary fill, Petitgrain EO with the scaled
    band 1.7–3.1% in place of the published 2–4%. *)
Theorem dominant_top_published_unless_dominant_repeated :
  (forall (h : option string) (acc : Formula * list string),
      tops (passA h (fst acc)) = tops (fst acc)
      /\ tops (passB h (passA h (fst acc))) = tops (fst acc)
      /\ tops (fst (passC h (passB h (passA h (fst acc)), snd acc)))
         = tops (fst acc)
      /\ tops (fst (resolveConflicts h acc)) = tops (fst acc))
  /\ (forall (o : Options) (g : Global) (ls : Layers FormulaIngredient),
        o_secondary o <> o_dominant o -> o_accent o <> o_dominant o ->
        getFamily (o_dominant o) (formula (fst (generateSmartFormula o g)))
        = Some ls ->
        Forall (publishedTop (o_dominant o)) (top ls))
  /\ (let o := owsOptions "floral" "floral" "woody" "OWS-001" in
      option_map
        (fun ls => map (fun i => (iname i, percentText (ipercent i))) (top ls))
        (getFamily "floral" (formula (resultOf o)))
      = Some [("Petitgrain EO", "1.7–3.1%")]
      /\ option_map percent (findName "Petitgrain EO" (dbLayer top "floral"))
         = Some "2–4%").
Proof.
  split; [|split].
  - intros h acc; apply conflict_passes_keep_top_layers.
  - intros o g ls Hs Ha Hg.
    exact (dominant_top_is_published o (seedOf o) ls Hs Ha Hg).
  - cbv zeta; evaluate.
Qed.

(** * Further properties of the formula engine *)

(** ** Names that every object inherits

    [INGREDIENT_DB] is an object literal and [formula] is an object:
    for a name that is no key of its own, [INGREDIENT_DB[name]] and
    [formula[name]] find the property of that name that every object
    inherits from [Object.prototype], where there is one.  The
    definitions above read the table and the formula by their own keys;
    they follow the source for every request whose family names are
    none of these twelve, and the properties below are stated for
    those requests. *)
Definition inheritedNames : list string :=
  [ "constructor"; "hasOwnProperty"; "isPrototypeOf";
    "propertyIsEnumerable"; "toLocaleString"; "toString"; "valueOf";
    "__proto__"; "__defineGetter__"; "__defineSetter__";
    "__lookupGetter__"; "__lookupSetter__" ].

Definition ownName (s : string) : bool := negb (mem s inheritedNames).

Definition plainRequest (o : Options) : Prop :=
  ownName (o_dominant o) && ownName (o_secondary o) && ownName (o_accent o)
  = true.

Lemma filter_all {A} (p : A -> bool) (l : list A) :
  Forall (fun x => p x = true) l -> filter p l = l.
Proof.
  induction 1 as [|x l Hx _ IH]; cbn [filter]; [reflexivity|].
  now rewrite Hx, IH.
Qed.

Lemma filter_none {A} (p : A -> bool) (l : list A) :
  Forall (fun x => p x = false) l -> filter p l = [].
Proof.
  induction 1 as [|x l Hx _ IH]; cbn [filter]; [reflexivity|].
  now rewrite Hx.
Qed.


(** * Further properties of the engine *)

(** ** The keys of the returned formula *)

(** A family name that is a key of the database. *)
Definition known (fam : string) : bool :=
  match INGREDIENT_DB fam with Some _ => true | None => false end.

(** The keys that the assignments of steps 3 to 5 create, in order. *)
Definition addKey (ks : list string) (k : string) : list string :=
  if known k && negb (mem k ks) then ks ++ [k] else ks.

Definition requestedKeys (d s a : string) : list string :=
  fold_left addKey [d; s; a] [].

Lemma keys_setFamily_mem (fam : string) (v : Layers FormulaIngredient)
    (f : Formula) :
  keys (setFamily fam v f) = if mem fam (keys f) then keys f else keys f ++ [fam].
Proof.
  destruct (keys_setFamily fam v f) as [[H ->]|[H ->]].
  - apply mem_In in H; now rewrite H.
  - destruct (mem fam (keys f)) eqn:E; [|reflexivity].
    apply mem_In in E; contradiction.
Qed.

Lemma keys_filled (rq : Request) (ctx : ContextModifiers) (e : Env) :
  keys (fst (filled rq ctx e))
  = requestedKeys (dominant rq) (secondary rq) (accent rq).
Proof.
  unfold requestedKeys; cbn [fold_left].
  unfold filled, bind at 1.
  assert (H1 : keys (fst (fillDominant rq ctx [] e)) = addKey [] (dominant rq)).
  { unfold fillDominant, addKey, known.
    destruct (INGREDIENT_DB (dominant rq)); [|reflexivity].
    unfold bind; destruct (dominantFill _ _ _ _); reflexivity. }
  destruct (fillDominant rq ctx [] e) as [f1 e1]; cbn [fst] in H1.
  unfold bind at 1.
  assert (H2 : keys (fst (fillSecondary rq f1 e1))
               = addKey (keys f1) (secondary rq)).
  { unfold fillSecondary, addKey, known.
    destruct (INGREDIENT_DB (secondary rq)); [|reflexivity].
    unfold bind; destruct (secondaryFill _ _ _); cbn [fst ret andb].
    rewrite keys_setFamily_mem; now destruct (mem _ _). }
  destruct (fillSecondary rq f1 e1) as [f2 e2]; cbn [fst] in H2.
  rewrite <- H1, <- H2.
  unfold fillAccent, addKey, known.
  destruct (INGREDIENT_DB (accent rq)); [|reflexivity].
  unfold bind; destruct (accentFill _ _ _); cbn [fst ret andb].
  rewrite keys_setFamily_mem; now destruct (mem _ _).
Qed.

Lemma addKey_incl (ks : list string) (k x : string) :
  In x ks -> In x (addKey ks k).
Proof.
  intros H; unfold addKey; destruct (_ && _); [|exact H].
  apply in_or_app; now left.
Qed.

Lemma addKey_In (ks : list string) (k : string) :
  known k = true -> In k (addKey ks k).
Proof.
  intros Hk; unfold addKey; rewrite Hk; cbn [andb].
  destruct (mem k ks) eqn:E; cbn [negb].
  - now apply mem_In.
  - apply in_or_app; right; now left.
Qed.

Lemma requestedKeys_In (d s a k : string) :
  known k = true -> In k [d; s; a] -> In k (requestedKeys d s a).
Proof.
  intros Hk [<-|[<-|[<-|[]]]]; unfold requestedKeys; cbn [fold_left].
  - now apply addKey_incl, addKey_incl, addKey_In.
  - now apply addKey_incl, addKey_In.
  - now apply addKey_In.
Qed.

Lemma hasName_known (n fam : string)
    (sel : Layers RawIngredient -> list RawIngredient) :
  hasName n (dbLayer sel fam) = true -> known fam = true.
Proof.
  unfold dbLayer, known; destruct (INGREDIENT_DB fam); [reflexivity|].
  cbn; discriminate.
Qed.

Lemma heavy_known (fam : string) :
  mem fam heavyFamilies = true -> known fam = true.
Proof.
  intros H; apply mem_In in H.
  assert (Hall : forallb known heavyFamilies = true) by (vm_compute; reflexivity).
  rewrite forallb_forall in Hall; now apply Hall.
Qed.

Lemma keys_place_present (fam : string) (layer : Layer)
    (item : FormulaIngredient) (f : Formula) :
  In fam (keys f) -> keys (place fam layer item f) = keys f.
Proof.
  intros H; unfold place; rewrite keys_pushItem; unfold ensureFamily.
  destruct (getFamily fam f) eqn:E; [reflexivity|].
  rewrite keys_setFamily_mem.
  apply mem_In in H; now rewrite H.
Qed.

Lemma keys_fold_placeFill (rq : Request) (u : list string)
    (picks : list RawIngredient) :
  Forall (fun p => In p (fillSources rq u)) picks ->
  forall f,
    keys f = requestedKeys (dominant rq) (secondary rq) (accent rq) ->
    keys (fold_left (placeFill rq) picks f) = keys f.
Proof.
  induction 1 as [|p picks Hp _ IH]; intros f Hf; cbn [fold_left];
    [reflexivity|].
  assert (Hk : keys (placeFill rq f p) = keys f).
  { unfold placeFill; apply keys_place_present; rewrite Hf.
    destruct (fillTarget_spec rq u p Hp) as [Hfam Hlayer].
    cbv zeta in *.
    apply requestedKeys_In.
    - destruct Hlayer as [[_ H]|(_ & _ & H)]; exact (hasName_known _ _ _ H).
    - destruct Hfam as [->| ->]; cbn; auto. }
  rewrite IH; [exact Hk | now rewrite Hk].
Qed.

Lemma keys_assemble (rq : Request) (ctx : ContextModifiers)
    (conc : option string) (e : Env) :
  keys (fst (fst (assemble rq ctx conc e)))
  = requestedKeys (dominant rq) (secondary rq) (accent rq).
Proof.
  unfold assemble, bind at 1.
  pose proof (keys_filled rq ctx e) as H0.
  destruct (filled rq ctx e) as [f0 e0]; cbn [fst] in H0.
  unfold bind at 1.
  assert (H1 : keys (fst (ingredientFloor rq f0 e0)) = keys f0).
  { unfold ingredientFloor, bind.
    pose proof (floorPicks_spec rq f0 e0) as [Hin _]; cbv zeta in Hin.
    destruct (floorPicks rq f0 e0) as [picks e1]; cbn [fst] in Hin.
    rewrite foldM_addFill.
    now apply (keys_fold_placeFill rq (used e0)). }
  destruct (ingredientFloor rq f0 e0) as [f1 e1]; cbn [fst] in H1.
  rewrite <- H0, <- H1.
  unfold structuralInjection, bind, getPicked, getUsed.
  destruct (mem (dominant rq) heavyFamilies) eqn:Eh; cbn [andb];
    [|reflexivity].
  destruct (_ && _); [|reflexivity].
  assert (Hd : In (dominant rq) (keys f1)).
  { rewrite H1, H0; apply requestedKeys_In; [now apply heavy_known|].
    now left. }
  generalize (firstn (Z.to_nat (Z.min 2 (8 - totalIngredientsCount f1)))
                (structuralCandidates rq (used e1))) as l.
  assert (Hacc : keys (fst (f1, @nil string)) = keys f1) by reflexivity.
  revert Hacc; generalize (f1, @nil string) as acc, e1 as e'.
  intros acc e' Hacc l; revert acc e' Hacc.
  induction l as [|s l IH]; intros acc e' Hacc; cbn [foldM]; [exact Hacc|].
  unfold bind at 1, inject at 1, bind, useName, pushPicked, ret.
  apply IH; cbn [fst].
  change (pushItem (dominant rq) LBase (scaledEntry 0.4 s)
            (ensureFamily (dominant rq) (fst acc)))
    with (place (dominant rq) LBase (scaledEntry 0.4 s) (fst acc)).
  rewrite keys_place_present; [exact Hacc | now rewrite Hacc].
Qed.

Lemma keys_shape (f : Formula) : keys f = map fst (shape f).
Proof. unfold keys, shape; rewrite map_map; now apply map_ext. Qed.

(** For a request whose family names no object inherits: the families
    of the returned formula are the requested families that the
    database knows, each once, in the order dominant, secondary,
    accent: no other key is ever created, and a requested family that
    is no key of the database is left out. *)
Theorem formula_keys_are_the_known_requested_families :
  forall (o : Options) (g : Global),
    plainRequest o ->
    keys (formula (fst (generateSmartFormula o g)))
    = requestedKeys (o_dominant o) (o_secondary o) (o_accent o)
    /\ NoDup (keys (formula (fst (generateSmartFormula o g))))
    /\ (forall k, In k (keys (formula (fst (generateSmartFormula o g)))) <->
                  known k = true
                  /\ (k = o_dominant o \/ k = o_secondary o \/ k = o_accent o)).
Proof.
  intros o g _.
  assert (Hk : keys (formula (fst (generateSmartFormula o g)))
               = requestedKeys (o_dominant o) (o_secondary o) (o_accent o)).
  { unfold generateSmartFormula, generateLocalFormula; cbn [fst].
    fold (seedOf o).
    destruct (result_is_afterPassD o (seedOf o)) as [-> _].
    change (fst (afterPassD o (seedOf o)))
      with (fst (resolveConflicts (heroNameOf o (seedOf o))
                   (enteringResolution o (seedOf o)))).
    rewrite keys_shape, shape_resolveConflicts, <- keys_shape.
    destruct (requestOf_families o (seedOf o)) as (Ed & Es & Ea).
    rewrite <- Ed, <- Es, <- Ea.
    unfold enteringResolution, assembled, requestOf.
    destruct (start o (seedOf o)) as [rq e]; cbn [fst].
    apply keys_assemble. }
  split; [exact Hk|]; split.
  - rewrite Hk; unfold requestedKeys, addKey; cbn [fold_left].
    repeat match goal with
           | |- context [known ?k && negb (mem ?k ?l)] =>
               destruct (known k); cbn [andb];
               [destruct (mem k l) eqn:?; cbn [negb]|]
           end;
      repeat constructor; cbn [In app mem existsb] in *;
      repeat match goal with
             | H : mem _ _ = false |- _ =>
                 unfold mem in H; cbn [existsb] in H;
                 repeat (apply orb_false_elim in H as [? H])
             | H : String.eqb _ _ = false |- _ => apply String.eqb_neq in H
             end;
      try tauto; intuition congruence.
  - intros k; rewrite Hk; split.
    + unfold requestedKeys, addKey; cbn [fold_left].
      repeat match goal with
             | |- context [known ?k && negb (mem ?k ?l)] =>
                 destruct (known k) eqn:?; cbn [andb];
                 [destruct (mem k l); cbn [negb]|]
             end;
        cbn [In app]; intuition (subst; auto).
    + intros [Hn Hin]; apply requestedKeys_In; [exact Hn|].
      cbn [In]; intuition auto.
Qed.

(** The dominant family is requested again as the secondary one, and
    the accent is no key of the database: the formula has one key. *)
Lemma formula_keys_example :
  let o := owsOptions "woody" "woody" "marine" "W-7" in
  keys (formula (fst (generateSmartFormula o None)))
  = requestedKeys (o_dominant o) (o_secondary o) (o_accent o)
  /\ NoDup (keys (formula (fst (generateSmartFormula o None))))
  /\ (forall k, In k (keys (formula (fst (generateSmartFormula o None)))) <->
                known k = true
                /\ (k = o_dominant o \/ k = o_secondary o \/ k = o_accent o)).
Proof.
  apply (formula_keys_are_the_known_requested_families
           (owsOptions "woody" "woody" "marine" "W-7") None).
  reflexivity.
Defined.

(** ** The count of picked ingredients and the entries of the formula *)

(** A step that pushes onto [picked] one record for each entry it
    returns. *)
Definition pushesAll {A} (m : M (list A)) : Prop :=
  forall e, len (picked (snd (m e))) = len (picked e) + len (fst (m e)).

(** A step that leaves [picked] as it is. *)
Definition pushesNone {A} (m : M A) : Prop :=
  forall e, picked (snd (m e)) = picked e.

Lemma len_nil {A} : len (@nil A) = 0.
Proof. reflexivity. Qed.

(** Arithmetic on the lengths of lists built with [::] and [++]. *)
Ltac lens :=
  unfold len in *; rewrite ?length_app in *; cbn [List.length] in *; lia.

Lemma bind_run {A B} (m : M A) (k : A -> M B) (e : Env) :
  bind m k e = k (fst (m e)) (snd (m e)).
Proof. unfold bind; now destruct (m e). Qed.

Lemma pushesNone_rng (offset : float) : pushesNone (rng offset).
Proof. intros e; unfold rng; now destruct (seededRng _ _). Qed.

Lemma pushesNone_scoreCandidates (rq : Request) (cands : list RawIngredient) :
  forall idx, pushesNone (scoreCandidates rq cands idx).
Proof.
  induction cands as [|c cands IH]; intros idx e; [reflexivity|].
  cbn [scoreCandidates]; unfold bind at 1.
  pose proof (pushesNone_rng (Js.ofZ (idx * 3)) e) as H1.
  destruct (rng _ e) as [r e1]; cbn [snd] in H1.
  unfold bind at 1.
  pose proof (IH (idx + 1) e1) as H2.
  destruct (scoreCandidates rq cands (idx + 1) e1) as [more e2].
  cbn [snd ret] in *; congruence.
Qed.

Lemma pushesNone_scoreFills (rq : Request) (cands : list RawIngredient) :
  forall idx, pushesNone (scoreFills rq cands idx).
Proof.
  induction cands as [|c cands IH]; intros idx e; [reflexivity|].
  cbn [scoreFills]; unfold bind at 1.
  pose proof (pushesNone_rng (Js.ofZ (idx * 7 + 99)) e) as H1.
  destruct (rng _ e) as [r e1]; cbn [snd] in H1.
  unfold bind at 1.
  pose proof (IH (idx + 1) e1) as H2.
  destruct (scoreFills rq cands (idx + 1) e1) as [more e2].
  cbn [snd ret] in *; congruence.
Qed.

Lemma takeScaled_picked (mult : float) (i : RawIngredient) (e : Env) :
  picked (snd (takeScaled mult i e)) = picked e ++ [i].
Proof.
  unfold takeScaled, bind, useName, pushPicked, when, ret.
  destruct (ifraExceeded i _); reflexivity.
Qed.

Lemma pushesAll_forEachM (mult : float) (l : list (RawIngredient * float)) :
  pushesAll (forEachM (fun s => takeScaled mult (fst s)) l).
Proof.
  induction l as [|s l IH]; intros e; cbn [forEachM].
  - unfold ret; cbn [fst snd]; lens.
  - rewrite bind_run.
    pose proof (takeScaled_picked mult (fst s) e) as H1.
    destruct (takeScaled mult (fst s) e) as [y e1]; cbn [fst snd] in *.
    rewrite bind_run.
    specialize (IH e1).
    destruct (forEachM _ l e1) as [ys e2]; cbn [fst snd ret] in *.
    rewrite IH, H1; lens.
Qed.

Lemma pushesAll_pick (rq : Request) (pool : list RawIngredient) (r : Role)
    (count : nat) (mult : float) : pushesAll (pick rq pool r count mult).
Proof.
  intros e; unfold pick; rewrite bind_run; unfold getUsed; cbn [fst snd].
  rewrite bind_run.
  pose proof (pushesNone_scoreCandidates rq (candidates rq pool r (used e)) 0 e)
    as H1.
  destruct (scoreCandidates rq _ 0 e) as [scored e1]; cbn [fst snd] in *.
  rewrite <- H1; apply pushesAll_forEachM.
Qed.

Lemma pushesAll_dominantTop (dom : Layers RawIngredient) :
  pushesAll (dominantTop dom).
Proof.
  intros e; unfold dominantTop; rewrite bind_run; unfold getUsed; cbn [fst snd].
  destruct (sortBy _ _) as [|t0 rest]; [unfold ret; cbn [fst snd]; lens|].
  rewrite bind_run; unfold rng; destruct (seededRng _ _) as [s' r].
  set (t := nth _ (t0 :: rest) t0); clearbody t.
  unfold bind, useName, pushPicked, getUsed, ret; cbn [fst snd used picked].
  destruct (_ && _); [|cbn [fst snd picked]; lens].
  match goal with
  | |- context [find ?p (t0 :: rest)] => destruct (find p (t0 :: rest))
  end; cbn [fst snd picked]; lens.
Qed.

Lemma len_partition {A} (p : A -> bool) (l : list A) :
  len (filter p l) + len (filter (fun a => negb (p a)) l) = len l.
Proof.
  induction l as [|x l IH]; cbn [filter]; [reflexivity|].
  destruct (p x); cbn [negb]; rewrite !len_cons; lia.
Qed.

Lemma getFamily_absent (fam : string) (f : Formula) :
  ~ In fam (keys f) -> getFamily fam f = None.
Proof.
  intros H; unfold getFamily.
  destruct (lookup fam f) as [v|] eqn:E; [|reflexivity].
  exfalso; apply H; apply lookup_In in E.
  unfold keys; apply in_map_iff; now exists (fam, v).
Qed.

Section Counting.
Variable rq : Request.

(** The hero of the request, if any, is a record of the list it is
    looked up in at step 3. *)
Definition heroListedIn (dom : Layers RawIngredient) : Prop :=
  match heroOf rq with
  | Some h => In h (base dom ++ heart dom)
  | None => True
  end.

Lemma dominantFill_count (ctx : ContextModifiers) (dom : Layers RawIngredient)
    (e : Env) :
  heroListedIn dom ->
  len (picked (snd (dominantFill rq ctx dom e)))
  = len (picked e) + layerCount (fst (dominantFill rq ctx dom e)).
Proof.
  intros Hin; unfold dominantFill, heroName, heroListedIn in *.
  rewrite bind_run.
  set (n0 := len (picked e)).
  assert (H0 : len (picked (snd (match heroOf rq with
                                 | Some h => useName (name h) ;;; pushPicked h
                                 | None => ret tt
                                 end e)))
               = n0 + match heroOf rq with Some _ => 1 | None => 0 end).
  { destruct (heroOf rq); unfold bind, useName, pushPicked, ret;
      cbn [snd picked]; unfold n0; lens. }
  destruct (match heroOf rq with
            | Some h => useName (name h) ;;; pushPicked h
            | None => ret tt
            end e) as [u e0]; cbn [fst snd] in *.
  rewrite bind_run.
  pose proof (pushesAll_dominantTop dom e0) as H1.
  destruct (dominantTop dom e0) as [domTop e1]; cbn [fst snd] in *.
  rewrite bind_run.
  match goal with
  | |- context [pick rq (heart dom) Backbone ?c ?m e1] =>
      pose proof (pushesAll_pick rq (heart dom) Backbone c m e1) as H2;
      destruct (pick rq (heart dom) Backbone c m e1) as [heartPicks e2]
  end.
  cbn [fst snd] in *.
  rewrite bind_run.
  match goal with
  | |- context [pick rq (base dom) Backbone ?c ?m e2] =>
      pose proof (pushesAll_pick rq (base dom) Backbone c m e2) as H3;
      destruct (pick rq (base dom) Backbone c m e2) as [basePicks e3]
  end.
  cbn [fst snd] in *.
  cbv zeta; unfold ret; cbn [fst snd].
  unfold layerCount; cbn [top heart base].
  destruct (heroOf rq) as [h|]; cbn [option_map].
  - destruct (findName (name h) (heart dom)) as [rh|] eqn:Eh.
    + destruct (findName (name h) (base dom)); lens.
    + destruct (findName (name h) (base dom)) as [rb|] eqn:Eb.
      * lens.
      * exfalso; apply in_app_or in Hin as [Hin|Hin];
          [exact (findName_None _ _ _ Eb Hin eq_refl)
          | exact (findName_None _ _ _ Eh Hin eq_refl)].
  - lens.
Qed.

Lemma secondaryFill_count (sec : Layers RawIngredient) (e : Env) :
  len (picked (snd (secondaryFill rq sec e)))
  = len (picked e) + layerCount (fst (secondaryFill rq sec e)).
Proof.
  unfold secondaryFill, bind.
  pose proof (pushesAll_pick rq (top sec) Lift 1 0.8 e) as H1.
  destruct (pick rq (top sec) Lift 1 _ e) as [t e1].
  pose proof (pushesAll_pick rq (heart sec) Backbone 1 0.7 e1) as H2.
  destruct (pick rq (heart sec) Backbone 1 _ e1) as [hh e2].
  pose proof (pushesAll_pick rq (base sec) Backbone 1 0.6 e2) as H3.
  destruct (pick rq (base sec) Backbone 1 _ e2) as [b e3].
  cbn [fst snd ret] in *; unfold layerCount; cbn [top heart base]; lia.
Qed.

Lemma accentFill_count (acc : Layers RawIngredient) (e : Env) :
  len (picked (snd (accentFill rq acc e)))
  = len (picked e) + layerCount (fst (accentFill rq acc e)).
Proof.
  unfold accentFill, bind.
  pose proof (pushesAll_pick rq (heart acc ++ base acc) Character 1 0.5 e) as H1.
  destruct (pick rq (heart acc ++ base acc) Character 1 _ e) as [a e1].
  cbn [fst snd ret] in *; unfold layerCount; cbn [top heart base].
  pose proof (len_partition (fun x => hasName (iname x) (heart acc)) a) as Hp.
  cbv beta in Hp; lens.
Qed.

Lemma foldM_addFill_picked (picks : list RawIngredient) :
  forall f e,
    len (picked (snd (foldM (addFill rq) f picks e)))
    = len (picked e) + len picks.
Proof.
  induction picks as [|p picks IH]; intros f e; cbn [foldM].
  - unfold ret; cbn [fst snd]; lens.
  - unfold bind at 1, addFill at 1, bind, useName, pushPicked, ret.
    destruct (fillTarget rq p) as [fam layer].
    rewrite IH; cbn [picked]; lens.
Qed.

Lemma floorPicks_picked (f : Formula) : pushesNone (floorPicks rq f).
Proof.
  intros e; unfold floorPicks; destruct (_ && _); [|reflexivity].
  unfold bind, getUsed.
  pose proof (pushesNone_scoreFills rq (fillSources rq (used e)) 0 e) as H.
  destruct (scoreFills rq _ 0 e) as [scored e1]; exact H.
Qed.

Lemma foldM_inject_picked (l : list RawIngredient) :
  forall acc e,
    len (picked (snd (foldM (inject rq) acc l e))) = len (picked e) + len l.
Proof.
  induction l as [|s l IH]; intros acc e; cbn [foldM].
  - unfold ret; cbn [fst snd]; lens.
  - unfold bind at 1, inject at 1, bind, useName, pushPicked, ret.
    rewrite IH; cbn [picked]; lens.
Qed.

(** Steps 3 to 5c with three different families: every picked record
    has its entry in the formula. *)
Lemma assemble_count (ctx : ContextModifiers) (conc : option string) (e : Env) :
  (forall dom, INGREDIENT_DB (dominant rq) = Some dom -> heroListedIn dom) ->
  secondary rq <> dominant rq -> accent rq <> dominant rq ->
  accent rq <> secondary rq ->
  len (picked (snd (assemble rq ctx conc e)))
  = len (picked e)
    + totalIngredientsCount (fst (fst (assemble rq ctx conc e))).
Proof.
  intros Hh Hs Ha Has.
  unfold assemble; rewrite bind_run; unfold filled; rewrite !bind_run.
  assert (H1 : len (picked (snd (fillDominant rq ctx [] e)))
               = len (picked e)
                 + totalIngredientsCount (fst (fillDominant rq ctx [] e))
               /\ incl (keys (fst (fillDominant rq ctx [] e))) [dominant rq]).
  { unfold fillDominant.
    destruct (INGREDIENT_DB (dominant rq)) as [dom|] eqn:E.
    - unfold bind.
      pose proof (dominantFill_count ctx dom e (Hh dom eq_refl)) as Hc.
      destruct (dominantFill rq ctx dom e) as [ls e0];
        cbn [fst snd ret setFamily] in *.
      rewrite total_cons, total_nil; cbn [snd keys map fst].
      split; [lia | intros k Hk; exact Hk].
    - unfold ret; cbn [fst snd]; rewrite total_nil.
      split; [lia | intros k []]. }
  destruct (fillDominant rq ctx [] e) as [f1 e1]; cbn [fst snd] in *.
  destruct H1 as [H1 K1].
  assert (H2 : len (picked (snd (fillSecondary rq f1 e1)))
               = len (picked e1)
                 + (totalIngredientsCount (fst (fillSecondary rq f1 e1))
                    - totalIngredientsCount f1)
               /\ incl (keys (fst (fillSecondary rq f1 e1)))
                    [dominant rq; secondary rq]).
  { unfold fillSecondary.
    destruct (INGREDIENT_DB (secondary rq)) as [sec|].
    - unfold bind.
      pose proof (secondaryFill_count sec e1) as Hc.
      destruct (secondaryFill rq sec e1) as [ls e2]; cbn [fst snd ret] in *.
      rewrite total_setFamily_absent.
      + split; [lia|].
        rewrite keys_setFamily_mem; destruct (mem _ _).
        * intros k Hk; apply K1 in Hk; cbn in *; tauto.
        * intros k Hk; apply in_app_or in Hk as [Hk|Hk];
            [apply K1 in Hk|]; cbn in *; tauto.
      + apply getFamily_absent; intros Hk; apply K1 in Hk.
        cbn in Hk; intuition congruence.
    - unfold ret; cbn [fst snd]; split; [lia|].
      intros k Hk; apply K1 in Hk; cbn in *; tauto. }
  destruct (fillSecondary rq f1 e1) as [f2 e2]; cbn [fst snd] in *.
  destruct H2 as [H2 K2].
  assert (H3 : len (picked (snd (fillAccent rq f2 e2)))
               = len (picked e2)
                 + (totalIngredientsCount (fst (fillAccent rq f2 e2))
                    - totalIngredientsCount f2)).
  { unfold fillAccent.
    destruct (INGREDIENT_DB (accent rq)) as [acc|].
    - unfold bind.
      pose proof (accentFill_count acc e2) as Hc.
      destruct (accentFill rq acc e2) as [ls e3]; cbn [fst snd ret] in *.
      rewrite total_setFamily_absent; [lia|].
      apply getFamily_absent; intros Hk; apply K2 in Hk.
      cbn in Hk; intuition congruence.
    - unfold ret; cbn [fst snd]; lia. }
  destruct (fillAccent rq f2 e2) as [f3 e3]; cbn [fst snd] in *.
  assert (H4 : len (picked (snd (ingredientFloor rq f3 e3)))
               = len (picked e3)
                 + (totalIngredientsCount (fst (ingredientFloor rq f3 e3))
                    - totalIngredientsCount f3)).
  { unfold ingredientFloor, bind.
    pose proof (floorPicks_picked f3 e3) as Hp.
    destruct (floorPicks rq f3 e3) as [picks e4]; cbn [snd] in Hp.
    rewrite foldM_addFill_picked, foldM_addFill, total_fold_placeFill, Hp.
    lia. }
  destruct (ingredientFloor rq f3 e3) as [f4 e4]; cbn [fst snd] in *.
  assert (H5 : len (picked (snd (structuralInjection rq conc f4 e4)))
               = len (picked e4)
                 + (totalIngredientsCount
                      (fst (fst (structuralInjection rq conc f4 e4)))
                    - totalIngredientsCount f4)).
  { unfold structuralInjection, bind, getPicked, getUsed.
    destruct (_ && _ && _); [|unfold ret; cbn [fst snd]; lia].
    rewrite foldM_inject_picked, total_foldM_inject; cbn [fst]; lia. }
  lia.
Qed.
End Counting.

Lemma start_heroListed (o : Options) (seed : Z) (dom : Layers RawIngredient) :
  INGREDIENT_DB (dominant (requestOf o seed)) = Some dom ->
  heroListedIn (requestOf o seed) dom.
Proof.
  intros Hdb; unfold heroListedIn.
  destruct (heroOf (requestOf o seed)) as [h|] eqn:E; [|exact I].
  destruct (hero_from_database o seed h E) as (dom' & Hdb' & Hin).
  destruct (requestOf_families o seed) as (Ed & _).
  rewrite Ed in Hdb; congruence.
Qed.

(** For a request with three different families, none of them a name
    that every object inherits, the count of picked
    ingredients that the result reports is the number of entries of its
    formula. *)
Theorem ingredientCount_counts_the_entries :
  forall (o : Options) (g : Global),
    plainRequest o ->
    o_secondary o <> o_dominant o -> o_accent o <> o_dominant o ->
    o_accent o <> o_secondary o ->
    ingredientCount (fst (generateSmartFormula o g))
    = totalIngredientsCount (formula (fst (generateSmartFormula o g))).
Proof.
  intros o g _ Hs Ha Has.
  unfold generateSmartFormula, generateLocalFormula; cbn [fst].
  fold (seedOf o).
  destruct (result_is_afterPassD o (seedOf o)) as [-> _].
  change (fst (afterPassD o (seedOf o)))
    with (fst (resolveConflicts (heroNameOf o (seedOf o))
                 (enteringResolution o (seedOf o)))).
  rewrite total_resolveConflicts.
  unfold generateFromSeed, enteringResolution.
  pose proof (start_heroListed o (seedOf o)) as Hh.
  destruct (requestOf_families o (seedOf o)) as (Ed & Es & Ea).
  assert (He : picked (snd (start o (seedOf o))) = []).
  { unfold start, selectHero.
    destruct (0 <? len _); [|reflexivity].
    unfold bind, rng; now destruct (seededRng _ _). }
  unfold assembled, requestOf in *.
  destruct (start o (seedOf o)) as [rq e]; cbn [fst snd] in *.
  pose proof (assemble_count rq (contextOf o) (o_concentration o) e Hh) as Hc.
  destruct (assemble rq (contextOf o) (o_concentration o) e) as [acc e'].
  cbn [fst snd] in *.
  destruct (resolveConflicts _ acc) as [f notes]; cbn [ingredientCount].
  rewrite Hc, He by congruence.
  lens.
Qed.

(** The request green / aromatic / citrus with identifier GAC-001 has
    three different families. *)
Lemma ingredientCount_example :
  let o := owsOptions "green" "aromatic" "citrus" "GAC-001" in
  ingredientCount (fst (generateSmartFormula o None))
  = totalIngredientsCount (formula (fst (generateSmartFormula o None))).
Proof.
  apply (ingredientCount_counts_the_entries
           (owsOptions "green" "aromatic" "citrus" "GAC-001") None);
    [reflexivity | discriminate ..].
Defined.

Lemma total_setFamily_le (fam : string) (v : Layers FormulaIngredient)
    (f : Formula) :
  totalIngredientsCount (setFamily fam v f)
  <= totalIngredientsCount f + layerCount v.
Proof.
  induction f as [|[k w] f IH]; cbn [setFamily].
  - rewrite total_cons, total_nil; cbn [snd]; lia.
  - destruct (String.eqb k fam); rewrite !total_cons; cbn [snd].
    + unfold layerCount at 2.
      pose proof (len_nonneg (top w)); pose proof (len_nonneg (heart w));
        pose proof (len_nonneg (base w)); lia.
    + lia.
Qed.

(** Steps 3 to 5c, whatever the families: an assignment to a key that
    is present drops entries, never picked records. *)
Lemma assemble_count_le (rq : Request) (ctx : ContextModifiers)
    (conc : option string) (e : Env) :
  (forall dom, INGREDIENT_DB (dominant rq) = Some dom -> heroListedIn rq dom) ->
  len (picked e) + totalIngredientsCount (fst (fst (assemble rq ctx conc e)))
  <= len (picked (snd (assemble rq ctx conc e))).
Proof.
  intros Hh.
  unfold assemble; rewrite bind_run; unfold filled; rewrite !bind_run.
  assert (H1 : len (picked e)
               + totalIngredientsCount (fst (fillDominant rq ctx [] e))
               <= len (picked (snd (fillDominant rq ctx [] e)))).
  { unfold fillDominant.
    destruct (INGREDIENT_DB (dominant rq)) as [dom|] eqn:E.
    - unfold bind.
      pose proof (dominantFill_count rq ctx dom e (Hh dom eq_refl)) as Hc.
      destruct (dominantFill rq ctx dom e) as [ls e0];
        cbn [fst snd ret setFamily] in *.
      rewrite total_cons, total_nil; cbn [snd]; lia.
    - unfold ret; cbn [fst snd]; rewrite total_nil; lia. }
  destruct (fillDominant rq ctx [] e) as [f1 e1]; cbn [fst snd] in *.
  assert (H2 : len (picked e1)
               + (totalIngredientsCount (fst (fillSecondary rq f1 e1))
                  - totalIngredientsCount f1)
               <= len (picked (snd (fillSecondary rq f1 e1)))).
  { unfold fillSecondary.
    destruct (INGREDIENT_DB (secondary rq)) as [sec|].
    - unfold bind.
      pose proof (secondaryFill_count rq sec e1) as Hc.
      destruct (secondaryFill rq sec e1) as [ls e2]; cbn [fst snd ret] in *.
      pose proof (total_setFamily_le (secondary rq) ls f1); lia.
    - unfold ret; cbn [fst snd]; lia. }
  destruct (fillSecondary rq f1 e1) as [f2 e2]; cbn [fst snd] in *.
  assert (H3 : len (picked e2)
               + (totalIngredientsCount (fst (fillAccent rq f2 e2))
                  - totalIngredientsCount f2)
               <= len (picked (snd (fillAccent rq f2 e2)))).
  { unfold fillAccent.
    destruct (INGREDIENT_DB (accent rq)) as [acc|].
    - unfold bind.
      pose proof (accentFill_count rq acc e2) as Hc.
      destruct (accentFill rq acc e2) as [ls e3]; cbn [fst snd ret] in *.
      pose proof (total_setFamily_le (accent rq) ls f2); lia.
    - unfold ret; cbn [fst snd]; lia. }
  destruct (fillAccent rq f2 e2) as [f3 e3]; cbn [fst snd] in *.
  assert (H4 : len (picked (snd (ingredientFloor rq f3 e3)))
               = len (picked e3)
                 + (totalIngredientsCount (fst (ingredientFloor rq f3 e3))
                    - totalIngredientsCount f3)).
  { unfold ingredientFloor, bind.
    pose proof (floorPicks_picked rq f3 e3) as Hp.
    destruct (floorPicks rq f3 e3) as [picks e4]; cbn [snd] in Hp.
    rewrite foldM_addFill_picked, foldM_addFill, total_fold_placeFill, Hp.
    lia. }
  destruct (ingredientFloor rq f3 e3) as [f4 e4]; cbn [fst snd] in *.
  assert (H5 : len (picked (snd (structuralInjection rq conc f4 e4)))
               = len (picked e4)
                 + (totalIngredientsCount
                      (fst (fst (structuralInjection rq conc f4 e4)))
                    - totalIngredientsCount f4)).
  { unfold structuralInjection, bind, getPicked, getUsed.
    destruct (_ && _ && _); [|unfold ret; cbn [fst snd]; lia].
    rewrite foldM_inject_picked, total_foldM_inject; cbn [fst]; lia. }
  lia.
Qed.

(** For a request whose family names no object inherits, the count of
    picked ingredients that the result reports is never
    below the number of entries of its formula: a record is pushed onto
    [picked] for every entry that is created, and an entry is lost when
    a later step assigns the key of its family again. *)
Theorem ingredientCount_covers_the_entries :
  forall (o : Options) (g : Global),
    plainRequest o ->
    totalIngredientsCount (formula (fst (generateSmartFormula o g)))
    <= ingredientCount (fst (generateSmartFormula o g)).
Proof.
  intros o g _.
  unfold generateSmartFormula, generateLocalFormula; cbn [fst].
  fold (seedOf o).
  destruct (result_is_afterPassD o (seedOf o)) as [-> _].
  change (fst (afterPassD o (seedOf o)))
    with (fst (resolveConflicts (heroNameOf o (seedOf o))
                 (enteringResolution o (seedOf o)))).
  rewrite total_resolveConflicts.
  unfold generateFromSeed, enteringResolution.
  pose proof (start_heroListed o (seedOf o)) as Hh.
  assert (He : picked (snd (start o (seedOf o))) = []).
  { unfold start, selectHero.
    destruct (0 <? len _); [|reflexivity].
    unfold bind, rng; now destruct (seededRng _ _). }
  unfold assembled, requestOf in *.
  destruct (start o (seedOf o)) as [rq e]; cbn [fst snd] in *.
  pose proof (assemble_count_le rq (contextOf o) (o_concentration o) e Hh) as Hc.
  destruct (assemble rq (contextOf o) (o_concentration o) e) as [acc e'].
  cbn [fst snd] in *.
  destruct (resolveConflicts _ acc) as [f notes]; cbn [ingredientCount].
  rewrite He in Hc; lens.
Qed.

(** The request woody / woody / floral assigns the key of the dominant
    family a second time. *)
Lemma ingredientCount_covers_example :
  let o := owsOptions "woody" "woody" "floral" "WWF-1" in
  totalIngredientsCount (formula (fst (generateSmartFormula o None)))
  <= ingredientCount (fst (generateSmartFormula o None)).
Proof.
  apply (ingredientCount_covers_the_entries
           (owsOptions "woody" "woody" "floral" "WWF-1") None).
  reflexivity.
Defined.

(** ** Where the entries come from *)

(** The multipliers that steps 3 to 5c apply to a midpoint. *)
Definition scalesOf (ctx : ContextModifiers) : list float :=
  [0.4; 0.5; 0.6; 0.7; 0.75; 0.8; 1; muskBoost ctx;
   (muskBoost ctx * 0.7)]%float.

(** An entry of a heart or base layer: the record of the database it
    was made from and the multiplier of its midpoint. *)
Inductive madeFrom (ctx : ContextModifiers) : FormulaIngredient -> Prop :=
| made_scaled (m : float) (i : RawIngredient) :
    In m (scalesOf ctx) -> In i allIngredients ->
    madeFrom ctx (scaledEntry m i)
| made_hero (r : RawIngredient) :
    In r allIngredients ->
    madeFrom ctx (heroEntry (name r) (Js.min (heroScale ctx) 1.3) r).

(** An entry of a top layer: a copy of a record, or a pick of the
    secondary fill at 0.8 times the midpoint. *)
Inductive topMadeFrom : FormulaIngredient -> Prop :=
| top_verbatim (t : RawIngredient) :
    In t allIngredients -> topMadeFrom (verbatim t)
| top_scaled (i : RawIngredient) :
    In i allIngredients -> topMadeFrom (scaledEntry 0.8 i).

(** [P] holds of every entry of a top layer. *)
Definition AllTops (P : FormulaIngredient -> Prop) (f : Formula) : Prop :=
  Forall (fun kt => Forall P (snd kt)) (tops f).

Lemma AllTops_setFamily (P : FormulaIngredient -> Prop) (fam : string)
    (ls : Layers FormulaIngredient) (f : Formula) :
  Forall P (top ls) -> AllTops P f -> AllTops P (setFamily fam ls f).
Proof.
  intros Hl; unfold AllTops, tops.
  induction f as [|[k w] f IH]; cbn [setFamily map fst snd]; intros Hf.
  - repeat constructor; exact Hl.
  - inversion Hf as [|x l H1 H2]; subst.
    destruct (String.eqb k fam); cbn [map fst snd]; constructor; auto.
Qed.

Lemma AllTops_place (P : FormulaIngredient -> Prop) (fam : string)
    (layer : Layer) (item : FormulaIngredient) (f : Formula) :
  layer <> LTop -> AllTops P f -> AllTops P (place fam layer item f).
Proof.
  intros Hl Hf; unfold place, AllTops; rewrite tops_pushItem by exact Hl.
  unfold ensureFamily; destruct (getFamily fam f); [exact Hf|].
  apply AllTops_setFamily; [constructor | exact Hf].
Qed.

Lemma AllTops_tops (P : FormulaIngredient -> Prop) (f f' : Formula) :
  tops f' = tops f -> AllTops P f -> AllTops P f'.
Proof. unfold AllTops; now intros ->. Qed.

Lemma Forall_allEntries (P : FormulaIngredient -> Prop) (f : Formula) :
  AllTops P f -> AllHB P f -> Forall P (allEntries f).
Proof.
  unfold AllTops, AllHB, ForallHB, tops, allEntries.
  induction f as [|[k w] f IH]; cbn [map flat_map fst snd]; intros Ht Hb;
    [constructor|].
  inversion Ht as [|? ? Ht1 Ht2]; inversion Hb as [|? ? [Hb1 Hb1'] Hb2]; subst.
  cbn [fst snd] in *.
  repeat (apply Forall_app; split); auto.
Qed.

Lemma pick_made (ctx : ContextModifiers) (rq : Request)
    (pool : list RawIngredient) (r : Role) (count : nat) (mult : float)
    (e : Env) :
  incl pool allIngredients -> In mult (scalesOf ctx) ->
  Forall (madeFrom ctx) (fst (pick rq pool r count mult e)).
Proof.
  intros Hp Hm.
  destruct (pick_from_pool rq pool r count mult e) as [chosen [-> Hin]].
  apply Forall_forall; intros item Hit.
  apply in_map_iff in Hit as [i [<- Hi]].
  constructor; auto.
Qed.

Lemma findName_name (n : string) (l : list RawIngredient) (r : RawIngredient) :
  findName n l = Some r -> In r l /\ name r = n.
Proof.
  intros H; apply find_some in H as [Hin Hn].
  split; [exact Hin | now apply String.eqb_eq].
Qed.

Section Made.
Variables (rq : Request) (ctx : ContextModifiers).

Lemma dominantFill_made (dom : Layers RawIngredient) (e : Env) :
  incl (top dom) allIngredients -> incl (heart dom) allIngredients ->
  incl (base dom) allIngredients ->
  Forall topMadeFrom (top (fst (dominantFill rq ctx dom e)))
  /\ okLayers (madeFrom ctx) (fst (dominantFill rq ctx dom e)).
Proof.
  intros Ht Hh Hb; split.
  { eapply Forall_impl; [|apply dominantFill_top].
    intros item (t & Hin & ->); constructor; auto. }
  unfold dominantFill, heroName.
  rewrite bind_run.
  destruct (match heroOf rq with
            | Some h => useName (name h) ;;; pushPicked h
            | None => ret tt
            end e) as [u e0]; cbn [fst snd].
  rewrite bind_run.
  destruct (dominantTop dom e0) as [domTop e1]; cbn [fst snd].
  rewrite bind_run.
  assert (Hs1 : In 1%float (scalesOf ctx)) by (cbn; tauto).
  assert (Hs75 : In 0.75%float (scalesOf ctx)) by (cbn; tauto).
  assert (Hsm : In (muskBoost ctx) (scalesOf ctx)) by (cbn; tauto).
  assert (Hsm7 : In (muskBoost ctx * 0.7)%float (scalesOf ctx)) by (cbn; tauto).
  match goal with
  | |- context [pick rq (heart dom) Backbone ?c ?m e1] =>
      assert (Hp1 : Forall (madeFrom ctx)
                      (fst (pick rq (heart dom) Backbone c m e1)))
        by (apply pick_made; [exact Hh|];
            destruct (match heroOf rq with
                      | Some h => findName (name h) (base dom)
                      | None => None
                      end); assumption);
      destruct (pick rq (heart dom) Backbone c m e1) as [heartPicks e2]
  end.
  cbn [fst snd] in *.
  rewrite bind_run.
  match goal with
  | |- context [pick rq (base dom) Backbone ?c ?m e2] =>
      assert (Hp2 : Forall (madeFrom ctx)
                      (fst (pick rq (base dom) Backbone c m e2)))
        by (apply pick_made; [exact Hb|];
            destruct (match heroOf rq with
                      | Some h => findName (name h) (base dom)
                      | None => None
                      end); assumption);
      destruct (pick rq (base dom) Backbone c m e2) as [basePicks e3]
  end.
  cbn [fst snd] in *.
  cbv zeta; unfold ret; cbn [fst snd]; unfold okLayers; cbn [heart base].
  destruct (heroOf rq) as [h|]; cbn [option_map].
  - destruct (findName (name h) (heart dom)) as [rh|] eqn:Eh;
      destruct (findName (name h) (base dom)) as [rb|] eqn:Eb;
      cbn [app]; split; repeat constructor; auto;
      try (apply findName_name in Eh as [Hin <-]; constructor; auto);
      try (apply findName_name in Eb as [Hin <-]; constructor; auto).
  - cbn [app]; split; assumption.
Qed.

Lemma secondaryFill_made (sec : Layers RawIngredient) (e : Env) :
  incl (top sec) allIngredients -> incl (heart sec) allIngredients ->
  incl (base sec) allIngredients ->
  Forall topMadeFrom (top (fst (secondaryFill rq sec e)))
  /\ okLayers (madeFrom ctx) (fst (secondaryFill rq sec e)).
Proof.
  intros Ht Hh Hb; unfold secondaryFill, bind.
  destruct (pick_from_pool rq (top sec) Lift 1 0.8 e) as [chosen [Hc Hin]].
  destruct (pick rq (top sec) Lift 1 _ e) as [t e1].
  assert (H1 : Forall (madeFrom ctx) (fst (pick rq (heart sec) Backbone 1 0.7 e1)))
    by (apply pick_made; [exact Hh | cbn; tauto]).
  destruct (pick rq (heart sec) Backbone 1 _ e1) as [h e2].
  assert (H2 : Forall (madeFrom ctx) (fst (pick rq (base sec) Backbone 1 0.6 e2)))
    by (apply pick_made; [exact Hb | cbn; tauto]).
  destruct (pick rq (base sec) Backbone 1 _ e2) as [b e3].
  cbn [fst ret top] in *; subst t; split; [|split; assumption].
  apply Forall_forall; intros item Hit.
  apply in_map_iff in Hit as [i [<- Hi]]; apply top_scaled; auto.
Qed.

Lemma accentFill_made (acc : Layers RawIngredient) (e : Env) :
  incl (heart acc) allIngredients -> incl (base acc) allIngredients ->
  Forall topMadeFrom (top (fst (accentFill rq acc e)))
  /\ okLayers (madeFrom ctx) (fst (accentFill rq acc e)).
Proof.
  intros Hh Hb; unfold accentFill, bind.
  assert (H1 : Forall (madeFrom ctx)
                 (fst (pick rq (heart acc ++ base acc) Character 1 0.5 e)))
    by (apply pick_made; [now apply incl_app | cbn; tauto]).
  destruct (pick rq (heart acc ++ base acc) Character 1 _ e) as [a e1].
  cbn [fst ret top] in *; split; [constructor|].
  split; cbn [heart base]; now apply Forall_filter.
Qed.

(** Every entry of the formula that enters step 6 was made from a
    record of the database: in a top layer it copies the record or
    scales its midpoint by 0.8; in a heart or base layer it scales the
    midpoint by one of the multipliers of the engine. *)
Lemma assemble_made (conc : option string) (e : Env) :
  AllTops topMadeFrom (fst (fst (assemble rq ctx conc e)))
  /\ AllHB (madeFrom ctx) (fst (fst (assemble rq ctx conc e))).
Proof.
  unfold assemble; rewrite bind_run; unfold filled; rewrite !bind_run.
  assert (H1 : AllTops topMadeFrom (fst (fillDominant rq ctx [] e))
               /\ AllHB (madeFrom ctx) (fst (fillDominant rq ctx [] e))).
  { unfold fillDominant.
    destruct (INGREDIENT_DB (dominant rq)) as [dom|] eqn:E;
      [|split; constructor].
    destruct (db_incl _ _ E) as (Ht & Hh & Hb).
    destruct (dominantFill_made dom e Ht Hh Hb) as [Hd1 Hd2].
    unfold bind; destruct (dominantFill rq ctx dom e) as [ls e0].
    cbn [fst ret] in *; split;
      [apply AllTops_setFamily | apply AllHB_setFamily]; auto; constructor. }
  destruct (fillDominant rq ctx [] e) as [f1 e1]; cbn [fst snd] in *.
  assert (H2 : AllTops topMadeFrom (fst (fillSecondary rq f1 e1))
               /\ AllHB (madeFrom ctx) (fst (fillSecondary rq f1 e1))).
  { unfold fillSecondary.
    destruct (INGREDIENT_DB (secondary rq)) as [sec|] eqn:E; [|exact H1].
    destruct (db_incl _ _ E) as (Ht & Hh & Hb).
    destruct (secondaryFill_made sec e1 Ht Hh Hb) as [Hd1 Hd2].
    unfold bind; destruct (secondaryFill rq sec e1) as [ls e2].
    cbn [fst ret] in *; destruct H1; split;
      [apply AllTops_setFamily | apply AllHB_setFamily]; auto. }
  destruct (fillSecondary rq f1 e1) as [f2 e2]; cbn [fst snd] in *.
  assert (H3 : AllTops topMadeFrom (fst (fillAccent rq f2 e2))
               /\ AllHB (madeFrom ctx) (fst (fillAccent rq f2 e2))).
  { unfold fillAccent.
    destruct (INGREDIENT_DB (accent rq)) as [acc|] eqn:E; [|exact H2].
    destruct (db_incl _ _ E) as (Ht & Hh & Hb).
    destruct (accentFill_made acc e2 Hh Hb) as [Hd1 Hd2].
    unfold bind; destruct (accentFill rq acc e2) as [ls e3].
    cbn [fst ret] in *; destruct H2; split;
      [apply AllTops_setFamily | apply AllHB_setFamily]; auto. }
  destruct (fillAccent rq f2 e2) as [f3 e3]; cbn [fst snd] in *.
  assert (Hs4 : In 0.4%float (scalesOf ctx)) by (cbn; tauto).
  assert (H4 : AllTops topMadeFrom (fst (ingredientFloor rq f3 e3))
               /\ AllHB (madeFrom ctx) (fst (ingredientFloor rq f3 e3))).
  { unfold ingredientFloor, bind.
    pose proof (floorPicks_spec rq f3 e3) as [Hin _]; cbv zeta in Hin.
    destruct (floorPicks rq f3 e3) as [picks e4]; cbn [fst] in Hin.
    rewrite foldM_addFill.
    revert f3 H3; induction Hin as [|p picks Hp _ IH]; intros f3 H3;
      cbn [fold_left]; [exact H3|].
    apply IH; destruct H3 as [H3 H3']; unfold placeFill; split.
    - apply AllTops_place; [apply fillTarget_layer | exact H3].
    - apply AllHB_place; [|exact H3'].
      constructor; [exact Hs4 | exact (fillSources_incl rq _ p Hp)]. }
  destruct (ingredientFloor rq f3 e3) as [f4 e4]; cbn [fst snd] in *.
  unfold structuralInjection, bind, getPicked, getUsed.
  destruct (_ && _ && _); [|exact H4].
  assert (Hl : incl (firstn (Z.to_nat (Z.min 2 (8 - totalIngredientsCount f4)))
                       (structuralCandidates rq (used e4))) allIngredients).
  { intros x Hx; apply In_firstn in Hx.
    now apply (structuralCandidates_incl rq (used e4)). }
  revert Hl.
  generalize (firstn (Z.to_nat (Z.min 2 (8 - totalIngredientsCount f4)))
                (structuralCandidates rq (used e4))) as l.
  assert (Hacc : AllTops topMadeFrom (fst (f4, @nil string))
                 /\ AllHB (madeFrom ctx) (fst (f4, @nil string))) by exact H4.
  revert Hacc; generalize (f4, @nil string) as acc, e4 as e'.
  intros acc e' Hacc l; revert acc e' Hacc.
  induction l as [|s l IH]; intros acc e' Hacc Hl; cbn [foldM]; [exact Hacc|].
  rewrite bind_run.
  assert (Hi : inject rq acc s e'
               = (place (dominant rq) LBase (scaledEntry 0.4 s) (fst acc),
                  (snd acc ++ [structuralNote s])%list,
                  snd (inject rq acc s e'))) by reflexivity.
  rewrite Hi; cbn [fst snd].
  apply IH; [|intros x Hx; apply Hl; now right]; cbn [fst].
  change (pushItem (dominant rq) LBase (scaledEntry 0.4 s)
            (ensureFamily (dominant rq) (fst acc)))
    with (place (dominant rq) LBase (scaledEntry 0.4 s) (fst acc)).
  destruct Hacc as [Ha Ha']; split.
  - apply AllTops_place; [discriminate | exact Ha].
  - apply AllHB_place; [|exact Ha'].
    constructor; [exact Hs4 | apply Hl; now left].
Qed.
End Made.

(** ** Bands stay well formed *)

(** Steps 6 and 7 change a heart or base entry only by [rescale] with
    0.4, 0.6 or 0.7 and by [clamped]: a property that these keep is
    kept by the four passes. *)
Definition keptByPasses (P : FormulaIngredient -> Prop) : Prop :=
  forall item,
    P item ->
    P (rescale 0.4 item) /\ P (rescale 0.6 item) /\ P (rescale 0.7 item)
    /\ P (clamped item).

Section Kept.
Variable P : FormulaIngredient -> Prop.
Hypothesis HP : keptByPasses P.
Variable h : option string.

Lemma passA_AllHB (f : Formula) : AllHB P f -> AllHB P (passA h f).
Proof.
  intros Hf; unfold passA; destruct (1 <? highDom f); [|exact Hf].
  eapply AllHB_mapHeartBase; [|exact Hf].
  intros fam item Hi; cbv beta.
  destruct (isHeroName h (iname item)); [exact Hi|].
  destruct (isHighDominance fam item);
    [exact (proj1 (HP item Hi)) | exact Hi].
Qed.

Lemma passB_AllHB (f : Formula) : AllHB P f -> AllHB P (passB h f).
Proof.
  intros Hf; unfold passB; eapply AllHB_mapHeartBase; [|exact Hf].
  intros fam item Hi; cbv beta.
  destruct (isHeroName h (iname item)); [exact Hi|].
  destruct (Js.gt _ _);
    [exact (proj2 (proj2 (proj2 (HP item Hi)))) | exact Hi].
Qed.

Lemma passC_AllHB (acc : Formula * list string) :
  AllHB P (fst acc) -> AllHB P (fst (passC h acc)).
Proof.
  intros Hf; unfold passC; destruct (2 <? len _); [|exact Hf].
  generalize (sorted_heavy_layers h (fst acc)).
  generalize (sortBy (heavyAfter h) (heavyItems (fst acc))),
    (len (heavyItems (fst acc))), 0.
  intros todo total reductions Hl; revert reductions acc Hf.
  induction Hl as [|x todo Hx _ IH]; intros reductions acc Hacc;
    cbn [reduceLoop]; [exact Hacc|].
  destruct (isHeroName h (hname x)); [now apply IH|].
  destruct (total - reductions <=? 2); [exact Hacc|].
  apply IH; unfold reduceAt.
  destruct (itemAt _ _ _ _) as [item|] eqn:E; [|exact Hacc].
  cbn [fst]; apply AllHB_setItemAt; [|exact Hacc].
  refine (proj1 (proj2 (proj2 (HP item _)))); eapply AllHB_itemAt; eauto.
Qed.

Lemma passD_AllHB (acc : Formula * list string) :
  AllHB P (fst acc) -> AllHB P (fst (passD acc)).
Proof.
  intros Hf; unfold passD; rewrite fold_dampen; cbn [fst].
  eapply AllHB_mapHeartBase; [|exact Hf].
  intros _ item; generalize (usedGroups (fst acc)) as ug.
  intros ug; revert item; induction ug as [|gm ug IH]; intros item Hi;
    [exact Hi|].
  rewrite dampenItem_cons; apply IH; unfold dampenStep.
  destruct (_ && _); [exact (proj1 (proj2 (HP item Hi))) | exact Hi].
Qed.

Lemma resolveConflicts_AllHB (acc : Formula * list string) :
  AllHB P (fst acc) -> AllHB P (fst (resolveConflicts h acc)).
Proof.
  intros Hf; unfold resolveConflicts.
  apply passD_AllHB, passC_AllHB; cbn [fst].
  now apply passB_AllHB, passA_AllHB.
Qed.
End Kept.

(** A band within the limit whose low end is not above its high end. *)
Definition ordered (item : FormulaIngredient) : bool :=
  match ipercent item with
  | Band lo hi => (lo <=? hi)%N && (hi <=? bandLimit)%N
  | Published _ => false
  end.

Lemma ordered_inv (item : FormulaIngredient) :
  ordered item = true ->
  exists lo hi, ipercent item = Band lo hi /\ (lo <= hi)%N /\ (hi <= bandLimit)%N.
Proof.
  unfold ordered; destruct (ipercent item) as [s|lo hi]; [discriminate|].
  intros H; apply andb_prop in H as [H1 H2]; exists lo, hi.
  repeat split; now apply N.leb_le.
Qed.

Lemma ordered_intro (item : FormulaIngredient) (lo hi : N) :
  ipercent item = Band lo hi -> (lo <= hi)%N -> (hi <= bandLimit)%N ->
  ordered item = true.
Proof.
  intros H H1 H2; unfold ordered; rewrite H.
  apply andb_true_intro; split; now apply N.leb_le.
Qed.

(** A function on tenths that does not decrease from one number to the
    next does not decrease. *)
Lemma monotone_by_steps (f : N -> N) (n : N) :
  forallb (fun k => (f k <=? f (k + 1))%N) (upto n) = true ->
  forall a b, (a <= b)%N -> (b <= n + 1)%N -> (f a <= f b)%N.
Proof.
  intros H a b Hab Hb.
  assert (Hstep : forall k, (k <= n)%N -> (f k <= f (k + 1))%N).
  { intros k Hk; apply N.leb_le; exact (forall_upto _ _ H k Hk). }
  replace b with (a + N.of_nat (N.to_nat (b - a)))%N by lia.
  assert (Hd : (N.of_nat (N.to_nat (b - a)) <= b - a)%N) by lia.
  revert Hd; generalize (N.to_nat (b - a)) as d.
  induction d as [|d IH]; intros Hd.
  - rewrite N.add_0_r; lia.
  - rewrite Nat2N.inj_succ in *.
    replace (a + N.succ (N.of_nat d))%N with (a + N.of_nat d + 1)%N by lia.
    etransitivity; [apply IH; lia | apply Hstep; lia].
Qed.

Lemma scaleTenths_mono (lo hi : N) :
  (lo <= hi)%N -> (hi <= bandLimit)%N ->
  (scaleTenths 0.4 lo <= scaleTenths 0.4 hi)%N
  /\ (scaleTenths 0.6 lo <= scaleTenths 0.6 hi)%N
  /\ (scaleTenths 0.7 lo <= scaleTenths 0.7 hi)%N
  /\ (clampTenths 3.5 lo <= clampTenths 6.5 hi)%N.
Proof.
  intros H1 H2.
  assert (Hb : (hi <= bandLimit + 1)%N) by lia.
  repeat split.
  - apply (monotone_by_steps (scaleTenths 0.4) bandLimit);
      [vm_compute; reflexivity | assumption | assumption].
  - apply (monotone_by_steps (scaleTenths 0.6) bandLimit);
      [vm_compute; reflexivity | assumption | assumption].
  - apply (monotone_by_steps (scaleTenths 0.7) bandLimit);
      [vm_compute; reflexivity | assumption | assumption].
  - transitivity (clampTenths 6.5 lo).
    + assert (H : forallb (fun k => (clampTenths 3.5 k <=? clampTenths 6.5 k)%N)
                    (upto bandLimit) = true) by (vm_compute; reflexivity).
      apply N.leb_le, (forall_upto _ _ H lo); lia.
    + apply (monotone_by_steps (clampTenths 6.5) bandLimit);
        [vm_compute; reflexivity | assumption | assumption].
Qed.

Lemma ordered_kept : keptByPasses (fun item => ordered item = true).
Proof.
  intros item H; apply ordered_inv in H as (lo & hi & Hb & Hlo & Hhi).
  destruct (scaleTenths_mono lo hi Hlo Hhi) as (M4 & M6 & M7 & Mc).
  destruct (scaleTenths_limit hi Hhi) as (L4 & L6 & L7).
  destruct (clampTenths_spec hi Hhi) as (_ & Lc & _).
  repeat split.
  - apply (ordered_intro _ (scaleTenths 0.4 lo) (scaleTenths 0.4 hi)); auto.
    unfold rescale; cbn [ipercent withPercent]; now apply scaledBand_Band.
  - apply (ordered_intro _ (scaleTenths 0.6 lo) (scaleTenths 0.6 hi)); auto.
    unfold rescale; cbn [ipercent withPercent]; now apply scaledBand_Band.
  - apply (ordered_intro _ (scaleTenths 0.7 lo) (scaleTenths 0.7 hi)); auto.
    unfold rescale; cbn [ipercent withPercent]; now apply scaledBand_Band.
  - apply (ordered_intro _ _ _ (clamped_Band _ _ _ Hb)); auto.
Qed.

(** The bands that steps 3 to 5c write are ordered, for every record
    of the database and every multiplier of a context. *)
Definition orderedScale (m : float) : bool :=
  forallb (fun i => ordered (scaledEntry m i)) allIngredients.

Lemma contexts_ordered (c o i : option string) :
  let ctx := computeContext c o i in
  forallb orderedScale (scalesOf ctx) = true
  /\ forallb (fun r => ordered (heroEntry (name r) (Js.min (heroScale ctx) 1.3) r))
       allIngredients = true.
Proof.
  cbv zeta; unfold computeContext.
  destruct (optIs c "Parfum Extrait"), (optIs i "Leave a trail"),
    (optIs o "Everyday signature"); split; vm_compute; reflexivity.
Qed.

Lemma madeFrom_ordered (c o i : option string) (item : FormulaIngredient) :
  madeFrom (computeContext c o i) item -> ordered item = true.
Proof.
  destruct (contexts_ordered c o i) as [Hs Hh]; cbv zeta in *.
  rewrite forallb_forall in Hs, Hh.
  intros [m r Hm Hr|r Hr].
  - specialize (Hs m Hm); unfold orderedScale in Hs.
    rewrite forallb_forall in Hs; exact (Hs r Hr).
  - exact (Hh r Hr).
Qed.

(** The two numbers of a percent, the first not above the second: what
    a reader of the percent string finds. *)
Definition wellFormed (p : Percent) : bool :=
  match numbersOf p with
  | [a; b] => (a <=? b)%float
  | _ => false
  end.

Lemma ordered_wellFormed (item : FormulaIngredient) :
  ordered item = true -> wellFormed (ipercent item) = true.
Proof.
  intros H; apply ordered_inv in H as (lo & hi & -> & Hlo & Hhi).
  unfold wellFormed; cbn [numbersOf].
  assert (Hle : forallb
            (fun a => forallb
               (fun b => (b <? a)%N || (ofTenths a <=? ofTenths b)%float)
               (upto bandLimit))
            (upto bandLimit) = true) by (vm_compute; reflexivity).
  rewrite forallb_forall in Hle.
  specialize (Hle lo (upto_In lo bandLimit ltac:(lia))).
  rewrite forallb_forall in Hle.
  specialize (Hle hi (upto_In hi bandLimit Hhi)).
  apply orb_prop in Hle as [Hle|Hle]; [apply N.ltb_lt in Hle; lia | exact Hle].
Qed.

Lemma verbatim_wellFormed :
  forallb (fun t => wellFormed (ipercent (verbatim t))) allIngredients = true.
Proof. vm_compute; reflexivity. Qed.

Lemma topMadeFrom_wellFormed (item : FormulaIngredient) :
  topMadeFrom item -> wellFormed (ipercent item) = true.
Proof.
  intros [t Ht|i Hi].
  - pose proof verbatim_wellFormed as H; rewrite forallb_forall in H.
    exact (H t Ht).
  - apply ordered_wellFormed.
    destruct (contexts_ordered None None None) as [Hs _]; cbv zeta in Hs.
    rewrite forallb_forall in Hs.
    assert (H8 : In 0.8%float (scalesOf (computeContext None None None)))
      by (cbn; tauto).
    specialize (Hs _ H8); unfold orderedScale in Hs.
    rewrite forallb_forall in Hs; exact (Hs i Hi).
Qed.

Lemma entering_made (o : Options) (seed : Z) :
  AllTops topMadeFrom (fst (enteringResolution o seed))
  /\ AllHB (madeFrom (contextOf o)) (fst (enteringResolution o seed)).
Proof.
  unfold enteringResolution, assembled.
  destruct (start o seed) as [rq e]; apply assemble_made.
Qed.

Lemma result_ordered (o : Options) (seed : Z) :
  AllHB (fun item => ordered item = true) (formula (generateFromSeed o seed)).
Proof.
  destruct (result_is_afterPassD o seed) as [-> _].
  change (fst (afterPassD o seed))
    with (fst (resolveConflicts (heroNameOf o seed) (enteringResolution o seed))).
  apply resolveConflicts_AllHB; [apply ordered_kept|].
  eapply AllHB_impl; [|apply (entering_made o seed)].
  intros item; apply madeFrom_ordered.
Qed.

Lemma result_wellFormed (o : Options) (g : Global) :
  Forall (fun item => wellFormed (ipercent item) = true)
    (allEntries (formula (fst (generateSmartFormula o g)))).
Proof.
  unfold generateSmartFormula, generateLocalFormula; cbn [fst].
  apply Forall_allEntries.
  - destruct (result_is_afterPassD o (seedOf o)) as [Hf _].
    unfold seedOf in Hf; rewrite Hf.
    change (fst (afterPassD o (charCodeSum (o_scentCode o))))
      with (fst (resolveConflicts (heroNameOf o (seedOf o))
                   (enteringResolution o (seedOf o)))).
    eapply AllTops_tops;
      [apply conflict_passes_keep_top_layers|].
    unfold AllTops; eapply Forall_impl;
      [|apply (entering_made o (seedOf o))].
    intros kt; apply Forall_impl, topMadeFrom_wellFormed.
  - eapply AllHB_impl; [|apply (result_ordered o (charCodeSum (o_scentCode o)))].
    intros item; apply ordered_wellFormed.
Qed.

(** For a request whose family names no object inherits, every entry
    of the returned formula, in every layer, carries a percent in which a
    reader finds exactly two numbers, the first not above the second. *)
Theorem every_percent_is_a_range :
  forall (o : Options) (g : Global),
    plainRequest o ->
    Forall (fun item => wellFormed (ipercent item) = true)
      (allEntries (formula (fst (generateSmartFormula o g)))).
Proof.
  intros o g _; apply result_wellFormed.
Qed.

Lemma every_percent_example :
  let o := owsOptions "oriental" "leather" "incense" "OLI-3" in
  Forall (fun item => wellFormed (ipercent item) = true)
    (allEntries (formula (fst (generateSmartFormula o None)))).
Proof.
  apply (every_percent_is_a_range
           (owsOptions "oriental" "leather" "incense" "OLI-3") None).
  reflexivity.
Defined.

(** ** At most one entry bears the name of the hero *)

Lemma len_placesOf_cons (n : string) (kv : string * Layers FormulaIngredient)
    (f : Formula) :
  len (placesOf n (kv :: f))
  = len (placesIn n (fst kv) (shapeOf (snd kv))) + len (placesOf n f).
Proof. unfold placesOf, shape; cbn [map flat_map fst snd]; apply len_app. Qed.

Lemma len_placesOf_setFamily (n fam : string) (ls : Layers FormulaIngredient)
    (f : Formula) :
  placesIn n fam (shapeOf ls) = [] ->
  len (placesOf n (setFamily fam ls f)) <= len (placesOf n f).
Proof.
  intros Hls; induction f as [|[k w] f IH]; cbn [setFamily].
  - rewrite len_placesOf_cons; cbn [fst snd]; rewrite Hls.
    unfold placesOf; cbn [shape map flat_map]; lens.
  - destruct (String.eqb k fam); rewrite !len_placesOf_cons; cbn [fst snd].
    + replace (placesIn n k (shapeOf ls)) with (@nil (string * Layer)).
      * pose proof (len_nonneg (placesIn n k (shapeOf w))).
        change (len (@nil (string * Layer))) with 0; lia.
      * revert Hls; unfold placesIn.
        destruct (filter _ (top (shapeOf ls))), (filter _ (heart (shapeOf ls))),
          (filter _ (base (shapeOf ls))); cbn; congruence.
    + lia.
Qed.

Lemma len_placesOf_pushItem (n fam : string) (layer : Layer)
    (item : FormulaIngredient) (f : Formula) :
  iname item <> n ->
  len (placesOf n (pushItem fam layer item f)) = len (placesOf n f).
Proof.
  intros Hn; induction f as [|[k w] f IH]; cbn [pushItem]; [reflexivity|].
  destruct (String.eqb k fam); rewrite !len_placesOf_cons; cbn [fst snd].
  - now rewrite placesIn_push.
  - now rewrite IH.
Qed.

Lemma len_placesOf_place (n fam : string) (layer : Layer)
    (item : FormulaIngredient) (f : Formula) :
  iname item <> n ->
  len (placesOf n (place fam layer item f)) <= len (placesOf n f).
Proof.
  intros Hn; unfold place; rewrite len_placesOf_pushItem by exact Hn.
  unfold ensureFamily; destruct (getFamily fam f); [lia|].
  apply len_placesOf_setFamily; reflexivity.
Qed.

(** Whatever the three families, the formula that enters step 6 holds
    the name of the hero at most once. *)
Lemma assemble_hero_once (rq : Request) (h : RawIngredient)
    (ctx : ContextModifiers) (conc : option string)
    (dom : Layers RawIngredient) (e : Env) :
  heroOf rq = Some h ->
  INGREDIENT_DB (dominant rq) = Some dom ->
  In h (base dom ++ heart dom) ->
  len (placesOf (name h) (fst (fst (assemble rq ctx conc e)))) <= 1.
Proof.
  intros Hh Hdb Hin.
  unfold assemble; rewrite bind_run; unfold filled; rewrite !bind_run.
  assert (H1 : len (placesOf (name h) (fst (fillDominant rq ctx [] e))) <= 1
               /\ mem (name h) (used (snd (fillDominant rq ctx [] e))) = true).
  { unfold fillDominant; rewrite Hdb.
    pose proof (dominantFill_places rq h Hh ctx dom (dominant rq) e Hin) as Hp.
    pose proof (dominantFill_uses rq h Hh ctx dom e) as Hu.
    unfold bind; destruct (dominantFill rq ctx dom e) as [ls e0].
    cbn [fst snd ret setFamily] in *.
    rewrite len_placesOf_cons; cbn [fst snd]; rewrite Hp.
    split; [unfold placesOf; cbn [shape map flat_map]; lens | exact Hu]. }
  destruct (fillDominant rq ctx [] e) as [f1 e1]; cbn [fst snd] in *.
  destruct H1 as [H1 U1].
  assert (H2 : len (placesOf (name h) (fst (fillSecondary rq f1 e1))) <= 1).
  { unfold fillSecondary.
    destruct (INGREDIENT_DB (secondary rq)) as [sec|]; [|exact H1].
    unfold bind, secondaryFill, bind.
    pose proof (pick_others rq h Hh (top sec) Lift 1 0.8 e1) as Hp0.
    destruct (pick rq (top sec) Lift 1 _ e1) as [t e2].
    pose proof (pick_others rq h Hh (heart sec) Backbone 1 0.7 e2) as Hp1.
    destruct (pick rq (heart sec) Backbone 1 _ e2) as [hh e3].
    pose proof (pick_others rq h Hh (base sec) Backbone 1 0.6 e3) as Hp2.
    destruct (pick rq (base sec) Backbone 1 _ e3) as [b e4].
    cbn [fst ret] in *.
    etransitivity; [apply len_placesOf_setFamily|exact H1].
    now apply placesIn_others. }
  pose proof (keeps_fillSecondary (name h) rq f1 e1 U1) as U2.
  destruct (fillSecondary rq f1 e1) as [f2 e2]; cbn [fst snd] in *.
  assert (H3 : len (placesOf (name h) (fst (fillAccent rq f2 e2))) <= 1).
  { unfold fillAccent.
    destruct (INGREDIENT_DB (accent rq)) as [acc|]; [|exact H2].
    unfold bind, accentFill, bind.
    pose proof (pick_others rq h Hh (heart acc ++ base acc) Character 1 0.5 e2)
      as Hp.
    destruct (pick rq (heart acc ++ base acc) Character 1 _ e2) as [a e3].
    cbn [fst ret] in *.
    etransitivity; [apply len_placesOf_setFamily|exact H2].
    apply placesIn_others; cbn [top heart base];
      [constructor | now apply Forall_filter | now apply Forall_filter]. }
  pose proof (keeps_fillAccent (name h) rq f2 e2 U2) as U3.
  destruct (fillAccent rq f2 e2) as [f3 e3]; cbn [fst snd] in *.
  assert (H4 : len (placesOf (name h) (fst (ingredientFloor rq f3 e3))) <= 1).
  { unfold ingredientFloor, bind.
    pose proof (floorPicks_spec rq f3 e3) as [Hp _]; cbv zeta in Hp.
    destruct (floorPicks rq f3 e3) as [picks e4]; cbn [fst] in Hp.
    rewrite foldM_addFill.
    revert f3 H3; induction Hp as [|p picks Hp _ IH]; intros f3 H3;
      cbn [fold_left]; [exact H3|].
    apply IH; unfold placeFill.
    etransitivity; [apply len_placesOf_place|exact H3].
    apply fillSources_spec in Hp as (_ & Hp & _).
    exact (not_mem_neq _ _ _ U3 Hp). }
  pose proof (keeps_ingredientFloor (name h) rq f3 e3 U3) as U4.
  destruct (ingredientFloor rq f3 e3) as [f4 e4]; cbn [fst snd] in *.
  unfold structuralInjection, bind, getPicked, getUsed.
  destruct (_ && _ && _); [|exact H4].
  assert (Hl : Forall (fun p => name p <> name h)
                 (firstn (Z.to_nat (Z.min 2 (8 - totalIngredientsCount f4)))
                    (structuralCandidates rq (used e4)))).
  { apply Forall_forall; intros p Hp.
    apply In_firstn in Hp; unfold structuralCandidates in Hp.
    apply sortBy_In, filter_In in Hp as [_ Hp].
    apply andb_prop in Hp as [Hp _]; apply andb_prop in Hp as [_ Hp].
    apply negb_true_iff in Hp; exact (not_mem_neq _ _ _ U4 Hp). }
  revert Hl.
  generalize (firstn (Z.to_nat (Z.min 2 (8 - totalIngredientsCount f4)))
                (structuralCandidates rq (used e4))) as l.
  assert (Hacc : len (placesOf (name h) (fst (f4, @nil string))) <= 1)
    by exact H4.
  revert Hacc; generalize (f4, @nil string) as acc, e4 as e'.
  intros acc e' Hacc l Hl; revert acc e' Hacc.
  induction Hl as [|s l Hs _ IH]; intros acc e' Hacc; cbn [foldM]; [exact Hacc|].
  rewrite bind_run.
  assert (Hi : inject rq acc s e'
               = (place (dominant rq) LBase (scaledEntry 0.4 s) (fst acc),
                  (snd acc ++ [structuralNote s])%list,
                  snd (inject rq acc s e'))) by reflexivity.
  rewrite Hi; cbn [fst snd].
  apply IH; cbn [fst].
  etransitivity; [apply len_placesOf_place; exact Hs | exact Hacc].
Qed.

(** The heart and base entries that bear the name. *)
Definition named (n : string) (item : FormulaIngredient) : bool :=
  String.eqb n (iname item).

Lemma countIf_named (n : string) (l : list FormulaIngredient) :
  countIf (named n) l = len (filter (String.eqb n) (map iname l)).
Proof.
  induction l as [|x l IH]; [reflexivity|].
  rewrite countIf_cons; cbn [map filter]; unfold named at 1.
  destruct (String.eqb n (iname x)); rewrite ?len_cons, IH; lia.
Qed.

Lemma countHB_named_places (n : string) (f : Formula) :
  countHB (named n) f <= len (placesOf n f).
Proof.
  induction f as [|[k w] f IH]; [unfold placesOf; cbn; lens|].
  rewrite countHB_cons, len_placesOf_cons; cbn [fst snd].
  unfold placesIn, shapeOf; cbn [top heart base].
  rewrite !len_app, !len_map, <- !countIf_named.
  pose proof (countIf_nonneg (named n) (top w)); lia.
Qed.

Lemma hero_named_once (o : Options) (seed : Z) (h : RawIngredient) :
  heroOf (requestOf o seed) = Some h ->
  countHB (named (name h)) (fst (enteringResolution o seed)) <= 1.
Proof.
  intros Hh.
  destruct (hero_from_database o seed h Hh) as (dom & Hdb & Hin).
  etransitivity; [apply countHB_named_places|].
  destruct (requestOf_families o seed) as (Ed & _).
  unfold enteringResolution, assembled, requestOf in *.
  destruct (start o seed) as [rq e]; cbn [fst] in *.
  apply (assemble_hero_once rq h _ _ dom); auto; congruence.
Qed.

(** ** At most two entries above 5%, the hero included *)

Definition heroHeavy (h : option string) (item : FormulaIngredient) : bool :=
  isHeroName h (iname item) && isHeavy item.

Lemma countIf_split (h : option string) (l : list FormulaIngredient) :
  countIf isHeavy l = countIf (nonHeroHeavy h) l + countIf (heroHeavy h) l.
Proof.
  induction l as [|x l IH]; [reflexivity|].
  rewrite !countIf_cons, IH.
  change (nonHeroHeavy h x) with (negb (isHeroName h (iname x)) && isHeavy x).
  change (heroHeavy h x) with (isHeroName h (iname x) && isHeavy x).
  destruct (isHeroName h (iname x)), (isHeavy x); cbn [negb andb]; lia.
Qed.

Lemma countHB_split (h : option string) (f : Formula) :
  countHB isHeavy f = countHB (nonHeroHeavy h) f + countHB (heroHeavy h) f.
Proof.
  induction f as [|kv f IH]; [reflexivity|].
  rewrite !countHB_cons, IH, (countIf_split h (heart (snd kv))),
    (countIf_split h (base (snd kv))); lia.
Qed.

Lemma countIf_le {A} (p q : A -> bool) (l : list A) :
  (forall x, In x l -> p x = true -> q x = true) ->
  countIf p l <= countIf q l.
Proof.
  induction l as [|x l IH]; intros H; [reflexivity|].
  rewrite !countIf_cons.
  specialize (IH (fun y Hy => H y (or_intror Hy))).
  pose proof (H x (or_introl eq_refl)) as Hx.
  destruct (p x), (q x); try lia; specialize (Hx eq_refl); discriminate.
Qed.

Lemma countHB_le (p q : FormulaIngredient -> bool) (f : Formula) :
  (forall x, p x = true -> q x = true) -> countHB p f <= countHB q f.
Proof.
  intros H; induction f as [|kv f IH]; [reflexivity|].
  rewrite !countHB_cons.
  pose proof (countIf_le p q (heart (snd kv)) (fun x _ => H x)).
  pose proof (countIf_le p q (base (snd kv)) (fun x _ => H x)); lia.
Qed.

Lemma countIf_map_le {A} (P : A -> Prop) (p : A -> bool) (g : A -> A)
    (l : list A) :
  (forall x, P x -> p (g x) = true -> p x = true) ->
  Forall P l -> countIf p (map g l) <= countIf p l.
Proof.
  intros H; induction 1 as [|x l Hx _ IH]; [reflexivity|].
  cbn [map]; rewrite !countIf_cons.
  specialize (H x Hx); destruct (p (g x)), (p x); try lia;
    specialize (H eq_refl); discriminate.
Qed.

Lemma countIf_map_eq {A} (p : A -> bool) (g : A -> A) (l : list A) :
  (forall x, p (g x) = p x) -> countIf p (map g l) = countIf p l.
Proof.
  intros H; induction l as [|x l IH]; [reflexivity|].
  cbn [map]; rewrite !countIf_cons, H, IH; reflexivity.
Qed.

(** The reductions of 6c leave the hero as heavy as it was. *)
Lemma reduceLoop_heroHeavy (h : option string) (total : Z)
    (todo : list HeavyItem) :
  forall reductions acc,
    (forall x, In x todo ->
       hlayer x <> LTop
       /\ option_map iname (itemAt (hfam x) (hlayer x) (hidx x) (fst acc))
          = Some (hname x)) ->
    countHB (heroHeavy h) (fst (reduceLoop h total todo reductions acc))
    = countHB (heroHeavy h) (fst acc).
Proof.
  induction todo as [|x todo IH]; intros reductions acc Hat;
    cbn [reduceLoop]; [reflexivity|].
  assert (Hat' : forall a : Formula * list string, (forall fam layer idx,
              option_map iname (itemAt fam layer idx (fst a))
              = option_map iname (itemAt fam layer idx (fst acc))) ->
            forall y, In y todo ->
              hlayer y <> LTop
              /\ option_map iname (itemAt (hfam y) (hlayer y) (hidx y) (fst a))
                 = Some (hname y)).
  { intros a Ha y Hy; destruct (Hat y (or_intror Hy)) as [H1 H2].
    split; [exact H1 | now rewrite Ha]. }
  destruct (isHeroName h (hname x)) eqn:Eh.
  - apply IH, Hat'; reflexivity.
  - destruct (total - reductions <=? 2); [reflexivity|].
    rewrite IH by (apply Hat'; intros; apply names_reduceAt).
    destruct (Hat x (or_introl eq_refl)) as [Hl Hn].
    unfold reduceAt.
    destruct (itemAt (hfam x) (hlayer x) (hidx x) (fst acc)) as [item|] eqn:E;
      [|reflexivity].
    cbn [fst option_map] in *; injection Hn as Hn.
    rewrite (countHB_setItemAt _ _ _ _ _ item _ Hl E).
    unfold heroHeavy; cbn [withPercent iname]; rewrite Hn, Eh; cbn; lia.
Qed.

(** 6c leaves exactly two heavy entries when more than two enter it and
    at most one of them bears the name of the hero. *)
Lemma passC_heavy (h : option string) (acc : Formula * list string) :
  NoDup (keys (fst acc)) ->
  AllHB (heroOrCapped h) (fst acc) ->
  countHB (heroHeavy h) (fst acc) <= 1 ->
  countHB isHeavy (fst (passC h acc)) <= 2.
Proof.
  intros Hnd Hcap Hk.
  pose proof (count_heavyItems h (fst acc)) as Hcount.
  pose proof (heavyItems_length (fst acc)) as Hlen.
  pose proof (countHB_split h (fst acc)) as Hsplit.
  rewrite (countHB_split h (fst (passC h acc))).
  unfold passC.
  destruct (Z.ltb_spec 2 (len (heavyItems (fst acc)))) as [Hgt|Hsmall];
    [|lia].
  pose proof (sortBy_perm (heavyAfter h) (heavyItems (fst acc))) as Hperm.
  assert (Hat : forall x, In x (sortBy (heavyAfter h) (heavyItems (fst acc))) ->
            hlayer x <> LTop
            /\ exists item,
                 itemAt (hfam x) (hlayer x) (hidx x) (fst acc) = Some item
                 /\ iname item = hname x /\ isHeavy item = true).
  { intros x Hx; apply sortBy_In in Hx; now apply heavyItems_at. }
  rewrite reduceLoop_count; auto.
  - rewrite reduceLoop_heroHeavy.
    + rewrite (countIf_perm _ _ _ Hperm); lia.
    + intros x Hx; destruct (Hat x Hx) as (Hl & item & Hi & Hn & _).
      split; [exact Hl | now rewrite Hi, <- Hn].
  - eapply Permutation_NoDup;
      [apply Permutation_sym, Permutation_map, Hperm|].
    now apply heavyItems_NoDup.
Qed.

Lemma heavy_after_dampening (k : N) :
  (k <= bandLimit)%N ->
  Js.gt (ofTenths (scaleTenths 0.6 k)) 5 = true -> Js.gt (ofTenths k) 5 = true.
Proof.
  intros Hk.
  assert (H : forallb
            (fun k => negb (Js.gt (ofTenths (scaleTenths 0.6 k)) 5)
                      || Js.gt (ofTenths k) 5)
            (upto bandLimit) = true) by (vm_compute; reflexivity).
  pose proof (forall_upto _ _ H k Hk) as Hb; cbv beta in Hb.
  intros Hh; rewrite Hh in Hb; exact Hb.
Qed.

Lemma isHeavy_dampenItem (ug : list (string * list string)) :
  forall item,
    okBand item = true ->
    isHeavy (dampenItem ug item) = true -> isHeavy item = true.
Proof.
  induction ug as [|gm ug IH]; intros item Hok; [auto|].
  rewrite dampenItem_cons; unfold dampenStep.
  destruct (_ && _); [|now apply IH].
  intros H; apply IH in H; [|apply rescale_ok; auto].
  apply okBand_inv in Hok as (lo & hi & Hb & Hlo & Hhi).
  unfold isHeavy in *.
  rewrite (getUpperPct_Band _ _ _ Hb).
  apply heavy_after_dampening; [exact Hhi|].
  rewrite <- H; symmetry; f_equal.
  apply (getUpperPct_Band _ (scaleTenths 0.6 lo)).
  unfold rescale; cbn [ipercent withPercent]; now apply scaledBand_Band.
Qed.

Lemma passD_heavy (acc : Formula * list string) :
  AllHB okEntry (fst acc) ->
  countHB isHeavy (fst (passD acc)) <= countHB isHeavy (fst acc).
Proof.
  intros Hok; unfold passD; rewrite fold_dampen; cbn [fst].
  generalize (usedGroups (fst acc)) as ug; intros ug.
  unfold AllHB, ForallHB in Hok.
  induction Hok as [|kv f [Hh Hb] _ IH]; [reflexivity|].
  unfold mapHeartBase in *; cbn [map]; rewrite !countHB_cons.
  cbn [fst snd heart base].
  pose proof (countIf_map_le okEntry isHeavy (fun item => dampenItem ug item)
                (heart (snd kv)) (isHeavy_dampenItem ug) Hh).
  pose proof (countIf_map_le okEntry isHeavy (fun item => dampenItem ug item)
                (base (snd kv)) (isHeavy_dampenItem ug) Hb).
  lia.
Qed.

Lemma okBand_kept : keptByPasses okEntry.
Proof.
  intros item H; unfold okEntry in *; repeat split;
    try (apply rescale_ok; auto).
  pose proof H as H'; apply okBand_inv in H' as (lo & hi & Hb & Hlo & Hhi).
  destruct (clampTenths_spec lo Hlo) as (H1 & _ & _).
  destruct (clampTenths_spec hi Hhi) as (_ & H2 & _).
  apply (okBand_intro _ _ _ (clamped_Band _ _ _ Hb)); assumption.
Qed.

Lemma countHB_shape (n : string) (f f' : Formula) :
  shape f' = shape f -> countHB (named n) f' = countHB (named n) f.
Proof.
  revert f'; induction f as [|[k w] f IH]; intros [|[k' w'] f'];
    cbn [shape map]; try discriminate; [reflexivity|].
  intros H; injection H as _ Ht Hh Hb Hf; cbn [fst snd] in *.
  rewrite !countHB_cons, (IH f' Hf); cbn [snd].
  rewrite !countIf_named; now rewrite Hh, Hb.
Qed.

Lemma afterPassB_hero_heavy (o : Options) (seed : Z) :
  countHB (heroHeavy (heroNameOf o seed)) (afterPassB o seed) <= 1.
Proof.
  unfold heroNameOf, heroName; fold (requestOf o seed).
  destruct (heroOf (requestOf o seed)) as [h|] eqn:Eh; cbn [option_map].
  - etransitivity;
      [apply (countHB_le _ (named (name h)))|].
    + intros x Hx; unfold heroHeavy in Hx; apply andb_prop in Hx as [Hx _].
      cbn [isHeroName] in Hx; unfold named; now rewrite String.eqb_sym.
    + rewrite (countHB_shape _ (fst (enteringResolution o seed))
                 (afterPassB o seed));
        [now apply hero_named_once|].
      unfold afterPassB, afterPassA.
      unfold passB; rewrite shape_mapHeartBase.
      * unfold passA; destruct (1 <? highDom _); [|reflexivity].
        apply shape_mapHeartBase; intros fam item.
        destruct (isHeroName _ (iname item)); [reflexivity|].
        now destruct (isHighDominance fam item).
      * intros fam item; destruct (isHeroName _ (iname item)); [reflexivity|].
        destruct (Js.gt _ _); reflexivity.
  - transitivity 0; [|lia].
    transitivity (countHB (fun _ => false) (afterPassB o seed)).
    + apply countHB_le; intros x Hx; exact Hx.
    + generalize (afterPassB o seed) as f; intros f.
      induction f as [|kv f IH]; [reflexivity|].
      rewrite countHB_cons.
      assert (Hz : forall l : list FormulaIngredient,
                countIf (fun _ => false) l = 0)
        by (intros l; induction l; [reflexivity | rewrite countIf_cons; lia]).
      rewrite !Hz; lia.
Qed.

(** The test of the quality check of test-formula.ts on one entry:
    [nums && parseFloat(nums[nums.length - 1]) > 5]. *)
Definition highPct (item : FormulaIngredient) : bool :=
  match numbersOf (ipercent item) with
  | [] => false
  | nums => Js.gt (last nums 0%float) 5
  end.

Lemma highPct_isHeavy (item : FormulaIngredient) :
  okBand item = true -> highPct item = isHeavy item.
Proof.
  intros H; apply okBand_inv in H as (lo & hi & Hb & _).
  unfold highPct, isHeavy, getUpperPct; rewrite Hb; reflexivity.
Qed.

Lemma countHB_ext (P : FormulaIngredient -> Prop)
    (p q : FormulaIngredient -> bool) (f : Formula) :
  (forall x, P x -> p x = q x) -> AllHB P f -> countHB p f = countHB q f.
Proof.
  intros H Hf; unfold AllHB, ForallHB in Hf.
  assert (Hl : forall l, Forall P l -> countIf p l = countIf q l).
  { induction 1 as [|x l Hx _ IH]; [reflexivity|].
    now rewrite !countIf_cons, IH, (H x Hx). }
  induction Hf as [|kv f [Hh Hb] _ IH]; [reflexivity|].
  rewrite !countHB_cons, IH, (Hl _ Hh), (Hl _ Hb); reflexivity.
Qed.

(** For a request whose family names no object inherits, the returned
    formula never holds more than two heart or base entries whose upper bound is above 5%, the hero included: the
    count that the centre-of-gravity check of the quality test makes is
    at most 2 for every request. *)
Theorem at_most_two_entries_above_five_percent :
  forall (o : Options) (g : Global),
    plainRequest o ->
    countHB highPct (formula (fst (generateSmartFormula o g))) <= 2.
Proof.
  intros o g _; unfold generateSmartFormula, generateLocalFormula; cbn [fst].
  fold (seedOf o).
  assert (Hok : AllHB okEntry (formula (generateFromSeed o (seedOf o)))).
  { destruct (result_is_afterPassD o (seedOf o)) as [-> _].
    change (fst (afterPassD o (seedOf o)))
      with (fst (resolveConflicts (heroNameOf o (seedOf o))
                   (enteringResolution o (seedOf o)))).
    apply resolveConflicts_AllHB;
      [apply okBand_kept | apply enteringResolution_ok]. }
  rewrite (countHB_ext okEntry highPct isHeavy _ highPct_isHeavy Hok).
  destruct (result_is_afterPassD o (seedOf o)) as [-> _].
  unfold afterPassD.
  etransitivity; [apply passD_heavy|].
  - unfold afterPassC.
    apply (passC_AllHB okEntry); [apply okBand_kept|]; cbn [fst].
    unfold afterPassB, afterPassA.
    apply (passB_AllHB okEntry), (passA_AllHB okEntry);
      try apply okBand_kept.
    apply enteringResolution_ok.
  - apply passC_heavy; cbn [fst];
      [apply NoDup_keys_afterPassB | apply afterPassB_capped
      | apply afterPassB_hero_heavy].
Qed.

Lemma at_most_two_example :
  let o := owsOptions "oriental" "leather" "incense" "OLI-3" in
  countHB highPct (formula (fst (generateSmartFormula o None))) <= 2.
Proof.
  apply (at_most_two_entries_above_five_percent
           (owsOptions "oriental" "leather" "incense" "OLI-3") None).
  reflexivity.
Defined.

(** ** Steps 6 and 7 only lower *)

(** [b] is [a] with a band whose ends are not above those of [a]. *)
Definition notRaised (a b : FormulaIngredient) : Prop :=
  iname b = iname a /\ isupplier b = isupplier a
  /\ normalizedPct b = normalizedPct a
  /\ exists lo hi lo' hi',
       ipercent a = Band lo hi /\ ipercent b = Band lo' hi'
       /\ (lo' <= lo)%N /\ (hi' <= hi)%N /\ (hi <= bandLimit)%N
       /\ (lo <= bandLimit)%N.

(** The same families, layers and entries in the same order, the top
    layers untouched, and no heart or base band raised. *)
Definition sameOrLower (f f' : Formula) : Prop :=
  Forall2
    (fun kv kv' =>
       fst kv' = fst kv /\ top (snd kv') = top (snd kv)
       /\ Forall2 notRaised (heart (snd kv)) (heart (snd kv'))
       /\ Forall2 notRaised (base (snd kv)) (base (snd kv')))
    f f'.

Lemma notRaised_refl (a : FormulaIngredient) :
  okBand a = true -> notRaised a a.
Proof.
  intros H; apply okBand_inv in H as (lo & hi & Hb & Hlo & Hhi).
  repeat split; exists lo, hi, lo, hi; repeat split; auto; lia.
Qed.

Lemma notRaised_trans (a b c : FormulaIngredient) :
  notRaised a b -> notRaised b c -> notRaised a c.
Proof.
  intros (N1 & S1 & P1 & lo & hi & lo' & hi' & A1 & B1 & L1 & H1 & M1 & M1')
         (N2 & S2 & P2 & lo2 & hi2 & lo3 & hi3 & A2 & B2 & L2 & H2 & M2 & M2').
  rewrite B1 in A2; injection A2 as <- <-.
  repeat split; try congruence.
  exists lo, hi, lo3, hi3; repeat split; auto; lia.
Qed.

Lemma notRaised_ok (a b : FormulaIngredient) : notRaised a b -> okBand b = true.
Proof.
  intros (_ & _ & _ & lo & hi & lo' & hi' & A & B & L & H & M & M').
  apply (okBand_intro _ lo' hi' B); lia.
Qed.

Lemma scaleTenths_below (k : N) :
  (k <= bandLimit)%N ->
  (scaleTenths 0.4 k <= k)%N /\ (scaleTenths 0.6 k <= k)%N
  /\ (scaleTenths 0.7 k <= k)%N /\ (clampTenths 3.5 k <= k)%N
  /\ (clampTenths 6.5 k <= k)%N.
Proof.
  intros Hk.
  assert (H : forallb
            (fun k => (scaleTenths 0.4 k <=? k)%N && (scaleTenths 0.6 k <=? k)%N
                      && (scaleTenths 0.7 k <=? k)%N
                      && (clampTenths 3.5 k <=? k)%N
                      && (clampTenths 6.5 k <=? k)%N)
            (upto bandLimit) = true) by (vm_compute; reflexivity).
  pose proof (forall_upto _ _ H k Hk) as Hb; cbv beta in Hb.
  repeat (apply andb_prop in Hb as [Hb ?]).
  repeat split; now apply N.leb_le.
Qed.

Lemma notRaised_kept (a : FormulaIngredient) :
  okBand a = true ->
  notRaised a (rescale 0.4 a) /\ notRaised a (rescale 0.6 a)
  /\ notRaised a (rescale 0.7 a) /\ notRaised a (clamped a).
Proof.
  intros H; apply okBand_inv in H as (lo & hi & Hb & Hlo & Hhi).
  destruct (scaleTenths_below lo Hlo) as (L4 & L6 & L7 & Lc & _).
  destruct (scaleTenths_below hi Hhi) as (H4 & H6 & H7 & _ & Hc).
  repeat split;
    try (exists lo, hi, (scaleTenths 0.4 lo), (scaleTenths 0.4 hi);
         repeat split; auto;
         unfold rescale; cbn [ipercent withPercent];
         now apply scaledBand_Band);
    try (exists lo, hi, (scaleTenths 0.6 lo), (scaleTenths 0.6 hi);
         repeat split; auto;
         unfold rescale; cbn [ipercent withPercent];
         now apply scaledBand_Band);
    try (exists lo, hi, (scaleTenths 0.7 lo), (scaleTenths 0.7 hi);
         repeat split; auto;
         unfold rescale; cbn [ipercent withPercent];
         now apply scaledBand_Band).
  exists lo, hi, (clampTenths 3.5 lo), (clampTenths 6.5 hi);
    repeat split; auto; now apply clamped_Band.
Qed.

Lemma Forall2_refl_on {A} (P : A -> Prop) (R : A -> A -> Prop) (l : list A) :
  (forall x, P x -> R x x) -> Forall P l -> Forall2 R l l.
Proof. intros H; induction 1; constructor; auto. Qed.

Lemma Forall2_map_on {A} (P : A -> Prop) (R : A -> A -> Prop) (g : A -> A)
    (l : list A) :
  (forall x, P x -> R x (g x)) -> Forall P l -> Forall2 R l (map g l).
Proof. intros H; induction 1; cbn [map]; constructor; auto. Qed.

Lemma Forall2_trans {A} (R : A -> A -> Prop) (l1 l2 l3 : list A) :
  (forall a b c, R a b -> R b c -> R a c) ->
  Forall2 R l1 l2 -> Forall2 R l2 l3 -> Forall2 R l1 l3.
Proof.
  intros Ht H; revert l3; induction H as [|a b l1 l2 Hab _ IH]; intros l3 H3;
    inversion H3; subst; constructor; eauto.
Qed.

Lemma Forall2_replaceNth {A} (P : A -> Prop) (R : A -> A -> Prop) (idx : nat)
    (x old : A) (l : list A) :
  (forall y, P y -> R y y) -> Forall P l ->
  nth_error l idx = Some old -> R old x ->
  Forall2 R l (replaceNth idx x l).
Proof.
  intros Hr Hl; revert idx; induction Hl as [|y l Hy Hl IH]; intros [|idx];
    cbn [nth_error replaceNth]; try discriminate.
  - intros [= ->] Hx; constructor; [exact Hx|].
    now apply (Forall2_refl_on P).
  - intros Hn Hx; constructor; auto.
Qed.

Lemma sameOrLower_refl (f : Formula) : AllHB okEntry f -> sameOrLower f f.
Proof.
  unfold AllHB, ForallHB, sameOrLower.
  induction 1 as [|kv f [Hh Hb] _ IH]; constructor; auto.
  repeat split; apply (Forall2_refl_on okEntry); auto;
    intros x; apply notRaised_refl.
Qed.

Lemma sameOrLower_trans (f1 f2 f3 : Formula) :
  sameOrLower f1 f2 -> sameOrLower f2 f3 -> sameOrLower f1 f3.
Proof.
  unfold sameOrLower; intros H; revert f3.
  induction H as [|a b l1 l2 (K1 & T1 & H1 & B1) _ IH]; intros f3 H3;
    inversion H3 as [|? c ? l3 (K2 & T2 & H2 & B2) H3']; subst; constructor;
    auto.
  repeat split; try congruence;
    eapply Forall2_trans; eauto using notRaised_trans.
Qed.

Lemma sameOrLower_mapHeartBase
    (g : string -> FormulaIngredient -> FormulaIngredient) (f : Formula) :
  (forall fam item, okBand item = true -> notRaised item (g fam item)) ->
  AllHB okEntry f -> sameOrLower f (mapHeartBase g f).
Proof.
  intros Hg; unfold AllHB, ForallHB, sameOrLower, mapHeartBase.
  induction 1 as [|kv f [Hh Hb] _ IH]; cbn [map]; constructor; auto.
  cbn [fst snd top heart base]; repeat split;
    apply (Forall2_map_on okEntry); auto; intros x; apply Hg.
Qed.

Lemma sameOrLower_setItemAt (fam : string) (layer : Layer) (idx : nat)
    (x old : FormulaIngredient) (f : Formula) :
  layer <> LTop -> AllHB okEntry f ->
  itemAt fam layer idx f = Some old -> notRaised old x ->
  sameOrLower f (setItemAt fam layer idx x f).
Proof.
  intros Hl Hf; unfold itemAt, getFamily.
  unfold AllHB, ForallHB in Hf.
  induction Hf as [|[k w] f [Hh Hb] Hf IH]; cbn [lookup setItemAt];
    [discriminate|].
  rewrite String.eqb_sym; cbn [fst snd] in *.
  destruct (String.eqb k fam); intros Hat Hx.
  - constructor; [|now apply sameOrLower_refl].
    cbn [fst snd]; split; [reflexivity|].
    destruct layer; [congruence | |];
      cbn [setLayer getLayer top heart base] in *; repeat split;
      try (apply (Forall2_refl_on okEntry); auto; intros y; apply notRaised_refl);
      eapply (Forall2_replaceNth okEntry); eauto; intros y; apply notRaised_refl.
  - constructor; [|now apply IH].
    cbn [fst snd]; repeat split;
      apply (Forall2_refl_on okEntry); auto; intros y; apply notRaised_refl.
Qed.

Lemma sameOrLower_ok (f f' : Formula) : sameOrLower f f' -> AllHB okEntry f'.
Proof.
  unfold sameOrLower, AllHB, ForallHB.
  induction 1 as [|kv kv' f f' (_ & _ & Hh & Hb) _ IH]; constructor; auto.
  assert (Hl : forall l l', Forall2 notRaised l l' -> Forall okEntry l').
  { induction 1 as [|a b l l' Hab _ IHl]; constructor; auto.
    exact (notRaised_ok a b Hab). }
  split; [exact (Hl _ _ Hh) | exact (Hl _ _ Hb)].
Qed.

Lemma passC_sameOrLower (h : option string) (acc : Formula * list string) :
  AllHB okEntry (fst acc) -> sameOrLower (fst acc) (fst (passC h acc)).
Proof.
  intros Hf; unfold passC; destruct (2 <? len _);
    [|now apply sameOrLower_refl].
  generalize (sorted_heavy_layers h (fst acc)).
  generalize (sortBy (heavyAfter h) (heavyItems (fst acc))),
    (len (heavyItems (fst acc))), 0.
  intros todo total reductions Hl.
  assert (Hgen : forall a : Formula * list string,
            sameOrLower (fst acc) (fst a) ->
            sameOrLower (fst acc) (fst (reduceLoop h total todo reductions a)));
    [|apply Hgen; now apply sameOrLower_refl].
  revert reductions.
  induction Hl as [|x todo Hx _ IH]; intros reductions a Ha;
    cbn [reduceLoop]; [exact Ha|].
  destruct (isHeroName h (hname x)); [now apply IH|].
  destruct (total - reductions <=? 2); [exact Ha|].
  apply IH; unfold reduceAt.
  destruct (itemAt _ _ _ _) as [item|] eqn:E; [|exact Ha].
  cbn [fst].
  pose proof (sameOrLower_ok _ _ Ha) as Hok.
  eapply sameOrLower_trans; [exact Ha|].
  apply (sameOrLower_setItemAt _ _ _ _ item); auto.
  refine (proj1 (proj2 (proj2 (notRaised_kept item _)))).
  exact (AllHB_itemAt okEntry _ _ _ _ _ Hok Hx E).
Qed.

Lemma dampenItem_notRaised (ug : list (string * list string)) :
  forall item, okBand item = true -> notRaised item (dampenItem ug item).
Proof.
  induction ug as [|gm ug IH]; intros item Hok; [now apply notRaised_refl|].
  rewrite dampenItem_cons; unfold dampenStep.
  destruct (_ && _); [|now apply IH].
  eapply notRaised_trans;
    [exact (proj1 (proj2 (notRaised_kept item Hok)))|].
  apply IH, rescale_ok; auto.
Qed.

(** Steps 6 and 7 keep the families, the layers, the order and the
    names of the entries, leave every top layer as it is, and never
    raise an end of a heart or base band. *)
Lemma resolveConflicts_sameOrLower (h : option string)
    (acc : Formula * list string) :
  AllHB okEntry (fst acc) ->
  sameOrLower (fst acc) (fst (resolveConflicts h acc)).
Proof.
  intros Hf; unfold resolveConflicts.
  assert (HA : sameOrLower (fst acc) (passA h (fst acc))).
  { unfold passA; destruct (1 <? highDom (fst acc));
      [|now apply sameOrLower_refl].
    apply sameOrLower_mapHeartBase; [|exact Hf].
    intros fam item Hi; destruct (isHeroName h (iname item));
      [now apply notRaised_refl|].
    destruct (isHighDominance fam item);
      [exact (proj1 (notRaised_kept item Hi)) | now apply notRaised_refl]. }
  assert (HB : sameOrLower (passA h (fst acc)) (passB h (passA h (fst acc)))).
  { unfold passB; apply sameOrLower_mapHeartBase;
      [|exact (sameOrLower_ok _ _ HA)].
    intros fam item Hi; destruct (isHeroName h (iname item));
      [now apply notRaised_refl|].
    destruct (Js.gt _ _);
      [exact (proj2 (proj2 (proj2 (notRaised_kept item Hi))))
      | now apply notRaised_refl]. }
  pose proof (sameOrLower_trans _ _ _ HA HB) as HAB.
  pose proof (passC_sameOrLower h (passB h (passA h (fst acc)), snd acc)
                (sameOrLower_ok _ _ HAB)) as HC; cbn [fst] in HC.
  pose proof (sameOrLower_trans _ _ _ HAB HC) as HABC.
  eapply sameOrLower_trans; [exact HABC|].
  unfold passD; rewrite fold_dampen; cbn [fst].
  apply sameOrLower_mapHeartBase; [|exact (sameOrLower_ok _ _ HABC)].
  intros _ item; apply dampenItem_notRaised.
Qed.

(** For a request whose family names no object inherits: the formula
    that is returned has the families, the layers and the entries, in
    their order, of the formula that steps 3 to 5c assembled; every top
    layer is the same, and an entry of a heart or a base layer differs
    at most in its percent, whose two ends are then not above the ends
    it had. *)
Theorem conflict_resolution_only_lowers :
  forall (o : Options) (g : Global),
    plainRequest o ->
    sameOrLower (fst (enteringResolution o (seedOf o)))
      (formula (fst (generateSmartFormula o g))).
Proof.
  intros o g _; unfold generateSmartFormula, generateLocalFormula; cbn [fst].
  fold (seedOf o).
  destruct (result_is_afterPassD o (seedOf o)) as [-> _].
  change (fst (afterPassD o (seedOf o)))
    with (fst (resolveConflicts (heroNameOf o (seedOf o))
                 (enteringResolution o (seedOf o)))).
  apply resolveConflicts_sameOrLower, enteringResolution_ok.
Qed.

Lemma conflict_resolution_example :
  let o := owsOptions "oriental" "leather" "incense" "OLI-3" in
  sameOrLower (fst (enteringResolution o (seedOf o)))
    (formula (fst (generateSmartFormula o None))).
Proof.
  apply (conflict_resolution_only_lowers
           (owsOptions "oriental" "leather" "incense" "OLI-3") None).
  reflexivity.
Defined.

(** ** Families that the database does not know *)

Lemma unknown_dbLayer (fam : string)
    (sel : Layers RawIngredient -> list RawIngredient) :
  known fam = false -> dbLayer sel fam = [] /\ INGREDIENT_DB fam = None.
Proof.
  unfold known, dbLayer; destruct (INGREDIENT_DB fam); [discriminate|].
  intros _; split; reflexivity.
Qed.

(** When none of the three requested families is a key of the database,
    nor a name that every object inherits, the engine picks nothing: the formula is empty, no ingredient is
    counted, no warning and no note is written, and the steeping
    estimate is the fast one, whatever the identifier and the
    context. *)
Theorem unknown_families_give_an_empty_formula :
  forall (o : Options) (g : Global),
    plainRequest o ->
    known (o_dominant o) = false -> known (o_secondary o) = false ->
    known (o_accent o) = false ->
    let r := fst (generateSmartFormula o g) in
    formula r = [] /\ ingredientCount r = 0 /\ ifraWarnings r = []
    /\ perfumerNotes r = [] /\ category (steeping r) = fast_stable.
Proof.
  intros o g _ Hd Hs Ha; cbv zeta.
  destruct (unknown_dbLayer (o_dominant o) base Hd) as [Db Dn].
  destruct (unknown_dbLayer (o_dominant o) heart Hd) as [Dh _].
  destruct (unknown_dbLayer (o_secondary o) heart Hs) as [_ Sn].
  destruct (unknown_dbLayer (o_accent o) heart Ha) as [_ An].
  assert (Hheavy : mem (o_dominant o) heavyFamilies = false).
  { destruct (mem (o_dominant o) heavyFamilies) eqn:E; [|reflexivity].
    apply heavy_known in E; congruence. }
  unfold generateSmartFormula, generateLocalFormula; cbn [fst].
  unfold generateFromSeed, assembled, start, selectHero, heroNameOf, start,
    selectHero, heroPool.
  rewrite Db, Dh; cbn [app filter isNil sortBy fold_right len List.length
                          Z.of_nat Z.ltb Z.compare ret].
  unfold assemble, filled, fillDominant, fillSecondary, fillAccent, bind, ret;
    cbn [dominant secondary accent].
  rewrite Dn, Sn, An.
  unfold ingredientFloor, floorPicks, structuralInjection, bind, getPicked,
    getUsed, ret; cbn [dominant].
  rewrite Hheavy; cbn [andb foldM ret].
  unfold ret; cbn [fst snd initialEnv picked warnings].
  unfold estimateSteeping, slowScoreOf; cbn [fold_left].
  destruct (optIs (o_concentration o) "Parfum Extrait"); repeat split.
Qed.

(** A request whose three families are no keys of the database. *)
Lemma unknown_families_example :
  let o := owsOptions "marine" "mossy" "fruity" "X-1" in
  let r := fst (generateSmartFormula o None) in
  formula r = [] /\ ingredientCount r = 0 /\ ifraWarnings r = []
  /\ perfumerNotes r = [] /\ category (steeping r) = fast_stable.
Proof.
  apply (unknown_families_give_an_empty_formula
           (owsOptions "marine" "mossy" "fruity" "X-1") None);
    reflexivity.
Defined.

(** ** The size of a formula *)

Lemma forEachM_len {A B} (f : A -> M B) (l : list A) :
  forall e, len (fst (forEachM f l e)) = len l.
Proof.
  induction l as [|x l IH]; intros e; cbn [forEachM]; [reflexivity|].
  rewrite !bind_run; unfold ret; cbn [fst].
  rewrite !len_cons, IH; reflexivity.
Qed.

Lemma pick_len (rq : Request) (pool : list RawIngredient) (r : Role)
    (count : nat) (mult : float) (e : Env) :
  len (fst (pick rq pool r count mult e)) <= Z.of_nat count.
Proof.
  unfold pick; rewrite !bind_run, forEachM_len.
  unfold len; apply Nat2Z.inj_le, firstn_le_length.
Qed.

Lemma dominantTop_len (dom : Layers RawIngredient) (e : Env) :
  len (fst (dominantTop dom e)) <= 2.
Proof.
  unfold dominantTop; rewrite bind_run.
  destruct (sortBy _ _) as [|t0 pool]; [cbn; lia|].
  rewrite !bind_run.
  destruct (_ && _); [|cbn; lia].
  rewrite bind_run.
  destruct (find _ _); [rewrite !bind_run|]; cbn; lia.
Qed.

Lemma dominantFill_size (rq : Request) (ctx : ContextModifiers)
    (dom : Layers RawIngredient) (e : Env) :
  layerCount (fst (dominantFill rq ctx dom e)) <= 5.
Proof.
  unfold dominantFill; rewrite !bind_run.
  unfold ret, layerCount; cbn [fst top heart base].
  match goal with
  | |- len (fst (dominantTop dom ?e1)) + _ + _ <= _ =>
      pose proof (dominantTop_len dom e1) as Ht
  end.
  match goal with
  | |- context [len (_ ++ fst (pick rq (heart dom) Backbone ?c ?m ?e2))] =>
      pose proof (pick_len rq (heart dom) Backbone c m e2) as Hh
  end.
  match goal with
  | |- context [len (_ ++ fst (pick rq (base dom) Backbone ?c ?m ?e3))] =>
      pose proof (pick_len rq (base dom) Backbone c m e3) as Hb
  end.
  rewrite !len_app.
  destruct (heroName rq);
    destruct (match heroOf rq with
              | Some h => findName (name h) (heart dom)
              | None => None
              end);
    destruct (match heroOf rq with
              | Some h => findName (name h) (base dom)
              | None => None
              end);
    cbn [len List.length] in *; unfold len in *; cbn [List.length] in *; lia.
Qed.

Lemma secondaryFill_size (rq : Request) (sec : Layers RawIngredient)
    (e : Env) :
  layerCount (fst (secondaryFill rq sec e)) <= 3.
Proof.
  unfold secondaryFill; rewrite !bind_run.
  unfold ret, layerCount; cbn [fst top heart base].
  repeat match goal with
         | |- context [len (fst (pick rq ?p ?r ?c ?m ?e1))] =>
             lazymatch goal with
             | H : len (fst (pick rq p r c m e1)) <= _ |- _ => fail
             | _ => pose proof (pick_len rq p r c m e1)
             end
         end.
  lia.
Qed.

Lemma accentFill_size (rq : Request) (acc : Layers RawIngredient) (e : Env) :
  layerCount (fst (accentFill rq acc e)) <= 1.
Proof.
  unfold accentFill; rewrite !bind_run.
  unfold ret, layerCount; cbn [fst top heart base].
  match goal with
  | |- context [filter ?p (fst (pick rq ?pool ?r ?c ?m ?e1))] =>
      pose proof (pick_len rq pool r c m e1);
      pose proof (len_partition p (fst (pick rq pool r c m e1)))
  end.
  unfold len in *; cbn [List.length] in *; lia.
Qed.

Lemma filled_size (rq : Request) (ctx : ContextModifiers) (e : Env) :
  totalIngredientsCount (fst (filled rq ctx e)) <= 9.
Proof.
  unfold filled; rewrite !bind_run.
  assert (H1 : totalIngredientsCount (fst (fillDominant rq ctx [] e)) <= 5).
  { unfold fillDominant.
    destruct (INGREDIENT_DB (dominant rq)) as [dom|];
      [|unfold ret; cbn [fst]; rewrite total_nil; lia].
    rewrite bind_run; unfold ret; cbn [fst setFamily].
    rewrite total_cons, total_nil; cbn [snd].
    pose proof (dominantFill_size rq ctx dom e); lia. }
  destruct (fillDominant rq ctx [] e) as [f1 e1]; cbn [fst snd] in *.
  assert (H2 : totalIngredientsCount (fst (fillSecondary rq f1 e1))
               <= totalIngredientsCount f1 + 3).
  { unfold fillSecondary.
    destruct (INGREDIENT_DB (secondary rq)) as [sec|];
      [|unfold ret; cbn [fst]; lia].
    rewrite bind_run; unfold ret; cbn [fst].
    pose proof (secondaryFill_size rq sec e1).
    pose proof (total_setFamily_le (secondary rq)
                  (fst (secondaryFill rq sec e1)) f1); lia. }
  destruct (fillSecondary rq f1 e1) as [f2 e2]; cbn [fst snd] in *.
  assert (H3 : totalIngredientsCount (fst (fillAccent rq f2 e2))
               <= totalIngredientsCount f2 + 1).
  { unfold fillAccent.
    destruct (INGREDIENT_DB (accent rq)) as [acc|];
      [|unfold ret; cbn [fst]; lia].
    rewrite bind_run; unfold ret; cbn [fst].
    pose proof (accentFill_size rq acc e2).
    pose proof (total_setFamily_le (accent rq)
                  (fst (accentFill rq acc e2)) f2); lia. }
  lia.
Qed.

Lemma ingredientFloor_size (rq : Request) (f : Formula) (e : Env) :
  totalIngredientsCount f <= 9 ->
  totalIngredientsCount (fst (ingredientFloor rq f e)) <= 9.
Proof.
  intros Hf; unfold ingredientFloor; rewrite bind_run, foldM_addFill.
  rewrite total_fold_placeFill.
  unfold floorPicks.
  destruct (mem (dominant rq) heavyFamilies && (totalIngredientsCount f <? 9))
    eqn:E; [|unfold ret; cbn [fst len List.length]; unfold len; cbn; lia].
  apply andb_prop in E as [_ E]; apply Z.ltb_lt in E.
  rewrite !bind_run; unfold ret; cbn [fst].
  rewrite len_map.
  match goal with
  | |- _ + len (firstn (Z.to_nat ?n) ?l) <= _ =>
      pose proof (firstn_le_length (Z.to_nat n) l) as Hl;
      assert (Hn : n <= 9 - totalIngredientsCount f) by apply Z.le_min_r
  end.
  unfold len in *; lia.
Qed.

Lemma structuralInjection_size (rq : Request) (conc : option string)
    (f : Formula) (e : Env) :
  totalIngredientsCount f <= 9 ->
  totalIngredientsCount (fst (fst (structuralInjection rq conc f e))) <= 9.
Proof.
  intros Hf; unfold structuralInjection; rewrite bind_run.
  destruct (mem (dominant rq) heavyFamilies && (totalIngredientsCount f <? 7)
            && _) eqn:E; [|unfold ret; cbn [fst]; exact Hf].
  apply andb_prop in E as [E _]; apply andb_prop in E as [_ E].
  apply Z.ltb_lt in E.
  rewrite bind_run, total_foldM_inject; cbn [fst].
  match goal with
  | |- _ + len (firstn (Z.to_nat ?n) ?l) <= _ =>
      pose proof (firstn_le_length (Z.to_nat n) l) as Hl;
      assert (Hn : n <= 2) by apply Z.le_min_l
  end.
  unfold len in *; lia.
Qed.

Lemma assemble_size (rq : Request) (ctx : ContextModifiers)
    (conc : option string) (e : Env) :
  totalIngredientsCount (fst (fst (assemble rq ctx conc e))) <= 9.
Proof.
  unfold assemble; rewrite !bind_run.
  apply structuralInjection_size, ingredientFloor_size, filled_size.
Qed.

(** For a request whose family names no object inherits, the returned
    formula never holds more than nine entries, all families and layers
    counted: at most five for the dominant family, three for the
    secondary and one for the accent, and the ingredient floor and the
    structural injection add only to a formula that is below nine. *)
Theorem formula_has_at_most_nine_entries :
  forall (o : Options) (g : Global),
    plainRequest o ->
    totalIngredientsCount (formula (fst (generateSmartFormula o g))) <= 9.
Proof.
  intros o g _.
  unfold generateSmartFormula, generateLocalFormula; cbn [fst].
  fold (seedOf o).
  destruct (result_is_afterPassD o (seedOf o)) as [-> _].
  change (fst (afterPassD o (seedOf o)))
    with (fst (resolveConflicts (heroNameOf o (seedOf o))
                 (enteringResolution o (seedOf o)))).
  rewrite total_resolveConflicts.
  unfold enteringResolution, assembled.
  destruct (start o (seedOf o)) as [rq e]; cbn [fst].
  apply assemble_size.
Qed.

Lemma at_most_nine_example :
  let o := owsOptions "woody" "floral" "oriental" "LJ" in
  totalIngredientsCount (formula (fst (generateSmartFormula o None))) <= 9.
Proof.
  apply (formula_has_at_most_nine_entries
           (owsOptions "woody" "floral" "oriental" "LJ") None).
  reflexivity.
Defined.

(** ** The opening of a formula *)

(** The top layer under the key [fam], where the key is present. *)
Definition topOf (fam : string) (f : Formula)
    : option (list FormulaIngredient) :=
  lookup fam (tops f).

Lemma topOf_setFamily_same (fam : string) (v : Layers FormulaIngredient)
    (f : Formula) : topOf fam (setFamily fam v f) = Some (top v).
Proof.
  unfold topOf, tops; induction f as [|[k w] f IH];
    cbn [setFamily map lookup fst snd].
  - now rewrite String.eqb_refl.
  - destruct (String.eqb_spec k fam) as [->|Hne]; cbn [map lookup fst snd].
    + now rewrite String.eqb_refl.
    + destruct (String.eqb_spec fam k); [congruence | exact IH].
Qed.

Lemma topOf_setFamily_other (fam k : string) (v : Layers FormulaIngredient)
    (f : Formula) :
  k <> fam -> topOf fam (setFamily k v f) = topOf fam f.
Proof.
  intros Hne; unfold topOf, tops; induction f as [|[k' w] f IH];
    cbn [setFamily map lookup fst snd].
  - destruct (String.eqb_spec fam k); [congruence | reflexivity].
  - destruct (String.eqb_spec k' k) as [->|Hk]; cbn [map lookup fst snd].
    + destruct (String.eqb_spec fam k); [congruence | reflexivity].
    + now rewrite IH.
Qed.

Lemma topOf_place (fam k : string) (layer : Layer) (item : FormulaIngredient)
    (f : Formula) (t : list FormulaIngredient) :
  layer <> LTop -> topOf fam f = Some t ->
  topOf fam (place k layer item f) = Some t.
Proof.
  intros Hl Ht; unfold place, topOf; rewrite tops_pushItem by exact Hl.
  fold (topOf fam (ensureFamily k f)).
  unfold ensureFamily; destruct (getFamily k f) eqn:E; [exact Ht|].
  destruct (String.eqb_spec k fam) as [->|Hne].
  - unfold topOf, tops, getFamily in *.
    clear - E Ht; exfalso; induction f as [|[k' w] f IH];
      cbn [map lookup fst snd] in *; [discriminate|].
    destruct (String.eqb fam k'); [discriminate | auto].
  - now rewrite topOf_setFamily_other.
Qed.

(** Every family has a top record, and one whose name is not that of
    any record of its base and heart lists. *)
Lemma top_lists_outlast_the_hero (fam : string) (dom : Layers RawIngredient)
    (u : list string) :
  INGREDIENT_DB fam = Some dom ->
  (u = [] \/ exists h, In h (base dom ++ heart dom) /\ u = [name h]) ->
  filter (fun i => negb (mem (name i) u)) (top dom) <> [].
Proof.
  intros Hdb Hu.
  assert (Hall :
    forallb
      (fun kv =>
         negb (isNil (top (snd kv)))
         && forallb
              (fun h =>
                 negb (isNil (filter (fun i => negb (mem (name i) [name h]))
                                (top (snd kv)))))
              (base (snd kv) ++ heart (snd kv)))
      INGREDIENT_DB_entries = true) by (vm_compute; reflexivity).
  rewrite forallb_forall in Hall.
  apply lookup_In in Hdb; specialize (Hall _ Hdb); cbn [snd] in Hall.
  apply andb_prop in Hall as [H0 Hh].
  destruct Hu as [->|(h & Hin & ->)].
  - cbn [mem existsb negb].
    rewrite (filter_all (fun _ => true));
      [now destruct (top dom) | apply Forall_forall; auto].
  - rewrite forallb_forall in Hh; specialize (Hh _ Hin).
    now destruct (filter _ (top dom)).
Qed.

Lemma dominantTop_some (dom : Layers RawIngredient) (e : Env) :
  filter (fun i => negb (mem (name i) (used e))) (top dom) <> [] ->
  1 <= len (fst (dominantTop dom e)).
Proof.
  intros Hpool; unfold dominantTop; rewrite bind_run.
  unfold getUsed; cbn [fst snd].
  destruct (sortBy _ _) as [|t0 pool] eqn:Es.
  - exfalso; apply Hpool.
    apply (f_equal (@len _)) in Es; rewrite sortBy_length in Es.
    unfold len in Es; cbn [List.length] in Es.
    destruct (filter _ (top dom)); [reflexivity | cbn in Es; lia].
  - rewrite !bind_run.
    destruct (_ && _); [|cbn; lia].
    rewrite bind_run.
    destruct (find _ _); [rewrite !bind_run|]; cbn; lia.
Qed.

Lemma dominantFill_opens (rq : Request) (ctx : ContextModifiers)
    (dom : Layers RawIngredient) (e : Env) :
  INGREDIENT_DB (dominant rq) = Some dom ->
  used e = [] ->
  (forall h, heroOf rq = Some h -> In h (base dom ++ heart dom)) ->
  1 <= len (top (fst (dominantFill rq ctx dom e))) <= 2.
Proof.
  intros Hdb Hu Hh; unfold dominantFill; rewrite !bind_run.
  unfold ret; cbn [fst top].
  split; [|apply dominantTop_len].
  apply dominantTop_some, (top_lists_outlast_the_hero (dominant rq)); auto.
  destruct (heroOf rq) as [h|].
  - right; exists h; split; [now apply Hh|].
    unfold bind, useName, pushPicked; cbn [snd used]; now rewrite Hu.
  - left; unfold ret; cbn [snd]; exact Hu.
Qed.

Lemma fold_placeFill_topOf (rq : Request) (fam : string)
    (t : list FormulaIngredient) (picks : list RawIngredient) :
  forall f, topOf fam f = Some t ->
            topOf fam (fold_left (placeFill rq) picks f) = Some t.
Proof.
  induction picks as [|p picks IH]; intros f Hf; [exact Hf|].
  cbn [fold_left]; apply IH; unfold placeFill.
  apply topOf_place; [apply fillTarget_layer | exact Hf].
Qed.

Lemma foldM_inject_topOf (rq : Request) (fam : string)
    (t : list FormulaIngredient) (l : list RawIngredient) :
  forall acc e, topOf fam (fst acc) = Some t ->
                topOf fam (fst (fst (foldM (inject rq) acc l e))) = Some t.
Proof.
  induction l as [|s l IH]; intros acc e Hf; [exact Hf|].
  cbn [foldM]; rewrite bind_run.
  apply IH; unfold inject; rewrite !bind_run; unfold ret; cbn [fst].
  apply (topOf_place fam (dominant rq) LBase); [discriminate | exact Hf].
Qed.

Lemma assemble_opens (rq : Request) (ctx : ContextModifiers)
    (conc : option string) (dom : Layers RawIngredient) (e : Env) :
  INGREDIENT_DB (dominant rq) = Some dom ->
  used e = [] ->
  (forall h, heroOf rq = Some h -> In h (base dom ++ heart dom)) ->
  secondary rq <> dominant rq -> accent rq <> dominant rq ->
  exists t,
    topOf (dominant rq) (fst (fst (assemble rq ctx conc e))) = Some t
    /\ 1 <= len t <= 2.
Proof.
  intros Hdb Hu Hh Hs Ha.
  exists (top (fst (dominantFill rq ctx dom e))).
  split; [|now apply dominantFill_opens].
  set (t := top (fst (dominantFill rq ctx dom e))).
  unfold assemble; rewrite !bind_run.
  unfold structuralInjection; rewrite bind_run.
  assert (H3 : topOf (dominant rq) (fst (filled rq ctx e)) = Some t).
  { unfold filled; rewrite !bind_run.
    assert (H1 : topOf (dominant rq) (fst (fillDominant rq ctx [] e)) = Some t).
    { unfold fillDominant; rewrite Hdb, bind_run; unfold ret; cbn [fst].
      apply topOf_setFamily_same. }
    destruct (fillDominant rq ctx [] e) as [f1 e1]; cbn [fst snd] in *.
    assert (H2 : topOf (dominant rq) (fst (fillSecondary rq f1 e1)) = Some t).
    { unfold fillSecondary.
      destruct (INGREDIENT_DB (secondary rq)); [|exact H1].
      rewrite bind_run; unfold ret; cbn [fst].
      now rewrite topOf_setFamily_other. }
    destruct (fillSecondary rq f1 e1) as [f2 e2]; cbn [fst snd] in *.
    unfold fillAccent.
    destruct (INGREDIENT_DB (accent rq)); [|exact H2].
    rewrite bind_run; unfold ret; cbn [fst].
    now rewrite topOf_setFamily_other. }
  destruct (filled rq ctx e) as [f3 e3]; cbn [fst snd] in *.
  assert (H4 : topOf (dominant rq) (fst (ingredientFloor rq f3 e3)) = Some t).
  { unfold ingredientFloor; rewrite bind_run, foldM_addFill.
    now apply fold_placeFill_topOf. }
  destruct (ingredientFloor rq f3 e3) as [f4 e4]; cbn [fst snd] in *.
  unfold getPicked; cbn [fst snd].
  destruct (_ && _ && _); [|exact H4].
  rewrite bind_run; now apply foldM_inject_topOf.
Qed.

Lemma start_used (o : Options) (seed : Z) : used (snd (start o seed)) = [].
Proof.
  unfold start, selectHero.
  destruct (0 <? len _); [|reflexivity].
  unfold bind, rng; now destruct (seededRng _ _).
Qed.

(** For a request whose family names no object inherits: when the
    dominant family is a key of the database and is not asked for again
    as the secondary or the accent family, the returned formula has that
    family, and its top layer holds one or two entries; the formula
    opens. *)
Theorem known_dominant_family_has_top_notes :
  forall (o : Options) (g : Global),
    plainRequest o ->
    known (o_dominant o) = true ->
    o_secondary o <> o_dominant o -> o_accent o <> o_dominant o ->
    exists ls,
      getFamily (o_dominant o) (formula (fst (generateSmartFormula o g)))
      = Some ls
      /\ 1 <= len (top ls) <= 2.
Proof.
  intros o g _ Hk Hs Ha.
  unfold generateSmartFormula, generateLocalFormula; cbn [fst].
  fold (seedOf o).
  assert (Ht : exists t,
             topOf (o_dominant o) (formula (generateFromSeed o (seedOf o)))
             = Some t /\ 1 <= len t <= 2).
  { destruct (result_is_afterPassD o (seedOf o)) as [-> _].
    change (fst (afterPassD o (seedOf o)))
      with (fst (resolveConflicts (heroNameOf o (seedOf o))
                   (enteringResolution o (seedOf o)))).
    unfold topOf.
    destruct (conflict_passes_keep_top_layers (heroNameOf o (seedOf o))
                (enteringResolution o (seedOf o))) as (_ & _ & _ & ->).
    unfold known in Hk.
    destruct (INGREDIENT_DB (o_dominant o)) as [dom|] eqn:Hdb; [|discriminate].
    destruct (requestOf_families o (seedOf o)) as (Ed & Es & Ea).
    pose proof (start_used o (seedOf o)) as Hu.
    assert (Hh : forall h, heroOf (requestOf o (seedOf o)) = Some h ->
                           In h (base dom ++ heart dom)).
    { intros h E; destruct (hero_from_database o (seedOf o) h E)
        as (dom' & Hdb' & Hin); congruence. }
    unfold enteringResolution, assembled, requestOf in *.
    destruct (start o (seedOf o)) as [rq e]; cbn [fst snd] in *.
    rewrite <- Ed in *.
    apply (assemble_opens rq (contextOf o) (o_concentration o) dom e);
      first [assumption | congruence]. }
  destruct Ht as (t & Ht & Hlen).
  unfold topOf, tops, getFamily in *.
  induction (formula (generateFromSeed o (seedOf o))) as [|[k w] f IH];
    cbn [map lookup fst snd] in *; [discriminate|].
  destruct (String.eqb (o_dominant o) k); [|now apply IH].
  injection Ht as <-; now exists w.
Qed.

Lemma top_notes_example :
  let o := owsOptions "fresh" "citrus" "aquatic" "FCA-002" in
  exists ls,
    getFamily (o_dominant o) (formula (fst (generateSmartFormula o None)))
    = Some ls
    /\ 1 <= len (top ls) <= 2.
Proof.
  apply (known_dominant_family_has_top_notes
           (owsOptions "fresh" "citrus" "aquatic" "FCA-002") None);
    [reflexivity | reflexivity | discriminate | discriminate].
Defined.

(** ** No ingredient twice *)

(** The names of the entries of one family, top then heart then base. *)
Definition layerNames (ls : Layers FormulaIngredient) : list string :=
  map iname (top ls ++ heart ls ++ base ls).

Lemma NoDup_app_inv {A} (a b : list A) :
  NoDup (a ++ b) ->
  NoDup a /\ NoDup b /\ forall x, In x a -> ~ In x b.
Proof.
  intros H; split; [now apply NoDup_app_remove_r in H|].
  split; [now apply NoDup_app_remove_l in H|].
  induction a as [|y a IH]; [intros x []|].
  cbn [app] in H; inversion H as [|? ? Hy Ha]; subst.
  intros x [<-|Hx] Hb; [apply Hy, in_or_app; now right|].
  now apply (IH Ha x).
Qed.

Lemma names_cons (kv : string * Layers FormulaIngredient) (f : Formula) :
  names (kv :: f) = layerNames (snd kv) ++ names f.
Proof.
  unfold names, allEntries, layerNames; cbn [flat_map].
  now rewrite map_app.
Qed.

(** [e'] has, beyond the names that [e] has used, the names [news], which
    are new and different from one another. *)
Definition adds (e e' : Env) (news : list string) : Prop :=
  used e' = used e ++ news
  /\ NoDup news
  /\ forall n, In n news -> ~ In n (used e).

Lemma adds_nil (e e' : Env) : used e' = used e -> adds e e' [].
Proof.
  intros H; split; [now rewrite app_nil_r|].
  split; [constructor | intros n []].
Qed.

Lemma adds_trans (e e1 e2 : Env) (n1 n2 : list string) :
  adds e e1 n1 -> adds e1 e2 n2 -> adds e e2 (n1 ++ n2).
Proof.
  intros (U1 & D1 & F1) (U2 & D2 & F2).
  split; [now rewrite U2, U1, app_assoc|].
  split.
  - apply NoDup_app; auto.
    intros x H1 H2; apply (F2 x H2); rewrite U1; apply in_or_app; now right.
  - intros n Hn Hin; apply in_app_or in Hn as [Hn|Hn];
      [now apply (F1 n)|].
    apply (F2 n Hn); rewrite U1; apply in_or_app; now left.
Qed.

Lemma adds_NoDup (e e' : Env) (news : list string) :
  NoDup (used e) -> adds e e' news -> NoDup (used e').
Proof.
  intros Hn (U & D & F); rewrite U; apply NoDup_app; auto.
  intros x Hx Hin; now apply (F x).
Qed.

Lemma adds_one (e e' : Env) (n : string) :
  mem n (used e) = false -> used e' = used e ++ [n] -> adds e e' [n].
Proof.
  intros Hm U; split; [exact U|]; split; [repeat constructor; intros []|].
  intros x [<-|[]] Hin; apply mem_In in Hin; congruence.
Qed.

Lemma useName_fresh (n : string) (e : Env) :
  mem n (used e) = false -> used (snd (useName n e)) = used e ++ [n].
Proof. intros H; unfold useName; cbn [snd used]; now rewrite H. Qed.

Lemma takeScaled_used (mult : float) (i : RawIngredient) (e : Env) :
  mem (name i) (used e) = false ->
  used (snd (takeScaled mult i e)) = used e ++ [name i].
Proof.
  intros H; unfold takeScaled, bind, useName, pushPicked, when, ret.
  destruct (ifraExceeded i _); cbn [snd used pushWarning]; now rewrite H.
Qed.

Lemma rng_used (offset : float) (e : Env) : used (snd (rng offset e)) = used e.
Proof. unfold rng; now destruct (seededRng _ _). Qed.

Lemma scoreCandidates_used (rq : Request) (cands : list RawIngredient) :
  forall idx e, used (snd (scoreCandidates rq cands idx e)) = used e.
Proof.
  induction cands as [|c cands IH]; intros idx e; [reflexivity|].
  cbn [scoreCandidates]; rewrite !bind_run; unfold ret; cbn [snd].
  now rewrite IH, rng_used.
Qed.

Lemma scoreFills_used (rq : Request) (cands : list RawIngredient) :
  forall idx e, used (snd (scoreFills rq cands idx e)) = used e.
Proof.
  induction cands as [|c cands IH]; intros idx e; [reflexivity|].
  cbn [scoreFills]; rewrite !bind_run; unfold ret; cbn [snd].
  now rewrite IH, rng_used.
Qed.

Lemma forEachM_adds (mult : float) (l : list (RawIngredient * float)) :
  forall e,
    NoDup (map (fun s => name (fst s)) l) ->
    (forall s, In s l -> mem (name (fst s)) (used e) = false) ->
    adds e (snd (forEachM (fun s => takeScaled mult (fst s)) l e))
      (map (fun s => name (fst s)) l).
Proof.
  induction l as [|s l IH]; intros e Hd Hf; cbn [forEachM map].
  - now apply adds_nil.
  - rewrite !bind_run; unfold ret; cbn [snd].
    inversion Hd as [|? ? Hs Hl]; subst.
    pose proof (takeScaled_used mult (fst s) e (Hf s (or_introl eq_refl))) as U.
    apply (adds_trans e (snd (takeScaled mult (fst s) e)) _ [name (fst s)]).
    + apply adds_one; [apply Hf; now left | exact U].
    + apply IH; [exact Hl|].
      intros s' Hs'; rewrite U.
      destruct (mem (name (fst s')) (used e ++ [name (fst s)])) eqn:E;
        [|reflexivity].
      apply mem_In, in_app_or in E as [E|[E|[]]].
      * apply mem_In in E; rewrite Hf in E; [discriminate | now right].
      * exfalso; apply Hs; rewrite E.
        now apply (in_map (fun s => name (fst s))).
Qed.

Lemma candidates_free (rq : Request) (pool : list RawIngredient) (r : Role)
    (u : list string) (c : RawIngredient) :
  In c (candidates rq pool r u) -> mem (name c) u = false.
Proof.
  unfold candidates; destruct (isNil _); intros H;
    apply filter_In in H as [_ H];
    repeat (apply andb_prop in H as [? H] || apply andb_prop in H as [H ?]);
    now apply negb_true_iff.
Qed.

Lemma NoDup_candidates (rq : Request) (pool : list RawIngredient) (r : Role)
    (u : list string) :
  NoDup (map name pool) -> NoDup (map name (candidates rq pool r u)).
Proof.
  intros H; unfold candidates; destruct (isNil _);
    now apply NoDup_map_filter.
Qed.

(** [pick] marks as used the names of the entries it returns, which were
    not used and are different from one another. *)
Lemma pick_adds (rq : Request) (pool : list RawIngredient) (r : Role)
    (count : nat) (mult : float) (e : Env) :
  NoDup (map name pool) ->
  adds e (snd (pick rq pool r count mult e))
    (map iname (fst (pick rq pool r count mult e))).
Proof.
  intros Hp; unfold pick; rewrite !bind_run; unfold getUsed; cbn [fst snd].
  pose proof (scoreCandidates_fst rq (candidates rq pool r (used e)) 0 e) as Hs.
  pose proof (scoreCandidates_used rq (candidates rq pool r (used e)) 0 e) as Hu.
  destruct (scoreCandidates rq _ 0 e) as [scored e1]; cbn [fst snd] in *.
  rewrite forEachM_takeScaled, map_map; cbn [scaledEntry iname].
  assert (Hperm : Permutation (map fst (sortBy byScoreDesc scored))
                    (candidates rq pool r (used e))).
  { rewrite <- Hs; apply Permutation_map, sortBy_perm. }
  assert (Hd : NoDup (map (fun s => name (fst s))
                        (firstn count (sortBy byScoreDesc scored)))).
  { apply NoDup_map_firstn.
    rewrite <- (map_map fst name).
    apply (Permutation_NoDup
             (l := map name (candidates rq pool r (used e))));
      [apply Permutation_map, Permutation_sym, Hperm|].
    now apply NoDup_candidates. }
  pose proof (forEachM_adds mult (firstn count (sortBy byScoreDesc scored)) e1
                Hd) as Ha.
  destruct Ha as (U & D & F).
  - intros s Hin; rewrite Hu.
    apply (candidates_free rq pool r), (Permutation_in _ Hperm).
    apply in_map, (In_firstn _ _ _ Hin).
  - split; [now rewrite U, Hu|]; split; [exact D|].
    intros n Hn; rewrite <- Hu; now apply F.
Qed.

(** The top layer of step 3 marks as used the names of its one or two
    entries, which were not used and are different. *)
Lemma dominantTop_adds (dom : Layers RawIngredient) (e : Env) :
  adds e (snd (dominantTop dom e)) (map iname (fst (dominantTop dom e))).
Proof.
  unfold dominantTop; rewrite bind_run; unfold getUsed; cbn [fst snd].
  set (pool := filter (fun i => negb (mem (name i) (used e))) (top dom)).
  destruct (sortBy _ pool) as [|t0 rest] eqn:Es;
    [unfold ret; cbn [fst snd map]; now apply adds_nil|].
  assert (Hfree : forall x, In x (t0 :: rest) -> mem (name x) (used e) = false).
  { intros x Hx; rewrite <- Es in Hx; apply sortBy_In in Hx.
    apply filter_In in Hx as [_ Hx]; now apply negb_true_iff. }
  rewrite bind_run.
  pose proof (rng_used 10 e) as Hr.
  destruct (rng 10 e) as [r e1]; cbn [fst snd] in *.
  set (t := nth _ (t0 :: rest) t0).
  assert (Ht : mem (name t) (used e1) = false).
  { rewrite Hr; apply Hfree.
    destruct (nth_in_or_default
                (Z.to_nat (Js.floor (r * Js.ofZ (Z.min 2 (len (t0 :: rest))))))
                (t0 :: rest) t0) as [H|H]; [exact H|].
    fold t in H; rewrite H; now left. }
  rewrite !bind_run.
  assert (U1 : used (snd (pushPicked t (snd (useName (name t) e1))))
               = used e ++ [name t]).
  { unfold pushPicked; cbn [snd used].
    now rewrite (useName_fresh _ _ Ht), Hr. }
  assert (A1 : adds e (snd (pushPicked t (snd (useName (name t) e1))))
                 [name t]).
  { apply adds_one; [now rewrite <- Hr | exact U1]. }
  destruct (_ && _); [|exact A1].
  rewrite bind_run; unfold getUsed; cbn [fst snd].
  destruct (find _ (t0 :: rest)) as [booster|] eqn:Ef; [|exact A1].
  apply find_some in Ef as [Hb1 Hb2].
  apply andb_prop in Hb2 as [Hb2 _]; apply negb_true_iff in Hb2.
  rewrite !bind_run; unfold ret; cbn [fst snd map verbatim iname].
  apply (adds_trans e _ _ [name t] [name booster] A1).
  apply adds_one; [exact Hb2|].
  unfold pushPicked; cbn [snd used]; now rewrite useName_fresh.
Qed.

(** The names of the records of a family differ from one another, its
    top list apart from its heart and base lists. *)
Lemma family_names_differ (fam : string) (dom : Layers RawIngredient) :
  INGREDIENT_DB fam = Some dom ->
  NoDup (map name (top dom)) /\ NoDup (map name (heart dom))
  /\ NoDup (map name (base dom)) /\ NoDup (map name (heart dom ++ base dom)).
Proof.
  intros Hdb.
  assert (Hall :
    forallb
      (fun kv => distinctb (map name (top (snd kv)))
                 && distinctb (map name (heart (snd kv) ++ base (snd kv))))
      INGREDIENT_DB_entries = true) by (vm_compute; reflexivity).
  rewrite forallb_forall in Hall.
  apply lookup_In in Hdb; specialize (Hall _ Hdb); cbn [snd] in Hall.
  apply andb_prop in Hall as [Ht Hhb].
  apply distinctb_NoDup in Ht, Hhb.
  repeat split; auto; rewrite map_app in Hhb;
    [now apply NoDup_app_remove_r in Hhb | now apply NoDup_app_remove_l in Hhb].
Qed.

Lemma secondaryFill_adds (rq : Request) (sec : Layers RawIngredient)
    (e : Env) :
  NoDup (map name (top sec)) -> NoDup (map name (heart sec)) ->
  NoDup (map name (base sec)) ->
  adds e (snd (secondaryFill rq sec e))
    (layerNames (fst (secondaryFill rq sec e))).
Proof.
  intros Ht Hh Hb; unfold secondaryFill; rewrite !bind_run.
  unfold ret, layerNames; cbn [fst snd top heart base].
  rewrite !map_app.
  eapply adds_trans; [apply pick_adds, Ht|].
  eapply adds_trans; [apply pick_adds, Hh | apply pick_adds, Hb].
Qed.

Lemma accentFill_adds (rq : Request) (acc : Layers RawIngredient) (e : Env) :
  NoDup (map name (heart acc ++ base acc)) ->
  exists news,
    adds e (snd (accentFill rq acc e)) news
    /\ Permutation (layerNames (fst (accentFill rq acc e))) news.
Proof.
  intros Hd; unfold accentFill; rewrite !bind_run.
  unfold ret, layerNames; cbn [fst snd top heart base app].
  eexists; split; [apply pick_adds, Hd|].
  apply Permutation_map.
  match goal with
  | |- Permutation (filter ?p ?l ++ _) _ => generalize l; intros l0
  end.
  induction l0 as [|x l0 IH]; cbn [filter]; [constructor|].
  destruct (hasName (iname x) (heart acc)); cbn [negb app];
    [now constructor|].
  now apply Permutation_sym, Permutation_cons_app, Permutation_sym.
Qed.

(** Step 3 from a state in which no name is used. *)
Lemma dominantFill_fresh (rq : Request) (ctx : ContextModifiers)
    (dom : Layers RawIngredient) (e : Env) :
  used e = [] ->
  NoDup (map name (heart dom)) -> NoDup (map name (base dom)) ->
  NoDup (layerNames (fst (dominantFill rq ctx dom e)))
  /\ incl (layerNames (fst (dominantFill rq ctx dom e)))
       (used (snd (dominantFill rq ctx dom e)))
  /\ NoDup (used (snd (dominantFill rq ctx dom e))).
Proof.
  intros Hu Hh Hb; unfold dominantFill; rewrite !bind_run.
  set (e0 := snd (match heroOf rq with
                  | Some h => useName (name h) ;;; pushPicked h
                  | None => ret tt
                  end e)).
  unfold ret, layerNames; cbn [fst snd top heart base].
  assert (H0 : used e0 = match heroOf rq with
                         | Some h => [name h]
                         | None => []
                         end).
  { unfold e0; destruct (heroOf rq) as [h|].
    - unfold bind, useName, pushPicked; cbn [snd used]; now rewrite Hu.
    - exact Hu. }
  assert (N0 : NoDup (used e0)).
  { rewrite H0; destruct (heroOf rq); repeat constructor; intros []. }
  pose proof (dominantTop_adds dom e0) as A1.
  set (e1 := snd (dominantTop dom e0)) in *.
  set (tn := map iname (fst (dominantTop dom e0))) in *.
  match goal with
  | |- context [pick rq (heart dom) Backbone ?c ?m e1] =>
      pose proof (pick_adds rq (heart dom) Backbone c m e1 Hh) as A2;
      set (hp := pick rq (heart dom) Backbone c m e1) in *
  end.
  match goal with
  | |- context [pick rq (base dom) Backbone ?c ?m (snd hp)] =>
      pose proof (pick_adds rq (base dom) Backbone c m (snd hp) Hb) as A3;
      set (bp := pick rq (base dom) Backbone c m (snd hp)) in *
  end.
  pose proof (adds_trans _ _ _ _ _ A1 (adds_trans _ _ _ _ _ A2 A3)) as A.
  pose proof (adds_NoDup _ _ _ N0 A) as N3.
  destruct A as (U & D & F).
  split; [|split; [|exact N3]].
  - rewrite !map_app.
    assert (Hsub : forall hh bh,
               (hh = [] \/ bh = []) ->
               (forall n, In n (hh ++ bh) -> In n (used e0)) ->
               NoDup (hh ++ bh) ->
               NoDup (map iname (fst (dominantTop dom e0))
                      ++ (hh ++ map iname (fst hp))
                      ++ bh ++ map iname (fst bp))).
    { intros hh bh Hone Hin Hnd.
      apply (Permutation_NoDup
               (l := (hh ++ bh)
                     ++ tn ++ map iname (fst hp) ++ map iname (fst bp))).
      - fold tn; destruct Hone as [-> | ->]; cbn [app]; rewrite ?app_nil_r.
        + etransitivity; [apply Permutation_app_swap_app|].
          apply Permutation_app_head, Permutation_app_swap_app.
        + rewrite <- app_assoc; apply Permutation_app_swap_app.
      - apply NoDup_app; [exact Hnd | exact D|].
        intros x Hx Hx'; apply (F x Hx'), Hin, Hx. }
    destruct (heroName rq) as [n|] eqn:En.
    2:{ apply (Hsub [] []); [now left | intros n [] | constructor]. }
    assert (Hn : In n (used e0)).
    { rewrite H0; unfold heroName in En.
      destruct (heroOf rq); [|discriminate].
      injection En as <-; now left. }
    destruct (match heroOf rq with
              | Some h => findName (name h) (heart dom)
              | None => None
              end) as [r1|];
      destruct (match heroOf rq with
                | Some h => findName (name h) (base dom)
                | None => None
                end) as [r2|];
      cbn [map app heroEntry iname].
    + apply (Hsub [n] []); [now right | |repeat constructor; intros []].
      intros x [<-|[]]; exact Hn.
    + apply (Hsub [n] []); [now right | |repeat constructor; intros []].
      intros x [<-|[]]; exact Hn.
    + apply (Hsub [] [n]); [now left | |repeat constructor; intros []].
      intros x [<-|[]]; exact Hn.
    + apply (Hsub [] []); [now left | intros x [] | constructor].
  - rewrite U, !map_app.
    intros x Hx.
    assert (Hhero : forall n, heroName rq = Some n -> In n (used e0)).
    { intros n En; rewrite H0; unfold heroName in En.
      destruct (heroOf rq); [|discriminate].
      injection En as <-; now left. }
    apply in_or_app.
    repeat (apply in_app_or in Hx as [Hx|Hx]).
    + right; apply in_or_app; now left.
    + left; destruct (heroName rq) as [n|]; [|destruct Hx].
      destruct (match heroOf rq with
                | Some h => findName (name h) (heart dom)
                | None => None
                end); [|destruct Hx].
      destruct Hx as [<-|[]]; now apply Hhero.
    + right; apply in_or_app; right; apply in_or_app; now left.
    + left; destruct (heroName rq) as [n|]; [|destruct Hx].
      destruct (match heroOf rq with
                | Some h => findName (name h) (base dom)
                | None => None
                end); [|destruct Hx].
      destruct (match heroOf rq with
                | Some h => findName (name h) (heart dom)
                | None => None
                end); [destruct Hx|].
      destruct Hx as [<-|[]]; now apply Hhero.
    + right; apply in_or_app; right; apply in_or_app; now right.
Qed.

(** No name is used twice, no entry of the formula has the name of
    another, and every name of an entry is used. *)
Definition tidy (f : Formula) (e : Env) : Prop :=
  NoDup (used e) /\ NoDup (names f) /\ incl (names f) (used e).

Lemma names_setFamily (k : string) (ls : Layers FormulaIngredient)
    (f : Formula) :
  NoDup (names f) -> NoDup (layerNames ls) ->
  (forall n, In n (layerNames ls) -> ~ In n (names f)) ->
  NoDup (names (setFamily k ls f))
  /\ incl (names (setFamily k ls f)) (names f ++ layerNames ls).
Proof.
  intros Hf Hl Hd; induction f as [|[k' w] f IH]; cbn [setFamily].
  - rewrite names_cons; cbn [snd names allEntries flat_map map app].
    rewrite app_nil_r; split; [exact Hl | apply incl_refl].
  - rewrite names_cons in Hf, Hd; cbn [snd] in Hf, Hd.
    destruct (NoDup_app_inv _ _ Hf) as (Hw & Hr & Hwr).
    destruct (String.eqb k' k); rewrite !names_cons; cbn [snd].
    + split.
      * apply NoDup_app; auto.
        intros x Hx Hx'; apply (Hd x Hx), in_or_app; now right.
      * intros x Hx; apply in_app_or in Hx as [Hx|Hx]; apply in_or_app;
          [now right | left; apply in_or_app; now right].
    + destruct IH as [IH1 IH2]; [exact Hr | |].
      { intros n Hn Hn'; apply (Hd n Hn), in_or_app; now right. }
      split.
      * apply NoDup_app; auto.
        intros x Hx Hx'; apply IH2, in_app_or in Hx' as [Hx'|Hx'].
        -- now apply (Hwr x).
        -- apply (Hd x Hx'), in_or_app; now left.
      * intros x Hx; apply in_app_or in Hx as [Hx|Hx]; apply in_or_app.
        -- left; apply in_or_app; now left.
        -- apply IH2, in_app_or in Hx as [Hx|Hx];
             [left; apply in_or_app; now right | now right].
Qed.

Lemma tidy_setFamily (k : string) (ls : Layers FormulaIngredient)
    (f : Formula) (e e' : Env) (news : list string) :
  tidy f e -> adds e e' news -> Permutation (layerNames ls) news ->
  tidy (setFamily k ls f) e'.
Proof.
  intros (Nu & Nf & If) Ha Hp.
  pose proof (adds_NoDup _ _ _ Nu Ha) as Nu'.
  destruct Ha as (U & D & F).
  destruct (names_setFamily k ls f Nf) as [H1 H2].
  - apply (Permutation_NoDup (Permutation_sym Hp) D).
  - intros n Hn Hin; apply (F n); [apply (Permutation_in _ Hp Hn)|].
    now apply If.
  - split; [exact Nu'|]; split; [exact H1|].
    intros x Hx; apply H2, in_app_or in Hx as [Hx|Hx]; rewrite U;
      apply in_or_app; [left; now apply If|].
    right; apply (Permutation_in _ Hp Hx).
Qed.

Lemma names_setFamily_absent (k : string) (ls : Layers FormulaIngredient)
    (f : Formula) :
  getFamily k f = None ->
  Permutation (names (setFamily k ls f)) (layerNames ls ++ names f).
Proof.
  unfold getFamily; induction f as [|[k' w] f IH]; cbn [setFamily lookup].
  - intros _; rewrite names_cons; reflexivity.
  - destruct (String.eqb_spec k k') as [->|Hne]; [discriminate|].
    destruct (String.eqb_spec k' k) as [->|_]; [congruence|].
    intros H; rewrite !names_cons; cbn [snd]; rewrite (IH H).
    apply Permutation_app_swap_app.
Qed.

Lemma layerNames_push (L : Layer) (item : FormulaIngredient)
    (w : Layers FormulaIngredient) :
  Permutation (layerNames (setLayer L (getLayer L w ++ [item]) w))
    (iname item :: layerNames w).
Proof.
  unfold layerNames; destruct L; cbn [setLayer getLayer top heart base];
    rewrite !map_app; cbn [map];
    set (T := map iname (top w)); set (H := map iname (heart w));
    set (B := map iname (base w)); apply Permutation_sym.
  - rewrite <- app_assoc; cbn [app]; apply Permutation_middle.
  - rewrite <- (app_assoc H); cbn [app].
    rewrite (app_assoc T H), (app_assoc T H); apply Permutation_middle.
  - rewrite !app_assoc; apply Permutation_cons_append.
Qed.

Lemma names_pushItem (k : string) (L : Layer) (item : FormulaIngredient)
    (f : Formula) :
  getFamily k f <> None ->
  Permutation (names (pushItem k L item f)) (iname item :: names f).
Proof.
  unfold getFamily; induction f as [|[k' w] f IH]; cbn [pushItem lookup];
    [congruence|].
  destruct (String.eqb_spec k k') as [->|Hne].
  - intros _; rewrite String.eqb_refl, !names_cons; cbn [snd].
    rewrite layerNames_push; reflexivity.
  - destruct (String.eqb_spec k' k) as [->|_]; [congruence|].
    intros H; rewrite !names_cons; cbn [snd]; rewrite (IH H).
    apply Permutation_sym, Permutation_middle.
Qed.

Lemma names_place (k : string) (L : Layer) (item : FormulaIngredient)
    (f : Formula) :
  Permutation (names (place k L item f)) (iname item :: names f).
Proof.
  unfold place; rewrite names_pushItem by apply ensureFamily_present.
  apply perm_skip; unfold ensureFamily.
  destruct (getFamily k f) eqn:E; [reflexivity|].
  now rewrite (names_setFamily_absent _ _ _ E).
Qed.

Lemma tidy_place (k : string) (L : Layer) (item : FormulaIngredient)
    (f : Formula) (e e' : Env) :
  tidy f e -> mem (iname item) (used e) = false ->
  used e' = used e ++ [iname item] ->
  tidy (place k L item f) e'.
Proof.
  intros (Nu & Nf & If) Hm U.
  assert (Hn : ~ In (iname item) (used e)).
  { intros H; apply mem_In in H; congruence. }
  split; [|split].
  - rewrite U; apply NoDup_app; auto; [repeat constructor; intros []|].
    intros x Hx [<-|[]]; contradiction.
  - apply (Permutation_NoDup (Permutation_sym (names_place k L item f))).
    constructor; [|exact Nf].
    intros H; apply Hn, If, H.
  - intros x Hx; apply (Permutation_in _ (names_place k L item f)) in Hx.
    rewrite U; apply in_or_app.
    destruct Hx as [<-|Hx]; [right; now left | left; now apply If].
Qed.

(** A run of floor picks, or of injections, whose records have names
    that are not used and differ from one another. *)
Lemma tidy_foldM_addFill (rq : Request) (picks : list RawIngredient) :
  forall f e,
    tidy f e -> NoDup (map name picks) ->
    (forall p, In p picks -> mem (name p) (used e) = false) ->
    tidy (fst (foldM (addFill rq) f picks e))
      (snd (foldM (addFill rq) f picks e)).
Proof.
  induction picks as [|p picks IH]; intros f e Ht Hd Hf; [exact Ht|].
  cbn [foldM map] in *; rewrite bind_run.
  inversion Hd as [|? ? Hp Hd']; subst.
  assert (Hu : used (snd (addFill rq f p e)) = used e ++ [name p]).
  { unfold addFill; rewrite !bind_run.
    destruct (fillTarget rq p); unfold ret, pushPicked; cbn [snd used].
    apply useName_fresh, Hf; now left. }
  apply IH; [|exact Hd'|].
  - unfold addFill at 1 2; rewrite !bind_run.
    unfold addFill in Hu; rewrite !bind_run in Hu.
    destruct (fillTarget rq p) as [t L]; unfold ret in *; cbn [fst snd] in *.
    apply (tidy_place t L (scaledEntry 0.4 p) f e); auto.
    apply Hf; now left.
  - intros q Hq; rewrite Hu.
    destruct (mem (name q) (used e ++ [name p])) eqn:E; [|reflexivity].
    apply mem_In, in_app_or in E as [E|[E|[]]].
    + apply mem_In in E; rewrite Hf in E; [discriminate | now right].
    + exfalso; apply Hp; rewrite E; now apply in_map.
Qed.

Lemma tidy_foldM_inject (rq : Request) (l : list RawIngredient) :
  forall acc e,
    tidy (fst acc) e -> NoDup (map name l) ->
    (forall p, In p l -> mem (name p) (used e) = false) ->
    tidy (fst (fst (foldM (inject rq) acc l e)))
      (snd (foldM (inject rq) acc l e)).
Proof.
  induction l as [|p l IH]; intros acc e Ht Hd Hf; [exact Ht|].
  cbn [foldM map] in *; rewrite bind_run.
  inversion Hd as [|? ? Hp Hd']; subst.
  assert (Hu : used (snd (inject rq acc p e)) = used e ++ [name p]).
  { unfold inject; rewrite !bind_run.
    unfold ret, pushPicked; cbn [snd used].
    apply useName_fresh, Hf; now left. }
  apply IH; [|exact Hd'|].
  - unfold inject at 1 2; rewrite !bind_run.
    unfold inject in Hu; rewrite !bind_run in Hu.
    unfold ret in *; cbn [fst snd] in *.
    apply (tidy_place (dominant rq) LBase (scaledEntry 0.4 p) (fst acc) e);
      auto.
    apply Hf; now left.
  - intros q Hq; rewrite Hu.
    destruct (mem (name q) (used e ++ [name p])) eqn:E; [|reflexivity].
    apply mem_In, in_app_or in E as [E|[E|[]]].
    + apply mem_In in E; rewrite Hf in E; [discriminate | now right].
    + exfalso; apply Hp; rewrite E; now apply in_map.
Qed.

Lemma filter_filter_impl {A} (p q : A -> bool) (l : list A) :
  (forall x, p x = true -> q x = true) ->
  filter p l = filter p (filter q l).
Proof.
  intros H; induction l as [|x l IH]; cbn [filter]; [reflexivity|].
  destruct (p x) eqn:E.
  - rewrite (H x E); cbn [filter]; now rewrite E, IH.
  - destruct (q x); cbn [filter]; now rewrite ?E, IH.
Qed.

(** The character records of the heart and base lists of the secondary
    and of the accent family: what the ingredient floor draws from. *)
Definition fillPool (s a : string) : list RawIngredient :=
  filter (fun i => Role_eqb (role i) Character)
    (dbLayer heart s ++ dbLayer heart a ++ dbLayer base s ++ dbLayer base a).

(** The floor does not run, or the records it draws from have names that
    differ from one another. *)
Definition fillNamesDiffer (o : Options) : bool :=
  negb (mem (o_dominant o) heavyFamilies)
  || distinctb (map name (fillPool (o_secondary o) (o_accent o))).

Lemma NoDup_fillSources (rq : Request) (u : list string) :
  NoDup (map name (fillPool (secondary rq) (accent rq))) ->
  NoDup (map name (fillSources rq u)).
Proof.
  intros H; unfold fillSources.
  rewrite (filter_filter_impl _ (fun i => Role_eqb (role i) Character)).
  - now apply NoDup_map_filter.
  - intros x Hx; now apply andb_prop in Hx as [_ Hx].
Qed.

(** For a heavy dominant family, the backbone records that the
    structural injection may take have names that differ. *)
Lemma NoDup_structuralCandidates (rq : Request) (u : list string) :
  mem (dominant rq) heavyFamilies = true ->
  NoDup (map name (structuralCandidates rq u)).
Proof.
  intros Hd; unfold structuralCandidates.
  set (pool := dbLayer base "clean" ++ dbLayer heart "woody"
               ++ dbLayer base "woody").
  assert (Hall :
    forallb
      (fun d =>
         distinctb
           (map name
              (filter (fun i => Role_eqb (role i) Backbone
                                && mem d (blendsWith i)) pool)))
      heavyFamilies = true) by (vm_compute; reflexivity).
  rewrite forallb_forall in Hall.
  apply mem_In in Hd; specialize (Hall _ Hd); apply distinctb_NoDup in Hall.
  match goal with
  | |- NoDup (map name (sortBy ?a ?l)) =>
      apply (Permutation_NoDup (l := map name l));
        [apply Permutation_map, Permutation_sym, sortBy_perm|]
  end.
  rewrite (filter_filter_impl _
             (fun i => Role_eqb (role i) Backbone
                       && mem (dominant rq) (blendsWith i))).
  - now apply NoDup_map_filter.
  - intros x Hx; apply andb_prop in Hx as [Hx H3].
    apply andb_prop in Hx as [H1 _]; now rewrite H1, H3.
Qed.

Lemma structuralCandidates_free (rq : Request) (u : list string)
    (p : RawIngredient) :
  In p (structuralCandidates rq u) -> mem (name p) u = false.
Proof.
  unfold structuralCandidates; intros H; apply sortBy_In in H.
  apply filter_In in H as [_ H]; apply andb_prop in H as [H _].
  apply andb_prop in H as [_ H]; now apply negb_true_iff.
Qed.

Lemma tidy_assemble (rq : Request) (ctx : ContextModifiers)
    (conc : option string) (e : Env) :
  used e = [] ->
  (mem (dominant rq) heavyFamilies = true ->
   NoDup (map name (fillPool (secondary rq) (accent rq)))) ->
  tidy (fst (fst (assemble rq ctx conc e))) (snd (assemble rq ctx conc e)).
Proof.
  intros Hu Hfill; unfold assemble; rewrite !bind_run.
  assert (H3 : tidy (fst (filled rq ctx e)) (snd (filled rq ctx e))).
  { unfold filled; rewrite !bind_run.
    assert (H1 : tidy (fst (fillDominant rq ctx [] e))
                   (snd (fillDominant rq ctx [] e))).
    { unfold fillDominant.
      destruct (INGREDIENT_DB (dominant rq)) as [dom|] eqn:Hdb.
      - rewrite bind_run; unfold ret; cbn [fst snd setFamily].
        destruct (family_names_differ _ _ Hdb) as (_ & Hh & Hb & _).
        destruct (dominantFill_fresh rq ctx dom e Hu Hh Hb) as (N & I & Nu).
        split; [exact Nu|]; rewrite names_cons; cbn [snd names allEntries
                                                      flat_map map].
        rewrite app_nil_r; split; [exact N | exact I].
      - unfold ret, tidy; cbn [fst snd]; rewrite Hu.
        split; [constructor|]; split; [constructor | intros x []]. }
    destruct (fillDominant rq ctx [] e) as [f1 e1]; cbn [fst snd] in *.
    assert (H2 : tidy (fst (fillSecondary rq f1 e1))
                   (snd (fillSecondary rq f1 e1))).
    { unfold fillSecondary.
      destruct (INGREDIENT_DB (secondary rq)) as [sec|] eqn:Hdb; [|exact H1].
      rewrite bind_run; unfold ret; cbn [fst snd].
      destruct (family_names_differ _ _ Hdb) as (Ht & Hh & Hb & _).
      apply (tidy_setFamily _ _ _ e1 _ _ H1
               (secondaryFill_adds rq sec e1 Ht Hh Hb)).
      reflexivity. }
    destruct (fillSecondary rq f1 e1) as [f2 e2]; cbn [fst snd] in *.
    unfold fillAccent.
    destruct (INGREDIENT_DB (accent rq)) as [acc|] eqn:Hdb; [|exact H2].
    rewrite bind_run; unfold ret; cbn [fst snd].
    destruct (family_names_differ _ _ Hdb) as (_ & _ & _ & Hhb).
    destruct (accentFill_adds rq acc e2 Hhb) as (news & Ha & Hp).
    apply (tidy_setFamily _ _ _ e2 _ news H2 Ha Hp). }
  destruct (filled rq ctx e) as [f3 e3]; cbn [fst snd] in *.
  assert (H4 : tidy (fst (ingredientFloor rq f3 e3))
                 (snd (ingredientFloor rq f3 e3))).
  { unfold ingredientFloor; rewrite bind_run.
    unfold floorPicks.
    destruct (mem (dominant rq) heavyFamilies && _) eqn:Ec;
      [|unfold ret; cbn [fst snd foldM]; exact H3].
    apply andb_prop in Ec as [Hheavy _].
    rewrite !bind_run; unfold getUsed, ret; cbn [fst snd].
    pose proof (scoreFills_fst rq (fillSources rq (used e3)) 0 e3) as Hs.
    pose proof (scoreFills_used rq (fillSources rq (used e3)) 0 e3) as Hus.
    destruct (scoreFills rq _ 0 e3) as [scored e4]; cbn [fst snd] in *.
    assert (Hperm : Permutation (map fst (sortBy byScoreDesc scored))
                      (fillSources rq (used e3))).
    { rewrite <- Hs; apply Permutation_map, sortBy_perm. }
    apply tidy_foldM_addFill.
    - destruct H3 as (A & B & C); split; [now rewrite Hus|].
      split; [exact B | now rewrite Hus].
    - rewrite map_map; apply NoDup_map_firstn.
      rewrite <- (map_map fst name).
      apply (Permutation_NoDup
               (l := map name (fillSources rq (used e3))));
        [apply Permutation_map, Permutation_sym, Hperm|].
      apply NoDup_fillSources, Hfill, Hheavy.
    - intros p Hp; rewrite Hus.
      apply in_map_fst_firstn in Hp.
      apply (Permutation_in _ Hperm) in Hp.
      now apply fillSources_spec in Hp as (_ & Hp & _). }
  destruct (ingredientFloor rq f3 e3) as [f4 e4]; cbn [fst snd] in *.
  unfold structuralInjection; rewrite bind_run.
  unfold getPicked; cbn [fst snd].
  destruct (mem (dominant rq) heavyFamilies && _ && _) eqn:Ec;
    [|unfold ret; cbn [fst snd]; exact H4].
  apply andb_prop in Ec as [Ec _]; apply andb_prop in Ec as [Hheavy _].
  rewrite bind_run; unfold getUsed; cbn [fst snd].
  apply tidy_foldM_inject; [exact H4 | |].
  - apply NoDup_map_firstn, NoDup_structuralCandidates, Hheavy.
  - intros p Hp; apply In_firstn in Hp.
    now apply structuralCandidates_free in Hp.
Qed.

Lemma names_shape (f : Formula) :
  names f
  = flat_map (fun kl => top (snd kl) ++ heart (snd kl) ++ base (snd kl))
      (shape f).
Proof.
  unfold names, allEntries, shape.
  induction f as [|[k w] f IH]; cbn [flat_map map fst snd]; [reflexivity|].
  rewrite map_app, IH; unfold shapeOf; cbn [top heart base].
  now rewrite !map_app.
Qed.

(** For a request whose family names no object inherits: no two entries
    of the returned formula have the same name, provided the dominant
    family is not a heavy one or the character records of the heart and
    base lists of the secondary and the accent family, the records that
    the ingredient floor draws from, have names that differ.  These
    names do not differ where one family with such records is asked for
    as the secondary and as the accent. *)
Theorem no_ingredient_is_listed_twice :
  forall (o : Options) (g : Global),
    plainRequest o ->
    fillNamesDiffer o = true ->
    NoDup (names (formula (fst (generateSmartFormula o g)))).
Proof.
  intros o g _ Hfill.
  unfold generateSmartFormula, generateLocalFormula; cbn [fst].
  fold (seedOf o).
  destruct (result_is_afterPassD o (seedOf o)) as [-> _].
  change (fst (afterPassD o (seedOf o)))
    with (fst (resolveConflicts (heroNameOf o (seedOf o))
                 (enteringResolution o (seedOf o)))).
  rewrite names_shape, shape_resolveConflicts, <- names_shape.
  destruct (requestOf_families o (seedOf o)) as (Ed & Es & Ea).
  pose proof (start_used o (seedOf o)) as Hu.
  unfold enteringResolution, assembled, requestOf in *.
  destruct (start o (seedOf o)) as [rq e]; cbn [fst snd] in *.
  apply (tidy_assemble rq (contextOf o) (o_concentration o) e Hu).
  intros Hheavy; unfold fillNamesDiffer in Hfill.
  rewrite <- Ed, <- Es, <- Ea, Hheavy in Hfill; cbn [negb orb] in Hfill.
  now apply distinctb_NoDup.
Qed.

Lemma no_ingredient_twice_example :
  let o := owsOptions "oriental" "woody" "spicy" "OWS-001" in
  NoDup (names (formula (fst (generateSmartFormula o None)))).
Proof.
  apply (no_ingredient_is_listed_twice
           (owsOptions "oriental" "woody" "spicy" "OWS-001") None);
    reflexivity.
Defined.

(** The floral family as the secondary and as the accent, under a heavy
    dominant family: the floor draws every character record of the
    floral lists twice, and Ylang Ylang Extra enters the formula twice. *)
Lemma repeated_family_is_listed_twice :
  let o := owsOptions "woody" "floral" "floral" "C" in
  fillNamesDiffer o = false
  /\ ~ NoDup (names (formula (fst (generateSmartFormula o None)))).
Proof.
  split; [vm_compute; reflexivity|].
  intros H.
  assert (E : distinctb
                (names (formula
                          (fst (generateSmartFormula
                                  (owsOptions "woody" "floral" "floral" "C")
                                  None))))
              = false) by (vm_compute; reflexivity).
  revert E H.
  generalize (names (formula
                       (fst (generateSmartFormula
                               (owsOptions "woody" "floral" "floral" "C")
                               None)))).
  intros l; induction l as [|x l IH]; cbn [distinctb]; [discriminate|].
  intros E H; inversion H as [|? ? Hx Hl]; subst.
  destruct (mem x l) eqn:Em; cbn [negb andb] in E.
  - apply Hx, mem_In, Em.
  - now apply IH.
Qed.

(** * The scent card (lib/scentCardService.ts)

    The text that a customer reads: a headline, a story, the journey of
    the scent and a wear guide, composed from the vocabulary of the
    three families. *)

(** ** Tables *)

Record FamilyVocab := vocab
  { adjective : string;
    texture : string;
    openingNote : string;
    heartNote : string;
    baseNote : string;
    season : list string;
    mood : string }.

Record ConcentrationWear := wear
  { longevityHours : string;
    wearTip : string;   (* applicationTip *)
    reapply : string }.

Definition FAMILY_VOCAB_entries : list (string * FamilyVocab) :=
  [ ("floral",
     vocab "floral" "silky"
       "a burst of fresh petals"
       "lush blooming florals"
       "soft musky warmth"
       ["spring"; "summer"]
       "romantic and graceful");
    ("woody",
     vocab "woody" "velvety"
       "crisp aromatic freshness"
       "rich textured woods"
       "deep creamy sandalwood"
       ["autumn"; "winter"]
       "confident and grounded");
    ("oriental",
     vocab "oriental" "opulent"
       "warm spiced brightness"
       "rich resinous depth"
       "lingering amber warmth"
       ["autumn"; "winter"]
       "mysterious and magnetic");
    ("fresh",
     vocab "fresh" "airy"
       "sparkling citrus and green notes"
       "clean transparent florals"
       "light musky skin scent"
       ["spring"; "summer"]
       "effortless and uplifting");
    ("citrus",
     vocab "citrus" "bright"
       "zesty citrus burst"
       "aromatic herbal crispness"
       "soft woody undertone"
       ["spring"; "summer"]
       "energizing and joyful");
    ("gourmand",
     vocab "gourmand" "enveloping"
       "sweet spiced warmth"
       "rich cocoa and tonka"
       "deep vanilla comfort"
       ["autumn"; "winter"]
       "indulgent and cozy");
    ("aromatic",
     vocab "aromatic" "herbal"
       "fresh lavender and herbs"
       "sage and aromatic greens"
       "earthy vetiver base"
       ["spring"; "autumn"]
       "refined and composed");
    ("smoky",
     vocab "smoky" "raw"
       "sharp pepper and spark"
       "smoldering wood and tar"
       "campfire embers fading"
       ["autumn"; "winter"]
       "bold and untamed");
    ("spicy",
     vocab "spicy" "radiant"
       "warm cardamom and pepper"
       "saffron-laced richness"
       "amber and resinous glow"
       ["autumn"; "winter"]
       "seductive and daring");
    ("powdery",
     vocab "powdery" "soft"
       "gentle aldehydic shimmer"
       "iris and heliotrope haze"
       "cashmere musk embrace"
       ["spring"; "year-round"]
       "elegant and nostalgic");
    ("green",
     vocab "green" "crisp"
       "crushed leaves and stems"
       "dewy fig and tea"
       "mossy earth finish"
       ["spring"; "summer"]
       "natural and invigorating");
    ("aquatic",
     vocab "aquatic" "cool"
       "ocean breeze and salt"
       "marine accord and ozone"
       "driftwood and ambergris"
       ["summer"]
       "free-spirited and clean");
    ("leather",
     vocab "leather" "structured"
       "sharp birch and juniper"
       "supple suede warmth"
       "dark castoreum and smoke"
       ["autumn"; "winter"]
       "powerful and distinguished");
    ("clean",
     vocab "clean" "transparent"
       "crisp aldehydic sparkle"
       "white floral clarity"
       "skin-close musk glow"
       ["year-round"]
       "pure and modern");
    ("incense",
     vocab "incense" "sacred"
       "bright resinous lift"
       "frankincense and myrrh smoke"
       "deep benzoin meditation"
       ["autumn"; "winter"]
       "spiritual and contemplative");
    ("niche",
     vocab "avant-garde" "complex"
       "unexpected green accord"
       "layered abstract textures"
       "ambergris and innovation"
       ["year-round"]
       "artistic and individual") ].

Definition CONCENTRATION_WEAR_entries : list (string * ConcentrationWear) :=
  [ ("Eau de Cologne",
     wear "2-3 hours"
       "Spray generously on pulse points and clothing. Ideal for refreshing throughout the day."
       "Reapply every 2-3 hours for continuous presence.");
    ("Eau de Toilette",
     wear "4-6 hours"
       "Apply to pulse points — wrists, neck, behind ears. A light spray on clothing extends the trail."
       "One midday refresh keeps the scent alive into evening.");
    ("Eau de Parfum",
     wear "6-10 hours"
       "Two sprays on pulse points is all you need. The warmth of your skin will do the rest."
       "Lasts from morning to evening without reapplication.");
    ("Parfum Extrait",
     wear "10-14+ hours"
       "Dab sparingly on inner wrists and behind ears. This concentration is potent — less is more."
       "A single application carries through a full day and into the night.") ].

Definition OCCASION_TEXT_entries : list (string * list string) :=
  [ ("Everyday signature", ["Daily wear"; "Office"; "Casual outings"]);
    ("Special occasion", ["Evening events"; "Date night"; "Celebrations"]);
    ("Date night", ["Intimate evenings"; "Dinner dates"; "Romantic occasions"]);
    ("Work / professional", ["Business meetings"; "Office"; "Networking events"]);
    ("Night out", ["Clubs"; "Parties"; "Late evenings"]);
    ("Outdoor / active", ["Weekends"; "Outdoor activities"; "Travel"]) ].

Definition INTENSITY_TIME_entries : list (string * string) :=
  [ ("Subtle aura", "Day — a quiet personal signature");
    ("Moderate", "Day to evening — versatile and balanced");
    ("Leave a trail", "Evening — designed to make an entrance") ].
(** [TABLE[key]]; a name that is no key of the table gives
    [undefined]. *)
Definition FAMILY_VOCAB (fam : string) : option FamilyVocab :=
  lookup fam FAMILY_VOCAB_entries.

Definition CONCENTRATION_WEAR (c : string) : option ConcentrationWear :=
  lookup c CONCENTRATION_WEAR_entries.

Definition OCCASION_TEXT (o : string) : option (list string) :=
  lookup o OCCASION_TEXT_entries.

Definition INTENSITY_TIME (i : string) : option string :=
  lookup i INTENSITY_TIME_entries.

(** [x ?? d] *)
Definition orElse {A} (x : option A) (d : A) : A :=
  match x with Some v => v | None => d end.

(** The entries that the defaults name are in the tables. *)
Definition vocabOf (fam fallback : string) : FamilyVocab :=
  orElse (FAMILY_VOCAB fam)
    (orElse (FAMILY_VOCAB fallback) (vocab "" "" "" "" "" [] "")).

(** ** The card *)

Record ScentJourney :=
  { opening : string;
    journeyHeart : string;   (* heart *)
    drydown : string }.

Record HowToWear :=
  { occasions : list string;
    seasons : list string;
    timeOfDay : string;
    applicationTip : string;
    longevityNote : string }.

Record ScentCard :=
  { headline : string;
    story : string;
    scentJourney : ScentJourney;
    howToWear : HowToWear;
    perfumerSignature : string }.

Record CardOptions :=
  { c_dominant : string;
    c_secondary : string;
    c_accent : string;
    c_concentration : option string;
    c_occasion : option string;
    c_intensity : option string;
    c_scentName : option string;
    c_formula : option FormulaResult }.

(** ** Helpers *)

(** [c.toUpperCase()] on a letter of the basic Latin alphabet; the
    words that the card capitalises are those of the vocabulary. *)
Definition toUpperChar (c : ascii) : ascii :=
  let n := nat_of_ascii c in
  if (Nat.leb 97 n && Nat.leb n 122)%bool then ascii_of_nat (n - 32) else c.

(** [s.charAt(0).toUpperCase() + s.slice(1)] *)
Definition capitalize (s : string) : string :=
  match s with
  | EmptyString => EmptyString
  | String c r => String (toUpperChar c) r
  end.

Definition isVowel (c : ascii) : bool :=
  mem (String (toLowerChar c) EmptyString) ["a"; "e"; "i"; "o"; "u"].

(** [/^[aeiou]/i.test(word) ? 'An' : 'A'] *)
Definition aAn (word : string) : string :=
  match word with
  | String c _ => if isVowel c then "An" else "A"
  | EmptyString => "A"
  end.

(** [[...new Set(xs)]]: the first occurrences, in order. *)
Definition dedupe (xs : list string) : list string :=
  fold_left (fun acc x => if mem x acc then acc else acc ++ [x]) xs [].

(** The text of a whole number, as a template literal prints it. *)
Definition showZ (z : Z) : string :=
  if z <? 0 then ("-" ++ showN (Z.to_N (- z)))%string else showN (Z.to_N z).

(** ** [generateScentCard] *)

Definition generateScentCard (opts : CardOptions) : ScentCard :=
  let dom := vocabOf (c_dominant opts) "woody" in
  let sec := vocabOf (c_secondary opts) "floral" in
  let acc := vocabOf (c_accent opts) "fresh" in
  let conc := orElse (c_concentration opts) "Eau de Parfum" in
  let concWear :=
    orElse (CONCENTRATION_WEAR conc)
      (orElse (CONCENTRATION_WEAR "Eau de Parfum") (wear "" "" "")) in
  let occasion := orElse (c_occasion opts) "Everyday signature" in
  let intensity := orElse (c_intensity opts) "Moderate" in
  let headlineAdj := capitalize (texture dom) in
  let headline :=
    (aAn headlineAdj ++ " " ++ headlineAdj ++ " " ++ capitalize (adjective dom)
     ++ " with " ++ capitalize (adjective sec) ++ " Depth")%string in
  let story :=
    ("This is " ++ aAn (mood dom) ++ " " ++ mood dom
    ++ " fragrance built on " ++ adjective dom
    ++ " foundations, enriched with " ++ adjective sec
    ++ " complexity and touched by " ++ adjective acc
    ++ " intrigue. Crafted as " ++ conc
    ++ ", it unfolds in waves — from " ++ aAn (texture dom) ++ " "
    ++ texture dom
    ++ " opening to a lasting signature that is unmistakably yours.")%string
  in
  let scentJourney :=
    {| opening :=
         (openingNote dom ++ ", brightened by " ++ adjective acc
          ++ " accents — the first impression that draws people in.")%string;
       journeyHeart :=
         ("The fragrance settles into " ++ heartNote dom ++ ", woven with "
          ++ heartNote sec
          ++ " — this is the true character of your scent.")%string;
       drydown :=
         ("Hours later, " ++ baseNote dom ++ " emerges, blending with "
          ++ baseNote sec ++ " for a lasting, intimate finish.")%string |} in
  let seasons := dedupe (season dom ++ season sec) in
  let occasions := orElse (OCCASION_TEXT occasion) ["Any occasion"] in
  let timeOfDay :=
    orElse (INTENSITY_TIME intensity)
      (orElse (INTENSITY_TIME "Moderate") "") in
  let howToWear :=
    {| occasions := occasions;
       seasons := seasons;
       timeOfDay := timeOfDay;
       applicationTip := wearTip concWear;
       longevityNote :=
         ("Expect " ++ longevityHours concWear ++ " of wear. "
          ++ reapply concWear)%string |} in
  let ingredientCount :=
    match c_formula opts with
    | Some f => ingredientCount f
    | None => 8
    end in
  let steepingLabel :=
    match c_formula opts with
    | Some f => label (steeping f)
    | None => "1-2 weeks"
    end in
  let perfumerSignature :=
    ("Composed from " ++ showZ ingredientCount
     ++ " carefully selected materials. Allow " ++ steepingLabel
     ++ " for full maturation. "
     ++ "Each bottle is individually batched and quality-checked.")%string in
  {| headline := headline;
     story := story;
     scentJourney := scentJourney;
     howToWear := howToWear;
     perfumerSignature := perfumerSignature |}.

(** ** Properties of the scent card *)

(** The tables of the card are object literals too: the card is read
    here for requests none of whose six names is a name that every
    object inherits. *)
Definition plainCard (opts : CardOptions) : Prop :=
  forallb ownName
    [ c_dominant opts; c_secondary opts; c_accent opts;
      orElse (c_concentration opts) "Eau de Parfum";
      orElse (c_occasion opts) "Everyday signature";
      orElse (c_intensity opts) "Moderate" ]
  = true.

(** [k] where the table has it, [d] otherwise. *)
Definition keyOr {A} (table : string -> option A) (k d : string) : string :=
  match table k with Some _ => k | None => d end.

(** The request with every name that the card would not find replaced
    by the name that the card reads instead. *)
Definition withDefaultFamilies (opts : CardOptions) : CardOptions :=
  {| c_dominant := keyOr FAMILY_VOCAB (c_dominant opts) "woody";
     c_secondary := keyOr FAMILY_VOCAB (c_secondary opts) "floral";
     c_accent := keyOr FAMILY_VOCAB (c_accent opts) "fresh";
     c_concentration := c_concentration opts;
     c_occasion := c_occasion opts;
     c_intensity := c_intensity opts;
     c_scentName := c_scentName opts;
     c_formula := c_formula opts |}.

Definition withDefaultWear (opts : CardOptions) : CardOptions :=
  {| c_dominant := keyOr FAMILY_VOCAB (c_dominant opts) "woody";
     c_secondary := keyOr FAMILY_VOCAB (c_secondary opts) "floral";
     c_accent := keyOr FAMILY_VOCAB (c_accent opts) "fresh";
     c_concentration :=
       Some (keyOr CONCENTRATION_WEAR
               (orElse (c_concentration opts) "Eau de Parfum")
               "Eau de Parfum");
     c_occasion := c_occasion opts;
     c_intensity :=
       Some (keyOr INTENSITY_TIME (orElse (c_intensity opts) "Moderate")
               "Moderate");
     c_scentName := c_scentName opts;
     c_formula := c_formula opts |}.

Lemma vocabOf_keyOr (k d : string) :
  FAMILY_VOCAB d <> None -> vocabOf (keyOr FAMILY_VOCAB k d) d = vocabOf k d.
Proof.
  unfold vocabOf, keyOr; intros Hd.
  destruct (FAMILY_VOCAB k) eqn:E; [now rewrite E|].
  destruct (FAMILY_VOCAB d); [reflexivity | congruence].
Qed.

Lemma wear_keyOr (k : string) :
  orElse (CONCENTRATION_WEAR (keyOr CONCENTRATION_WEAR k "Eau de Parfum"))
    (orElse (CONCENTRATION_WEAR "Eau de Parfum") (wear "" "" ""))
  = orElse (CONCENTRATION_WEAR k)
      (orElse (CONCENTRATION_WEAR "Eau de Parfum") (wear "" "" "")).
Proof.
  unfold keyOr; destruct (CONCENTRATION_WEAR k) eqn:E; [now rewrite E|].
  reflexivity.
Qed.

Lemma time_keyOr (k : string) :
  orElse (INTENSITY_TIME (keyOr INTENSITY_TIME k "Moderate"))
    (orElse (INTENSITY_TIME "Moderate") "")
  = orElse (INTENSITY_TIME k) (orElse (INTENSITY_TIME "Moderate") "").
Proof.
  unfold keyOr; destruct (INTENSITY_TIME k) eqn:E; [now rewrite E|].
  reflexivity.
Qed.

Lemma dedupe_step (xs acc : list string) :
  NoDup acc ->
  NoDup (fold_left (fun a x => if mem x a then a else a ++ [x]) xs acc)
  /\ forall s,
       In s (fold_left (fun a x => if mem x a then a else a ++ [x]) xs acc)
       <-> In s acc \/ In s xs.
Proof.
  revert acc; induction xs as [|x xs IH]; intros acc Hn; cbn [fold_left].
  - split; [exact Hn | intros s; cbn; tauto].
  - destruct (mem x acc) eqn:E.
    + destruct (IH acc Hn) as [H1 H2]; split; [exact H1|].
      intros s; rewrite H2; cbn [In]; split; [tauto|].
      intros [H | [<- | H]]; auto; left; now apply mem_In.
    + assert (Hn' : NoDup (acc ++ [x])).
      { apply NoDup_app; [exact Hn | repeat constructor; intros [] |].
        intros y Hy [<- | []].
        apply mem_In in Hy; congruence. }
      destruct (IH _ Hn') as [H1 H2]; split; [exact H1|].
      intros s; rewrite H2, in_app_iff; cbn [In]; tauto.
Qed.

Lemma dedupe_spec (xs : list string) :
  NoDup (dedupe xs) /\ forall s, In s (dedupe xs) <-> In s xs.
Proof.
  destruct (dedupe_step xs [] (NoDup_nil _)) as [H1 H2]; split; [exact H1|].
  intros s; unfold dedupe; rewrite H2; cbn [In]; tauto.
Qed.

(** Every entry of the vocabulary names a season. *)
Lemma vocab_has_season (k d : string) :
  FAMILY_VOCAB d <> None -> season (vocabOf k d) <> [].
Proof.
  unfold vocabOf; intros Hd.
  assert (Hall : forallb (fun kv => negb (isNil (season (snd kv))))
                   FAMILY_VOCAB_entries = true) by (vm_compute; reflexivity).
  rewrite forallb_forall in Hall.
  assert (Hk : forall x v, FAMILY_VOCAB x = Some v -> season v <> []).
  { intros x v Hx; apply lookup_In in Hx; apply Hall in Hx; cbn in Hx.
    now destruct (season v). }
  destruct (FAMILY_VOCAB k) eqn:E; cbn [orElse]; [now apply (Hk k)|].
  destruct (FAMILY_VOCAB d) eqn:E'; [now apply (Hk d) | congruence].
Qed.

(** For a request with plain names, a family that the vocabulary does
    not have is written about as woody (dominant), floral (secondary) or
    fresh (accent): the card is the card of the request with these names
    in its place.  The wear guide is, beyond that, the guide of Eau de
    Parfum for a concentration that the table does not have, and of
    Moderate for such an intensity; an occasion that the table does not
    have is answered with the one entry [Any occasion]. *)
Theorem card_reads_missing_names_as_defaults :
  forall opts : CardOptions,
    plainCard opts ->
    generateScentCard opts = generateScentCard (withDefaultFamilies opts)
    /\ howToWear (generateScentCard opts)
       = howToWear (generateScentCard (withDefaultWear opts))
    /\ (OCCASION_TEXT (orElse (c_occasion opts) "Everyday signature") = None ->
        occasions (howToWear (generateScentCard opts)) = ["Any occasion"]).
Proof.
  intros opts _.
  assert (Hw : FAMILY_VOCAB "woody" <> None) by (vm_compute; discriminate).
  assert (Hf : FAMILY_VOCAB "floral" <> None) by (vm_compute; discriminate).
  assert (Hr : FAMILY_VOCAB "fresh" <> None) by (vm_compute; discriminate).
  split; [|split].
  - unfold generateScentCard, withDefaultFamilies;
      cbn [c_dominant c_secondary c_accent c_concentration c_occasion
           c_intensity c_scentName c_formula].
    now rewrite !vocabOf_keyOr.
  - unfold generateScentCard, withDefaultWear;
      cbn [c_dominant c_secondary c_accent c_concentration c_occasion
           c_intensity c_scentName c_formula howToWear orElse].
    now rewrite !vocabOf_keyOr, wear_keyOr, time_keyOr.
  - intros Ho; unfold generateScentCard; cbn [howToWear occasions].
    now rewrite Ho.
Qed.

Definition cardOptions (d s a : string) (conc occ int : option string)
    : CardOptions :=
  {| c_dominant := d; c_secondary := s; c_accent := a;
     c_concentration := conc; c_occasion := occ; c_intensity := int;
     c_scentName := None; c_formula := None |}.

(** A request none of whose names is in a table. *)
Lemma card_defaults_example :
  let opts := cardOptions "marine" "mossy" "fruity" (Some "Body Mist")
                (Some "Picnic") (Some "Loud") in
  generateScentCard opts = generateScentCard (withDefaultFamilies opts)
  /\ howToWear (generateScentCard opts)
     = howToWear (generateScentCard (withDefaultWear opts))
  /\ (OCCASION_TEXT (orElse (c_occasion opts) "Everyday signature") = None ->
      occasions (howToWear (generateScentCard opts)) = ["Any occasion"]).
Proof.
  apply (card_reads_missing_names_as_defaults
           (cardOptions "marine" "mossy" "fruity" (Some "Body Mist")
              (Some "Picnic") (Some "Loud"))).
  reflexivity.
Defined.

(** For a request with plain names, the seasons of the wear guide are
    the seasons of the dominant and of the secondary family as the card
    reads them, each once, those of the dominant family first; there is
    at least one, and the accent family adds none. *)
Theorem card_seasons_are_those_of_both_families :
  forall opts : CardOptions,
    plainCard opts ->
    let dom := vocabOf (c_dominant opts) "woody" in
    let sec := vocabOf (c_secondary opts) "floral" in
    let ss := seasons (howToWear (generateScentCard opts)) in
    NoDup ss
    /\ (forall s, In s ss <-> In s (season dom) \/ In s (season sec))
    /\ firstn (List.length (dedupe (season dom))) ss = dedupe (season dom)
    /\ ss <> [].
Proof.
  intros opts _; cbv zeta.
  unfold generateScentCard; cbn [howToWear seasons].
  set (dom := vocabOf (c_dominant opts) "woody").
  set (sec := vocabOf (c_secondary opts) "floral").
  destruct (dedupe_spec (season dom ++ season sec)) as [H1 H2].
  split; [exact H1|]; split; [|split].
  - intros s; rewrite H2, in_app_iff; tauto.
  - unfold dedupe; rewrite fold_left_app.
    generalize (fold_left (fun acc x => if mem x acc then acc else acc ++ [x])
                  (season dom) []).
    intros l; generalize (season sec); clear.
    intros xs; revert l; induction xs as [|x xs IH]; intros l; cbn [fold_left].
    + now rewrite firstn_all.
    + destruct (mem x l); [apply IH|].
      specialize (IH (l ++ [x])).
      assert (E : firstn (List.length l)
                    (fold_left
                       (fun acc x => if mem x acc then acc else acc ++ [x])
                       xs (l ++ [x]))
                  = firstn (List.length l)
                      (firstn (List.length (l ++ [x]))
                         (fold_left
                            (fun acc x =>
                               if mem x acc then acc else acc ++ [x])
                            xs (l ++ [x])))).
      { rewrite firstn_firstn, length_app; cbn [List.length].
        f_equal; lia. }
      rewrite E, IH, firstn_app, firstn_all, Nat.sub_diag; cbn [firstn].
      now rewrite app_nil_r.
  - intros Hnil.
    assert (Hd : season dom <> []).
    { apply vocab_has_season; vm_compute; discriminate. }
    destruct (season dom) as [|s0 r] eqn:E; [congruence|].
    assert (Hin : In s0 (dedupe ((s0 :: r) ++ season sec))).
    { apply H2; left; reflexivity. }
    rewrite Hnil in Hin; destruct Hin.
Qed.

(** An oriental scent with an aromatic second family: autumn and winter,
    then spring. *)
Lemma card_seasons_example :
  let opts := cardOptions "oriental" "aromatic" "citrus" None None None in
  let dom := vocabOf (c_dominant opts) "woody" in
  let sec := vocabOf (c_secondary opts) "floral" in
  let ss := seasons (howToWear (generateScentCard opts)) in
  NoDup ss
  /\ (forall s, In s ss <-> In s (season dom) \/ In s (season sec))
  /\ firstn (List.length (dedupe (season dom))) ss = dedupe (season dom)
  /\ ss <> [].
Proof.
  apply (card_seasons_are_those_of_both_families
           (cardOptions "oriental" "aromatic" "citrus" None None None)).
  reflexivity.
Defined.

(** * Batch sheets (lib/batchService.ts)

    Turns the percentages of a formula into gram weights for one batch,
    with the notes that production reads. *)

Record BatchLine :=
  { l_name : string;       (* name *)
    l_family : string;     (* family *)
    l_layer : Layer;       (* layer *)
    percentLow : float;
    percentHigh : float;
    gramsLow : float;
    gramsHigh : float;
    l_supplier : string    (* supplier *) }.

Record OilRange := { low : float; high : float }.

(** [createdAt] is the text [new Date().toISOString()]; it is kept here
    as the instant that was read, in milliseconds: the text determines
    the instant and the instant the text. *)
Record BatchSheet :=
  { scentCode : string;
    concentration : string;
    batchSizeMl : float;
    alcoholGrams : float;
    totalOilPercent : OilRange;
    lines : list BatchLine;
    productionNotes : list string;
    mixingOrder : list string;
    qualityChecks : list string;
    version : Z;
    createdAt : Z }.

Record ConcentrationRatio := ratio
  { oilPercent : float;
    alcoholPercent : float;
    diluent : string }.

Definition CONCENTRATION_RATIO_entries : list (string * ConcentrationRatio) :=
  [ ("Eau de Cologne", ratio 5 90 "5% distilled water");
    ("Eau de Toilette", ratio 10 85 "5% distilled water");
    ("Eau de Parfum", ratio 18 78 "4% distilled water");
    ("Parfum Extrait", ratio 25 72 "3% distilled water") ].

Definition CONCENTRATION_RATIO (c : string) : option ConcentrationRatio :=
  lookup c CONCENTRATION_RATIO_entries.

(** [BATCH_SIZES] *)
Definition BATCH_SIZES_sample : float := 10.
Definition BATCH_SIZES_travel : float := 30.
Definition BATCH_SIZES_standard : float := 50.
Definition BATCH_SIZES_full : float := 100.
Definition BATCH_SIZES_workshop : float := 500.

(** [Math.round] as a number: the nearest whole number, halves towards
    plus infinity; NaN, the infinities and the zeros are returned as
    they are, and a negative number that rounds to zero gives [-0]. *)
Definition roundNum (x : float) : float :=
  match Js.decode x with
  | Some (_, e) =>
      if 0 <=? e then x
      else if ((Js.round x =? 0) && (x <? 0)%float)%bool then (- 0)%float
           else Js.ofZ (Js.round x)
  | None => x
  end.

(** [{ base: 0, heart: 1, top: 2 }[layer]] *)
Definition layerOrder (l : Layer) : Z :=
  match l with LBase => 0 | LHeart => 1 | LTop => 2 end.

(** The comparator of [lines.sort] is positive at [(a, b)]. *)
Definition mixedAfter (a b : BatchLine) : bool :=
  0 <? layerOrder (l_layer a) - layerOrder (l_layer b).

Record BatchOptions :=
  { b_formula : FormulaResult;
    b_scentCode : string;
    b_concentration : string;
    b_batchSizeMl : float;
    b_version : option Z }.

Section Batch.

(** [String(x)], the text of a number in a template literal.  The sheet
    writes such texts into its notes and never reads them. *)
Variable show : float -> string.

(** The lines that one layer of one family gives: an entry whose
    percent holds fewer than two numbers gives none. *)
Definition lineOf (oilTotalGrams : float) (family : string) (layer : Layer)
    (item : FormulaIngredient) : list BatchLine :=
  match numbersOf (ipercent item) with
  | pctLow :: pctHigh :: _ =>
      [ {| l_name := iname item;
           l_family := family;
           l_layer := layer;
           percentLow := pctLow;
           percentHigh := pctHigh;
           gramsLow :=
             (roundNum (pctLow / 100 * oilTotalGrams * 100) / 100)%float;
           gramsHigh :=
             (roundNum (pctHigh / 100 * oilTotalGrams * 100) / 100)%float;
           l_supplier := isupplier item |} ]
  | _ => []
  end.

(** The lines in the order in which they are pushed: family by family,
    top, heart, base. *)
Definition pushedLines (oilTotalGrams : float) (f : Formula)
    : list BatchLine :=
  flat_map
    (fun kv =>
       flat_map
         (fun layer =>
            flat_map (lineOf oilTotalGrams (fst kv) layer)
              (getLayer layer (snd kv)))
         [LTop; LHeart; LBase])
    f.

Definition tenth (x : float) : float := (roundNum (x * 10) / 10)%float.

Definition generateBatchSheet (opts : BatchOptions) (now : Z) : BatchSheet :=
  let result := b_formula opts in
  let scentCode := b_scentCode opts in
  let concentration := b_concentration opts in
  let batchSizeMl := b_batchSizeMl opts in
  let version := orElse (b_version opts) 1 in
  let concRatio :=
    orElse (CONCENTRATION_RATIO concentration)
      (orElse (CONCENTRATION_RATIO "Eau de Parfum") (ratio 0 0 "")) in
  let ALCOHOL_DENSITY := 0.79%float in
  let OIL_DENSITY := 0.95%float in
  let totalVolumeMl := batchSizeMl in
  let oilVolumeMl := (totalVolumeMl * (oilPercent concRatio / 100))%float in
  let alcoholVolumeMl :=
    (totalVolumeMl * (alcoholPercent concRatio / 100))%float in
  let alcoholGrams :=
    (roundNum (alcoholVolumeMl * ALCOHOL_DENSITY * 100) / 100)%float in
  let oilTotalGrams := (oilVolumeMl * OIL_DENSITY)%float in
  let pushed := pushedLines oilTotalGrams (formula result) in
  let totalPctLow :=
    fold_left (fun acc l => (acc + percentLow l)%float) pushed 0%float in
  let totalPctHigh :=
    fold_left (fun acc l => (acc + percentHigh l)%float) pushed 0%float in
  let lines := sortBy mixedAfter pushed in
  let productionNotes :=
    [ ("Batch size: " ++ show batchSizeMl ++ "ml " ++ concentration)%string;
      ("Oil concentration: " ++ show (oilPercent concRatio) ++ "% ("
       ++ show (tenth oilTotalGrams) ++ "g oil in "
       ++ show (roundNum alcoholGrams) ++ "g alcohol)")%string;
      ("Diluent: " ++ diluent concRatio)%string;
      ("Total formula oil range: " ++ show (tenth totalPctLow) ++ "–"
       ++ show (tenth totalPctHigh) ++ "%")%string ]
    ++ [ ("Steeping: " ++ label (steeping result) ++ " — "
          ++ notes (steeping result))%string ]
    ++ (if 0 <? len (ifraWarnings result)
        then [ ("⚠️ IFRA alerts: "
                ++ join "; " (ifraWarnings result))%string ]
        else [])
    ++ map (fun note => ("🧪 " ++ note)%string) (perfumerNotes result) in
  let mixingOrder :=
    [ "1. Weigh base notes into clean beaker — these are the foundation";
      "2. Add heart notes one at a time, swirling gently between additions";
      "3. Add top notes last — these are volatile and should not be over-mixed";
      "4. Let the concentrate rest for 24 hours before adding alcohol";
      ("5. Add " ++ show (roundNum alcoholGrams)
       ++ "g perfumer's alcohol (≥96% ethanol)")%string;
      "6. Shake vigorously for 60 seconds, then rest";
      ("7. Cold-filter if cloudy. Steep for " ++ label (steeping result)
       ++ " before evaluation")%string;
      "8. Adjust with alcohol if projection feels too heavy" ] in
  let qualityChecks :=
    [ "Visual clarity — should be transparent with no sediment";
      "Scent check at 48 hours — verify opening is balanced (not too sharp)";
      ("Scent check at " ++ showZ (minDays (steeping result))
       ++ " days — heart should be cohesive")%string;
      ("Final evaluation at " ++ showZ (maxDays (steeping result))
       ++ " days — base should be smooth")%string;
      "Skin test — 2 sprays on inner wrist, evaluate at 15min, 1hr, 4hr marks";
      "Sillage check — ask someone to stand 1 meter away and confirm projection"
    ] in
  {| scentCode := scentCode;
     concentration := concentration;
     batchSizeMl := batchSizeMl;
     alcoholGrams := alcoholGrams;
     totalOilPercent :=
       {| low := tenth totalPctLow; high := tenth totalPctHigh |};
     lines := lines;
     productionNotes := productionNotes;
     mixingOrder := mixingOrder;
     qualityChecks := qualityChecks;
     version := version;
     createdAt := now |}.

(** [scaleBatch] *)
Definition scaleBatch (sheet : BatchSheet) (newSizeMl : float) : BatchSheet :=
  let ratio := (newSizeMl / batchSizeMl sheet)%float in
  {| scentCode := scentCode sheet;
     concentration := concentration sheet;
     batchSizeMl := newSizeMl;
     alcoholGrams :=
       (roundNum (alcoholGrams sheet * ratio * 100) / 100)%float;
     totalOilPercent := totalOilPercent sheet;
     lines :=
       map (fun line =>
              {| l_name := l_name line;
                 l_family := l_family line;
                 l_layer := l_layer line;
                 percentLow := percentLow line;
                 percentHigh := percentHigh line;
                 gramsLow :=
                   (roundNum (gramsLow line * ratio * 100) / 100)%float;
                 gramsHigh :=
                   (roundNum (gramsHigh line * ratio * 100) / 100)%float;
                 l_supplier := l_supplier line |})
         (lines sheet);
     productionNotes :=
       map (fun note =>
              if isPrefix "Batch size:" note
              then ("Batch size: " ++ show newSizeMl ++ "ml "
                    ++ concentration sheet ++ " (scaled from "
                    ++ show (batchSizeMl sheet) ++ "ml)")%string
              else note)
         (productionNotes sheet);
     mixingOrder := mixingOrder sheet;
     qualityChecks := qualityChecks sheet;
     version := version sheet;
     createdAt := createdAt sheet |}.

End Batch.

(** ** Properties of the batch sheet *)

(** [CONCENTRATION_RATIO] is an object literal: the sheet is read here
    for a concentration that is no name that every object inherits. *)
Definition plainBatch (opts : BatchOptions) : Prop :=
  ownName (b_concentration opts) = true.

(** The entry gets a line: its percent holds two numbers at least. *)
Definition hasRange (item : FormulaIngredient) : bool :=
  2 <=? len (numbersOf (ipercent item)).

(** Family, layer and name of the entries of layer [L] that get a line,
    in the order of the formula. *)
Definition listed (L : Layer) (f : Formula) : list (string * Layer * string) :=
  flat_map
    (fun kv =>
       flat_map
         (fun item => if hasRange item then [(fst kv, L, iname item)] else [])
         (getLayer L (snd kv)))
    f.

Definition lineKey (l : BatchLine) : string * Layer * string :=
  (l_family l, l_layer l, l_name l).

Definition onLayer (L : Layer) (l : BatchLine) : bool :=
  layerOrder (l_layer l) =? layerOrder L.

Lemma insertSorted_skip {A} (after : A -> A -> bool) (x : A) (l1 l2 : list A) :
  Forall (fun y => after x y = true) l1 ->
  insertSorted after x (l1 ++ l2) = l1 ++ insertSorted after x l2.
Proof.
  induction 1 as [|y l1 Hy _ IH]; cbn [app insertSorted]; [reflexivity|].
  now rewrite Hy, IH.
Qed.

Lemma insertSorted_front {A} (after : A -> A -> bool) (x : A) (l : list A) :
  Forall (fun y => after x y = false) l -> insertSorted after x l = x :: l.
Proof.
  destruct 1 as [|y l Hy _]; cbn [insertSorted]; [reflexivity|].
  now rewrite Hy.
Qed.

Lemma Forall_filter_onLayer (P : BatchLine -> Prop) (L : Layer)
    (l : list BatchLine) :
  (forall y, l_layer y = L -> P y) -> Forall P (filter (onLayer L) l).
Proof.
  intros H; apply Forall_forall; intros y Hy.
  apply filter_In in Hy as [_ Hy]; apply H.
  unfold onLayer in Hy; destruct (l_layer y), L; cbn in Hy;
    first [reflexivity | discriminate].
Qed.

(** The stable sort by layer gathers the base lines, then the heart
    lines, then the top lines, each group in the order it had. *)
Lemma sortBy_mixedAfter (l : list BatchLine) :
  sortBy mixedAfter l
  = filter (onLayer LBase) l ++ filter (onLayer LHeart) l
    ++ filter (onLayer LTop) l.
Proof.
  induction l as [|x l IH]; [reflexivity|].
  cbn [sortBy fold_right]; fold (sortBy mixedAfter l); rewrite IH.
  assert (Hx : forall L, onLayer L x = (layerOrder (l_layer x) =? layerOrder L))
    by reflexivity.
  assert (Hf : forall L b,
             (0 <? layerOrder (l_layer x) - layerOrder L) = b ->
             Forall (fun y => mixedAfter x y = b) (filter (onLayer L) l)).
  { intros L b Hb; apply Forall_filter_onLayer.
    intros y Hy; unfold mixedAfter; now rewrite Hy. }
  cbn [filter]; rewrite !Hx.
  destruct (l_layer x) eqn:E; cbn [layerOrder Z.eqb app].
  - rewrite insertSorted_skip, insertSorted_skip, insertSorted_front;
      [reflexivity | | |]; apply Hf; reflexivity.
  - rewrite insertSorted_skip, insertSorted_front; [reflexivity | |];
      [apply Forall_app; split|]; apply Hf; reflexivity.
  - rewrite insertSorted_front; [reflexivity|].
    repeat (apply Forall_app; split); apply Hf; reflexivity.
Qed.

Lemma lineOf_keys (oil : float) (fam : string) (layer : Layer)
    (item : FormulaIngredient) :
  map lineKey (lineOf oil fam layer item)
  = if hasRange item then [(fam, layer, iname item)] else [].
Proof.
  unfold lineOf, hasRange.
  destruct (numbersOf (ipercent item)) as [|a [|b r]]; try reflexivity.
  assert (E : (2 <=? len (a :: b :: r)) = true).
  { apply Z.leb_le; unfold len; cbn [List.length]; lia. }
  now rewrite E.
Qed.

Lemma lineOf_layer (oil : float) (fam : string) (layer : Layer)
    (item : FormulaIngredient) :
  Forall (fun l => l_layer l = layer) (lineOf oil fam layer item).
Proof.
  unfold lineOf.
  destruct (numbersOf (ipercent item)) as [|a [|b r]]; repeat constructor.
Qed.

Lemma filter_layerLines (oil : float) (fam : string) (layer L : Layer)
    (items : list FormulaIngredient) :
  filter (onLayer L) (flat_map (lineOf oil fam layer) items)
  = if layerOrder layer =? layerOrder L
    then flat_map (lineOf oil fam layer) items else [].
Proof.
  assert (H : Forall (fun l => l_layer l = layer)
                (flat_map (lineOf oil fam layer) items)).
  { apply Forall_flat_map, Forall_forall; intros item _; apply lineOf_layer. }
  destruct (layerOrder layer =? layerOrder L) eqn:E.
  - apply filter_all; eapply Forall_impl; [|exact H].
    intros l Hl; unfold onLayer; now rewrite Hl.
  - apply filter_none; eapply Forall_impl; [|exact H].
    intros l Hl; unfold onLayer; now rewrite Hl.
Qed.

Lemma keys_layerLines (oil : float) (fam : string) (layer : Layer)
    (items : list FormulaIngredient) :
  map lineKey (flat_map (lineOf oil fam layer) items)
  = flat_map
      (fun item => if hasRange item then [(fam, layer, iname item)] else [])
      items.
Proof.
  induction items as [|item items IH]; cbn [flat_map]; [reflexivity|].
  now rewrite map_app, lineOf_keys, IH.
Qed.

Lemma pushedLines_cons (oil : float) (kv : string * Layers FormulaIngredient)
    (f : Formula) :
  pushedLines oil (kv :: f)
  = (flat_map (lineOf oil (fst kv) LTop) (top (snd kv))
     ++ flat_map (lineOf oil (fst kv) LHeart) (heart (snd kv))
     ++ flat_map (lineOf oil (fst kv) LBase) (base (snd kv)))
    ++ pushedLines oil f.
Proof.
  unfold pushedLines; cbn [flat_map getLayer]; now rewrite app_nil_r.
Qed.

Lemma pushedLines_listed (oil : float) (L : Layer) (f : Formula) :
  map lineKey (filter (onLayer L) (pushedLines oil f)) = listed L f.
Proof.
  induction f as [|[fam ls] f IH]; [reflexivity|].
  rewrite pushedLines_cons, !filter_app, !map_app, IH, !filter_layerLines.
  unfold listed at 2; cbn [flat_map fst snd]; fold (listed L f).
  destruct L; cbn [layerOrder Z.eqb Pos.eqb app map getLayer];
    now rewrite ?app_nil_r, keys_layerLines.
Qed.

(** The lines of a sheet are in mixing order: first the base entries of
    every family, then the heart entries, then the top entries; within a
    layer they follow the order of the formula, family by family.  An
    entry has a line if and only if its percent holds two numbers. *)
Theorem batch_lines_are_in_mixing_order :
  forall (show : float -> string) (opts : BatchOptions) (now : Z),
    plainBatch opts ->
    map lineKey (lines (generateBatchSheet show opts now))
    = listed LBase (formula (b_formula opts))
      ++ listed LHeart (formula (b_formula opts))
      ++ listed LTop (formula (b_formula opts)).
Proof.
  intros show opts now _.
  unfold generateBatchSheet; cbn [lines].
  now rewrite sortBy_mixedAfter, !map_app, !pushedLines_listed.
Qed.

Definition batchOptions (r : FormulaResult) (code conc : string)
    (size : float) : BatchOptions :=
  {| b_formula := r; b_scentCode := code; b_concentration := conc;
     b_batchSizeMl := size; b_version := None |}.

(** The text of a whole number; the examples print with it. *)
Definition showWhole (x : float) : string := showZ (Js.floor x).

(** The sheet of the formula that the engine gives for green / aromatic
    / citrus. *)
Lemma batch_lines_example :
  let opts :=
    batchOptions
      (fst (generateSmartFormula
              (owsOptions "green" "aromatic" "citrus" "GAC-001") None))
      "GAC-001" "Eau de Toilette" 50 in
  map lineKey (lines (generateBatchSheet showWhole opts 0))
  = listed LBase (formula (b_formula opts))
    ++ listed LHeart (formula (b_formula opts))
    ++ listed LTop (formula (b_formula opts)).
Proof.
  apply (batch_lines_are_in_mixing_order showWhole
           (batchOptions
              (fst (generateSmartFormula
                      (owsOptions "green" "aromatic" "citrus" "GAC-001") None))
              "GAC-001" "Eau de Toilette" 50) 0).
  reflexivity.
Defined.

Lemma wellFormed_hasRange (item : FormulaIngredient) :
  wellFormed (ipercent item) = true -> hasRange item = true.
Proof.
  unfold wellFormed, hasRange.
  destruct (numbersOf (ipercent item)) as [|a [|b [|c r]]];
    try discriminate; reflexivity.
Qed.

Lemma len_layerKeys (fam : string) (L : Layer)
    (items : list FormulaIngredient) :
  Forall (fun item => wellFormed (ipercent item) = true) items ->
  len (flat_map
         (fun item => if hasRange item then [(fam, L, iname item)] else [])
         items)
  = len items.
Proof.
  induction 1 as [|item items Hi _ IH]; cbn [flat_map]; [reflexivity|].
  rewrite (wellFormed_hasRange _ Hi); cbn [app]; rewrite !len_cons, IH.
  reflexivity.
Qed.

Lemma listed_cons (L : Layer) (kv : string * Layers FormulaIngredient)
    (f : Formula) :
  listed L (kv :: f)
  = flat_map
      (fun item => if hasRange item then [(fst kv, L, iname item)] else [])
      (getLayer L (snd kv))
    ++ listed L f.
Proof. reflexivity. Qed.

Lemma len_listed (f : Formula) :
  Forall (fun item => wellFormed (ipercent item) = true) (allEntries f) ->
  len (listed LBase f) + len (listed LHeart f) + len (listed LTop f)
  = totalIngredientsCount f.
Proof.
  unfold allEntries.
  induction f as [|[fam ls] f IH]; cbn [flat_map snd]; intros H;
    [reflexivity|].
  apply Forall_app in H as [H1 H]; apply Forall_app in H1 as [Ht H1].
  apply Forall_app in H1 as [Hh Hb].
  rewrite !listed_cons, !len_app, !len_layerKeys, total_cons by assumption.
  unfold layerCount; cbn [snd getLayer]; specialize (IH H); lia.
Qed.

Definition ordered2 (l : BatchLine) : Prop :=
  (percentLow l <=? percentHigh l)%float = true.

Lemma lineOf_ordered (oil : float) (fam : string) (L : Layer)
    (items : list FormulaIngredient) :
  Forall (fun item => wellFormed (ipercent item) = true) items ->
  Forall ordered2 (flat_map (lineOf oil fam L) items).
Proof.
  induction 1 as [|item items Hi _ IH]; cbn [flat_map]; [constructor|].
  apply Forall_app; split; [|exact IH].
  unfold lineOf, wellFormed in *.
  destruct (numbersOf (ipercent item)) as [|a [|b [|c r]]];
    try discriminate; repeat constructor; exact Hi.
Qed.

Lemma pushedLines_ordered (oil : float) (f : Formula) :
  Forall (fun item => wellFormed (ipercent item) = true) (allEntries f) ->
  Forall ordered2 (pushedLines oil f).
Proof.
  unfold allEntries.
  induction f as [|[fam ls] f IH]; cbn [flat_map snd]; intros H;
    [constructor|].
  apply Forall_app in H as [H1 H]; apply Forall_app in H1 as [Ht H1].
  apply Forall_app in H1 as [Hh Hb].
  rewrite pushedLines_cons; cbn [fst snd].
  repeat (apply Forall_app; split); auto using lineOf_ordered.
Qed.

(** The sheet of a formula that the engine returned (for a request and
    a concentration with plain names) has one line for every entry of
    the formula, none is skipped, and on every line the low percent is
    not above the high percent. *)
Theorem engine_formula_gets_a_line_per_entry :
  forall (show : float -> string) (o : Options) (g : Global)
         (opts : BatchOptions) (now : Z),
    plainRequest o -> plainBatch opts ->
    b_formula opts = fst (generateSmartFormula o g) ->
    len (lines (generateBatchSheet show opts now))
    = totalIngredientsCount (formula (fst (generateSmartFormula o g)))
    /\ Forall (fun l => (percentLow l <=? percentHigh l)%float = true)
         (lines (generateBatchSheet show opts now)).
Proof.
  intros show o g opts now _ _ Hf.
  pose proof (result_wellFormed o g) as Hw; rewrite <- Hf in *.
  split.
  - rewrite <- (len_map lineKey).
    unfold generateBatchSheet; cbn [lines].
    rewrite sortBy_mixedAfter, !map_app, !pushedLines_listed, !len_app.
    rewrite <- (len_listed _ Hw); lia.
  - unfold generateBatchSheet; cbn [lines].
    eapply Permutation_Forall;
      [apply Permutation_sym, sortBy_perm|].
    now apply pushedLines_ordered.
Qed.

Lemma engine_sheet_example :
  let o := owsOptions "oriental" "leather" "incense" "OLI-3" in
  let opts :=
    batchOptions (fst (generateSmartFormula o None)) "OLI-3"
      "Parfum Extrait" 100 in
  len (lines (generateBatchSheet showWhole opts 0))
  = totalIngredientsCount (formula (fst (generateSmartFormula o None)))
  /\ Forall (fun l => (percentLow l <=? percentHigh l)%float = true)
       (lines (generateBatchSheet showWhole opts 0)).
Proof.
  apply (engine_formula_gets_a_line_per_entry showWhole
           (owsOptions "oriental" "leather" "incense" "OLI-3") None
           (batchOptions
              (fst (generateSmartFormula
                      (owsOptions "oriental" "leather" "incense" "OLI-3")
                      None))
              "OLI-3" "Parfum Extrait" 100) 0);
    reflexivity.
Defined.

(** What of a line [scaleBatch] passes on. *)
Definition lineFacts (l : BatchLine)
    : string * string * Layer * float * float * string :=
  (l_name l, l_family l, l_layer l, percentLow l, percentHigh l, l_supplier l).

(** Scaling a sheet that [generateBatchSheet] made keeps the lines,
    their order and everything on them but the gram weights, and it
    rewrites one note, the first.  All the other notes, the mixing
    order and the quality checks are those of the sheet: the weights of
    oil and alcohol that the second note and step 5 of the mixing order
    spell out stay those of the size the sheet was made for. *)
Theorem scaling_rewrites_the_first_note_only :
  forall (show : float -> string) (opts : BatchOptions) (now : Z)
         (newSizeMl : float),
    plainBatch opts ->
    let sheet := generateBatchSheet show opts now in
    let scaled := scaleBatch show sheet newSizeMl in
    map lineFacts (lines scaled) = map lineFacts (lines sheet)
    /\ productionNotes scaled
       = ("Batch size: " ++ show newSizeMl ++ "ml " ++ b_concentration opts
          ++ " (scaled from " ++ show (b_batchSizeMl opts) ++ "ml)")%string
         :: tl (productionNotes sheet)
    /\ mixingOrder scaled = mixingOrder sheet
    /\ qualityChecks scaled = qualityChecks sheet
    /\ totalOilPercent scaled = totalOilPercent sheet
    /\ (version scaled, createdAt scaled) = (version sheet, createdAt sheet).
Proof.
  intros show opts now newSizeMl _; cbv zeta.
  split; [|split; [|repeat split]].
  - unfold scaleBatch; cbn [lines]; rewrite map_map; reflexivity.
  - unfold scaleBatch; cbn [productionNotes].
    unfold generateBatchSheet;
      cbn [productionNotes concentration batchSizeMl map app tl].
    cbn [isPrefix append Ascii.eqb Bool.eqb andb].
    f_equal; f_equal; f_equal; f_equal; f_equal.
    rewrite map_app; f_equal.
    + destruct (0 <? len _); reflexivity.
    + rewrite map_map; apply map_ext; intros note; reflexivity.
Qed.

Lemma scaling_example :
  let opts :=
    batchOptions
      (fst (generateSmartFormula
              (owsOptions "green" "aromatic" "citrus" "GAC-001") None))
      "GAC-001" "Eau de Toilette" 50 in
  let sheet := generateBatchSheet showWhole opts 0 in
  let scaled := scaleBatch showWhole sheet 500 in
  map lineFacts (lines scaled) = map lineFacts (lines sheet)
  /\ productionNotes scaled
     = ("Batch size: " ++ showWhole 500 ++ "ml " ++ b_concentration opts
        ++ " (scaled from " ++ showWhole (b_batchSizeMl opts) ++ "ml)")%string
       :: tl (productionNotes sheet)
  /\ mixingOrder scaled = mixingOrder sheet
  /\ qualityChecks scaled = qualityChecks sheet
  /\ totalOilPercent scaled = totalOilPercent sheet
  /\ (version scaled, createdAt scaled) = (version sheet, createdAt sheet).
Proof.
  apply (scaling_rewrites_the_first_note_only showWhole
           (batchOptions
              (fst (generateSmartFormula
                      (owsOptions "green" "aromatic" "citrus" "GAC-001") None))
              "GAC-001" "Eau de Toilette" 50) 0 500).
  reflexivity.
Defined.

Definition withConcentration (opts : BatchOptions) (c : string)
    : BatchOptions :=
  {| b_formula := b_formula opts; b_scentCode := b_scentCode opts;
     b_concentration := c; b_batchSizeMl := b_batchSizeMl opts;
     b_version := b_version opts |}.

(** A concentration that the table of ratios does not have (and that no
    object inherits) is weighed as Eau de Parfum: alcohol, lines, totals
    and every note but the first are those of the Eau de Parfum sheet,
    while the sheet and its first note still carry the name that was
    given. *)
Theorem unknown_concentration_is_weighed_as_eau_de_parfum :
  forall (show : float -> string) (opts : BatchOptions) (now : Z),
    plainBatch opts ->
    CONCENTRATION_RATIO (b_concentration opts) = None ->
    let sheet := generateBatchSheet show opts now in
    let edp :=
      generateBatchSheet show (withConcentration opts "Eau de Parfum") now in
    alcoholGrams sheet = alcoholGrams edp
    /\ lines sheet = lines edp
    /\ totalOilPercent sheet = totalOilPercent edp
    /\ tl (productionNotes sheet) = tl (productionNotes edp)
    /\ mixingOrder sheet = mixingOrder edp
    /\ concentration sheet = b_concentration opts
    /\ hd "" (productionNotes sheet)
       = ("Batch size: " ++ show (b_batchSizeMl opts) ++ "ml "
          ++ b_concentration opts)%string.
Proof.
  intros show opts now _ Hc; cbv zeta.
  unfold generateBatchSheet, withConcentration;
    cbn [b_formula b_scentCode b_concentration b_batchSizeMl b_version
         alcoholGrams lines totalOilPercent productionNotes mixingOrder
         concentration app tl hd].
  rewrite Hc; repeat split.
Qed.

Lemma unknown_concentration_example :
  let opts :=
    batchOptions
      (fst (generateSmartFormula
              (owsOptions "green" "aromatic" "citrus" "GAC-001") None))
      "GAC-001" "Body Mist" 30 in
  let sheet := generateBatchSheet showWhole opts 0 in
  let edp :=
    generateBatchSheet showWhole (withConcentration opts "Eau de Parfum") 0 in
  alcoholGrams sheet = alcoholGrams edp
  /\ lines sheet = lines edp
  /\ totalOilPercent sheet = totalOilPercent edp
  /\ tl (productionNotes sheet) = tl (productionNotes edp)
  /\ mixingOrder sheet = mixingOrder edp
  /\ concentration sheet = b_concentration opts
  /\ hd "" (productionNotes sheet)
     = ("Batch size: " ++ showWhole (b_batchSizeMl opts) ++ "ml "
        ++ b_concentration opts)%string.
Proof.
  apply (unknown_concentration_is_weighed_as_eau_de_parfum showWhole
           (batchOptions
              (fst (generateSmartFormula
                      (owsOptions "green" "aromatic" "citrus" "GAC-001") None))
              "GAC-001" "Body Mist" 30) 0);
    reflexivity.
Defined.

(** * Numbers that a caller passes

    The numbers that the store computes are whole.  A number that a
    caller passes is any double: a fraction, an infinity, [NaN] or a
    signed zero can stand where a version number or a bound of a page
    is expected. *)

(** [if (x)] on a number: [NaN], [0] and [-0] are the numbers that
    count as false. *)
Definition truthy (x : float) : bool :=
  match Prim2SF x with
  | S754_nan | S754_zero _ => false
  | _ => true
  end.

(** [n === x] for a whole number [n] that the program holds as the
    double [Number(n)]. *)
Definition sameNumber (n : Z) (x : float) : bool := (Js.ofZ n =? x)%float.

(** [ToIntegerOrInfinity(x)], the reading that [slice] makes of a bound:
    [NaN] is 0 and a fraction is cut towards zero. *)
Inductive Index := NegInf | Fin (z : Z) | PosInf.

Definition toIntegerOrInfinity (x : float) : Index :=
  match Prim2SF x with
  | S754_nan | S754_zero _ => Fin 0
  | S754_infinity s => if s then NegInf else PosInf
  | S754_finite s m e =>
      let v := if s then Z.neg m else Z.pos m in
      Fin (if 0 <=? e then v * 2 ^ e else Z.quot v (2 ^ (- e)))
  end.

(** The whole number that a double holds, if it holds one. *)
Definition wholeOf (x : float) : option Z :=
  match Js.decode x with
  | Some (v, e) =>
      if 0 <=? e then Some (v * 2 ^ e)
      else if v mod 2 ^ (- e) =? 0 then Some (v / 2 ^ (- e)) else None
  | None => None
  end.

(** ** The double of a whole number *)

Lemma digits2_pos_log2 (p : positive) :
  Z.pos (digits2_pos p) = Z.log2 (Z.pos p) + 1.
Proof.
  assert (H : forall q, digits2_pos q = Pos.size q)
    by (induction q as [q IH|q IH|]; cbn; congruence).
  rewrite H; destruct p; cbn [Z.log2 Pos.size]; lia.
Qed.

Lemma iter_pos_iter {A} (f : A -> A) (p : positive) :
  forall x, iter_pos f p x = Pos.iter f x p.
Proof.
  induction p as [p IH|p IH|]; intros x; cbn [iter_pos Pos.iter];
    rewrite ?IH, ?Pos.iter_swap; reflexivity.
Qed.

Lemma pos_iter_xO (m k : positive) :
  Z.pos (Pos.iter xO m k) = Z.pos m * 2 ^ Z.pos k.
Proof.
  change (Pos.iter xO m k) with (shift_pos k m).
  rewrite shift_pos_correct; change (Z.pow_pos 2 k) with (2 ^ Z.pos k); lia.
Qed.

(** Shifting out zeros loses nothing. *)
Lemma shr_zeros (k m : positive) :
  iter_pos shr_1 k
    {| shr_m := Z.pos (Pos.iter xO m k); shr_r := false; shr_s := false |}
  = {| shr_m := Z.pos m; shr_r := false; shr_s := false |}.
Proof.
  rewrite iter_pos_iter; revert m.
  induction k as [|k IH] using Pos.peano_ind; intros m; [reflexivity|].
  rewrite Pos.iter_succ_r, (Pos.iter_succ k _ xO m); cbn [shr_1 orb].
  apply IH.
Qed.

Lemma fexp_normal (e : Z) :
  -1021 <= e -> fexp prec emax e = e - 53.
Proof. unfold fexp, emin, prec, emax; lia. Qed.

(** A mantissa of 53 digits with an exponent in range is kept as it
    is. *)
Lemma round_canonical (m : positive) (e : Z) :
  Z.log2 (Z.pos m) = 52 -> -1074 <= e <= 971 ->
  binary_round_aux prec emax false (Z.pos m) e loc_Exact
  = S754_finite false m e.
Proof.
  intros Hm He; unfold binary_round_aux, shr_fexp.
  cbn [Zdigits2 shr_record_of_loc]; rewrite digits2_pos_log2, Hm.
  rewrite fexp_normal by lia.
  replace (52 + 1 + e - 53 - e) with 0 by lia; cbn [shr shr_m].
  cbn [loc_of_shr_record round_nearest_even Zdigits2 shr_record_of_loc].
  rewrite digits2_pos_log2, Hm, fexp_normal by lia.
  replace (52 + 1 + e - 53 - e) with 0 by lia; cbn [shr shr_m].
  unfold emax, prec; destruct (Z.leb_spec e (1024 - 53)); [reflexivity | lia].
Qed.

(** A longer mantissa whose low digits are zero is cut to 53 digits. *)
Lemma round_shifted (m q : positive) (e : Z) :
  Z.log2 (Z.pos m) = 52 -> -1074 <= e + Z.pos q <= 971 ->
  binary_round_aux prec emax false (Z.pos (Pos.iter xO m q)) e loc_Exact
  = S754_finite false m (e + Z.pos q).
Proof.
  intros Hm He; unfold binary_round_aux, shr_fexp.
  assert (Hd : Z.pos (digits2_pos (Pos.iter xO m q)) = Z.pos q + 53).
  { rewrite digits2_pos_log2, pos_iter_xO, Z.log2_mul_pow2, Hm by lia; lia. }
  cbn [Zdigits2 shr_record_of_loc]; rewrite Hd.
  rewrite fexp_normal by lia.
  replace (Z.pos q + 53 + e - 53 - e) with (Z.pos q) by lia.
  cbn [shr]; rewrite shr_zeros; cbn [shr_m].
  cbn [loc_of_shr_record round_nearest_even Zdigits2 shr_record_of_loc].
  rewrite digits2_pos_log2, Hm, fexp_normal by lia.
  replace (52 + 1 + (e + Z.pos q) - 53 - (e + Z.pos q)) with 0 by lia.
  cbn [shr shr_m].
  unfold emax, prec; destruct (Z.leb_spec (e + Z.pos q) (1024 - 53));
    [reflexivity | lia].
Qed.

(** The mantissa of 53 digits and the exponent of a whole number from 1
    to [2^53]. *)
Definition mantissaOf (s : Z) : Z :=
  if Z.log2 s <=? 52 then s * 2 ^ (52 - Z.log2 s) else s / 2 ^ (Z.log2 s - 52).

Definition wholeSF (s : Z) : spec_float :=
  S754_finite false (Z.to_pos (mantissaOf s)) (Z.log2 s - 52).

Lemma log2_small (s : Z) : 0 < s <= 2 ^ 53 -> 0 <= Z.log2 s <= 53.
Proof.
  intros Hs; split; [apply Z.log2_nonneg|].
  destruct (Z.eq_dec s (2 ^ 53)) as [->|Hne]; [now rewrite Z.log2_pow2|].
  assert (Z.log2 s < 53) by (apply Z.log2_lt_pow2; lia); lia.
Qed.

Lemma log2_top (s : Z) : 0 < s <= 2 ^ 53 -> Z.log2 s = 53 -> s = 2 ^ 53.
Proof.
  intros Hs HL; pose proof (Z.log2_spec s (proj1 Hs)) as [H _].
  rewrite HL in H; lia.
Qed.

Lemma mantissaOf_spec (s : Z) :
  0 < s <= 2 ^ 53 ->
  0 < mantissaOf s
  /\ Z.log2 (mantissaOf s) = 52
  /\ (Z.log2 s <= 52 -> mantissaOf s = s * 2 ^ (52 - Z.log2 s))
  /\ (Z.log2 s = 53 -> mantissaOf s = 2 ^ 52).
Proof.
  intros Hs; pose proof (log2_small s Hs) as HL; unfold mantissaOf.
  destruct (Z.leb_spec (Z.log2 s) 52) as [Hle|Hgt].
  - assert (0 < 2 ^ (52 - Z.log2 s)) by (apply Z.pow_pos_nonneg; lia).
    repeat split; try lia.
    rewrite Z.log2_mul_pow2 by lia; lia.
  - assert (E : Z.log2 s = 53) by lia.
    rewrite E, (log2_top s Hs E); repeat split; try reflexivity; lia.
Qed.

(** Rounding [s * 2^k] at the exponent [-k] gives the double of [s]. *)
Lemma normalize_whole (s k : Z) :
  0 < s <= 2 ^ 53 -> 0 <= k ->
  binary_normalize prec emax (s * 2 ^ k) (- k) false = wholeSF s.
Proof.
  intros Hs Hk.
  pose proof (log2_small s Hs) as HL.
  destruct (mantissaOf_spec s Hs) as (Hm0 & Hm52 & Hmlow & Hmtop).
  assert (Hpow : 0 < 2 ^ k) by (apply Z.pow_pos_nonneg; lia).
  destruct (s * 2 ^ k) as [|M|M] eqn:EM; try lia.
  assert (HlogM : Z.log2 (Z.pos M) = k + Z.log2 s).
  { rewrite <- EM; apply Z.log2_mul_pow2; lia. }
  unfold wholeSF; set (m := Z.to_pos (mantissaOf s)).
  assert (Em : Z.pos m = mantissaOf s) by (subst m; rewrite Z2Pos.id; lia).
  assert (Hlogm : Z.log2 (Z.pos m) = 52) by (now rewrite Em).
  unfold binary_normalize, binary_round.
  rewrite digits2_pos_log2, HlogM, fexp_normal by lia.
  unfold shl_align.
  destruct (k + Z.log2 s + 1 + - k - 53 - - k) as [|t|t] eqn:Et.
  - assert (EmM : m = M).
    { apply Pos2Z.inj_pos; rewrite Em, Hmlow by lia.
      replace (52 - Z.log2 s) with k by lia; now rewrite EM. }
    rewrite <- EmM, round_canonical by lia; f_equal; lia.
  - assert (EmM : M = Pos.iter xO m t).
    { apply Pos2Z.inj_pos; rewrite pos_iter_xO, Em, <- EM.
      destruct (Z.eq_dec (Z.log2 s) 53) as [E53|N53].
      - rewrite (Hmtop E53), (log2_top s Hs E53), <- !Z.pow_add_r by lia.
        f_equal; lia.
      - rewrite Hmlow, <- Z.mul_assoc, <- Z.pow_add_r by lia.
        do 2 f_equal; lia. }
    rewrite EmM, round_shifted by lia; f_equal; lia.
  - assert (EmM : m = Pos.iter xO M t).
    { apply Pos2Z.inj_pos; rewrite pos_iter_xO, Em, <- EM, Hmlow by lia.
      rewrite <- Z.mul_assoc, <- Z.pow_add_r by lia.
      do 2 f_equal; lia. }
    rewrite <- EmM, round_canonical by lia; f_equal; lia.
Qed.

Lemma wB_value : wB = 2 ^ 63.
Proof. reflexivity. Qed.

(** [Number(n)] is the double of [n]. *)
Lemma ofZ_whole (n : Z) :
  0 < n <= 2 ^ 53 -> Prim2SF (Js.ofZ n) = wholeSF n.
Proof.
  intros Hn; unfold Js.ofZ.
  destruct (Z.ltb_spec n 0) as [|_]; [lia|].
  rewrite of_uint63_spec, Uint63.of_Z_spec, Z.mod_small
    by (rewrite wB_value; lia).
  rewrite <- (normalize_whole n 0 Hn (Z.le_refl 0)).
  now rewrite Z.pow_0_r, Z.mul_1_r.
Qed.

(** ** The whole number of a double *)

Lemma wholeOf_SF (x y : float) :
  Prim2SF x = Prim2SF y -> wholeOf x = wholeOf y.
Proof. unfold wholeOf, Js.decode; now intros ->. Qed.

Lemma wholeOf_wholeSF (x : float) (n : Z) :
  0 < n <= 2 ^ 53 -> Prim2SF x = wholeSF n -> wholeOf x = Some n.
Proof.
  intros Hn E; unfold wholeOf, Js.decode; rewrite E; unfold wholeSF.
  pose proof (log2_small n Hn) as HL.
  destruct (mantissaOf_spec n Hn) as (Hm0 & _ & Hmlow & Hmtop).
  rewrite Z2Pos.id by lia.
  destruct (Z.leb_spec 0 (Z.log2 n - 52)) as [Hge|Hlt].
  - f_equal; destruct (Z.eq_dec (Z.log2 n) 53) as [E53|N53].
    + rewrite (Hmtop E53), E53, (log2_top n Hn E53); reflexivity.
    + rewrite Hmlow by lia.
      replace (52 - Z.log2 n) with 0 by lia.
      replace (Z.log2 n - 52) with 0 by lia; lia.
  - rewrite Hmlow by lia.
    replace (- (Z.log2 n - 52)) with (52 - Z.log2 n) by lia.
    assert (0 < 2 ^ (52 - Z.log2 n)) by (apply Z.pow_pos_nonneg; lia).
    rewrite Z.mod_mul, Z.div_mul by lia; reflexivity.
Qed.

(** A double that holds a whole number from 1 to [2^53] is the double
    of that number. *)
Lemma wholeOf_inv (x : float) (n : Z) :
  0 < n <= 2 ^ 53 -> wholeOf x = Some n -> Prim2SF x = wholeSF n.
Proof.
  intros Hn; unfold wholeOf, Js.decode.
  pose proof (Prim2SF_valid x) as Hv.
  destruct (Prim2SF x) as [s0| | |s m e]; try discriminate.
  { cbn; intros [= <-]; lia. }
  unfold valid_binary, bounded, canonical_mantissa in Hv.
  apply andb_prop in Hv as [Hc He].
  apply Z.eqb_eq in Hc; apply Z.leb_le in He.
  rewrite digits2_pos_log2 in Hc.
  unfold fexp, emin, prec, emax in Hc, He.
  pose proof (Z.log2_nonneg (Z.pos m)) as Hlm.
  pose proof (Z.log2_spec (Z.pos m) (Pos2Z.is_pos m)) as [Hm1 Hm2].
  pose proof (log2_small n Hn) as HL.
  destruct (mantissaOf_spec n Hn) as (Hm0 & _ & Hmlow & Hmtop).
  destruct (Z.leb_spec 0 e) as [Hge|Hlt].
  - intros [= Hval].
    assert (Hpe : 0 < 2 ^ e) by (apply Z.pow_pos_nonneg; lia).
    destruct s; [lia|].
    assert (Hl52 : Z.log2 (Z.pos m) = 52) by lia.
    assert (HLn : Z.log2 n = e + 52).
    { rewrite <- Hval, Z.log2_mul_pow2 by lia; lia. }
    unfold wholeSF; rewrite HLn; f_equal; [|lia].
    apply Pos2Z.inj_pos; rewrite Z2Pos.id by lia.
    destruct (Z.eq_dec (Z.log2 n) 53) as [E53|N53].
    + rewrite (Hmtop E53).
      assert (e = 1) by lia; subst e.
      rewrite (log2_top n Hn E53) in Hval; lia.
    + rewrite Hmlow by lia.
      assert (e = 0) by lia; subst e.
      rewrite HLn, <- Hval; cbn; lia.
  - assert (Hpe : 0 < 2 ^ (- e)) by (apply Z.pow_pos_nonneg; lia).
    destruct (Z.eqb_spec ((if s then Z.neg m else Z.pos m) mod 2 ^ (- e)) 0)
      as [Hmod|]; [|discriminate].
    intros [= Hval].
    apply Z.mod_divide in Hmod as [q Hq]; [|lia].
    rewrite Hq, Z.div_mul in Hval by lia; subst q.
    destruct s; [lia|].
    assert (Hl52 : Z.log2 (Z.pos m) = 52).
    { destruct (Z.max_spec (Z.log2 (Z.pos m) + 1 + e - 53) (3 - 1024 - 53))
        as [[_ Hmax]|[_ Hmax]]; [|lia].
      exfalso.
      assert (e = -1074) by lia; subst e.
      assert (2 ^ 1074 <= Z.pos m).
      { rewrite Hq; change (- -1074) with 1074.
        apply (Z.le_trans _ (1 * 2 ^ 1074)); [lia|].
        apply Z.mul_le_mono_nonneg_r; lia. }
      assert (Z.pos m < 2 ^ 53).
      { eapply Z.lt_le_trans; [exact Hm2|].
        apply Z.pow_le_mono_r; lia. }
      assert (2 ^ 53 < 2 ^ 1074) by (apply Z.pow_lt_mono_r; lia).
      lia. }
    assert (HLn : Z.log2 n = e + 52).
    { rewrite Hq, Z.log2_mul_pow2 in Hl52 by lia; lia. }
    unfold wholeSF; rewrite HLn; f_equal; [|lia].
    apply Pos2Z.inj_pos; rewrite Z2Pos.id, Hmlow, Hq by lia.
    do 2 f_equal; lia.
Qed.

Lemma Prim2SF_inj (x y : float) : Prim2SF x = Prim2SF y -> x = y.
Proof.
  intros H; rewrite <- (SF2Prim_Prim2SF x), <- (SF2Prim_Prim2SF y).
  now rewrite H.
Qed.

(** A double holds the whole number [n], from 1 to [2^53], exactly when
    it is [Number(n)]. *)
Lemma wholeOf_ofZ (x : float) (n : Z) :
  0 < n <= 2 ^ 53 -> (wholeOf x = Some n <-> x = Js.ofZ n).
Proof.
  intros Hn; split.
  - intros H; apply Prim2SF_inj.
    now rewrite (wholeOf_inv x n Hn H), (ofZ_whole n Hn).
  - intros ->; apply wholeOf_wholeSF; [exact Hn | now apply ofZ_whole].
Qed.

(** Zero is held by the two signed zeros. *)
Lemma wholeOf_zero (x : float) :
  wholeOf x = Some 0 <-> exists s, Prim2SF x = S754_zero s.
Proof.
  unfold wholeOf, Js.decode; split.
  - destruct (Prim2SF x) as [s0| | |s m e]; try discriminate;
      [now exists s0|].
    destruct (Z.leb_spec 0 e) as [Hge|Hlt].
    + intros [= H]; exfalso.
      assert (0 < 2 ^ e) by (apply Z.pow_pos_nonneg; lia).
      destruct s; lia.
    + assert (Hpe : 0 < 2 ^ (- e)) by (apply Z.pow_pos_nonneg; lia).
      destruct (Z.eqb_spec ((if s then Z.neg m else Z.pos m) mod 2 ^ (- e)) 0)
        as [Hmod|]; [|discriminate].
      intros [= H]; exfalso.
      apply Z.mod_divide in Hmod as [q Hq]; [|lia].
      rewrite Hq, Z.div_mul in H by lia; subst q.
      destruct s; lia.
  - intros [s ->]; reflexivity.
Qed.

(** ** Equality, truth and the reading of [slice] *)

Lemma SFcompare_finite_eq (m m' : positive) (e e' : Z) :
  SFcompare (S754_finite false m e) (S754_finite false m' e') = Some Eq ->
  m = m' /\ e = e'.
Proof.
  cbn [SFcompare].
  destruct (Z.compare_spec e e') as [->|H|H]; try discriminate.
  intros [= H]; split; [|reflexivity].
  now apply Pos.compare_cont_Eq in H as ?; apply Pos.compare_eq.
Qed.

(** [n === x] holds exactly when [x] holds the whole number [n]. *)
Lemma sameNumber_spec (n : Z) (x : float) :
  0 < n <= 2 ^ 53 -> (sameNumber n x = true <-> wholeOf x = Some n).
Proof.
  intros Hn; unfold sameNumber.
  rewrite FloatAxioms.eqb_spec, (ofZ_whole n Hn); unfold SFeqb.
  split.
  - unfold wholeSF at 1.
    destruct (Prim2SF x) as [s0|s0| |s m e] eqn:E;
      try (cbn; discriminate); try (destruct s0; cbn; discriminate).
    destruct s; [cbn; discriminate|].
    destruct (SFcompare _ _) as [[]|] eqn:Ec; try discriminate.
    intros _; apply SFcompare_finite_eq in Ec as [Em Ee].
    apply wholeOf_wholeSF; [exact Hn|].
    unfold wholeSF; now rewrite E, Em, Ee.
  - intros H; rewrite (wholeOf_inv x n Hn H); unfold wholeSF.
    cbn [SFcompare]; now rewrite Z.compare_refl, Pos.compare_cont_refl.
Qed.

Lemma truthy_whole (x : float) (n : Z) :
  wholeOf x = Some n -> truthy x = negb (n =? 0).
Proof.
  destruct (Z.eqb_spec n 0) as [->|Hne]; intros H; unfold truthy.
  - apply wholeOf_zero in H as [s ->]; reflexivity.
  - destruct (Prim2SF x) as [s0| | |s m e] eqn:E; try reflexivity.
    + exfalso; apply Hne.
      assert (H0 : wholeOf x = Some 0) by (apply wholeOf_zero; eauto).
      congruence.
    + unfold wholeOf, Js.decode in H; now rewrite E in H.
Qed.

Lemma toIntegerOrInfinity_whole (x : float) (n : Z) :
  wholeOf x = Some n -> toIntegerOrInfinity x = Fin n.
Proof.
  unfold wholeOf, Js.decode, toIntegerOrInfinity.
  destruct (Prim2SF x) as [s0| | |s m e]; try discriminate.
  { cbn; now intros [= <-]. }
  cbv zeta; destruct (0 <=? e) eqn:Ee; [now intros [= <-]|].
  apply Z.leb_gt in Ee.
  assert (Hpe : 0 < 2 ^ (- e)) by (apply Z.pow_pos_nonneg; lia).
  destruct (Z.eqb_spec ((if s then Z.neg m else Z.pos m) mod 2 ^ (- e)) 0)
    as [Hmod|]; [|discriminate].
  intros [= <-]; f_equal.
  apply Z.mod_divide in Hmod as [q Hq]; [|lia].
  rewrite Hq, Z.div_mul, Z.quot_mul by lia; reflexivity.
Qed.

(** ** Sums of whole numbers *)

Lemma shl_align_value (m : positive) (e ez : Z) :
  ez <= e ->
  Z.pos (fst (shl_align m e ez)) = Z.pos m * 2 ^ (e - ez).
Proof.
  intros H; unfold shl_align.
  destruct (ez - e) as [|d|d] eqn:Ed; cbn [fst]; try lia.
  - replace (e - ez) with 0 by lia; lia.
  - rewrite pos_iter_xO; do 2 f_equal; lia.
Qed.

(** The sum of two whole numbers, not negative, is exact as long as it
    is at most [2^53]. *)
Lemma wholeOf_add (x y : float) (a b : Z) :
  wholeOf x = Some a -> wholeOf y = Some b ->
  0 <= a -> 0 <= b -> a + b <= 2 ^ 53 ->
  wholeOf (x + y) = Some (a + b).
Proof.
  intros Hx Hy Ha Hb Hab.
  destruct (Z.eq_dec a 0) as [->|Ha0]; [|destruct (Z.eq_dec b 0) as [->|Hb0]].
  - apply wholeOf_zero in Hx as [sx Ex].
    destruct (Z.eq_dec b 0) as [->|Hb0].
    + apply wholeOf_zero in Hy as [sy Ey].
      apply wholeOf_zero.
      rewrite FloatAxioms.add_spec, Ex, Ey; unfold SF64add; cbn [SFadd].
      destruct sx, sy; eauto.
    + rewrite Z.add_0_l, <- Hy; apply wholeOf_SF.
      rewrite FloatAxioms.add_spec, Ex, (wholeOf_inv y b) by (auto; lia).
      reflexivity.
  - rewrite Z.add_0_r, <- Hx; apply wholeOf_SF.
    apply wholeOf_zero in Hy as [sy Ey].
    rewrite FloatAxioms.add_spec, Ey, (wholeOf_inv x a) by (auto; lia).
    reflexivity.
  - assert (Hna : 0 < a <= 2 ^ 53) by lia.
    assert (Hnb : 0 < b <= 2 ^ 53) by lia.
    assert (Hs : 0 < a + b <= 2 ^ 53) by lia.
    apply (wholeOf_wholeSF _ _ Hs).
    rewrite FloatAxioms.add_spec, (wholeOf_inv x a Hna Hx),
      (wholeOf_inv y b Hnb Hy).
    pose proof (log2_small a Hna) as HLa.
    pose proof (log2_small b Hnb) as HLb.
    assert (HLa' : Z.log2 a <= 52).
    { assert (Z.log2 a < 53) by (apply Z.log2_lt_pow2; lia); lia. }
    assert (HLb' : Z.log2 b <= 52).
    { assert (Z.log2 b < 53) by (apply Z.log2_lt_pow2; lia); lia. }
    destruct (mantissaOf_spec a Hna) as (Ha1 & _ & Halow & _).
    destruct (mantissaOf_spec b Hnb) as (Hb1 & _ & Hblow & _).
    unfold wholeSF at 1 2, SF64add; cbn [SFadd cond_Zopp].
    set (ez := Z.min (Z.log2 a - 52) (Z.log2 b - 52)).
    rewrite !shl_align_value, !Z2Pos.id by lia.
    rewrite (Halow HLa'), (Hblow HLb'), <- !Z.mul_assoc, <- !Z.pow_add_r by lia.
    replace (52 - Z.log2 a + (Z.log2 a - 52 - ez)) with (- ez) by lia.
    replace (52 - Z.log2 b + (Z.log2 b - 52 - ez)) with (- ez) by lia.
    rewrite <- Z.mul_add_distr_r.
    rewrite <- (normalize_whole (a + b) (- ez) Hs) by lia.
    now rewrite Z.opp_involutive.
Qed.

(** [Number(n)] holds [n], for every whole number from 0 to [2^53]. *)
Lemma wholeOf_number (n : Z) :
  0 <= n <= 2 ^ 53 -> wholeOf (Js.ofZ n) = Some n.
Proof.
  intros Hn; destruct (Z.eq_dec n 0) as [->|Hne]; [reflexivity|].
  apply wholeOf_ofZ; [lia | reflexivity].
Qed.

Lemma toIntegerOrInfinity_add (o n : Z) :
  0 <= o -> 0 <= n -> o + n <= 2 ^ 53 ->
  toIntegerOrInfinity (Js.ofZ o) = Fin o
  /\ toIntegerOrInfinity (Js.ofZ o + Js.ofZ n) = Fin (o + n).
Proof.
  intros Ho Hn Hs; split; apply toIntegerOrInfinity_whole.
  - apply wholeOf_number; lia.
  - apply wholeOf_add; try apply wholeOf_number; lia.
Qed.

(** The numbers that count as false are the two zeros and [NaN]. *)
Lemma falsy_numbers (x : float) :
  truthy x = false <-> x = 0%float \/ x = (- 0)%float \/ x = nan.
Proof.
  unfold truthy; split.
  - destruct (Prim2SF x) as [[|]| | |s m e] eqn:E; try discriminate; intros _.
    + right; left; apply Prim2SF_inj; now rewrite E.
    + left; apply Prim2SF_inj; now rewrite E.
    + right; right; apply Prim2SF_inj; now rewrite E.
  - intros [->|[->| ->]]; reflexivity.
Qed.

(** A fraction is cut towards zero, [NaN] reads as 0, and a fraction
    is no whole number. *)
Example readings_of_numbers :
  toIntegerOrInfinity 0.9 = Fin 0
  /\ toIntegerOrInfinity (0.9 + 1.2) = Fin 2
  /\ toIntegerOrInfinity (-1.5) = Fin (-1)
  /\ toIntegerOrInfinity nan = Fin 0
  /\ toIntegerOrInfinity infinity = PosInf
  /\ wholeOf 1.5 = None
  /\ wholeOf 2 = Some 2
  /\ sameNumber 2 1.5 = false
  /\ sameNumber 2 2 = true
  /\ sameNumber 2 nan = false.
Proof. repeat split; vm_compute; reflexivity. Qed.

(** * The formula store (lib/formulaStore.ts)

    Saved formulas, one record for each scent code, every save a new
    version of it.  The calls of the public API follow one another;
    each reads the clock at most once, and the instant it reads is an
    argument here.  A timestamp is kept as that instant, in
    milliseconds, in place of its ISO text.  The version numbers that
    the store writes are whole and are kept as integers; a version
    number, a limit or an offset that a caller passes is a double. *)

Inductive Status := draft | approved | in_production | archived.

Record VersionInput :=
  { i_dominant : string;
    i_secondary : string;
    i_accent : string;
    i_concentration : option string;
    i_occasion : option string;
    i_intensity : option string }.

Record FormulaVersion :=
  { v_id : string;
    v_scentCode : string;
    v_version : Z;
    v_formula : FormulaResult;
    v_scentCard : ScentCard;
    v_batchSheet : BatchSheet;
    v_input : VersionInput;
    v_status : Status;
    v_notes : string;
    v_createdAt : Z;
    v_updatedAt : Z }.

Record FormulaRecord :=
  { r_scentCode : string;
    r_scentName : option string;
    r_customerName : option string;
    r_customerEmail : option string;
    versions : list FormulaVersion;
    currentVersion : Z;
    r_createdAt : Z;
    r_updatedAt : Z }.

(** ** The in-memory adapter

    The [Map] of the adapter: its keys in insertion order, each once. *)
Definition Store := list (string * FormulaRecord).

(** [map.set(k, v)]: a key that is there keeps its place. *)
Fixpoint mapSet {A} (k : string) (v : A) (m : list (string * A))
    : list (string * A) :=
  match m with
  | [] => [(k, v)]
  | (k', w) :: r =>
      if String.eqb k' k then (k, v) :: r else (k', w) :: mapSet k v r
  end.

(** [map.delete(k)]: whether the key was there, and the map without
    it. *)
Definition mapDelete {A} (k : string) (m : list (string * A))
    : bool * list (string * A) :=
  (existsb (fun kv => String.eqb (fst kv) k) m,
   filter (fun kv => negb (String.eqb (fst kv) k)) m).

Definition adapter_save (record : FormulaRecord) (store : Store) : Store :=
  mapSet (r_scentCode record) record store.

Definition adapter_get (scentCode : string) (store : Store)
    : option FormulaRecord :=
  lookup scentCode store.

(** [xs.slice(start, end)]: each bound is read by
    [ToIntegerOrInfinity]; a negative index counts from the end, and
    both are kept within the array. *)
Definition sliceIndex (n : Z) (i : Index) : Z :=
  match i with
  | NegInf => 0
  | Fin i => if i <? 0 then Z.max (n + i) 0 else Z.min i n
  | PosInf => n
  end.

Definition slice {A} (start stop : float) (l : list A) : list A :=
  let k := sliceIndex (len l) (toIntegerOrInfinity start) in
  let e := sliceIndex (len l) (toIntegerOrInfinity stop) in
  firstn (Z.to_nat (e - k)) (skipn (Z.to_nat k) l).

(** The comparator of [list] is positive at [(a, b)]: [b] was updated
    later. *)
Definition updatedBefore (a b : FormulaRecord) : bool :=
  0 <? r_updatedAt b - r_updatedAt a.

Definition adapter_list (limit offset : option float) (store : Store)
    : list FormulaRecord :=
  let limit := orElse limit 50%float in
  let offset := orElse offset 0%float in
  let all := sortBy updatedBefore (map snd store) in
  slice offset (offset + limit)%float all.

Definition adapter_delete (scentCode : string) (store : Store)
    : bool * Store :=
  mapDelete scentCode store.

(** ** The public API *)

Record SaveOptions :=
  { s_scentCode : string;
    s_scentName : option string;
    s_customerName : option string;
    s_customerEmail : option string;
    s_formula : FormulaResult;
    s_scentCard : ScentCard;
    s_batchSheet : BatchSheet;
    s_input : VersionInput;
    s_notes : option string }.

(** [n + 1] on a number that holds a whole number from 0 to [2^53]: the
    sum is exact below [2^53], and at [2^53] it is [2^53] again. *)
Definition numSucc (n : Z) : Z := if n <? 2 ^ 53 then n + 1 else n.

(** [a ?? b] where both may be missing. *)
Definition orOpt {A} (a b : option A) : option A :=
  match a with Some _ => a | None => b end.

Definition saveFormula (opts : SaveOptions) (now : Z) (store : Store)
    : FormulaVersion * Store :=
  let existing := adapter_get (s_scentCode opts) store in
  let version :=
    match existing with
    | Some e => numSucc (currentVersion e)
    | None => 1
    end in
  let formulaVersion :=
    {| v_id := (s_scentCode opts ++ "-v" ++ showZ version)%string;
       v_scentCode := s_scentCode opts;
       v_version := version;
       v_formula := s_formula opts;
       v_scentCard := s_scentCard opts;
       v_batchSheet := s_batchSheet opts;
       v_input := s_input opts;
       v_status := draft;
       v_notes := orElse (s_notes opts) "";
       v_createdAt := now;
       v_updatedAt := now |} in
  let record :=
    match existing with
    | Some e =>
        {| r_scentCode := r_scentCode e;
           r_scentName := orOpt (s_scentName opts) (r_scentName e);
           r_customerName := orOpt (s_customerName opts) (r_customerName e);
           r_customerEmail := orOpt (s_customerEmail opts) (r_customerEmail e);
           versions := versions e ++ [formulaVersion];
           currentVersion := version;
           r_createdAt := r_createdAt e;
           r_updatedAt := now |}
    | None =>
        {| r_scentCode := s_scentCode opts;
           r_scentName := s_scentName opts;
           r_customerName := s_customerName opts;
           r_customerEmail := s_customerEmail opts;
           versions := [formulaVersion];
           currentVersion := 1;
           r_createdAt := now;
           r_updatedAt := now |}
    end in
  (formulaVersion, adapter_save record store).

Definition getFormula (scentCode : string) (store : Store)
    : option FormulaRecord :=
  adapter_get scentCode store.

(** [if (version)]: the number is there and is not [NaN], [0] or
    [-0]. *)
Definition getFormulaVersion (scentCode : string) (version : option float)
    (store : Store) : option FormulaVersion :=
  match adapter_get scentCode store with
  | None => None
  | Some record =>
      match version with
      | Some x =>
          if truthy x
          then find (fun v => sameNumber (v_version v) x) (versions record)
          else last (map Some (versions record)) None
      | None => last (map Some (versions record)) None
      end
  end.

(** [v.status = status; v.updatedAt = now] on the first version that
    [p] finds. *)
Fixpoint touchFirst (p : FormulaVersion -> bool) (status : Status) (now : Z)
    (vs : list FormulaVersion) : list FormulaVersion :=
  match vs with
  | [] => []
  | v :: r =>
      if p v
      then {| v_id := v_id v;
              v_scentCode := v_scentCode v;
              v_version := v_version v;
              v_formula := v_formula v;
              v_scentCard := v_scentCard v;
              v_batchSheet := v_batchSheet v;
              v_input := v_input v;
              v_status := status;
              v_notes := v_notes v;
              v_createdAt := v_createdAt v;
              v_updatedAt := now |} :: r
      else v :: touchFirst p status now r
  end.

(** The version and the record are changed where they are, in the
    [Map]; [adapter.save] then sets the record at its own code. *)
Definition updateFormulaStatus (scentCode : string) (version : float)
    (status : Status) (now : Z) (store : Store) : bool * Store :=
  match adapter_get scentCode store with
  | None => (false, store)
  | Some record =>
      match find (fun v => sameNumber (v_version v) version) (versions record) with
      | None => (false, store)
      | Some _ =>
          let record' :=
            {| r_scentCode := r_scentCode record;
               r_scentName := r_scentName record;
               r_customerName := r_customerName record;
               r_customerEmail := r_customerEmail record;
               versions :=
                 touchFirst (fun v => sameNumber (v_version v) version) status now
                   (versions record);
               currentVersion := currentVersion record;
               r_createdAt := r_createdAt record;
               r_updatedAt := now |} in
          (true, adapter_save record' (mapSet scentCode record' store))
      end
  end.

Definition listFormulas (limit offset : option float) (store : Store)
    : list FormulaRecord :=
  adapter_list limit offset store.

Definition deleteFormula (scentCode : string) (store : Store)
    : bool * Store :=
  adapter_delete scentCode store.

(** ** Histories of calls *)

(** The calls that can change the store. *)
Inductive Call :=
| Save (opts : SaveOptions) (now : Z)
| Update (scentCode : string) (version : float) (status : Status) (now : Z)
| Delete (scentCode : string).

Definition afterCall (store : Store) (c : Call) : Store :=
  match c with
  | Save opts now => snd (saveFormula opts now store)
  | Update code version status now =>
      snd (updateFormulaStatus code version status now store)
  | Delete code => snd (deleteFormula code store)
  end.

(** The store after a history of calls, from the empty store that the
    module starts with. *)
Definition storeAfter (history : list Call) : Store :=
  fold_left afterCall history [].

(** ** Invariants of the store *)

(** The number of the [k]-th version of a record. *)
Definition versionNumber (k : nat) : Z := Z.min (Z.of_nat k) (2 ^ 53).

Definition idOf (code : string) (n : Z) : string :=
  (code ++ "-v" ++ showZ n)%string.

Definition numbered (s : nat) (vs : list FormulaVersion) : Prop :=
  map v_version vs = map versionNumber (seq s (List.length vs)).

Definition wellKept (code : string) (r : FormulaRecord) : Prop :=
  r_scentCode r = code
  /\ versions r <> []
  /\ numbered 1 (versions r)
  /\ currentVersion r = versionNumber (List.length (versions r))
  /\ Forall (fun v => v_scentCode v = code
                      /\ v_id v = idOf code (v_version v))
       (versions r).

Definition storeOk (s : Store) : Prop :=
  NoDup (map fst s) /\ Forall (fun kv => wellKept (fst kv) (snd kv)) s.

Lemma lookup_mapSet_same {A} (k : string) (v : A) (m : list (string * A)) :
  lookup k (mapSet k v m) = Some v.
Proof.
  induction m as [|[k' w] m IH]; cbn [mapSet lookup];
    [now rewrite String.eqb_refl|].
  destruct (String.eqb_spec k' k) as [->|Hne]; cbn [lookup].
  - now rewrite String.eqb_refl.
  - destruct (String.eqb_spec k k') as [->|_]; [congruence | exact IH].
Qed.

Lemma lookup_mapSet_other {A} (k k' : string) (v : A)
    (m : list (string * A)) :
  k' <> k -> lookup k' (mapSet k v m) = lookup k' m.
Proof.
  intros Hne; induction m as [|[k0 w] m IH]; cbn [mapSet lookup].
  - destruct (String.eqb_spec k' k); [congruence | reflexivity].
  - destruct (String.eqb_spec k0 k) as [->|Hk]; cbn [lookup].
    + destruct (String.eqb_spec k' k); [congruence | reflexivity].
    + now rewrite IH.
Qed.

Lemma keys_mapSet {A} (k : string) (v : A) (m : list (string * A)) :
  (In k (map fst m) /\ map fst (mapSet k v m) = map fst m)
  \/ (~ In k (map fst m) /\ map fst (mapSet k v m) = map fst m ++ [k]).
Proof.
  induction m as [|[k' w] m IH]; cbn [mapSet map fst].
  - right; split; [tauto | reflexivity].
  - destruct (String.eqb_spec k' k) as [->|Hne]; cbn [map fst].
    + left; split; [now left | reflexivity].
    + destruct IH as [[Hin E]|[Hin E]]; rewrite E.
      * left; split; [now right | reflexivity].
      * right; split; [|reflexivity].
        intros [H|H]; [congruence | tauto].
Qed.

Lemma NoDup_mapSet {A} (k : string) (v : A) (m : list (string * A)) :
  NoDup (map fst m) -> NoDup (map fst (mapSet k v m)).
Proof.
  intros Hn; destruct (keys_mapSet k v m) as [[_ E]|[Hin E]]; rewrite E;
    [exact Hn|].
  apply NoDup_app; [exact Hn | repeat constructor; intros [] |].
  intros x Hx [<- | []]; tauto.
Qed.

Lemma In_mapSet {A} (k : string) (v : A) (m : list (string * A))
    (kv : string * A) :
  In kv (mapSet k v m) -> kv = (k, v) \/ In kv m.
Proof.
  induction m as [|[k' w] m IH]; cbn [mapSet].
  - intros [<- | []]; now left.
  - destruct (String.eqb k' k); intros [<- | H]; auto.
    + right; now right.
    + right; now left.
    + destruct (IH H); auto; right; now right.
Qed.

Lemma storeOk_mapSet (k : string) (r : FormulaRecord) (s : Store) :
  storeOk s -> wellKept k r -> storeOk (mapSet k r s).
Proof.
  intros [Hn Hf] Hr; split; [now apply NoDup_mapSet|].
  apply Forall_forall; intros kv Hin.
  apply In_mapSet in Hin as [-> | Hin]; [exact Hr|].
  rewrite Forall_forall in Hf; now apply Hf.
Qed.

Lemma lookup_filter_same {A} (k : string) (m : list (string * A)) :
  lookup k (filter (fun kv => negb (String.eqb (fst kv) k)) m) = None.
Proof.
  induction m as [|[k' w] m IH]; cbn [filter fst]; [reflexivity|].
  destruct (String.eqb_spec k' k) as [->|Hne]; cbn [negb lookup];
    [exact IH|].
  destruct (String.eqb_spec k k'); [congruence | exact IH].
Qed.

Lemma lookup_filter_other {A} (k k' : string) (m : list (string * A)) :
  k' <> k ->
  lookup k' (filter (fun kv => negb (String.eqb (fst kv) k)) m) = lookup k' m.
Proof.
  intros Hne; induction m as [|[k0 w] m IH]; cbn [filter fst lookup];
    [reflexivity|].
  destruct (String.eqb_spec k0 k) as [->|Hk]; cbn [negb lookup].
  - destruct (String.eqb_spec k' k); [congruence | exact IH].
  - now rewrite IH.
Qed.

Lemma storeOk_delete (k : string) (s : Store) :
  storeOk s -> storeOk (snd (deleteFormula k s)).
Proof.
  intros [Hn Hf]; unfold deleteFormula, adapter_delete, mapDelete; cbn [snd].
  split; [now apply NoDup_map_filter | now apply Forall_filter].
Qed.

Lemma numSucc_versionNumber (n : nat) :
  numSucc (versionNumber n) = versionNumber (S n).
Proof.
  unfold numSucc, versionNumber.
  destruct (Z.ltb_spec (Z.min (Z.of_nat n) (2 ^ 53)) (2 ^ 53)); lia.
Qed.

Lemma numbered_snoc (vs : list FormulaVersion) (v : FormulaVersion) :
  numbered 1 vs -> v_version v = versionNumber (S (List.length vs)) ->
  numbered 1 (vs ++ [v]).
Proof.
  unfold numbered; intros Hn Hv.
  rewrite map_app, length_app, seq_app, map_app, Hn; cbn [List.length map seq].
  now rewrite Hv.
Qed.

Lemma storeOk_save (opts : SaveOptions) (now : Z) (s : Store) :
  storeOk s -> storeOk (snd (saveFormula opts now s)).
Proof.
  intros Hs; unfold saveFormula, adapter_save, adapter_get; cbn [snd].
  destruct (lookup (s_scentCode opts) s) as [e|] eqn:E.
  - pose proof (lookup_In _ _ _ E) as Hin.
    destruct Hs as [Hn Hf]; pose proof Hf as Hf'.
    rewrite Forall_forall in Hf'; specialize (Hf' _ Hin); cbn [fst snd] in Hf'.
    destruct Hf' as (Hc & Hne & Hnum & Hcur & Hids).
    cbn [r_scentCode]; rewrite Hc.
    apply storeOk_mapSet; [now split|].
    unfold wellKept; cbn [r_scentCode versions currentVersion].
    repeat split; try assumption.
    + now destruct (versions e).
    + apply numbered_snoc; [exact Hnum|]; cbn [v_version].
      now rewrite Hcur, numSucc_versionNumber.
    + rewrite length_app; cbn [List.length]; rewrite Nat.add_1_r.
      now rewrite Hcur, numSucc_versionNumber.
    + apply Forall_app; split; [exact Hids|].
      repeat constructor.
  - cbn [r_scentCode]; apply storeOk_mapSet; [exact Hs|].
    unfold wellKept; cbn [r_scentCode versions currentVersion].
    repeat split; try discriminate; repeat constructor.
Qed.

(** The version with a new status and a new [updatedAt]. *)
Definition touched (status : Status) (now : Z) (v : FormulaVersion)
    : FormulaVersion :=
  {| v_id := v_id v;
     v_scentCode := v_scentCode v;
     v_version := v_version v;
     v_formula := v_formula v;
     v_scentCard := v_scentCard v;
     v_batchSheet := v_batchSheet v;
     v_input := v_input v;
     v_status := status;
     v_notes := v_notes v;
     v_createdAt := v_createdAt v;
     v_updatedAt := now |}.

Lemma touchFirst_spec (p : FormulaVersion -> bool) (status : Status) (now : Z)
    (vs : list FormulaVersion) :
  match find p vs with
  | None => touchFirst p status now vs = vs
  | Some v =>
      exists i,
        nth_error vs i = Some v /\ p v = true
        /\ (forall j w, (j < i)%nat -> nth_error vs j = Some w -> p w = false)
        /\ touchFirst p status now vs = replaceNth i (touched status now v) vs
  end.
Proof.
  induction vs as [|v vs IH]; cbn [find touchFirst]; [reflexivity|].
  destruct (p v) eqn:E.
  - exists 0%nat; repeat split; auto; intros j w Hj; lia.
  - destruct (find p vs) as [w|].
    + destruct IH as (i & Hi & Hp & Hmin & Ht).
      exists (S i); repeat split; auto.
      * intros [|j] w' Hj; cbn [nth_error]; [now intros [= <-]|].
        apply Hmin; lia.
      * cbn [replaceNth]; now rewrite Ht.
    + now rewrite IH.
Qed.

Lemma map_replaceNth_same {A B} (g : A -> B) (i : nat) (x y : A)
    (l : list A) :
  nth_error l i = Some y -> g x = g y ->
  map g (replaceNth i x l) = map g l.
Proof.
  revert i; induction l as [|z l IH]; intros [|i]; cbn; try discriminate.
  - intros [= ->] ->; reflexivity.
  - intros H E; now rewrite IH.
Qed.

Lemma touchFirst_keeps (p : FormulaVersion -> bool) (status : Status)
    (now : Z) (code : string) (vs : list FormulaVersion) :
  map v_version (touchFirst p status now vs) = map v_version vs
  /\ List.length (touchFirst p status now vs) = List.length vs
  /\ (Forall (fun v => v_scentCode v = code
                       /\ v_id v = idOf code (v_version v)) vs ->
      Forall (fun v => v_scentCode v = code
                       /\ v_id v = idOf code (v_version v))
        (touchFirst p status now vs)).
Proof.
  induction vs as [|v vs (IH1 & IH2 & IH3)]; cbn [touchFirst];
    [repeat split; auto|].
  destruct (p v); cbn [map List.length].
  - repeat split; auto.
    intros H; inversion H; subst; constructor; auto.
  - rewrite IH1, IH2; repeat split; auto.
    intros H; inversion H; subst; constructor; auto.
Qed.

Lemma storeOk_update (code : string) (version : float) (status : Status)
    (now : Z) (s : Store) :
  storeOk s -> storeOk (snd (updateFormulaStatus code version status now s)).
Proof.
  intros Hs; unfold updateFormulaStatus, adapter_save, adapter_get.
  destruct (lookup code s) as [r|] eqn:E; [|exact Hs].
  destruct (find _ (versions r)) as [v|] eqn:Ef; [|exact Hs]; cbn [snd].
  pose proof (lookup_In _ _ _ E) as Hin.
  destruct Hs as [Hn Hf]; pose proof Hf as Hf'.
  rewrite Forall_forall in Hf'; specialize (Hf' _ Hin); cbn [fst snd] in Hf'.
  destruct Hf' as (Hc & Hne & Hnum & Hcur & Hids).
  cbn [r_scentCode]; rewrite Hc.
  destruct (touchFirst_keeps (fun v => sameNumber (v_version v) version) status now code
              (versions r)) as (K1 & K2 & K3).
  assert (Hr : wellKept code
                 {| r_scentCode := code;
                    r_scentName := r_scentName r;
                    r_customerName := r_customerName r;
                    r_customerEmail := r_customerEmail r;
                    versions :=
                      touchFirst (fun v => sameNumber (v_version v) version) status now
                        (versions r);
                    currentVersion := currentVersion r;
                    r_createdAt := r_createdAt r;
                    r_updatedAt := now |}).
  { unfold wellKept, numbered; cbn [r_scentCode versions currentVersion].
    rewrite K1, K2; repeat split; auto.
    intros H; apply (f_equal (@List.length _)) in H; rewrite K2 in H.
    now destruct (versions r). }
  apply storeOk_mapSet; [apply storeOk_mapSet; [now split|]|]; exact Hr.
Qed.

Lemma storeOk_afterCall (s : Store) (c : Call) :
  storeOk s -> storeOk (afterCall s c).
Proof.
  destruct c; cbn [afterCall];
    auto using storeOk_save, storeOk_update, storeOk_delete.
Qed.

Lemma storeOk_storeAfter (history : list Call) : storeOk (storeAfter history).
Proof.
  unfold storeAfter.
  assert (H : storeOk []) by (split; constructor).
  revert H; generalize (@nil (string * FormulaRecord)).
  induction history as [|c history IH]; intros s Hs; cbn [fold_left];
    [exact Hs|].
  apply IH, storeOk_afterCall, Hs.
Qed.

Lemma stored_wellKept (history : list Call) (code : string)
    (r : FormulaRecord) :
  getFormula code (storeAfter history) = Some r -> wellKept code r.
Proof.
  intros E; apply lookup_In in E.
  destruct (storeOk_storeAfter history) as [_ Hf].
  rewrite Forall_forall in Hf; apply (Hf _ E).
Qed.

Lemma numbered_nth (s i : nat) (vs : list FormulaVersion)
    (v : FormulaVersion) :
  numbered s vs -> nth_error vs i = Some v ->
  v_version v = versionNumber (s + i).
Proof.
  unfold numbered; revert s i; induction vs as [|w vs IH]; intros s [|i];
    cbn [nth_error map List.length seq]; try discriminate.
  - intros [= H _] [= <-]; now rewrite Nat.add_0_r.
  - intros [= _ H] Hi; rewrite (IH (S s) i H Hi); f_equal; lia.
Qed.

(** Every record of the store, after any history of calls, is kept under
    its own code and has at least one version; its versions are
    numbered 1, 2, 3, ... in the order in which they were saved (a number
    that has reached 2^53 stays there, where adding 1 to it changes
    nothing), [currentVersion] is the number of the last one, and every
    version carries the code of the record and the id [code-vN]. *)
Theorem stored_versions_are_numbered_from_one :
  forall (history : list Call) (code : string),
    match getFormula code (storeAfter history) with
    | None => True
    | Some r =>
        r_scentCode r = code
        /\ versions r <> []
        /\ currentVersion r = Z.min (len (versions r)) (2 ^ 53)
        /\ forall (i : nat) (v : FormulaVersion),
             nth_error (versions r) i = Some v ->
             v_version v = Z.min (Z.of_nat i + 1) (2 ^ 53)
             /\ v_scentCode v = code
             /\ v_id v = (code ++ "-v" ++ showZ (v_version v))%string
    end.
Proof.
  intros history code.
  destruct (getFormula code (storeAfter history)) as [r|] eqn:E; [|exact I].
  destruct (stored_wellKept _ _ _ E) as (Hc & Hne & Hnum & Hcur & Hids).
  repeat split; auto.
  - rewrite (numbered_nth 1 i _ v Hnum H); unfold versionNumber; f_equal; lia.
  - rewrite Forall_forall in Hids; apply Hids, (nth_error_In _ _ H).
  - rewrite Forall_forall in Hids; apply Hids, (nth_error_In _ _ H).
Qed.

Lemma find_numbered (k : Z) (s : nat) (vs : list FormulaVersion) :
  numbered s vs ->
  find (fun v => v_version v =? k) vs
  = if (0 <? len vs) && (versionNumber s <=? k)
       && (k <=? versionNumber (s + List.length vs - 1))
    then nth_error vs (Z.to_nat (k - Z.of_nat s))
    else None.
Proof.
  unfold numbered, len; revert s; induction vs as [|v vs IH]; intros s;
    [reflexivity|].
  cbn [map List.length seq find]; intros [= Hv Hn].
  specialize (IH (S s) Hn); rewrite IH, Hv; clear IH Hv Hn.
  unfold versionNumber.
  set (B := 2 ^ 53) in *; assert (HB : 0 < B) by (subst B; lia).
  set (n := List.length vs).
  destruct (Z.eqb_spec (Z.min (Z.of_nat s) B) k) as [E|E].
  - destruct (Z.ltb_spec 0 (Z.of_nat (S n))); [|lia].
    destruct (Z.leb_spec (Z.min (Z.of_nat s) B) k); [|lia].
    destruct (Z.leb_spec k (Z.min (Z.of_nat (s + S n - 1)) B)); [|lia].
    cbn [andb]; replace (Z.to_nat (k - Z.of_nat s)) with 0%nat by lia.
    reflexivity.
  - destruct (Z.ltb_spec 0 (Z.of_nat n));
      destruct (Z.leb_spec (Z.min (Z.of_nat (S s)) B) k);
      destruct (Z.leb_spec k (Z.min (Z.of_nat (S s + n - 1)) B));
      destruct (Z.ltb_spec 0 (Z.of_nat (S n)));
      destruct (Z.leb_spec (Z.min (Z.of_nat s) B) k);
      destruct (Z.leb_spec k (Z.min (Z.of_nat (s + S n - 1)) B));
      cbn [andb]; try reflexivity; try lia.
    replace (Z.to_nat (k - Z.of_nat s))
      with (S (Z.to_nat (k - Z.of_nat (S s)))) by lia.
    reflexivity.
Qed.

Lemma numbered_range (s : nat) (vs : list FormulaVersion) :
  (1 <= s)%nat -> numbered s vs ->
  Forall (fun v => 0 < v_version v <= 2 ^ 53) vs.
Proof.
  intros Hs Hn; apply Forall_forall; intros v Hv.
  apply In_nth_error in Hv as [i Hi].
  rewrite (numbered_nth s i vs v Hn Hi); unfold versionNumber; lia.
Qed.

(** On numbered versions, the search by [v.version === x] finds what a
    search for the whole number that [x] holds finds, and nothing when
    [x] holds none. *)
Lemma find_same (x : float) (s : nat) (vs : list FormulaVersion) :
  (1 <= s)%nat -> numbered s vs ->
  find (fun v => sameNumber (v_version v) x) vs
  = match wholeOf x with
    | Some k => find (fun v => v_version v =? k) vs
    | None => None
    end.
Proof.
  intros Hs Hn; pose proof (numbered_range s vs Hs Hn) as Hr.
  clear Hn; induction Hr as [|v vs Hv _ IH]; cbn [find];
    [now destruct (wholeOf x)|].
  rewrite IH; pose proof (sameNumber_spec (v_version v) x Hv) as Hsame.
  destruct (wholeOf x) as [k|].
  - destruct (Z.eqb_spec (v_version v) k) as [Ek|Hne].
    + now rewrite (proj2 Hsame (f_equal Some (eq_sym Ek))).
    + destruct (sameNumber (v_version v) x); [|reflexivity].
      exfalso; apply Hne; destruct Hsame as [H _].
      specialize (H eq_refl); congruence.
  - destruct (sameNumber (v_version v) x); [|reflexivity].
    destruct Hsame as [H _]; specialize (H eq_refl); discriminate.
Qed.

(** The search by the double of a whole number from 1 to [2^53]. *)
Lemma getFormulaVersion_number (code : string) (n : Z) (store : Store)
    (r : FormulaRecord) :
  adapter_get code store = Some r -> numbered 1 (versions r) ->
  0 < n <= 2 ^ 53 ->
  getFormulaVersion code (Some (Js.ofZ n)) store
  = find (fun v => v_version v =? n) (versions r).
Proof.
  intros E Hnum Hn; unfold getFormulaVersion; rewrite E.
  assert (Hw : wholeOf (Js.ofZ n) = Some n) by (apply wholeOf_number; lia).
  rewrite (truthy_whole _ _ Hw).
  destruct (Z.eqb_spec n 0); [lia|]; cbn [negb].
  now rewrite (find_same _ 1 _ (le_n 1) Hnum), Hw.
Qed.

Lemma last_map_Some {A} (l : list A) (x : A) :
  last (map Some (l ++ [x])) None = Some x.
Proof.
  induction l as [|y l IH]; [reflexivity|].
  cbn [app map]; cbn [last]; fold (last (map Some (l ++ [x])) None).
  rewrite IH; destruct (map Some (l ++ [x])) eqn:E; [|reflexivity].
  now destruct l.
Qed.

(** The versions that the code of [opts] has in the store. *)
Definition versionsBefore (opts : SaveOptions) (store : Store)
    : list FormulaVersion :=
  match getFormula (s_scentCode opts) store with
  | Some e => versions e
  | None => []
  end.

Lemma save_record (history : list Call) (opts : SaveOptions) (now : Z) :
  exists r,
    snd (saveFormula opts now (storeAfter history))
    = mapSet (s_scentCode opts) r (storeAfter history)
    /\ versions r
       = versionsBefore opts (storeAfter history)
         ++ [fst (saveFormula opts now (storeAfter history))]
    /\ currentVersion r
       = v_version (fst (saveFormula opts now (storeAfter history)))
    /\ r_updatedAt r = now
    /\ numbered 1 (versions r).
Proof.
  pose proof (storeOk_save opts now _ (storeOk_storeAfter history)) as Hok.
  set (store := storeAfter history) in *.
  set (code := s_scentCode opts) in *.
  assert (Hkey : exists r,
             snd (saveFormula opts now store) = mapSet code r store
             /\ versions r
                = versionsBefore opts store
                  ++ [fst (saveFormula opts now store)]
             /\ currentVersion r = v_version (fst (saveFormula opts now store))
             /\ r_updatedAt r = now).
  { unfold versionsBefore, getFormula, saveFormula, adapter_save,
      adapter_get; cbn [fst snd].
    fold code.
    destruct (lookup code store) as [e|] eqn:E.
    - destruct (stored_wellKept history code e E) as (Hc & _).
      eexists; cbn [r_scentCode]; rewrite Hc.
      repeat split; reflexivity.
    - eexists; cbn [r_scentCode]; repeat split; reflexivity. }
  destruct Hkey as (r & Hs & Hv & Hcur & Hup).
  exists r; repeat split; auto.
  assert (Hget : lookup code (snd (saveFormula opts now store)) = Some r).
  { rewrite Hs; apply lookup_mapSet_same. }
  destruct Hok as [_ Hf]; rewrite Forall_forall in Hf.
  apply (Hf (code, r)), lookup_In, Hget.
Qed.

Lemma save_latest (history : list Call) (opts : SaveOptions) (now : Z) :
  getFormulaVersion (s_scentCode opts) None
    (snd (saveFormula opts now (storeAfter history)))
  = Some (fst (saveFormula opts now (storeAfter history))).
Proof.
  destruct (save_record history opts now) as (r & Hs & Hv & _).
  unfold getFormulaVersion, adapter_get.
  now rewrite Hs, lookup_mapSet_same, Hv, last_map_Some.
Qed.

Lemma save_number (history : list Call) (opts : SaveOptions) (now : Z) :
  v_version (fst (saveFormula opts now (storeAfter history)))
  = Z.min (len (versionsBefore opts (storeAfter history)) + 1) (2 ^ 53).
Proof.
  destruct (save_record history opts now) as (r & Hs & Hv & Hcur & _ & Hnum).
  pose proof (numbered_nth 1
                (List.length (versionsBefore opts (storeAfter history)))
                (versions r)
                (fst (saveFormula opts now (storeAfter history))) Hnum) as H.
  rewrite Hv, nth_error_app2, Nat.sub_diag in H by lia.
  rewrite (H eq_refl); unfold versionNumber, len; f_equal; lia.
Qed.

(** After any history of calls, the version that [saveFormula] returns
    is a draft that holds what was passed, it is the latest version of
    its code and the last of the record's versions, which are otherwise
    those the record had; [currentVersion] is its number, under which it
    is found as long as that number is below 2^53.  The records of all
    other codes are what they were. *)
Theorem saved_version_is_the_latest :
  forall (history : list Call) (opts : SaveOptions) (now : Z),
    let store := storeAfter history in
    let v := fst (saveFormula opts now store) in
    let store' := snd (saveFormula opts now store) in
    let before := versionsBefore opts store in
    getFormulaVersion (s_scentCode opts) None store' = Some v
    /\ (v_version v < 2 ^ 53 ->
        getFormulaVersion (s_scentCode opts) (Some (Js.ofZ (v_version v)))
          store' = Some v)
    /\ (exists r,
          getFormula (s_scentCode opts) store' = Some r
          /\ versions r = before ++ [v]
          /\ currentVersion r = v_version v
          /\ r_updatedAt r = now)
    /\ v_version v = Z.min (len before + 1) (2 ^ 53)
    /\ (v_formula v, v_scentCard v, v_batchSheet v, v_status v)
       = (s_formula opts, s_scentCard opts, s_batchSheet opts, draft)
    /\ (forall c, c <> s_scentCode opts ->
                  getFormula c store' = getFormula c store).
Proof.
  intros history opts now; cbv zeta.
  destruct (save_record history opts now) as (r & Hs & Hv & Hcur & Hup & Hnum).
  pose proof (save_number history opts now) as Hnumber.
  set (store := storeAfter history) in *.
  set (code := s_scentCode opts) in *.
  assert (Hget : lookup code (snd (saveFormula opts now store)) = Some r).
  { rewrite Hs; apply lookup_mapSet_same. }
  split; [apply save_latest|]; split; [|split; [|split; [|split]]].
  - intros Hlt.
    assert (H0 : 0 < v_version (fst (saveFormula opts now store)) <= 2 ^ 53).
    { rewrite Hnumber.
      pose proof (len_nonneg (versionsBefore opts store)); lia. }
    rewrite (getFormulaVersion_number _ _ _ r Hget Hnum H0).
    rewrite (find_numbered _ 1 _ Hnum), Hv.
    rewrite Hnumber in *; unfold len, versionNumber in *.
    rewrite !length_app in *; cbn [List.length] in *.
    set (n := List.length _) in *.
    destruct (Z.ltb_spec 0 (Z.of_nat (n + 1))); [|lia].
    destruct (Z.leb_spec (Z.min (Z.of_nat 1) (2 ^ 53))
                (Z.min (Z.of_nat n + 1) (2 ^ 53))); [|lia].
    destruct (Z.leb_spec (Z.min (Z.of_nat n + 1) (2 ^ 53))
                (Z.min (Z.of_nat (1 + (n + 1) - 1)) (2 ^ 53))); [|lia].
    cbn [andb].
    replace (Z.to_nat (Z.min (Z.of_nat n + 1) (2 ^ 53) - Z.of_nat 1))
      with n by lia.
    subst n; rewrite nth_error_app2, Nat.sub_diag by lia; reflexivity.
  - exists r; auto.
  - exact Hnumber.
  - reflexivity.
  - intros c Hc; unfold getFormula, adapter_get.
    rewrite Hs; apply lookup_mapSet_other, Hc.
Qed.

(** After any history of calls, for a code that has a record: without
    a number, and with one of the numbers that count as false, which
    are 0, -0 and [NaN], [getFormulaVersion] gives the last version,
    whose number is [currentVersion]; with a whole number from 1 to
    [currentVersion] it gives the version of that number, which is the
    one at that place among the versions; with any other number, be it a
    fraction, an infinity or a whole number out of that range, it gives
    nothing.  For a code that has no record it gives nothing. *)
Theorem versions_are_found_by_their_number :
  forall (history : list Call) (code : string) (x : float),
    let store := storeAfter history in
    match getFormula code store with
    | None => getFormulaVersion code (Some x) store = None
              /\ getFormulaVersion code None store = None
    | Some r =>
        (x = 0%float \/ x = (- 0)%float \/ x = nan ->
         getFormulaVersion code (Some x) store
         = getFormulaVersion code None store)
        /\ (exists v, getFormulaVersion code None store = Some v
                      /\ v_version v = currentVersion r)
        /\ (forall n, 1 <= n <= currentVersion r -> x = Js.ofZ n ->
            exists v, getFormulaVersion code (Some x) store = Some v
                      /\ v_version v = n
                      /\ nth_error (versions r) (Z.to_nat (n - 1)) = Some v)
        /\ (x <> 0%float -> x <> (- 0)%float -> x <> nan ->
            (forall n, 1 <= n <= currentVersion r -> x <> Js.ofZ n) ->
            getFormulaVersion code (Some x) store = None)
    end.
Proof.
  intros history code x; cbv zeta.
  destruct (getFormula code (storeAfter history)) as [r|] eqn:E.
  2:{ unfold getFormulaVersion, adapter_get; unfold getFormula, adapter_get in E.
      now rewrite E. }
  destruct (stored_wellKept _ _ _ E) as (Hc & Hne & Hnum & Hcur & Hids).
  assert (Hlen : (0 < List.length (versions r))%nat).
  { destruct (versions r); [congruence | cbn; lia]. }
  assert (Hcur53 : currentVersion r <= 2 ^ 53)
    by (rewrite Hcur; unfold versionNumber; lia).
  unfold getFormula in E.
  split; [|split; [|split]].
  - intros Hx; apply falsy_numbers in Hx.
    unfold getFormulaVersion; now rewrite E, Hx.
  - unfold getFormulaVersion; rewrite E.
    destruct (exists_last Hne) as (vs & v & Hv).
    exists v; rewrite Hv, last_map_Some; split; [reflexivity|].
    rewrite Hcur, Hv, length_app; cbn [List.length].
    rewrite Hv in Hnum.
    rewrite (numbered_nth 1 (List.length vs) _ v Hnum);
      [f_equal; lia|].
    rewrite nth_error_app2, Nat.sub_diag by lia; reflexivity.
  - intros n Hn ->.
    rewrite (getFormulaVersion_number _ _ _ r E Hnum) by lia.
    rewrite (find_numbered _ 1 _ Hnum).
    rewrite Hcur in Hn; unfold len, versionNumber in *.
    set (k := List.length (versions r)) in *.
    destruct (Z.ltb_spec 0 (Z.of_nat k)); [|lia].
    destruct (Z.leb_spec (Z.min (Z.of_nat 1) (2 ^ 53)) n); [|lia].
    destruct (Z.leb_spec n (Z.min (Z.of_nat (1 + k - 1)) (2 ^ 53))); [|lia].
    cbn [andb]; change (Z.of_nat 1) with 1.
    destruct (nth_error (versions r) (Z.to_nat (n - 1))) as [v|] eqn:Ev.
    + exists v; repeat split.
      rewrite (numbered_nth 1 _ _ v Hnum Ev); unfold versionNumber; lia.
    + apply nth_error_None in Ev; fold k in Ev; lia.
  - intros H0 H0' Hnan Hx.
    assert (Ht : truthy x = true).
    { destruct (truthy x) eqn:Et; [reflexivity|].
      apply falsy_numbers in Et as [?|[?|?]]; contradiction. }
    unfold getFormulaVersion; rewrite E, Ht.
    rewrite (find_same _ 1 _ (le_n 1) Hnum).
    destruct (wholeOf x) as [n|] eqn:Ew; [|reflexivity].
    rewrite (find_numbered _ 1 _ Hnum).
    destruct ((0 <? len (versions r)) && (versionNumber 1 <=? n)
              && (n <=? versionNumber (1 + List.length (versions r) - 1)))
      eqn:Ec; [|reflexivity].
    exfalso.
    apply andb_prop in Ec as [Ec E3]; apply andb_prop in Ec as [_ E2].
    apply Z.leb_le in E2, E3.
    assert (Hn : 1 <= n <= currentVersion r).
    { rewrite Hcur; unfold versionNumber in *.
      replace (1 + List.length (versions r) - 1)%nat
        with (List.length (versions r)) in E3 by lia.
      lia. }
    apply (Hx n Hn), wholeOf_ofZ; [lia | exact Ew].
Qed.

(** After any history of calls, [updateFormulaStatus] answers [true]
    exactly when the code has a record and the number is a whole number
    that is one of its version numbers, 1 to [currentVersion]; for a
    fraction, an infinity or [NaN] it answers [false].  When it answers
    [true] it gives that version, the one at that place, the new status
    and the instant of the call as [updatedAt], and the record that
    instant as [updatedAt]; nothing else of the record, no other version
    and no other record is changed.  When it answers [false] the store
    is what it was. *)
Theorem status_update_touches_one_version :
  forall (history : list Call) (code : string) (x : float) (status : Status)
         (now : Z),
    let store := storeAfter history in
    let done := fst (updateFormulaStatus code x status now store) in
    let store' := snd (updateFormulaStatus code x status now store) in
    (done = true <->
     exists r n, getFormula code store = Some r
                 /\ 1 <= n <= currentVersion r /\ x = Js.ofZ n)
    /\ (done = false -> store' = store)
    /\ (forall c, c <> code -> getFormula c store' = getFormula c store)
    /\ (done = true ->
        exists n r r' v,
          x = Js.ofZ n
          /\ getFormula code store = Some r
          /\ getFormula code store' = Some r'
          /\ nth_error (versions r) (Z.to_nat (n - 1)) = Some v
          /\ versions r'
             = replaceNth (Z.to_nat (n - 1)) (touched status now v)
                 (versions r)
          /\ r_updatedAt r' = now
          /\ (r_scentCode r', r_scentName r', r_customerName r',
              r_customerEmail r', currentVersion r', r_createdAt r')
             = (r_scentCode r, r_scentName r, r_customerName r,
                r_customerEmail r, currentVersion r, r_createdAt r)).
Proof.
  intros history code x status now; cbv zeta.
  set (store := storeAfter history).
  unfold getFormula, updateFormulaStatus, adapter_save, adapter_get.
  destruct (lookup code store) as [r|] eqn:E.
  2:{ cbn [fst snd]; repeat split; try discriminate; auto.
      intros (r & n & Hr & _); discriminate. }
  destruct (stored_wellKept history code r E) as (Hc & Hne & Hnum & Hcur & _).
  pose proof (find_same x 1 _ (le_n 1) Hnum) as Hsame.
  pose proof (touchFirst_spec (fun v => sameNumber (v_version v) x) status now
                (versions r)) as Ht.
  assert (Hlen : (0 < List.length (versions r))%nat).
  { destruct (versions r); [congruence | cbn; lia]. }
  assert (Hcur53 : currentVersion r <= 2 ^ 53)
    by (rewrite Hcur; unfold versionNumber; lia).
  assert (Hin : forall n,
             (0 <? len (versions r)) && (versionNumber 1 <=? n)
             && (n <=? versionNumber (1 + List.length (versions r) - 1))
             = true
             <-> 1 <= n <= currentVersion r).
  { intros n; rewrite Hcur; unfold len, versionNumber.
    set (k := List.length (versions r)) in *.
    destruct (Z.ltb_spec 0 (Z.of_nat k)); [|lia].
    destruct (Z.leb_spec (Z.min (Z.of_nat 1) (2 ^ 53)) n);
      destruct (Z.leb_spec n (Z.min (Z.of_nat (1 + k - 1)) (2 ^ 53)));
      cbn [andb]; split; intros; try discriminate; try reflexivity; lia. }
  destruct (find (fun v => sameNumber (v_version v) x) (versions r))
    as [v|] eqn:Ef; cbn [fst snd r_scentCode].
  - destruct (wholeOf x) as [n|] eqn:Ew; [|discriminate].
    pose proof (find_numbered n 1 _ Hnum) as Hfind.
    rewrite <- Hsame in Hfind.
    assert (Hn : 1 <= n <= currentVersion r).
    { apply Hin.
      destruct ((0 <? len (versions r)) && (versionNumber 1 <=? n)
                && (n <=? versionNumber (1 + List.length (versions r) - 1)));
        [reflexivity | discriminate]. }
    assert (Hx : x = Js.ofZ n) by (apply wholeOf_ofZ; [lia | exact Ew]).
    assert (Hcond := proj2 (Hin n) Hn); rewrite Hcond in Hfind.
    change (Z.of_nat 1) with 1 in Hfind.
    destruct Ht as (i & Hi & Hp & Hmin & Ht).
    assert (Hvn : v_version v = n).
    { assert (Hv : 0 < v_version v <= 2 ^ 53).
      { pose proof (numbered_range 1 _ (le_n 1) Hnum) as Hr.
        rewrite Forall_forall in Hr; apply Hr, (nth_error_In _ _ Hi). }
      apply (sameNumber_spec _ _ Hv) in Hp; congruence. }
    assert (Ei : i = Z.to_nat (n - 1)).
    { pose proof (numbered_nth 1 i _ v Hnum Hi) as Hvi.
      unfold versionNumber in Hvi.
      destruct (Nat.lt_ge_cases i (Z.to_nat (n - 1))) as [Hlt|Hge]; [lia|].
      destruct (Nat.eq_dec i (Z.to_nat (n - 1))) as [|Hne']; [assumption|].
      assert (Hj : (Z.to_nat (n - 1) < i)%nat) by lia.
      symmetry in Hfind.
      specialize (Hmin _ _ Hj Hfind); congruence. }
    subst i; rewrite Hc.
    repeat split; auto.
    + exists r, n; auto.
    + discriminate.
    + intros c Hne'.
      rewrite !lookup_mapSet_other by assumption; reflexivity.
    + intros _; exists n, r; eexists; exists v.
      split; [exact Hx|].
      split; [reflexivity|]; split; [apply lookup_mapSet_same|].
      split; [exact Hi|]; split; [exact Ht|]; split; [reflexivity|].
      cbn [r_scentCode r_scentName r_customerName r_customerEmail
           currentVersion r_createdAt]; now rewrite Hc.
  - repeat split; try discriminate; auto.
    intros (r' & n & [= <-] & Hn & ->).
    rewrite (wholeOf_number n) in Hsame by lia.
    rewrite (find_numbered n 1 _ Hnum), (proj2 (Hin n) Hn) in Hsame.
    symmetry in Hsame; apply nth_error_None in Hsame.
    rewrite Hcur in Hn; unfold versionNumber in Hn; lia.
Qed.

(** Deleting a code answers whether it had a record, removes that
    record with all its versions and leaves every other record as it
    was.  A save of the same code that follows starts the numbering
    again: it makes version 1 with the id [code-v1], which a version of
    the deleted record carried before. *)
Theorem deleted_code_starts_again_at_version_one :
  forall (store : Store) (opts : SaveOptions) (now : Z) (n : option float),
    let code := s_scentCode opts in
    let existed := fst (deleteFormula code store) in
    let store' := snd (deleteFormula code store) in
    let v := fst (saveFormula opts now store') in
    (existed = true <-> getFormula code store <> None)
    /\ getFormula code store' = None
    /\ getFormulaVersion code n store' = None
    /\ (forall c, c <> code -> getFormula c store' = getFormula c store)
    /\ v_version v = 1
    /\ v_id v = (code ++ "-v1")%string
    /\ option_map versions
         (getFormula code (snd (saveFormula opts now store')))
       = Some [v].
Proof.
  intros store opts now n; cbv zeta.
  unfold getFormula, deleteFormula, adapter_delete, mapDelete,
    getFormulaVersion, saveFormula, adapter_get, adapter_save;
    cbn [fst snd].
  rewrite !lookup_filter_same; cbn [fst snd r_scentCode].
  rewrite lookup_mapSet_same; cbn [option_map versions].
  repeat split; auto.
  - intros H; apply existsb_exists in H as ([k r] & Hin & Hk).
    cbn [fst] in Hk; apply String.eqb_eq in Hk; subst k.
    clear - Hin; induction store as [|[k' w] store IH]; [destruct Hin|].
    cbn [lookup]; destruct (String.eqb_spec (s_scentCode opts) k');
      [discriminate|].
    destruct Hin as [[= -> ->]|Hin]; [congruence | now apply IH].
  - intros H.
    destruct (lookup (s_scentCode opts) store) as [r|] eqn:E; [|congruence].
    apply lookup_In in E; apply existsb_exists.
    exists (s_scentCode opts, r); split; [exact E|].
    apply String.eqb_refl.
  - intros c Hc; now apply lookup_filter_other.
Qed.

Lemma StronglySorted_skipn {A} (R : A -> A -> Prop) (n : nat) (l : list A) :
  StronglySorted R l -> StronglySorted R (skipn n l).
Proof.
  intros H; revert n; induction H as [|x l Hs IH Hx]; intros [|n];
    cbn [skipn]; try constructor; auto.
Qed.

Lemma In_slice {A} (a b : float) (l : list A) (x : A) :
  In x (slice a b l) -> In x l.
Proof.
  unfold slice; intros H; apply In_firstn in H.
  rewrite <- (firstn_skipn
                (Z.to_nat (sliceIndex (len l) (toIntegerOrInfinity a))) l).
  apply in_or_app; now right.
Qed.

Lemma NoDup_map_slice {A B} (g : A -> B) (a b : float) (l : list A) :
  NoDup (map g l) -> NoDup (map g (slice a b l)).
Proof.
  unfold slice; intros H.
  set (k := Z.to_nat (sliceIndex (len l) (toIntegerOrInfinity a))).
  set (n := Z.to_nat _).
  rewrite <- (firstn_skipn k l), map_app in H.
  apply NoDup_app_remove_l in H.
  rewrite <- (firstn_skipn n (skipn k l)), map_app in H.
  now apply NoDup_app_remove_r in H.
Qed.

Lemma len_slice {A} (a b : float) (l : list A) : len (slice a b l) <= len l.
Proof.
  unfold slice, len; rewrite length_firstn, length_skipn; lia.
Qed.

(** Between whole bounds that are not negative, [slice] gives the
    elements from the first bound up to the second. *)
Lemma slice_whole {A} (o n : Z) (l : list A) :
  0 <= o -> 0 <= n -> o + n <= 2 ^ 53 ->
  slice (Js.ofZ o) (Js.ofZ o + Js.ofZ n) l
  = firstn (Z.to_nat n) (skipn (Z.to_nat o) l).
Proof.
  intros Ho Hn Hs; unfold slice.
  destruct (toIntegerOrInfinity_add o n Ho Hn Hs) as [-> ->].
  unfold sliceIndex, len.
  destruct (Z.ltb_spec o 0); [lia|]; destruct (Z.ltb_spec (o + n) 0); [lia|].
  destruct (Z.le_gt_cases (Z.of_nat (List.length l)) o) as [Hbig|Hsmall].
  - rewrite !skipn_all2 by lia; now rewrite !firstn_nil.
  - rewrite (Z.min_l o) by lia.
    destruct (Z.le_gt_cases (o + n) (Z.of_nat (List.length l))) as [Hin|Hout].
    + rewrite Z.min_l by lia; f_equal; lia.
    + rewrite Z.min_r by lia.
      rewrite !firstn_all2; [reflexivity | |]; rewrite length_skipn; lia.
Qed.

(** A fraction as a bound is cut towards zero: from 0.9 to 0.9 + 1.2
    [slice] gives two elements. *)
Example slice_cuts_fractions :
  slice 0.9 (0.9 + 1.2) ["a"; "b"; "c"] = ["a"; "b"]
  /\ slice nan 1.5 ["a"; "b"; "c"] = ["a"]
  /\ slice (-1) infinity ["a"; "b"; "c"] = ["c"].
Proof. repeat split; vm_compute; reflexivity. Qed.

Lemma updatedBefore_sorted (l : list FormulaRecord) :
  StronglySorted (fun a b => r_updatedAt b <= r_updatedAt a)
    (sortBy updatedBefore l).
Proof.
  assert (Hs : Sorted (fun a b => updatedBefore a b = false)
                 (sortBy updatedBefore l)).
  { apply sortBy_sorted; unfold updatedBefore; intros a b H.
    apply Z.ltb_lt in H; apply Z.ltb_ge; lia. }
  apply Sorted_StronglySorted in Hs.
  - induction Hs as [|x r Hr IH Hx]; constructor; [exact IH|].
    eapply Forall_impl; [|exact Hx].
    unfold updatedBefore; intros b Hb; apply Z.ltb_ge in Hb; lia.
  - unfold updatedBefore; intros a b c Hab Hbc.
    apply Z.ltb_ge in Hab, Hbc; apply Z.ltb_ge; lia.
Qed.

(** After any history of calls there is one order of the records of
    the store, latest update first, of which [listFormulas] gives a run
    of consecutive records, whatever numbers it is called with: records
    of the store, as they are stored and each at most once, latest
    update first.  With an offset [o] and a limit [n] that are whole
    numbers, not negative, it gives the [n] records that follow the
    first [o] of that order, or those that are left of them; so it
    gives no more than [n] records, and from offset 0 with a limit that
    is not below the number of records it gives them all.  Without
    arguments the offset is 0 and the limit 50. *)
Theorem listed_records_are_stored_latest_first :
  forall (history : list Call),
    let store := storeAfter history in
    exists all : list FormulaRecord,
      Permutation all (map snd store)
      /\ StronglySorted (fun a b => r_updatedAt b <= r_updatedAt a) all
      /\ (forall (limit offset : option float),
            let l := listFormulas limit offset store in
            (exists a b : nat, l = firstn b (skipn a all))
            /\ (forall r, In r l -> getFormula (r_scentCode r) store = Some r)
            /\ NoDup (map r_scentCode l)
            /\ StronglySorted (fun a b => r_updatedAt b <= r_updatedAt a) l
            /\ len l <= len store)
      /\ (forall (limit offset : option float) (o n : Z),
            orElse offset 0%float = Js.ofZ o ->
            orElse limit 50%float = Js.ofZ n ->
            0 <= o -> 0 <= n -> o + n <= 2 ^ 53 ->
            let l := listFormulas limit offset store in
            l = firstn (Z.to_nat n) (skipn (Z.to_nat o) all)
            /\ len l <= n
            /\ (o = 0 -> len store <= n -> l = all))
      /\ listFormulas None None store = firstn 50 all.
Proof.
  intros history; cbv zeta.
  destruct (storeOk_storeAfter history) as [Hn Hf].
  set (store := storeAfter history) in *.
  set (all := sortBy updatedBefore (map snd store)).
  assert (Hp : Permutation all (map snd store)) by apply sortBy_perm.
  assert (Hcodes : map r_scentCode (map snd store) = map fst store).
  { rewrite map_map; apply map_ext_in; intros [k r] Hin.
    rewrite Forall_forall in Hf; apply (Hf _ Hin). }
  assert (Hlen : len all = len store).
  { unfold all; now rewrite sortBy_length, len_map. }
  assert (Hwhole : forall (limit offset : option float) (o n : Z),
             orElse offset 0%float = Js.ofZ o ->
             orElse limit 50%float = Js.ofZ n ->
             0 <= o -> 0 <= n -> o + n <= 2 ^ 53 ->
             listFormulas limit offset store
             = firstn (Z.to_nat n) (skipn (Z.to_nat o) all)).
  { intros limit offset o n Eo En Ho Hn' Hs.
    unfold listFormulas, adapter_list; cbv zeta; fold all.
    rewrite Eo, En; now apply slice_whole. }
  exists all.
  split; [exact Hp|]; split; [apply updatedBefore_sorted|].
  split; [|split].
  - intros limit offset; cbv zeta.
    unfold listFormulas, adapter_list; cbv zeta; fold all.
    split; [|split; [|split; [|split]]].
    + unfold slice; eauto.
    + intros r Hr; apply In_slice in Hr.
      apply (Permutation_in _ Hp) in Hr.
      apply in_map_iff in Hr as ([k r'] & Er & Hin); cbn [snd] in Er; subst r'.
      rewrite Forall_forall in Hf; destruct (Hf _ Hin) as (Hc & _).
      cbn [fst snd] in Hc; rewrite Hc.
      now apply lookup_NoDup.
    + apply NoDup_map_slice.
      apply (Permutation_NoDup (l := map fst store)); [|exact Hn].
      rewrite <- Hcodes; apply Permutation_map, Permutation_sym, Hp.
    + unfold slice; apply StronglySorted_firstn, StronglySorted_skipn.
      apply updatedBefore_sorted.
    + rewrite <- Hlen; apply len_slice.
  - intros limit offset o n Eo En Ho Hn' Hs; cbv zeta.
    rewrite (Hwhole limit offset o n Eo En Ho Hn' Hs).
    split; [reflexivity|]; split.
    + unfold len; rewrite length_firstn; lia.
    + intros -> Hall; cbn [Z.to_nat skipn].
      apply firstn_all2; unfold len in *; lia.
  - apply (Hwhole None None 0 50); try reflexivity; lia.
Qed.

(** * The experience text (lib/scentExperienceService.ts) *)

Record ScentExperience :=
  { character : string;
    projection : string;
    evolution : string;
    craftNote : string }.

Record ExperienceOptions :=
  { x_dominant : string;
    x_secondary : string;
    x_accent : string;
    x_intensity : option string;
    x_occasion : option string }.

Definition buildScentExperience (opts : ExperienceOptions) : ScentExperience :=
  let projection :=
    if optIs (x_intensity opts) "Leave a trail"
    then "Strong projection with noticeable sillage"
    else if optIs (x_intensity opts) "Subtle aura"
         then "Soft, close-to-skin aura"
         else "Balanced projection" in
  let evolution :=
    if optIs (x_occasion opts) "Special occasion"
    then "Opens confidently, deepens with warmth and character over time"
    else "Smooth opening with a controlled, wearable evolution" in
  {| character :=
       (x_dominant opts ++ " structure with " ++ x_accent opts
        ++ " nuances")%string;
     projection := projection;
     evolution := evolution;
     craftNote :=
       "Composed using a structured perfumery system focused on balance, wearability, and material hierarchy." |}.

(** * The workflow (lib/scentWorkflow.ts)

    Formula, experience text, scent card, batch sheet, metadata, save:
    one call runs these steps in this order.  The steps of one call are
    taken here without a call of another request in between. *)

Inductive DeliveryTier := express | signature | atelier.

Record CustomScentResult :=
  { cs_formula : Formula;            (* formula *)
    experience : ScentExperience;
    cs_scentCard : ScentCard;        (* scentCard *)
    cs_batchSheet : BatchSheet;      (* batchSheet *)
    meta : Global;
    savedVersion : option FormulaVersion }.

Record WorkflowOptions :=
  { w_dominant : string;
    w_secondary : string;
    w_accent : string;
    w_scentCode : string;
    w_scentName : option string;
    w_customerName : option string;
    w_customerEmail : option string;
    w_deliveryTier : option DeliveryTier;
    w_concentration : option string;
    w_occasion : option string;
    w_intensity : option string;
    w_batchSizeMl : option float;
    w_save : option bool }.

(** What the modules keep between calls: the slot [_lastMeta] of the
    engine and the [Map] of the store. *)
Record World :=
  { lastMeta : Global;
    stored : Store }.

Definition engineOptions (opts : WorkflowOptions) : Options :=
  {| o_dominant := w_dominant opts;
     o_secondary := w_secondary opts;
     o_accent := w_accent opts;
     o_scentCode := w_scentCode opts;
     o_concentration := w_concentration opts;
     o_occasion := w_occasion opts;
     o_intensity := w_intensity opts |}.

(** The object that step 6 passes to [saveFormula]. *)
Definition saveOptionsOf (opts : WorkflowOptions)
    (formulaResult : FormulaResult) (scentCard : ScentCard)
    (batchSheet : BatchSheet) : SaveOptions :=
  {| s_scentCode := w_scentCode opts;
     s_scentName := w_scentName opts;
     s_customerName := w_customerName opts;
     s_customerEmail := w_customerEmail opts;
     s_formula := formulaResult;
     s_scentCard := scentCard;
     s_batchSheet := batchSheet;
     s_input :=
       {| i_dominant := w_dominant opts;
          i_secondary := w_secondary opts;
          i_accent := w_accent opts;
          i_concentration := w_concentration opts;
          i_occasion := w_occasion opts;
          i_intensity := w_intensity opts |};
     s_notes := None |}.

Section Workflow.
Variable show : float -> string.

(** [sheetTime] and [saveTime] are the instants that the clock gives to
    [generateBatchSheet] and to [saveFormula]. *)
Definition createCustomScent (opts : WorkflowOptions) (sheetTime saveTime : Z)
    (world : World) : CustomScentResult * World :=
  let deliveryTier := orElse (w_deliveryTier opts) signature in
  let batchSizeMl := orElse (w_batchSizeMl opts) BATCH_SIZES_standard in
  let save := orElse (w_save opts) true in
  let '(formulaResult, lastMeta') :=
    generateSmartFormula (engineOptions opts) (lastMeta world) in
  let experience :=
    buildScentExperience
      {| x_dominant := w_dominant opts;
         x_secondary := w_secondary opts;
         x_accent := w_accent opts;
         x_intensity := w_intensity opts;
         x_occasion := w_occasion opts |} in
  let scentCard :=
    generateScentCard
      {| c_dominant := w_dominant opts;
         c_secondary := w_secondary opts;
         c_accent := w_accent opts;
         c_concentration := w_concentration opts;
         c_occasion := w_occasion opts;
         c_intensity := w_intensity opts;
         c_scentName := w_scentName opts;
         c_formula := Some formulaResult |} in
  let batchSheet :=
    generateBatchSheet show
      {| b_formula := formulaResult;
         b_scentCode := w_scentCode opts;
         b_concentration := orElse (w_concentration opts) "Eau de Parfum";
         b_batchSizeMl := batchSizeMl;
         b_version := None |}
      sheetTime in
  let meta := getFormulaMetadata lastMeta' in
  let '(savedVersion, stored') :=
    if save
    then
      let '(v, s) :=
        saveFormula (saveOptionsOf opts formulaResult scentCard batchSheet)
          saveTime (stored world) in
      (Some v, s)
    else (None, stored world) in
  ({| cs_formula := formula formulaResult;
      experience := experience;
      cs_scentCard := scentCard;
      cs_batchSheet := batchSheet;
      meta := meta;
      savedVersion := savedVersion |},
   {| lastMeta := lastMeta'; stored := stored' |}).

End Workflow.

(** ** Properties of the workflow *)

(** The names that one call looks up in the tables of the engine, the
    card and the sheet are none of the names that every object
    inherits. *)
Definition plainWorkflow (opts : WorkflowOptions) : Prop :=
  forallb ownName
    [ w_dominant opts; w_secondary opts; w_accent opts;
      orElse (w_concentration opts) "Eau de Parfum";
      orElse (w_occasion opts) "Everyday signature";
      orElse (w_intensity opts) "Moderate" ]
  = true.

Definition metaOf (r : FormulaResult) : Meta :=
  {| m_steeping := steeping r;
     m_ingredientCount := ingredientCount r;
     m_ifraWarnings := ifraWarnings r;
     m_perfumerNotes := perfumerNotes r |}.

(** Unless it is told not to save, a call that follows any history of
    the store returns a saved version that holds the very formula, card
    and sheet of its result, that is a draft, and that is the latest
    version of its code in the store afterwards.  The metadata of the
    result, and the slot of the engine afterwards, are those of that
    formula, and the sheet is the sheet of that formula, for 50 ml of Eau
    de Parfum where no size and no concentration is given. *)
Theorem workflow_saves_what_it_returns :
  forall (show : float -> string) (history : list Call)
         (opts : WorkflowOptions) (sheetTime saveTime : Z) (g : Global),
    plainWorkflow opts ->
    w_save opts <> Some false ->
    let world := {| lastMeta := g; stored := storeAfter history |} in
    let res := fst (createCustomScent show opts sheetTime saveTime world) in
    let world' := snd (createCustomScent show opts sheetTime saveTime world) in
    let r := fst (generateSmartFormula (engineOptions opts) g) in
    exists v,
      savedVersion res = Some v
      /\ v_formula v = r
      /\ cs_formula res = formula r
      /\ v_scentCard v = cs_scentCard res
      /\ v_batchSheet v = cs_batchSheet res
      /\ v_status v = draft
      /\ getFormulaVersion (w_scentCode opts) None (stored world') = Some v
      /\ meta res = Some (metaOf r)
      /\ lastMeta world' = Some (metaOf r)
      /\ cs_batchSheet res
         = generateBatchSheet show
             (batchOptions r (w_scentCode opts)
                (orElse (w_concentration opts) "Eau de Parfum")
                (orElse (w_batchSizeMl opts) BATCH_SIZES_standard))
             sheetTime.
Proof.
  intros show history opts sheetTime saveTime g _ Hsave; cbv zeta.
  unfold createCustomScent.
  assert (Es : orElse (w_save opts) true = true).
  { destruct (w_save opts) as [[|]|]; [reflexivity | congruence | reflexivity]. }
  assert (Hpair : forall X : FormulaVersion * Store,
             (let '(v, s) := X in (Some v, s)) = (Some (fst X), snd X))
    by (intros [? ?]; reflexivity).
  unfold generateSmartFormula, generateLocalFormula, getFormulaMetadata.
  cbv iota zeta beta; rewrite Es, Hpair.
  cbn [fst snd savedVersion cs_formula cs_scentCard cs_batchSheet meta
       lastMeta stored].
  eexists; split; [reflexivity|].
  split; [reflexivity|]; split; [reflexivity|]; split; [reflexivity|].
  split; [reflexivity|]; split; [reflexivity|].
  split; [|repeat split].
  match goal with
  | |- context [saveFormula ?o saveTime (storeAfter history)] =>
      exact (save_latest history o saveTime)
  end.
Qed.

Definition workflowOptions (d s a code : string) : WorkflowOptions :=
  {| w_dominant := d; w_secondary := s; w_accent := a; w_scentCode := code;
     w_scentName := None; w_customerName := None; w_customerEmail := None;
     w_deliveryTier := None; w_concentration := None; w_occasion := None;
     w_intensity := None; w_batchSizeMl := None; w_save := None |}.

(** The save that a first run of the workflow makes for the request,
    at the instant 0. *)
Definition firstRun (opts : WorkflowOptions) : Call :=
  let res :=
    fst (createCustomScent showWhole opts 0 0
           {| lastMeta := None; stored := [] |}) in
  Save (saveOptionsOf opts
          (fst (generateSmartFormula (engineOptions opts) None))
          (cs_scentCard res) (cs_batchSheet res))
    0.

(** The request green / aromatic / citrus, run a second time. *)
Lemma workflow_example :
  let opts := workflowOptions "green" "aromatic" "citrus" "GAC-001" in
  let history := [firstRun opts] in
  let world := {| lastMeta := None; stored := storeAfter history |} in
  let res := fst (createCustomScent showWhole opts 1 2 world) in
  let world' := snd (createCustomScent showWhole opts 1 2 world) in
  let r := fst (generateSmartFormula (engineOptions opts) None) in
  exists v,
    savedVersion res = Some v
    /\ v_formula v = r
    /\ cs_formula res = formula r
    /\ v_scentCard v = cs_scentCard res
    /\ v_batchSheet v = cs_batchSheet res
    /\ v_status v = draft
    /\ getFormulaVersion (w_scentCode opts) None (stored world') = Some v
    /\ meta res = Some (metaOf r)
    /\ lastMeta world' = Some (metaOf r)
    /\ cs_batchSheet res
       = generateBatchSheet showWhole
           (batchOptions r (w_scentCode opts)
              (orElse (w_concentration opts) "Eau de Parfum")
              (orElse (w_batchSizeMl opts) BATCH_SIZES_standard))
           1.
Proof.
  apply (workflow_saves_what_it_returns showWhole
           [firstRun (workflowOptions "green" "aromatic" "citrus" "GAC-001")]
           (workflowOptions "green" "aromatic" "citrus" "GAC-001") 1 2 None);
    [reflexivity | discriminate].
Defined.

(** The sheet that the workflow makes always says version 1, also the
    sheet that is stored in a saved version whose own number is 2, 3,
    ...: after any history of the store the saved version has the number
    that follows the versions its code has, and its sheet says 1.  A
    call that is told not to save returns no version and leaves the store
    as it was. *)
Theorem workflow_sheet_always_says_version_one :
  forall (show : float -> string) (history : list Call)
         (opts : WorkflowOptions) (sheetTime saveTime : Z) (g : Global),
    plainWorkflow opts ->
    let world := {| lastMeta := g; stored := storeAfter history |} in
    let res := fst (createCustomScent show opts sheetTime saveTime world) in
    let world' := snd (createCustomScent show opts sheetTime saveTime world) in
    let before :=
      match getFormula (w_scentCode opts) (storeAfter history) with
      | Some e => versions e
      | None => []
      end in
    version (cs_batchSheet res) = 1
    /\ (w_save opts <> Some false ->
        exists v,
          savedVersion res = Some v
          /\ v_version v = Z.min (len before + 1) (2 ^ 53)
          /\ version (v_batchSheet v) = 1)
    /\ (w_save opts = Some false ->
        savedVersion res = None /\ stored world' = storeAfter history).
Proof.
  intros show history opts sheetTime saveTime g _; cbv zeta.
  unfold createCustomScent.
  assert (Hpair : forall X : FormulaVersion * Store,
             (let '(v, s) := X in (Some v, s)) = (Some (fst X), snd X))
    by (intros [? ?]; reflexivity).
  unfold generateSmartFormula, generateLocalFormula, getFormulaMetadata.
  cbv iota zeta beta; rewrite Hpair.
  split; [|split].
  - destruct (orElse (w_save opts) true); reflexivity.
  - intros Hsave.
    assert (Es : orElse (w_save opts) true = true).
    { destruct (w_save opts) as [[|]|];
        [reflexivity | congruence | reflexivity]. }
    rewrite Es; cbn [fst snd savedVersion stored].
    eexists; split; [reflexivity|]; split; [|reflexivity].
    match goal with
    | |- context [saveFormula ?o saveTime (storeAfter history)] =>
        exact (save_number history o saveTime)
    end.
  - intros ->; cbn [orElse fst snd savedVersion stored]; split; reflexivity.
Qed.

Lemma workflow_sheet_example :
  let opts := workflowOptions "green" "aromatic" "citrus" "GAC-001" in
  let history := [firstRun opts] in
  let world := {| lastMeta := None; stored := storeAfter history |} in
  let res := fst (createCustomScent showWhole opts 1 2 world) in
  let world' := snd (createCustomScent showWhole opts 1 2 world) in
  let before :=
    match getFormula (w_scentCode opts) (storeAfter history) with
    | Some e => versions e
    | None => []
    end in
  version (cs_batchSheet res) = 1
  /\ (w_save opts <> Some false ->
      exists v,
        savedVersion res = Some v
        /\ v_version v = Z.min (len before + 1) (2 ^ 53)
        /\ version (v_batchSheet v) = 1)
  /\ (w_save opts = Some false ->
      savedVersion res = None /\ stored world' = storeAfter history).
Proof.
  apply (workflow_sheet_always_says_version_one showWhole
           [firstRun (workflowOptions "green" "aromatic" "citrus" "GAC-001")]
           (workflowOptions "green" "aromatic" "citrus" "GAC-001") 1 2 None).
  reflexivity.
Defined.
